(** * RegionCFG restructuring: a shallow embedding of RegionCFGTreeImpl.h

    The development follows the source file
    [include/revng-c/RestructureCFGPass/RegionCFGTreeImpl.h]:
    the AST post-passes ([createSequence], [simplifyDummies],
    [simplifyAtomicSequence]), the graph primitives of [RegionCFG]
    ([cloneNode], [removeNode], [purgeDummies], [purgeVirtualSink]), and the
    two restructuring passes [untangle] and [inflate].

    Pointers to nodes are modelled by natural-number identities; a failed
    [revng_assert], a [revng_abort] and a dereference of a dangling pointer
    or of a past-the-end iterator are all modelled by [None]. *)

From Stdlib Require Import List Bool Arith PeanoNat ZArith Lia Permutation.
Import ListNotations.

Set Warnings "-register-all".

(** ** A small error monad for aborting code *)

Definition bind {A B : Type} (c : option A) (k : A -> option B) : option B :=
  match c with
  | Some a => k a
  | None => None
  end.

Notation "'do' x <- c ; k" := (bind c (fun x => k))
  (at level 60, x name, c at next level, right associativity).

Definition assert (b : bool) : option unit := if b then Some tt else None.

(** * Part I: the AST and its post-passes *)

Module AST.

(** Modelled from the spec: the AST node classes of ASTNode.h, which is not
    among the sources.  "A closed set of variants": [Code] wraps one block
    and an optional single child, [If]/[IfCheck] have then/else children and
    an optional follow child, [Scs] has a body and an optional follow child,
    [Sequence] is an ordered list of children, [Set] has an optional single
    child, [Break] and [Continue] are leaves.  [IfCheck] is the [If] variant
    whose [IsCheck] flag is set ([llvm::dyn_cast<IfNode>] accepts both).  A
    null [ASTNode *] is [None].  [IsEmpty] is the flag read by
    [ASTNode::isEmpty], set for the AST node of an empty (dummy) block. *)
Inductive ASTNode : Type :=
| CodeNode (BB : nat) (IsEmpty : bool) (Successor : option ASTNode)
| IfNode (BB : nat) (IsCheck : bool) (Then Else : option ASTNode)
         (Successor : option ASTNode)
| ScsNode (BB : nat) (Body : option ASTNode) (Successor : option ASTNode)
| SequenceNode (NodeList : list ASTNode)
| SetNode (BB : nat) (Successor : option ASTNode)
| BreakNode
| ContinueNode.

Definition isEmpty (N : ASTNode) : bool :=
  match N with
  | CodeNode _ e _ => e
  | _ => false
  end.

(** [createSequence]: a fresh sequence receives [RootNode]
    ([SequenceNode::addNode] appends one child); every [If] among its nodes
    has its present branches wrapped in turn. *)
Fixpoint createSequence (RootNode : ASTNode) : ASTNode :=
  let wrap (Node : ASTNode) : ASTNode :=
    match Node with
    | IfNode bb c t e s =>
        IfNode bb c (option_map createSequence t) (option_map createSequence e) s
    | _ => Node
    end in
  SequenceNode [wrap RootNode].

(** [simplifyDummies] works in place and returns nothing: the function below
    gives the node as it is after the call.  In a sequence the empty nodes
    are collected and then removed, the others are visited. *)
Fixpoint simplifyDummies (RootNode : ASTNode) : ASTNode :=
  match RootNode with
  | SequenceNode l =>
      SequenceNode
        ((fix visit (nodes : list ASTNode) : list ASTNode :=
            match nodes with
            | [] => []
            | Node :: rest =>
                if isEmpty Node then visit rest
                else simplifyDummies Node :: visit rest
            end) l)
  | IfNode bb c t e s =>
      IfNode bb c (option_map simplifyDummies t) (option_map simplifyDummies e) s
  | _ => RootNode
  end.

(** [simplifyAtomicSequence] both mutates nodes in place (through [setThen],
    [setElse], [setBody]) and returns a pointer.  [simplifyAtomicSequence]
    is the node the returned pointer designates ([None] for [nullptr]);
    [afterSimplifyAtomicSequence] is the argument node itself as the call
    leaves it.  In the many-children case the loop
    [for (ASTNode *Node : Sequence->nodes()) Node = simplifyAtomicSequence(Node);]
    assigns to its own by-value variable, so the list of the sequence keeps
    pointing at the same (mutated) children. *)
Fixpoint simplifyAtomicSequence (RootNode : ASTNode) : option ASTNode :=
  match RootNode with
  | SequenceNode l =>
      match l with
      | [] => None
      | [Node] => simplifyAtomicSequence Node
      | _ => Some (SequenceNode (map afterSimplifyAtomicSequence l))
      end
  | IfNode bb c t e s =>
      Some (IfNode bb c
              (match t with Some n => simplifyAtomicSequence n | None => None end)
              (match e with Some n => simplifyAtomicSequence n | None => None end)
              s)
  | ScsNode bb b s =>
      Some (ScsNode bb
              (match b with Some n => simplifyAtomicSequence n | None => None end)
              s)
  | _ => Some RootNode
  end
with afterSimplifyAtomicSequence (RootNode : ASTNode) : ASTNode :=
  match RootNode with
  | SequenceNode l =>
      match l with
      | [] => RootNode
      | [Node] => SequenceNode [afterSimplifyAtomicSequence Node]
      | _ => SequenceNode (map afterSimplifyAtomicSequence l)
      end
  | IfNode bb c t e s =>
      IfNode bb c
        (match t with Some n => simplifyAtomicSequence n | None => None end)
        (match e with Some n => simplifyAtomicSequence n | None => None end)
        s
  | ScsNode bb b s =>
      ScsNode bb
        (match b with Some n => simplifyAtomicSequence n | None => None end)
        s
  | _ => RootNode
  end.

(** The three post-passes of [generateAst], in order; the result is what
    [AST.setRoot] receives last. *)
Definition postPasses (RootNode : ASTNode) : option ASTNode :=
  simplifyAtomicSequence (simplifyDummies (createSequence RootNode)).

(** Every [Sequence] below (and including) a node has at least two children;
    all child links are followed. *)
Fixpoint sequencesAtLeastTwo (N : ASTNode) : bool :=
  let opt (o : option ASTNode) :=
    match o with Some n => sequencesAtLeastTwo n | None => true end in
  match N with
  | CodeNode _ _ s => opt s
  | IfNode _ _ t e s => opt t && opt e && opt s
  | ScsNode _ b s => opt b && opt s
  | SequenceNode l => (2 <=? length l) && forallb sequencesAtLeastTwo l
  | SetNode _ s => opt s
  | BreakNode | ContinueNode => true
  end.

End AST.

(** * Part II: the region graph *)

Module CFG.

(** Node identities stand for [BasicBlockNode *] pointers. *)
Abbreviation NodeId := nat (only parsing).

(** Modelled from the spec: the node kinds of BasicBlockNode.h (not among the
    sources): "one of Code, Check, Collapsed, ArtificialDummy, Break,
    Continue, Set".  [Empty] is the artificial dummy, the kind for which
    [isEmpty()] answers true. *)
Inductive Type_ : Type :=
| Code | Empty | Break | Continue | SetT | Check | Collapsed.

Definition Type_eqb (a b : Type_) : bool :=
  match a, b with
  | Code, Code | Empty, Empty | Break, Break | Continue, Continue
  | SetT, SetT | Check, Check | Collapsed, Collapsed => true
  | _, _ => false
  end.

(** Modelled from the spec: the class BasicBlockNode (BasicBlockNode.h is not
    among the sources).  A node has an identity, a kind, a weight (an
    [unsigned] instruction count), the block it stands for ([OriginalNode],
    copied to clones, null for artificial nodes) and an ordered successor
    list; for a [Check] node the list is [true target; false target].  The
    predecessor list of the class mirrors the successor lists (every
    [addEdge] and [setTrue]/[setFalse] records both ends), so it is computed
    from them by [predecessors] below instead of being stored twice. *)
Record BasicBlockNode : Type := mkNode {
  ID : NodeId;
  NodeType : Type_;
  Weight : N;
  OriginalNode : option nat;
  Successors : list NodeId
}.

Definition isEmpty (b : BasicBlockNode) : bool := Type_eqb (NodeType b) Empty.
Definition isCheck (b : BasicBlockNode) : bool := Type_eqb (NodeType b) Check.
Definition successor_size (b : BasicBlockNode) : nat := length (Successors b).

(** Modelled from the spec: [getWeight]; "a weight (instruction count, >= 0)"
    and a dummy node is "a zero-weight artificial node". *)
Definition getWeight (b : BasicBlockNode) : N :=
  if isEmpty b then 0%N else Weight b.

Definition setSuccessors (b : BasicBlockNode) (l : list NodeId) : BasicBlockNode :=
  mkNode (ID b) (NodeType b) (Weight b) (OriginalNode b) l.

(** [getTrue]/[getFalse] assert that the node has its two successors. *)
Definition getTrue (b : BasicBlockNode) : option NodeId :=
  match Successors b with [t; _] => Some t | _ => None end.
Definition getFalse (b : BasicBlockNode) : option NodeId :=
  match Successors b with [_; f] => Some f | _ => None end.

(** [setTrue] fills the first slot; [setFalse] fills the second one and needs
    the first one to be there. *)
Definition setTrue (b : BasicBlockNode) (Succ : NodeId) : BasicBlockNode :=
  setSuccessors b (match Successors b with
                   | [] => [Succ]
                   | _ :: rest => Succ :: rest
                   end).
Definition setFalse (b : BasicBlockNode) (Succ : NodeId) : option BasicBlockNode :=
  match Successors b with
  | [] => None
  | t :: _ => Some (setSuccessors b [t; Succ])
  end.

Fixpoint removeFirst (n : NodeId) (l : list NodeId) : list NodeId :=
  match l with
  | [] => []
  | x :: rest => if x =? n then rest else x :: removeFirst n rest
  end.

(** [removeSuccessor] erases one occurrence, [addSuccessor] appends. *)
Definition removeSuccessor (b : BasicBlockNode) (n : NodeId) : BasicBlockNode :=
  setSuccessors b (removeFirst n (Successors b)).
Definition addSuccessor (b : BasicBlockNode) (n : NodeId) : BasicBlockNode :=
  setSuccessors b (Successors b ++ [n]).

(** The graph owns its nodes in a vector ([BlockNodes], in insertion order)
    and knows its entry.  [IDCounter] hands out identities. *)
Record RegionCFG : Type := mkCFG {
  BlockNodes : list BasicBlockNode;
  EntryNode : NodeId;
  IDCounter : nat
}.

Definition setBlockNodes (g : RegionCFG) (l : list BasicBlockNode) : RegionCFG :=
  mkCFG l (EntryNode g) (IDCounter g).

Definition memb (n : NodeId) (l : list NodeId) : bool := existsb (Nat.eqb n) l.

Definition findNode (g : RegionCFG) (n : NodeId) : option BasicBlockNode :=
  find (fun b => ID b =? n) (BlockNodes g).

Definition updateNode (g : RegionCFG) (n : NodeId)
  (f : BasicBlockNode -> BasicBlockNode) : RegionCFG :=
  setBlockNodes g (map (fun b => if ID b =? n then f b else b) (BlockNodes g)).

Definition nodes (g : RegionCFG) : list NodeId := map ID (BlockNodes g).

(** One entry per edge into [n], sources in [BlockNodes] order. *)
Definition predecessors (g : RegionCFG) (n : NodeId) : list NodeId :=
  flat_map (fun b => repeat (ID b) (count_occ Nat.eq_dec (Successors b) n))
           (BlockNodes g).

Definition predecessor_size (g : RegionCFG) (n : NodeId) : nat :=
  length (predecessors g n).

(** A new node never has the identity of anything the graph mentions, nor one
    handed out before. *)
Definition maxId (g : RegionCFG) : nat :=
  fold_right Nat.max 0
    (flat_map (fun b => ID b :: Successors b) (BlockNodes g)).

Definition newID (g : RegionCFG) : NodeId := Nat.max (IDCounter g) (S (maxId g)).

Definition insertNode (g : RegionCFG) (b : BasicBlockNode) : RegionCFG :=
  mkCFG (BlockNodes g ++ [b]) (EntryNode g) (S (ID b)).

(** Modelled from the spec: [addArtificialNode] (declared in RegionCFGTree.h,
    not among the sources) adds a fresh empty node without edges. *)
Definition addArtificialNode (g : RegionCFG) : NodeId * RegionCFG :=
  let d := newID g in
  (d, insertNode g (mkNode d Empty 0%N None [])).

(** [cloneNode]: the copy constructor "does not bring along the successors
    and the predecessors"; kind, weight and original block are copied. *)
Definition cloneNode (g : RegionCFG) (OriginalNode_ : NodeId)
  : option (NodeId * RegionCFG) :=
  do b <- findNode g OriginalNode_;
  let d := newID g in
  Some (d, insertNode g (mkNode d (NodeType b) (Weight b) (OriginalNode b) [])).

Fixpoint eraseFirst (n : NodeId) (l : list BasicBlockNode) : list BasicBlockNode :=
  match l with
  | [] => []
  | b :: rest => if ID b =? n then rest else b :: eraseFirst n rest
  end.

(** [removeNode]: every predecessor drops its edge to the node (once per
    edge), the successors forget it, and the node is erased from
    [BlockNodes].  Removing a node that is not in the graph dereferences a
    dangling pointer. *)
Definition removeNode (g : RegionCFG) (Node : NodeId) : option RegionCFG :=
  do _ <- findNode g Node;
  let g1 :=
    fold_left (fun acc Predecessor =>
                 updateNode acc Predecessor (fun b => removeSuccessor b Node))
              (predecessors g Node) g in
  Some (setBlockNodes g1 (eraseFirst Node (BlockNodes g1))).

(** Modelled from the spec: [addEdge] (Utils.h, not among the sources). *)
Definition addEdge (g : RegionCFG) (Edge : NodeId * NodeId) : RegionCFG :=
  updateNode g (fst Edge) (fun b => addSuccessor b (snd Edge)).

(** Modelled from the spec: [moveEdgeTarget] "repoints one edge, preserving
    the true/false slot if the source is a Check node"; an edge whose target
    is neither slot of its [Check] source is the "malformed true/false
    correlation" failure, and the edge to repoint has to exist. *)
Definition moveEdgeTarget (g : RegionCFG) (Edge : NodeId * NodeId)
  (NewTarget : NodeId) : option RegionCFG :=
  let (Source, Target) := Edge in
  do b <- findNode g Source;
  do b' <-
    (if isCheck b then
       do t <- getTrue b;
       do f <- getFalse b;
       if t =? Target then Some (setTrue b NewTarget)
       else if f =? Target then setFalse b NewTarget
       else None
     else
       do _ <- assert (memb Target (Successors b));
       Some (addSuccessor (removeSuccessor b Target) NewTarget));
  Some (updateNode g Source (fun c => setSuccessors c (Successors b'))).

(** [for (P : Predecessors) if (sel(P)) moveEdgeTarget({P, Target}, NewTarget)]:
    the loop shared by [untangle] and by both branches of [inflate], run
    over a list of predecessors saved beforehand. *)
Fixpoint moveEdges (g : RegionCFG) (Predecessors : list NodeId)
  (Target NewTarget : NodeId) (sel : NodeId -> bool) : option RegionCFG :=
  match Predecessors with
  | [] => Some g
  | Predecessor :: rest =>
      if sel Predecessor then
        do g' <- moveEdgeTarget g (Predecessor, Target) NewTarget;
        moveEdges g' rest Target NewTarget sel
      else moveEdges g rest Target NewTarget sel
  end.

Definition successorsOf (g : RegionCFG) (n : NodeId) : list NodeId :=
  match findNode g n with
  | Some b => Successors b
  | None => []
  end.

(** ** Reachability, and [isDAG]

    Depth-first search along the successor lists; every pop costs one unit
    of fuel and there is one push per edge. *)
Fixpoint dfs (g : RegionCFG) (fuel : nat) (stack seen : list NodeId)
  : list NodeId :=
  match fuel with
  | 0 => seen
  | S k =>
      match stack with
      | [] => seen
      | n :: rest =>
          if memb n seen then dfs g k rest seen
          else dfs g k (successorsOf g n ++ rest) (n :: seen)
      end
  end.

Definition edgeCount (g : RegionCFG) : nat :=
  fold_right (fun b acc => length (Successors b) + acc) 0 (BlockNodes g).

Definition reachable (g : RegionCFG) (n : NodeId) : list NodeId :=
  dfs g (S (edgeCount g)) [n] [].

(** The strongly connected component of [n] among the nodes [R]. *)
Definition sccOf (g : RegionCFG) (R : list NodeId) (n : NodeId) : list NodeId :=
  filter (fun m => memb m (reachable g n) && memb n (reachable g m)) R.

(** [isDAG]: [llvm::scc_iterator] enumerates the strongly connected
    components of what the entry reaches; a component of more than one node
    or a node that is its own successor is a cycle. *)
Definition FoundSCC (g : RegionCFG) : bool :=
  let R := reachable g (EntryNode g) in
  existsb (fun Node =>
             negb (length (sccOf g R Node) =? 1)
             || memb Node (successorsOf g Node)) R.

(** [scc_begin] starts at the node that [EntryNode] points to and reads its
    successors: when that node has been removed from the graph ([removeNode]
    erases the node and leaves [EntryNode] as it was) there is no node to
    read and no answer. *)
Definition isDAG (g : RegionCFG) : option bool :=
  do _ <- findNode g (EntryNode g);
  Some (negb (FoundSCC g)).

(** ** [purgeDummies] and [purgeVirtualSink] *)

Definition isPurgeable (g : RegionCFG) (b : BasicBlockNode) : bool :=
  isEmpty b && (predecessor_size g (ID b) =? 1) && (successor_size b =? 1).

(** The body of the [if] of [purgeDummies] for the node [b]. *)
Definition purgeNode (g : RegionCFG) (b : BasicBlockNode) : option RegionCFG :=
  do Predecessor <- nth_error (predecessors g (ID b)) 0;
  do Successor <- nth_error (Successors b) 0;
  do g1 <- moveEdgeTarget g (Predecessor, ID b) Successor;
  removeNode g1 (ID b).

(** One turn of the [while (AnotherIteration)] loop per unit of fuel: the
    first node of [BlockNodes] that qualifies is purged. *)
Fixpoint purgeDummiesLoop (fuel : nat) (g : RegionCFG)
  (RemovedNodes : list NodeId) : option (RegionCFG * list NodeId) :=
  match fuel with
  | 0 => None
  | S k =>
      match find (isPurgeable g) (BlockNodes g) with
      | Some b =>
          do g' <- purgeNode g b;
          purgeDummiesLoop k g' (RemovedNodes ++ [ID b])
      | None => Some (g, RemovedNodes)
      end
  end.

(** Every turn but the last erases a node, so one more turn than there are
    nodes is always enough. *)
Definition purgeDummies (g : RegionCFG) : option (RegionCFG * list NodeId) :=
  purgeDummiesLoop (S (length (BlockNodes g))) g [].

(** The worklist of [purgeVirtualSink] is a vector used as a stack: its back
    is the head of the list. *)
Fixpoint collectPurgeList (fuel : nat) (g : RegionCFG)
  (WorkList PurgeList : list NodeId) : option (list NodeId) :=
  match fuel with
  | 0 => None
  | S k =>
      match WorkList with
      | [] => Some PurgeList
      | CurrentNode :: rest =>
          do b <- findNode g CurrentNode;
          if isEmpty b then
            collectPurgeList k g (rev (predecessors g CurrentNode) ++ rest)
                             (PurgeList ++ [CurrentNode])
          else collectPurgeList k g rest PurgeList
      end
  end.

Fixpoint removeNodes (g : RegionCFG) (PurgeList : list NodeId)
  : option RegionCFG :=
  match PurgeList with
  | [] => Some g
  | Purge :: rest => do g' <- removeNode g Purge; removeNodes g' rest
  end.

Definition purgeVirtualSink (fuel : nat) (g : RegionCFG) (Sink : NodeId)
  : option RegionCFG :=
  do PurgeList <- collectPurgeList fuel g [Sink] [];
  removeNodes g PurgeList.

(** ** The analyses borrowed from LLVM

    Dominator and post-dominator trees, the reverse post-order traversal and
    the depth-first walks are library code; the passes are written against
    this interface.  Each query names the graph it is computed on, which is
    the graph at the last [recalculate] (the trees are not refreshed by the
    mutations that follow). *)
Class Analyses : Type := {
  (** [DT.recalculate(G); DT.dominates(A, B)] *)
  dominates : RegionCFG -> NodeId -> NodeId -> bool;
  (** [PDT.recalculate(G); PDT[N]->getIDom()->getBlock()], [None] when there
      is no such block *)
  postDominator : RegionCFG -> NodeId -> option NodeId;
  (** [llvm::ReversePostOrderTraversal] from the entry node *)
  RPOT : RegionCFG -> list NodeId;
  (** [llvm::inverse_depth_first(N)] *)
  inverse_depth_first : RegionCFG -> NodeId -> list NodeId;
  (** [findReachableNodes(Source, Target)] of Utils.h, not among the
      sources: the nodes on the paths from [Source] to [Target] *)
  findReachableNodes : RegionCFG -> NodeId -> NodeId -> list NodeId
}.

(** ** Containers *)

(** [std::map] with [NodeId] keys; the newest binding of a key wins. *)
Definition lookup {V : Type} (m : list (NodeId * V)) (k : NodeId) : option V :=
  option_map snd (find (fun p => fst p =? k) m).

Definition setInsert (n : NodeId) (s : list NodeId) : list NodeId :=
  if memb n s then s else s ++ [n].
Definition setErase (n : NodeId) (s : list NodeId) : list NodeId :=
  filter (fun x => negb (x =? n)) s.
Definition setInsertAll (l s : list NodeId) : list NodeId :=
  fold_left (fun acc n => setInsert n acc) l s.
Definition setIntersection (a b : list NodeId) : list NodeId :=
  filter (fun n => memb n b) a.

(** ** [connectContinueNode] *)

(** Modelled from the spec: [addContinue] (declared in RegionCFGTree.h, not
    among the sources) adds a node of the kind "Continue"; like
    [addArtificialNode] it gives the node a fresh identity and no edges. *)
Definition addContinue (g : RegionCFG) : NodeId * RegionCFG :=
  let d := newID g in
  (d, insertNode g (mkNode d Continue 0%N None [])).

(** The second loop of [connectContinueNode], over the sources saved by the
    first one. *)
Fixpoint connectContinues (g : RegionCFG) (ContinueNodes : list NodeId)
  : option RegionCFG :=
  match ContinueNodes with
  | [] => Some g
  | Source :: rest =>
      let c := addContinue g in
      do g' <- moveEdgeTarget (snd c) (Source, EntryNode (snd c)) (fst c);
      connectContinues g' rest
  end.

Definition connectContinueNode (g : RegionCFG) : option RegionCFG :=
  connectContinues g (predecessors g (EntryNode g)).

(** ** [removeNotReachables] *)

(** The test of the scan: a node other than the entry that has no
    predecessor. *)
Definition isDangling (g : RegionCFG) (b : BasicBlockNode) : bool :=
  negb (EntryNode g =? ID b) && (predecessor_size g (ID b) =? 0).

(** One turn of the [while (Difference)] loop per unit of fuel: the first
    node of [BlockNodes] that qualifies is removed and the scan starts
    again. *)
Fixpoint removeNotReachablesLoop (fuel : nat) (g : RegionCFG)
  : option RegionCFG :=
  match fuel with
  | 0 => None
  | S k =>
      match find (isDangling g) (BlockNodes g) with
      | Some It =>
          do g' <- removeNode g (ID It);
          removeNotReachablesLoop k g'
      | None => Some g
      end
  end.

(** Every turn but the last erases a node, so one more turn than there are
    nodes is always enough. *)
Definition removeNotReachables (g : RegionCFG) : option RegionCFG :=
  removeNotReachablesLoop (S (length (BlockNodes g))) g.

(** [unsigned] arithmetic. *)
Definition UINT_MOD : N := (2 ^ 32)%N.
Definition uadd (a b : N) : N := ((a + b) mod UINT_MOD)%N.
Definition umul (a b : N) : N := ((a * b) mod UINT_MOD)%N.

Definition isGreater (Op1 Op2 : N) : bool :=
  let MultiplicativeFactor := 1%N in
  if (umul MultiplicativeFactor Op2 <? Op1)%N then true else false.

Section Passes.
Context {LLVM : Analyses}.

(** [orderNodes]: the nodes of [L] in (reverse) reverse post-order; the
    assertion fails when some node of [L] is not reached from the entry. *)
Definition orderNodes (g : RegionCFG) (L : list NodeId) (DoReverse : bool)
  : option (list NodeId) :=
  let ToOrder := L in
  let order := if DoReverse then rev (RPOT g) else RPOT g in
  let Result := filter (fun RPOTBB => memb RPOTBB ToOrder) order in
  do _ <- assert (length L =? length Result);
  Some Result.

(** ** [cloneUntilExit] *)

(** One unit of fuel per node taken from the worklist (a stack: the head of
    the list is its back). *)
Definition cloneSuccessor (Sink CurrentNode CurrentClone : NodeId)
  (acc : option (RegionCFG * list (NodeId * NodeId) * list NodeId * bool))
  (Successor : NodeId)
  : option (RegionCFG * list (NodeId * NodeId) * list NodeId * bool) :=
  do st <- acc;
  let '(g, CloneMap, WorkList, ConnectSink) := st in
  if Successor =? Sink then Some (g, CloneMap, WorkList, true)
  else
    do r <- match lookup CloneMap Successor with
            | Some SuccessorClone => Some (SuccessorClone, g, CloneMap)
            | None =>
                do c <- cloneNode g Successor;
                Some (fst c, snd c, (Successor, fst c) :: CloneMap)
            end;
    let '(SuccessorClone, g1, CloneMap1) := r in
    do cur <- findNode g1 CurrentNode;
    do clone <- findNode g1 CurrentClone;
    do g2 <-
      (if isCheck clone then
         do _ <- assert (isCheck cur);
         do t <- getTrue cur;
         do f <- getFalse cur;
         if t =? Successor then
           Some (updateNode g1 CurrentClone (fun b => setTrue b SuccessorClone))
         else if f =? Successor then
           do clone' <- setFalse clone SuccessorClone;
           Some (updateNode g1 CurrentClone
                   (fun c => setSuccessors c (Successors clone')))
         else None
       else Some (addEdge g1 (CurrentClone, SuccessorClone)));
    Some (g2, CloneMap1, Successor :: WorkList, ConnectSink).

Fixpoint cloneUntilExitLoop (fuel : nat) (Sink : NodeId) (g : RegionCFG)
  (CloneMap : list (NodeId * NodeId)) (WorkList AlreadyProcessed : list NodeId)
  : option RegionCFG :=
  match fuel with
  | 0 => None
  | S k =>
      match WorkList with
      | [] => Some g
      | CurrentNode :: rest =>
          do _ <- assert (negb (CurrentNode =? Sink));
          if memb CurrentNode AlreadyProcessed then
            cloneUntilExitLoop k Sink g CloneMap rest AlreadyProcessed
          else
            do CurrentClone <- lookup CloneMap CurrentNode;
            do cur <- findNode g CurrentNode;
            do r <- fold_left (cloneSuccessor Sink CurrentNode CurrentClone)
                              (Successors cur)
                              (Some (g, CloneMap, rest, false));
            let '(g1, CloneMap1, WorkList1, ConnectSink) := r in
            let g2 := if ConnectSink then addEdge g1 (CurrentClone, Sink)
                      else g1 in
            cloneUntilExitLoop k Sink g2 CloneMap1 WorkList1
                               (CurrentNode :: AlreadyProcessed)
      end
  end.

Definition cloneUntilExit (fuel : nat) (g : RegionCFG) (Node Sink : NodeId)
  : option (NodeId * RegionCFG) :=
  do c <- cloneNode g Node;
  let (Clone, g1) := c in
  do g2 <- cloneUntilExitLoop fuel Sink g1 [(Node, Clone)] [Node] [];
  Some (Clone, g2).

(** ** [untangle] *)

Definition weightOf (WeightMap : list (NodeId * N)) (n : NodeId) : N :=
  match lookup WeightMap n with Some w => w | None => 0%N end.

Definition sumWeights (WeightMap : list (NodeId * N)) (l : list NodeId) : N :=
  fold_left (fun acc Node => uadd acc (weightOf WeightMap Node)) l 0%N.

(** The nodes "laying between the branches": those reachable from the arm's
    first node up to the postdominator, the postdominator erased. *)
Definition armNodes (g : RegionCFG) (Child PostDominator : NodeId)
  : list NodeId :=
  setErase PostDominator
    (nodup Nat.eq_dec (findReachableNodes g Child PostDominator)).

Definition notDominatedNodes (g : RegionCFG) (Conditional : NodeId)
  (Nodes : list NodeId) : list NodeId :=
  filter (fun Node => negb (dominates g Conditional Node)) Nodes.

(** [getInterestingNodes]: the nodes between the conditional and its
    immediate postdominator that the conditional does not dominate, in
    reversed reverse post-order.  [DT] and [PDT] are the graphs for which
    the dominator and postdominator trees of the object were last
    recalculated; [Candidates] is a set. *)
Definition getInterestingNodes (DT PDT g : RegionCFG) (Cond : NodeId)
  : option (list NodeId) :=
  do PostDominator <- postDominator PDT Cond;
  let Candidates :=
    nodup Nat.eq_dec (findReachableNodes g Cond PostDominator) in
  let NotDominatedCandidates := notDominatedNodes DT Cond Candidates in
  orderNodes g NotDominatedCandidates true.

(** The body of either [if (isGreater ...)] of [untangle]: clone the
    postdominator up to the exits and move onto the clone the edges that
    come from what [Child] dominates, or from the conditional itself.  [DT]
    is the dominator tree of the graph at the start of the iteration. *)
Definition splitPostDominator (fuel : nat) (DT g : RegionCFG)
  (Conditional Child PostDominator Sink : NodeId) : option RegionCFG :=
  do c <- cloneUntilExit fuel g PostDominator Sink;
  let (PostDominatorClone, g1) := c in
  let Predecessors := predecessors g1 PostDominator in
  do g2 <- moveEdges g1 Predecessors PostDominator PostDominatorClone
             (fun Predecessor =>
                dominates DT Child Predecessor || (Predecessor =? Conditional));
  do _ <- assert (0 <? predecessor_size g2 PostDominatorClone);
  Some g2.

(** What one iteration of the [while (!ConditionalNodes.empty())] loop of
    [untangle] computes before it decides. *)
Record UntangleWeights : Type := mkWeights {
  ThenChild : NodeId;
  ElseChild : NodeId;
  ThenNodes : list NodeId;
  ElseNodes : list NodeId;
  NotDominatedThenNodes : list NodeId;
  NotDominatedElseNodes : list NodeId;
  ThenWeight : N;
  ElseWeight : N;
  PostDominatorWeight : N
}.

Definition OneWeight (w : UntangleWeights) : N := uadd (ThenWeight w) (ElseWeight w).
Definition TwoWeight (w : UntangleWeights) : N :=
  uadd (ThenWeight w) (PostDominatorWeight w).
Definition ThreeWeight (w : UntangleWeights) : N :=
  uadd (ElseWeight w) (PostDominatorWeight w).

Definition untangleWeights (WeightMap : list (NodeId * N)) (g : RegionCFG)
  (Conditional PostDominator Sink : NodeId) : option UntangleWeights :=
  do b <- findNode g Conditional;
  do _ <- assert (successor_size b =? 2);
  do ThenChild_ <- nth_error (Successors b) 0;
  do ElseChild_ <- nth_error (Successors b) 1;
  let ThenNodes_ := armNodes g ThenChild_ PostDominator in
  let ElseNodes_ := armNodes g ElseChild_ PostDominator in
  let NotDominatedThen := notDominatedNodes g Conditional ThenNodes_ in
  let NotDominatedElse := notDominatedNodes g Conditional ElseNodes_ in
  let PostDominatorToExit :=
    nodup Nat.eq_dec (findReachableNodes g PostDominator Sink) in
  Some (mkWeights ThenChild_ ElseChild_ ThenNodes_ ElseNodes_
          NotDominatedThen NotDominatedElse
          (sumWeights WeightMap NotDominatedThen)
          (sumWeights WeightMap NotDominatedElse)
          (sumWeights WeightMap PostDominatorToExit)).

(** The two early [continue]s. *)
Definition untangleSkips (w : UntangleWeights) : bool :=
  ((0 <? length (NotDominatedThenNodes w))
   && (0 <? length (NotDominatedElseNodes w)))
  || (0 <? length (setIntersection (ThenNodes w) (ElseNodes w))).

Definition splitsElse (w : UntangleWeights) (PostDominator Sink : NodeId) : bool :=
  isGreater (TwoWeight w) (ThreeWeight w)
  && isGreater (OneWeight w) (ThreeWeight w)
  && negb (PostDominator =? Sink).

Definition splitsThen (w : UntangleWeights) (PostDominator Sink : NodeId) : bool :=
  isGreater (ThreeWeight w) (TwoWeight w)
  && isGreater (OneWeight w) (TwoWeight w)
  && negb (PostDominator =? Sink).

(** One iteration of the loop of [untangle], for the conditional taken from
    the back of [ConditionalNodes]. *)
Definition untangleConditional (fuel : nat) (Sink : NodeId)
  (WeightMap : list (NodeId * N)) (PostDominatorMap : list (NodeId * NodeId))
  (g : RegionCFG) (Conditional : NodeId) : option RegionCFG :=
  do PostDominator <- lookup PostDominatorMap Conditional;
  do w <- untangleWeights WeightMap g Conditional PostDominator Sink;
  if untangleSkips w then Some g
  else
    do g1 <-
      (if splitsElse w PostDominator Sink then
         splitPostDominator fuel g g Conditional (ElseChild w) PostDominator Sink
       else Some g);
    if splitsThen w PostDominator Sink then
      splitPostDominator fuel g g1 Conditional (ThenChild w) PostDominator Sink
    else Some g1.

Fixpoint untangleLoop (fuel : nat) (Sink : NodeId)
  (WeightMap : list (NodeId * N)) (PostDominatorMap : list (NodeId * NodeId))
  (ConditionalNodes : list NodeId) (g : RegionCFG) : option RegionCFG :=
  match ConditionalNodes with
  | [] => Some g
  | Conditional :: rest =>
      do g' <- untangleConditional fuel Sink WeightMap PostDominatorMap g
                 Conditional;
      untangleLoop fuel Sink WeightMap PostDominatorMap rest g'
  end.

(** [PostDominatorMap[Conditional] = PostDom] for every conditional, with the
    assertion that the postdominator is there. *)
Fixpoint computePostDominators (g : RegionCFG) (ConditionalNodes : list NodeId)
  : option (list (NodeId * NodeId)) :=
  match ConditionalNodes with
  | [] => Some []
  | Conditional :: rest =>
      do PostDom <- postDominator g Conditional;
      do m <- computePostDominators g rest;
      Some ((Conditional, PostDom) :: m)
  end.

Definition successorCountIs (k : nat) (g : RegionCFG) : list NodeId :=
  map ID (filter (fun b => successor_size b =? k) (BlockNodes g)).

(** Add the virtual sink and connect every exit to it. *)
Definition addSink (g : RegionCFG) (ExitNodes : list NodeId)
  : NodeId * RegionCFG :=
  let (Sink, g1) := addArtificialNode g in
  (Sink, fold_left (fun acc Exit => addEdge acc (Exit, Sink)) ExitNodes g1).

Definition untangle (fuel : nat) (g : RegionCFG) : option RegionCFG :=
  do IsDAG <- isDAG g;
  do _ <- assert IsDAG;
  let ConditionalNodes := successorCountIs 2 g in
  let ExitNodes := successorCountIs 0 g in
  let (Sink, g1) := addSink g ExitNodes in
  do PostDominatorMap <- computePostDominators g1 ConditionalNodes;
  let WeightMap :=
    map (fun b => (ID b, (getWeight b mod UINT_MOD)%N)) (BlockNodes g1) in
  do Ordered <- orderNodes g1 ConditionalNodes false;
  (* [back()] of the vector is the head of the reversed list *)
  do g2 <- untangleLoop fuel Sink WeightMap PostDominatorMap (rev Ordered) g1;
  purgeVirtualSink fuel g2 Sink.

(** ** [inflate] *)

(** The variables of [inflate] that live across the iterations of its
    loops.  [ConditionalNodes] is a vector used as a stack (the head of the
    list is its back); [ListIt] is the position of the list iterator in
    [RevPostOrderList]. *)
Record CombState : Type := mkComb {
  Graph : RegionCFG;
  ConditionalNodes : list NodeId;
  ConditionalNodesComplete : list NodeId;
  PostDominatorMap : list (NodeId * NodeId);
  NodesEquivalenceClass : list (NodeId * list NodeId);
  CloneToOriginalMap : list (NodeId * NodeId);
  RevPostOrderList : list NodeId;
  WorkList : list NodeId;
  Visited : list NodeId;
  ListIt : nat
}.

Definition withGraph (st : CombState) (g : RegionCFG) : CombState :=
  mkComb g (ConditionalNodes st) (ConditionalNodesComplete st)
    (PostDominatorMap st) (NodesEquivalenceClass st) (CloneToOriginalMap st)
    (RevPostOrderList st) (WorkList st) (Visited st) (ListIt st).

Definition withVisit (st : CombState) (WorkList_ Visited_ : list NodeId)
  (ListIt_ : nat) : CombState :=
  mkComb (Graph st) (ConditionalNodes st) (ConditionalNodesComplete st)
    (PostDominatorMap st) (NodesEquivalenceClass st) (CloneToOriginalMap st)
    (RevPostOrderList st) WorkList_ Visited_ ListIt_.

Definition predecessorsVisited (g : RegionCFG) (Node : NodeId)
  (Visited_ : list NodeId) : bool :=
  forallb (fun Predecessor => memb Predecessor Visited_) (predecessors g Node).

Definition nodeVisited (Node : NodeId) (Visited_ : list NodeId) : bool :=
  memb Node Visited_.

(** [NodesEquivalenceClass[PostDom]]; a key that is not there (the null
    pointer included) gets the empty set. *)
Definition equivalenceClass (st : CombState) (PostDom : option NodeId)
  : list NodeId :=
  match PostDom with
  | Some p => match lookup (NodesEquivalenceClass st) p with
              | Some c => c
              | None => []
              end
  | None => []
  end.

Definition insertAt (i : nat) (n : NodeId) (l : list NodeId) : list NodeId :=
  firstn i l ++ n :: skipn i l.

(** How the first half of an iteration of the worklist loop ends. *)
Inductive Selection : Type :=
| SelContinue
| SelBreak
| SelAnalyze (Candidate : NodeId) (IsPostDom : bool).

(** From the top of the [while (!WorkList.empty())] body down to
    [revng_assert(Candidate != nullptr)]. *)
Definition selectCandidate (Conditional : NodeId) (st : CombState)
  : option (Selection * CombState) :=
  let PostDom := lookup (PostDominatorMap st) Conditional in
  let PostDomSet := equivalenceClass st PostDom in
  let It := S (ListIt st) in
  do NextInList <- nth_error (RevPostOrderList st) It;
  if memb NextInList (WorkList st) then
    let Candidate := NextInList in
    if memb Candidate PostDomSet then
      if negb (predecessorsVisited (Graph st) Candidate (Visited st)) then
        Some (SelAnalyze Candidate true,
              withVisit st (setErase Candidate (WorkList st))
                           (setInsert Candidate (Visited st)) It)
      else Some (SelBreak, withVisit st (WorkList st) (Visited st) It)
    else
      do b <- findNode (Graph st) Candidate;
      let st' := withVisit st
                   (setInsertAll (Successors b)
                                 (setErase Candidate (WorkList st)))
                   (setInsert Candidate (Visited st)) It in
      if negb (predecessorsVisited (Graph st) Candidate (Visited st)) then
        Some (SelAnalyze Candidate false, st')
      else Some (SelContinue, st')
  else Some (SelContinue, withVisit st (WorkList st) (Visited st) It).

(** The branch "Insert a dummy node". *)
Definition insertDummy (Conditional Sink Candidate : NodeId) (IsPostDom : bool)
  (st : CombState) : option CombState :=
  let (Dummy, g1) := addArtificialNode (Graph st) in
  let RevPostOrderList_ := insertAt (ListIt st) Dummy (RevPostOrderList st) in
  let Visited_ := setErase Candidate (Visited st) in
  let WorkList1 := setInsert Candidate (WorkList st) in
  (* the iterator now sits one place further; it is moved two places back *)
  do _ <- assert (1 <=? ListIt st);
  let ListIt_ := ListIt st - 1 in
  let Classes := (Dummy, [Dummy]) :: NodesEquivalenceClass st in
  do c <- findNode g1 Candidate;
  let PostDominatorMap_ :=
    if IsPostDom && (negb (isEmpty c) || (Candidate =? Sink))
    then (Conditional, Dummy) :: PostDominatorMap st
    else PostDominatorMap st in
  let CloneToOriginalMap_ := (Dummy, Dummy) :: CloneToOriginalMap st in
  let WorkList2 := setInsert Dummy WorkList1 in
  let Predecessors := predecessors g1 Candidate in
  do g2 <- moveEdges g1 Predecessors Candidate Dummy
             (fun Predecessor => nodeVisited Predecessor Visited_);
  let g3 := addEdge g2 (Dummy, Candidate) in
  Some (mkComb g3 (ConditionalNodes st) (ConditionalNodesComplete st)
          PostDominatorMap_ Classes CloneToOriginalMap_ RevPostOrderList_
          WorkList2 Visited_ ListIt_).

(** The branch "Duplicate node". *)
Definition duplicateNode (Candidate : NodeId) (st : CombState)
  : option CombState :=
  do c <- cloneNode (Graph st) Candidate;
  let (Duplicated, g1) := c in
  let RevPostOrderList_ := insertAt (ListIt st) Duplicated (RevPostOrderList st) in
  let ListIt_ := S (ListIt st) in
  do OriginalNode_ <- lookup (CloneToOriginalMap st) Candidate;
  let CloneToOriginalMap_ := (Duplicated, OriginalNode_) :: CloneToOriginalMap st in
  let Classes :=
    (OriginalNode_,
     setInsert Duplicated
       (equivalenceClass st (Some OriginalNode_)))
    :: NodesEquivalenceClass st in
  let IsConditional := memb Candidate (ConditionalNodesComplete st) in
  let ConditionalNodes_ :=
    if IsConditional then Duplicated :: ConditionalNodes st
    else ConditionalNodes st in
  let Complete :=
    if IsConditional then setInsert Duplicated (ConditionalNodesComplete st)
    else ConditionalNodesComplete st in
  let PostDominatorMap_ :=
    if IsConditional then
      match lookup (PostDominatorMap st) Candidate with
      | Some p => (Duplicated, p) :: PostDominatorMap st
      | None => PostDominatorMap st
      end
    else PostDominatorMap st in
  do cand <- findNode g1 Candidate;
  do g2 <-
    (if isCheck cand then
       do TrueSuccessor <- getTrue cand;
       do FalseSuccessor <- getFalse cand;
       Some (updateNode g1 Duplicated
               (fun b => setSuccessors b [TrueSuccessor; FalseSuccessor]))
     else
       Some (fold_left (fun acc Successor => addEdge acc (Duplicated, Successor))
                       (Successors cand) g1));
  let Predecessors := predecessors g2 Candidate in
  do g3 <- moveEdges g2 Predecessors Candidate Duplicated
             (fun Predecessor => negb (nodeVisited Predecessor (Visited st)));
  Some (mkComb g3 ConditionalNodes_ Complete PostDominatorMap_ Classes
          CloneToOriginalMap_ RevPostOrderList_ (WorkList st) (Visited st)
          ListIt_).

(** "Decide wether to insert a dummy or to duplicate." *)
Definition editCandidate (Conditional Sink Candidate : NodeId)
  (IsPostDom : bool) (st : CombState) : option CombState :=
  if (2 <? predecessor_size (Graph st) Candidate) && IsPostDom
  then insertDummy Conditional Sink Candidate IsPostDom st
  else duplicateNode Candidate st.

(** The bookkeeping after [purgeDummies] for one removed node: the sets
    forget it, the iterator steps back if it points at it, and the node
    leaves the list (the iterator stays on its element). *)
Definition forgetRemoved (acc : option CombState) (ToRemove : NodeId)
  : option CombState :=
  do st <- acc;
  do cur <- nth_error (RevPostOrderList st) (ListIt st);
  do It <- (if ToRemove =? cur then
              do _ <- assert (1 <=? ListIt st); Some (ListIt st - 1)
            else Some (ListIt st));
  let before := firstn It (RevPostOrderList st) in
  let It' := It - count_occ Nat.eq_dec before ToRemove in
  Some (mkComb (Graph st) (ConditionalNodes st) (ConditionalNodesComplete st)
          (PostDominatorMap st) (NodesEquivalenceClass st)
          (CloneToOriginalMap st)
          (setErase ToRemove (RevPostOrderList st))
          (setErase ToRemove (WorkList st))
          (setErase ToRemove (Visited st)) It').

(** "Purge extra dummies at each iteration". *)
Definition purgeAfterEdit (st : CombState) : option CombState :=
  do r <- purgeDummies (Graph st);
  let (g', RemovedNodes) := r in
  fold_left forgetRemoved RemovedNodes (Some (withGraph st g')).

(** One iteration of [while (!WorkList.empty())]; [true] asks for another
    iteration, [false] is the [break]. *)
Definition worklistIteration (Conditional Sink : NodeId) (st : CombState)
  : option (bool * CombState) :=
  do r <- selectCandidate Conditional st;
  match r with
  | (SelContinue, st1) => Some (true, st1)
  | (SelBreak, st1) => Some (false, st1)
  | (SelAnalyze Candidate IsPostDom, st1) =>
      do st2 <- editCandidate Conditional Sink Candidate IsPostDom st1;
      do st3 <- purgeAfterEdit st2;
      Some (true, st3)
  end.

Fixpoint worklistLoop (fuel : nat) (Conditional Sink : NodeId) (st : CombState)
  : option CombState :=
  match fuel with
  | 0 => None
  | S k =>
      match WorkList st with
      | [] => Some st
      | _ :: _ =>
          do r <- worklistIteration Conditional Sink st;
          let (again, st') := r in
          if again then worklistLoop k Conditional Sink st' else Some st'
      end
  end.

Fixpoint indexOf (n : NodeId) (l : list NodeId) : option nat :=
  match l with
  | [] => None
  | x :: rest => if x =? n then Some 0 else option_map S (indexOf n rest)
  end.

(** One iteration of the outer [while (!ConditionalNodes.empty())]. *)
Definition processConditional (fuel : nat) (Sink : NodeId) (st : CombState)
  : option CombState :=
  match ConditionalNodes st with
  | [] => Some st
  | Conditional :: rest =>
      do b <- findNode (Graph st) Conditional;
      let WorkList_ := setInsertAll (Successors b) [] in
      let Visited_ := [Conditional] in
      do It <- indexOf Conditional (RevPostOrderList st);
      worklistLoop fuel Conditional Sink
        (mkComb (Graph st) rest (ConditionalNodesComplete st)
           (PostDominatorMap st) (NodesEquivalenceClass st)
           (CloneToOriginalMap st) (RevPostOrderList st)
           WorkList_ Visited_ It)
  end.

Fixpoint conditionalsLoop (fuel : nat) (Sink : NodeId) (st : CombState)
  : option CombState :=
  match fuel with
  | 0 => None
  | S k =>
      match ConditionalNodes st with
      | [] => Some st
      | _ :: _ =>
          do st' <- processConditional fuel Sink st;
          conditionalsLoop k Sink st'
      end
  end.

(** [ReachableExits[Node]]: the exits whose inverse depth-first walk meets
    [Node]. *)
Definition reachableExits (g : RegionCFG) (ExitNodes : list NodeId)
  (Node : NodeId) : list NodeId :=
  filter (fun Exit => memb Node (inverse_depth_first g Exit)) ExitNodes.

(** The filter that keeps the conditional nodes to comb: the two sets of
    reachable exits meet, or neither of them is dominated. [g0] is the graph
    before the sink is added, [g] the one after it. *)
Definition isCombConditional (g0 g : RegionCFG) (ExitNodes : list NodeId)
  (b : BasicBlockNode) : bool :=
  match Successors b with
  | [s0; s1] =>
      let ThenExits := reachableExits g0 ExitNodes s0 in
      let ElseExits := reachableExits g0 ExitNodes s1 in
      let Intersection := setIntersection ThenExits ElseExits in
      let ThenIsDominated := forallb (fun Exit => dominates g (ID b) Exit) ThenExits in
      let ElseIsDominated := forallb (fun Exit => dominates g (ID b) Exit) ElseExits in
      negb (length Intersection =? 0)
      || negb (ThenIsDominated || ElseIsDominated)
  | _ => false
  end.

Definition inflate (fuel : nat) (g : RegionCFG) : option RegionCFG :=
  do g0 <- untangle fuel g;
  do IsDAG <- isDAG g0;
  do _ <- assert IsDAG;
  let ExitNodes := successorCountIs 0 g0 in
  let (Sink, g1) := addSink g0 ExitNodes in
  do _ <- assert (forallb (fun b => successor_size b <? 3) (BlockNodes g1));
  let Conditionals :=
    map ID (filter (isCombConditional g0 g1 ExitNodes) (BlockNodes g1)) in
  do Ordered <- orderNodes g1 Conditionals false;
  let RevPostOrderList_ := RPOT g1 in
  let Classes := map (fun n => (n, [n])) RevPostOrderList_ in
  let CloneToOriginalMap_ := map (fun n => (n, n)) RevPostOrderList_ in
  do PostDominatorMap_ <- computePostDominators g1 Ordered;
  do st <- conditionalsLoop fuel Sink
             (mkComb g1 (rev Ordered) Conditionals PostDominatorMap_ Classes
                CloneToOriginalMap_ RevPostOrderList_ [] [] 0);
  do r <- purgeDummies (Graph st);
  purgeVirtualSink fuel (fst r) Sink.

End Passes.

End CFG.

(** * Part III: a reference implementation of the analyses

    Dominance and post-dominance by their definitions (through reachability
    with one node taken away), the traversal orders by depth-first search.
    The theorems about the passes hold for every implementation of
    [CFG.Analyses]; this one makes the passes run on concrete graphs. *)

Module Reference.
Import CFG.

(** What [start] reaches without going through [avoid]. *)
Definition reachableAvoiding (g : RegionCFG) (avoid start : NodeId)
  : list NodeId :=
  if start =? avoid then []
  else filter (fun n => negb (n =? avoid))
              (dfs g (S (edgeCount g)) [start] [avoid]).

(** [A] dominates [B] when no path from the entry reaches [B] without [A]. *)
Definition dominates (g : RegionCFG) (A B : NodeId) : bool :=
  (A =? B) || negb (memb B (reachableAvoiding g A (EntryNode g))).

Definition exits (g : RegionCFG) : list NodeId := successorCountIs 0 g.

(** [Q] post-dominates [N] strictly: [N] reaches an exit, and none without
    meeting [Q]. *)
Definition strictlyPostDominates (g : RegionCFG) (Q N : NodeId) : bool :=
  negb (Q =? N)
  && existsb (fun e => memb e (reachable g N)) (exits g)
  && negb (existsb (fun e => memb e (reachableAvoiding g Q N)) (exits g)).

(** The immediate post-dominator: the strict post-dominator that all the
    other strict post-dominators post-dominate. *)
Definition postDominator (g : RegionCFG) (N : NodeId) : option NodeId :=
  let candidates := filter (fun Q => strictlyPostDominates g Q N) (nodes g) in
  find (fun Q => forallb (fun Q' => (Q' =? Q) || strictlyPostDominates g Q' Q)
                         candidates)
       candidates.

(** Depth-first post-order; [fuel] bounds the depth of the search. *)
Fixpoint postOrder (fuel : nat) (g : RegionCFG) (acc : list NodeId * list NodeId)
  (n : NodeId) : list NodeId * list NodeId :=
  match fuel with
  | 0 => acc
  | S k =>
      if memb n (fst acc) then acc
      else
        let r := fold_left (postOrder k g) (successorsOf g n)
                           (n :: fst acc, snd acc) in
        (fst r, snd r ++ [n])
  end.

Definition RPOT (g : RegionCFG) : list NodeId :=
  rev (snd (postOrder (S (length (BlockNodes g))) g ([], []) (EntryNode g))).

Definition inverse_depth_first (g : RegionCFG) (N : NodeId) : list NodeId :=
  filter (fun n => memb N (reachable g n)) (nodes g).

(** Modelled from the spec: [findReachableNodes] (Utils.h, not among the
    sources), "the set of nodes reachable from that successor up to" the
    target: the nodes that lie on a path from [Source] to [Target]. *)
Definition findReachableNodes (g : RegionCFG) (Source Target : NodeId)
  : list NodeId :=
  filter (fun n => memb n (reachable g Source) && memb Target (reachable g n))
         (nodes g).

#[export] Instance analyses : Analyses := {
  CFG.dominates := dominates;
  CFG.postDominator := postDominator;
  CFG.RPOT := RPOT;
  CFG.inverse_depth_first := inverse_depth_first;
  CFG.findReachableNodes := findReachableNodes
}.

(** The same analyses in a run that enumerates its sets of nodes in the
    opposite order. *)
Definition analysesReversed : Analyses := {|
  CFG.dominates := dominates;
  CFG.postDominator := postDominator;
  CFG.RPOT := RPOT;
  CFG.inverse_depth_first := fun g N => rev (inverse_depth_first g N);
  CFG.findReachableNodes :=
    fun g Source Target => rev (findReachableNodes g Source Target)
|}.

End Reference.

(** * Part IV: the notions the theorems speak about *)

Module Props.
Import CFG.

(** [a -> s] is an edge of the graph. *)
Definition edge (g : RegionCFG) (a s : NodeId) : Prop :=
  exists b, In b (BlockNodes g) /\ ID b = a /\ In s (Successors b).

(** A ranking that every edge climbs. *)
Definition respects (r : NodeId -> nat) (g : RegionCFG) : Prop :=
  forall a s, edge g a s -> r a < r s.

(** The graph is a DAG: its nodes can be ranked so that every edge goes from
    a lower to a higher rank (a topological order). *)
Definition Acyclic (g : RegionCFG) : Prop := exists r, respects r g.

(** A path of at least one edge. *)
Inductive path (g : RegionCFG) : NodeId -> NodeId -> Prop :=
| path_edge a s : edge g a s -> path g a s
| path_step a m s : edge g a m -> path g m s -> path g a s.

(** Every identity the graph mentions is below its counter. *)
Definition idsBounded (g : RegionCFG) : Prop :=
  forall b, In b (BlockNodes g) ->
    ID b < IDCounter g /\ forall s, In s (Successors b) -> s < IDCounter g.

(** No two nodes of the graph share an identity. *)
Definition distinctIDs (g : RegionCFG) : Prop := NoDup (nodes g).

(** [g'] still has every non-empty node of [g], with its kind, weight and
    original block. *)
Definition keepsNodes (g g' : RegionCFG) : Prop :=
  forall b, In b (BlockNodes g) -> isEmpty b = false ->
    exists b', In b' (BlockNodes g') /\ ID b' = ID b
               /\ NodeType b' = NodeType b /\ Weight b' = Weight b
               /\ OriginalNode b' = OriginalNode b.

(** The equivalence class of a node: the nodes that stand for the same
    original block, that is the node and the clones made of it. *)
Definition sameOriginal (b c : BasicBlockNode) : bool :=
  match OriginalNode b, OriginalNode c with
  | Some x, Some y => x =? y
  | _, _ => false
  end.

Definition equivalenceClassOf (g : RegionCFG) (b : BasicBlockNode)
  : list BasicBlockNode :=
  filter (fun c => sameOriginal b c || (ID c =? ID b)) (BlockNodes g).

Definition classWeight (g : RegionCFG) (b : BasicBlockNode) : N :=
  fold_right (fun c acc => (getWeight c + acc)%N) 0%N (equivalenceClassOf g b).

(** An executable check that a given ranking is climbed by every edge. *)
Definition respectsb (r : NodeId -> nat) (g : RegionCFG) : bool :=
  forallb (fun b => forallb (fun s => r (ID b) <? r s) (Successors b))
          (BlockNodes g).

Definition hasEdge (g : RegionCFG) (a s : NodeId) : bool :=
  existsb (fun b => (ID b =? a) && memb s (Successors b)) (BlockNodes g).

(** [g'] is [g] with the edges into [T] whose source [sel] picks repointed
    to [N], and every other edge as it was. *)
Definition retargeted (g g' : RegionCFG) (T N : NodeId)
  (sel : NodeId -> bool) : Prop :=
  forall a s,
    edge g' a s <->
    (edge g a s /\ ~ (s = T /\ sel a = true))
    \/ (s = N /\ edge g a T /\ sel a = true).

(** Every [Check] node has its two successors. *)
Definition checksComplete (g : RegionCFG) : Prop :=
  forall b, In b (BlockNodes g) -> isCheck b = true -> successor_size b = 2.


(** What identifies a node apart from its edges: identity, kind, weight and
    original block. *)
Definition Sig : Type := (NodeId * Type_ * N * option nat)%type.
Definition sig (b : BasicBlockNode) : Sig :=
  (ID b, NodeType b, Weight b, OriginalNode b).
Definition sigID (s : Sig) : NodeId := fst (fst (fst s)).
Definition sigEmpty (s : Sig) : bool := Type_eqb (snd (fst (fst s))) Empty.
Definition sigs (g : RegionCFG) : list Sig := map sig (BlockNodes g).

(** The non-empty nodes of [g0] are nodes of [g]. *)
Definition keepsSigs (g0 g : RegionCFG) : Prop :=
  forall s, In s (sigs g0) -> sigEmpty s = false -> In s (sigs g).

(** [g'] has the nodes of [g], and maybe new ones. *)
Definition grows (g g' : RegionCFG) : Prop :=
  incl (sigs g) (sigs g') /\ (distinctIDs g -> distinctIDs g').

Fixpoint eraseSig (n : NodeId) (l : list Sig) : list Sig :=
  match l with
  | [] => []
  | x :: rest => if sigID x =? n then rest else x :: eraseSig n rest
  end.

(** The graph has distinct nodes and still holds the non-empty nodes of
    [g0]. *)
Definition kept (g0 g : RegionCFG) : Prop := distinctIDs g /\ keepsSigs g0 g.

(** While the postdominator is cloned up to the exits, every clone has the
    rank of the node it copies. *)
Definition cloneInv (g : RegionCFG) (CloneMap : list (NodeId * NodeId))
  (r : NodeId -> nat) : Prop :=
  idsBounded g /\ respects r g
  /\ forall x c, In (x, c) CloneMap ->
       r c = r x /\ x < IDCounter g /\ c < IDCounter g.

(** The profile of a node with respect to a target [D]: its identity and
    the number of its edges to [D]. *)
Definition prof (D : NodeId) (c : BasicBlockNode) : NodeId * nat :=
  (ID c, count_occ Nat.eq_dec (Successors c) D).
Definition profs (D : NodeId) (g : RegionCFG) : list (NodeId * nat) :=
  map (prof D) (BlockNodes g).
Definition flatProfs (l : list (NodeId * nat)) : list NodeId :=
  flat_map (fun pr => repeat (fst pr) (snd pr)) l.

Fixpoint eraseProf (n : NodeId) (l : list (NodeId * nat)) : list (NodeId * nat) :=
  match l with
  | [] => []
  | x :: rest => if fst x =? n then rest else x :: eraseProf n rest
  end.

(** The node [c] once the dummy [X] between [P] and [S] has been purged: the
    edge of [P] to [X] leads to [S], in the same slot if [P] is a [Check]
    node ([setTrue], [setFalse]) and at the end of the successors
    otherwise ([removeSuccessor], [addSuccessor]). *)
Definition bypass (X P S : NodeId) (c : BasicBlockNode) : BasicBlockNode :=
  if ID c =? P then
    setSuccessors c
      (if isCheck c then map (fun s => if s =? X then S else s) (Successors c)
       else removeFirst X (Successors c) ++ [S])
  else c.

(** The edge of [a0] to [D] is in [a] an edge to [T]: [a] is the node [a0]
    with its kind and as many successors, and if it is a [Check] node, [T]
    is the true or the false successor that [D] was. *)
Definition sameSlot (D T : NodeId) (a0 a : BasicBlockNode) : Prop :=
  ID a = ID a0 /\ NodeType a = NodeType a0
  /\ successor_size a = successor_size a0
  /\ (isCheck a0 = true ->
      (getTrue a0 = Some D -> getTrue a = Some T)
      /\ (getFalse a0 = Some D -> getFalse a = Some T)).

(** The state of the chain while [purgeDummies] runs: the dummy is still
    there between [a0] and [B], or it is gone and [a0] points to [B]; the
    nodes [a0] and [B] are not dummies to purge. *)
Definition chainInv (a0 : BasicBlockNode) (D B : NodeId) (g : RegionCFG)
  : Prop :=
  distinctIDs g
  /\ (forall c, In c (BlockNodes g) -> ID c = ID a0 \/ ID c = B ->
        isPurgeable g c = false)
  /\ ((exists a d,
         In a (BlockNodes g) /\ sameSlot D D a0 a
         /\ In d (BlockNodes g) /\ ID d = D /\ isEmpty d = true
         /\ predecessors g D = [ID a0] /\ Successors d = [B])
      \/ (~ In D (nodes g) /\ edge g (ID a0) B
          /\ exists a, In a (BlockNodes g) /\ sameSlot D B a0 a)).

(** How many edges the node [b] has to [s]. *)
Definition cnt (b : BasicBlockNode) (s : NodeId) : nat :=
  count_occ Nat.eq_dec (Successors b) s.

(** How many edges of the node [a] the loop moves when it runs over [l]. *)
Definition moved (sel : NodeId -> bool) (l : list NodeId) (a : NodeId) : nat :=
  if sel a then count_occ Nat.eq_dec l a else 0.

(** [b'] is [b] after [k] of its edges to [T] were repointed to [N]. *)
Definition repointed (T N : NodeId) (k : nat) (b b' : BasicBlockNode) : Prop :=
  sig b' = sig b
  /\ cnt b' T + k = cnt b T
  /\ cnt b' N = cnt b N + k
  /\ forall s, s <> T -> s <> N -> cnt b' s = cnt b s.

(** [removeFirst] applied [k] times. *)
Fixpoint removeFirstN (k : nat) (n : NodeId) (l : list NodeId) : list NodeId :=
  match k with
  | 0 => l
  | S k' => removeFirstN k' n (removeFirst n l)
  end.

(** The node [b] without its edges to [n]. *)
Definition withoutEdgesTo (n : NodeId) (b : BasicBlockNode) : BasicBlockNode :=
  setSuccessors b (setErase n (Successors b)).

(** The nodes of the graph other than [n]. *)
Definition nodesBut (n : NodeId) (l : list BasicBlockNode)
  : list BasicBlockNode :=
  filter (fun b => negb (ID b =? n)) l.

(** From the node the sink is reached through empty nodes only, the node
    and the sink included. *)
Inductive emptyChain (g : RegionCFG) (Sink : NodeId) : NodeId -> Prop :=
| emptyChain_sink b :
    findNode g Sink = Some b -> isEmpty b = true -> emptyChain g Sink Sink
| emptyChain_step n m b :
    findNode g n = Some b -> isEmpty b = true -> edge g n m ->
    emptyChain g Sink m -> emptyChain g Sink n.

(** One turn of [purgeDummies] seen from the edges: the node [X] goes, and
    its only predecessor [P] now leads to its only successor [S]. *)
Definition purgeStep (g g' : RegionCFG) (X P S : NodeId) : Prop :=
  (forall a s, edge g' a s <->
     (edge g a s /\ a <> X /\ s <> X)
     \/ (a = P /\ s = S /\ a <> X /\ s <> X))
  /\ (forall a, edge g a X -> a = P)
  /\ (forall m, edge g X m -> m = S)
  /\ edge g P X /\ edge g X S.

(** The node that [addContinue] adds. *)
Definition continueNode (c : NodeId) : BasicBlockNode :=
  mkNode c Continue 0%N None [].

(** How many times [links] has the pair of [a] and [c]. *)
Definition linkCount (links : list (NodeId * NodeId)) (a c : NodeId) : nat :=
  length (filter (fun l => (fst l =? a) && (snd l =? c)) links).

(** [b'] is [b] after the edges to [E] listed in [links] (source and new
    target) were repointed. *)
Definition continued (E : NodeId) (links : list (NodeId * NodeId))
  (b b' : BasicBlockNode) : Prop :=
  sig b' = sig b
  /\ cnt b' E + count_occ Nat.eq_dec (map fst links) (ID b) = cnt b E
  /\ (forall s, s <> E -> ~ In s (map snd links) -> cnt b' s = cnt b s)
  /\ (forall c, In c (map snd links) -> cnt b' c = linkCount links (ID b) c).

(** The invariant of the loop of [connectContinueNode]. *)
Definition continuing (g : RegionCFG) (links : list (NodeId * NodeId))
  (cur : RegionCFG) : Prop :=
  exists olds,
    BlockNodes cur = olds ++ map (fun l => continueNode (snd l)) links
    /\ Forall2 (continued (EntryNode g) links) (BlockNodes g) olds
    /\ EntryNode cur = EntryNode g
    /\ NoDup (map snd links)
    /\ (forall c, In c (map snd links) -> newID g <= c)
    /\ newID g <= newID cur
    /\ distinctIDs cur /\ checksComplete cur.

(** The edges that the search of [reachable] has still to follow: those of
    the nodes it has not seen. *)
Definition unexpanded (l : list BasicBlockNode) (seen : list NodeId) : nat :=
  fold_right (fun b acc =>
                (if memb (ID b) seen then 0 else length (Successors b)) + acc)
             0 l.

(** [x] is [a] or comes after it. *)
Definition reaches (g : RegionCFG) (a x : NodeId) : Prop :=
  a = x \/ path g a x.

(** [x] is reached from the entry or from a node that lies on a cycle. *)
Definition anchored (g : RegionCFG) (x : NodeId) : Prop :=
  exists a, reaches g a x /\ (a = EntryNode g \/ path g a a).

(** [a] is a node that [cloneUntilExit] has added to [g0]: a new identity,
    the kind, weight and original block of a node of [g0], and edges to
    other added nodes or to the sink only. *)
Definition isCloneOf (g0 : RegionCFG) (Sink : NodeId) (a : BasicBlockNode)
  : Prop :=
  newID g0 <= ID a
  /\ (exists b, In b (BlockNodes g0) /\ ID b <> Sink
                /\ NodeType a = NodeType b /\ Weight a = Weight b
                /\ OriginalNode a = OriginalNode b)
  /\ forall s, In s (Successors a) -> s = Sink \/ newID g0 <= s.

(** [g] is [g0] with such nodes after its own, which are as they were. *)
Definition appended (g0 : RegionCFG) (Sink : NodeId) (g : RegionCFG) : Prop :=
  exists added,
    BlockNodes g = BlockNodes g0 ++ added
    /\ Forall (isCloneOf g0 Sink) added.

(** The invariant of the loops of [cloneUntilExit]: the clone map points to
    added nodes only. *)
Definition cloning (g0 : RegionCFG) (Sink : NodeId) (g : RegionCFG)
  (CloneMap : list (NodeId * NodeId)) : Prop :=
  appended g0 Sink g /\ EntryNode g = EntryNode g0
  /\ IDCounter g0 <= IDCounter g
  /\ forall x c, In (x, c) CloneMap -> newID g0 <= c.

End Props.

(** * Concrete graphs *)

Module Examples.
Import CFG.

Definition block (i : nat) (w : N) (succ : list NodeId) : BasicBlockNode :=
  mkNode i Code w (Some i) succ.
Definition dummy (i : nat) (succ : list NodeId) : BasicBlockNode :=
  mkNode i Empty 0%N None succ.

(** [0 -> 1 -> 2 -> 3] where [1] and [2] are dummies. *)
Definition chain : RegionCFG :=
  mkCFG [block 0 1 [1]; dummy 1 [2]; dummy 2 [3]; block 3 1 []] 0 4.
Definition chainPurged : RegionCFG :=
  mkCFG [block 0 1 [3]; block 3 1 []] 0 4.

(** The false successor of the conditional [0] is the dummy [3]; what
    follows it is the empty node [4], which has two predecessors. *)
Definition forkChain : RegionCFG :=
  mkCFG [mkNode 0 Check 1 None [1; 3]; block 1 1 [4]; dummy 3 [4];
         dummy 4 []] 0 5.
Definition forkChainPurged : RegionCFG :=
  mkCFG [mkNode 0 Check 1 None [1; 4]; block 1 1 [4]; dummy 4 []] 0 5.

(** Two conditionals [1] and [2] below the conditional [0] share both of
    their successors [3] and [4], which join in [5]. *)
Definition doubleDiamond : RegionCFG :=
  mkCFG [block 0 1 [1; 2]; block 1 1 [3; 4]; block 2 5 [3; 4];
         block 3 1 [5]; block 4 1 [5]; block 5 3 []] 0 6.
(** The node [3] of [doubleDiamond]; combing makes the clone [9] of it. *)
Definition sharedArm : BasicBlockNode := block 3 1 [5].
Definition doubleDiamondCombed : RegionCFG :=
  mkCFG [block 0 1 [1; 2]; block 1 1 [3; 4]; block 2 5 [8; 9];
         block 3 1 [10]; block 4 1 [10]; block 5 3 [];
         mkNode 8 Code 1 (Some 4) [11]; mkNode 9 Code 1 (Some 3) [11];
         dummy 10 [5]; dummy 11 [5]] 0 12.


(** [doubleDiamond] as [untangle] processes it, with the sink [6]. *)
Definition doubleDiamondSunk : RegionCFG :=
  mkCFG [block 0 1 [1; 2]; block 1 1 [3; 4]; block 2 5 [3; 4];
         block 3 1 [5]; block 4 1 [5]; block 5 3 [6]; dummy 6 []] 0 7.
Definition doubleDiamondWeights : list (NodeId * N) :=
  [(0, 1%N); (1, 1%N); (2, 5%N); (3, 1%N); (4, 1%N); (5, 3%N); (6, 0%N)].

(** The conditional [1] below the conditional [0]; its then child [2], which
    [0] reaches as well, and its else child [3] are the two exits. *)
Definition sinkJoin : RegionCFG :=
  mkCFG [block 0 1 [1; 2]; block 1 1 [2; 3]; block 2 5 []; block 3 1 []] 0 4.
Definition sinkJoinSunk : RegionCFG :=
  mkCFG [block 0 1 [1; 2]; block 1 1 [2; 3]; block 2 5 [4]; block 3 1 [4];
         dummy 4 []] 0 5.
Definition sinkJoinWeights : list (NodeId * N) :=
  [(0, 1%N); (1, 1%N); (2, 5%N); (3, 1%N); (4, 0%N)].

(** The same, but the two arms of [1] join in [4]. *)
Definition skewed : RegionCFG :=
  mkCFG [block 0 1 [1; 2]; block 1 1 [2; 3]; block 2 5 [4]; block 3 1 [4];
         block 4 1 []] 0 5.
Definition skewedSunk : RegionCFG :=
  mkCFG [block 0 1 [1; 2]; block 1 1 [2; 3]; block 2 5 [4]; block 3 1 [4];
         block 4 1 [5]; dummy 5 []] 0 6.
Definition skewedWeights : list (NodeId * N) :=
  [(0, 1%N); (1, 1%N); (2, 5%N); (3, 1%N); (4, 1%N); (5, 0%N)].
(** [skewedSunk] with the clone [6] of the postdominator [4], before and
    after the edge of [3] is repointed. *)
Definition skewedCloned : RegionCFG :=
  mkCFG [block 0 1 [1; 2]; block 1 1 [2; 3]; block 2 5 [4]; block 3 1 [4];
         block 4 1 [5]; dummy 5 []; mkNode 6 Code 1 (Some 4) [5]] 0 7.
Definition skewedSplit : RegionCFG :=
  mkCFG [block 0 1 [1; 2]; block 1 1 [2; 3]; block 2 5 [4]; block 3 1 [6];
         block 4 1 [5]; dummy 5 []; mkNode 6 Code 1 (Some 4) [5]] 0 7.

(** What [untangle] computes for the conditional [1] of these graphs. *)
Definition doubleDiamondArms : UntangleWeights :=
  mkWeights 3 4 [3] [4] [3] [4] 1 1 3.
Definition sinkJoinArms : UntangleWeights :=
  mkWeights 2 3 [2] [3] [2] [] 5 0 0.
Definition skewedArms : UntangleWeights :=
  mkWeights 2 3 [2] [3] [2] [] 5 0 1.

(** An exit that is reached through a chain of empty nodes. *)
Definition emptyTail : RegionCFG :=
  mkCFG [block 0 1 [1]; dummy 1 [2]; dummy 2 []] 0 3.
Definition emptyTailPurged : RegionCFG := mkCFG [block 0 1 []] 0 3.

(** The empty node [1] reaches the empty exit [4] through the empty node
    [2] and through the empty node [3]. *)
Definition emptyFork : RegionCFG :=
  mkCFG [block 0 1 [1]; dummy 1 [2; 3]; dummy 2 [4]; dummy 3 [4];
         dummy 4 []] 0 5.

(** Left over after cloning: [3 -> 4] hangs beside the graph, and [5 <-> 6]
    is a cycle that the entry does not reach. *)
Definition leftOvers : RegionCFG :=
  mkCFG [block 0 1 [1]; block 1 1 []; block 3 1 [4; 1]; block 4 1 [1];
         block 5 1 [6]; block 6 1 [5; 1]] 0 7.
Definition leftOversRemoved : RegionCFG :=
  mkCFG [block 0 1 [1]; block 1 1 []; block 5 1 [6]; block 6 1 [5; 1]] 0 7.

(** The same without the cycle. *)
Definition danglingArm : RegionCFG :=
  mkCFG [block 0 1 [1]; block 1 1 []; block 3 1 [4; 1]; block 4 1 [1]] 0 5.
Definition danglingArmRemoved : RegionCFG :=
  mkCFG [block 0 1 [1]; block 1 1 []] 0 5.

(** What [untangle] makes of [skewed]: the exit [4] has the clone [6]. *)
(** An empty entry [0] with an incoming edge from [2], which the entry
    does not reach; before and after [inflate]. *)
Definition enteredDummy : RegionCFG :=
  mkCFG [dummy 0 [1]; block 1 1 []; block 2 1 [0]] 0 3.
Definition enteredDummyCombed : RegionCFG :=
  mkCFG [block 1 1 []; block 2 1 [1]] 0 5.

(** One empty node, before and after [untangle]. *)
Definition loneDummy : RegionCFG := mkCFG [dummy 0 []] 0 1.
Definition loneDummyUntangled : RegionCFG := mkCFG [] 0 2.

Definition skewedUntangled : RegionCFG :=
  mkCFG [block 0 1 [1; 2]; block 1 1 [2; 3]; block 2 5 [4]; block 3 1 [6];
         block 4 1 []; mkNode 6 Code 1 (Some 4) []] 0 7.

(** A state of the worklist loop of [inflate] on [sinkJoinSunk] in which
    the node [2] has the visited predecessor [0] and the unvisited
    predecessor [1]. *)
Definition sinkJoinState : CombState :=
  mkComb sinkJoinSunk [1] [0; 1] [(0, 4); (1, 4)]
    [(0, [0]); (1, [1]); (2, [2]); (3, [3]); (4, [4])]
    [(0, 0); (1, 1); (2, 2); (3, 3); (4, 4)]
    [0; 1; 2; 3; 4] [2; 3] [0] 2.

(** A cycle, [2 <-> 3], that the entry does not reach. *)
Definition sideCycle : RegionCFG :=
  mkCFG [block 0 1 [1]; block 1 1 []; block 2 1 [3]; block 3 1 [2]] 0 4.

(** A loop body whose two latches jump back to the entry [0]. *)
Definition loopBody : RegionCFG :=
  mkCFG [mkNode 0 Check 1 None [1; 2]; block 1 1 [0]; block 2 1 [0; 3];
         block 3 1 []] 0 4.
Definition loopBodyCut : RegionCFG :=
  mkCFG [mkNode 0 Check 1 None [1; 2]; block 1 1 [4]; block 2 1 [3; 5];
         block 3 1 []; mkNode 4 Continue 0 None [];
         mkNode 5 Continue 0 None []] 0 6.

End Examples.

(** * Notions about the AST *)

Module ASTProps.
Import AST.

(** The node is not a [Sequence] of fewer than two children. *)
Definition properRoot (N : ASTNode) : Prop :=
  match N with
  | SequenceNode l => 2 <= length l
  | _ => True
  end.

Definition properBranch (o : option ASTNode) : Prop :=
  match o with
  | Some n => properRoot n
  | None => True
  end.



(** The children that the loop of [simplifyDummies] keeps. *)
Definition nonEmptyNodes (l : list ASTNode) : list ASTNode :=
  filter (fun Node => negb (isEmpty Node)) l.

(** A conditional inside a one-child sequence, with a one-child and a
    two-children branch, and what [simplifyAtomicSequence] returns for it. *)
Definition wrappedIf : ASTNode :=
  SequenceNode
    [IfNode 1 false
       (Some (SequenceNode [CodeNode 2 false None]))
       (Some (SequenceNode [CodeNode 3 false None; CodeNode 4 false None]))
       None].
Definition unwrappedIf : ASTNode :=
  IfNode 1 false
    (Some (CodeNode 2 false None))
    (Some (SequenceNode [CodeNode 3 false None; CodeNode 4 false None]))
    None.

End ASTProps.

(** * The AST node of one graph node *)

Module Builder.
Import AST CFG.

Definition isBreak (b : BasicBlockNode) : bool := Type_eqb (NodeType b) Break.
Definition isContinue (b : BasicBlockNode) : bool :=
  Type_eqb (NodeType b) Continue.
Definition isSet (b : BasicBlockNode) : bool := Type_eqb (NodeType b) SetT.
Definition isCode (b : BasicBlockNode) : bool := Type_eqb (NodeType b) Code.
Definition isCollapsed (b : BasicBlockNode) : bool :=
  Type_eqb (NodeType b) Collapsed.

(** The body of the loop of [generateAst] over the nodes, from
    [revng_assert(Children.size() == ASTChildren.size())] down to
    [AST.addASTNode].  [Children] holds [BBChildren] and [ASTChildren] side
    by side (an AST pointer may be null); [Body] is the root that the nested
    [generateAst] has set for the body of a collapsed node.  The outer
    [None] is an assertion or [revng_abort]; [Some None] is an [ASTObject]
    that no branch has assigned and that is registered as it is. *)
Definition buildASTNode (Node : BasicBlockNode) (Body : option ASTNode)
  (Children : list (NodeId * option ASTNode)) : option (option ASTNode) :=
  if isCollapsed Node then
    do _ <- assert (length Children <=? 1);
    match Children with
    | [(_, AST0)] => Some (Some (ScsNode (ID Node) Body AST0))
    | _ => Some (Some (ScsNode (ID Node) Body None))
    end
  else
    do _ <- assert (length Children <? 4);
    match Children with
    | [(BB0, AST0); (_, AST1); (BB2, AST2)] =>
        do _ <- assert (negb (isBreak Node) && negb (isContinue Node)
                        && negb (isSet Node));
        if CFG.isCheck Node then
          do t <- getTrue Node;
          do f <- getFalse Node;
          if (BB0 =? t) && (BB2 =? f) then
            Some (Some (IfNode (ID Node) true AST0 AST2 AST1))
          else if (BB2 =? t) && (BB0 =? f) then
            Some (Some (IfNode (ID Node) true AST2 AST0 AST1))
          else None
        else Some (Some (IfNode (ID Node) false AST0 AST2 AST1))
    | [(BB0, AST0); (BB1, AST1)] =>
        do _ <- assert (negb (isBreak Node) && negb (isContinue Node)
                        && negb (isSet Node));
        if CFG.isCheck Node then
          do t <- getTrue Node;
          do f <- getFalse Node;
          if (BB0 =? t) && (BB1 =? f) then
            Some (Some (IfNode (ID Node) true AST0 AST1 None))
          else if (BB1 =? t) && (BB0 =? f) then
            Some (Some (IfNode (ID Node) true AST1 AST0 None))
          else None
        else Some (Some (IfNode (ID Node) false AST0 AST1 None))
    | [(BB0, AST0)] =>
        do _ <- assert (negb (isBreak Node) && negb (isContinue Node));
        if isSet Node then Some (Some (SetNode (ID Node) AST0))
        else if CFG.isCheck Node then
          do t <- getTrue Node;
          do f <- getFalse Node;
          if BB0 =? t then Some (Some (IfNode (ID Node) true AST0 None None))
          else if BB0 =? f then
            Some (Some (IfNode (ID Node) true None AST0 None))
          else Some None
        else Some (Some (CodeNode (ID Node) (CFG.isEmpty Node) AST0))
    | [] =>
        if isBreak Node then Some (Some BreakNode)
        else if isContinue Node then Some (Some ContinueNode)
        else if isSet Node then Some (Some (SetNode (ID Node) None))
        else if CFG.isEmpty Node || isCode Node then
          Some (Some (CodeNode (ID Node) (CFG.isEmpty Node) None))
        else None
    | _ => None
    end.

(** The AST nodes that a pointer, maybe null, and a node lead to. *)
Definition present (o : option ASTNode) : list ASTNode :=
  match o with
  | Some n => [n]
  | None => []
  end.

Definition childLinks (N : ASTNode) : list ASTNode :=
  match N with
  | CodeNode _ _ s => present s
  | IfNode _ _ t e s => present t ++ present e ++ present s
  | ScsNode _ b s => present b ++ present s
  | SequenceNode l => l
  | SetNode _ s => present s
  | BreakNode | ContinueNode => []
  end.

(** The first drafts: the trees that the loop of [generateAst] over the
    nodes can register.  Each is made by one of the [new ...Node]
    expressions of the loop body out of the trees registered for the
    children in the dominator tree (a null pointer is allowed wherever the
    code passes one on); no [SequenceNode] is made there.  The body of an
    [ScsNode] is the root that the nested [generateAst] has set for the body
    graph, that is the first draft of that graph after the three
    post-passes. *)
Inductive Draft : ASTNode -> Prop :=
| Draft_code (bb : nat) (e : bool) (s : option ASTNode) :
    (forall n, s = Some n -> Draft n) -> Draft (CodeNode bb e s)
| Draft_if (bb : nat) (c : bool) (t e s : option ASTNode) :
    (forall n, t = Some n -> Draft n) ->
    (forall n, e = Some n -> Draft n) ->
    (forall n, s = Some n -> Draft n) -> Draft (IfNode bb c t e s)
| Draft_scs (bb : nat) (BodyDraft : ASTNode) (s : option ASTNode) :
    Draft BodyDraft ->
    (forall n, s = Some n -> Draft n) ->
    Draft (ScsNode bb (postPasses BodyDraft) s)
| Draft_set (bb : nat) (s : option ASTNode) :
    (forall n, s = Some n -> Draft n) -> Draft (SetNode bb s)
| Draft_break : Draft BreakNode
| Draft_continue : Draft ContinueNode.

(** A [Check] node and the AST nodes of three blocks. *)
Definition checkNode : BasicBlockNode := mkNode 0 Check 1 None [1; 2].
Definition leaf (i : nat) : ASTNode := CodeNode i false None.


End Builder.

(** * Part V: theorems *)

(** ** The error monad *)

Lemma bind_Some {A B} (c : option A) (k : A -> option B) (b : B) :
  bind c k = Some b -> exists a, c = Some a /\ k a = Some b.
Proof. destruct c as [a|]; simpl; [eauto | discriminate]. Qed.

Lemma assert_Some (b : bool) (u : unit) : assert b = Some u -> b = true.
Proof. destruct b; [reflexivity | discriminate]. Qed.

Tactic Notation "inv_bind" hyp(H) "as" ident(x) ident(Hx) :=
  apply bind_Some in H; destruct H as [x [Hx H]].

(** Distinct identities of a concrete graph. *)
Ltac distinct_ids :=
  unfold Props.distinctIDs; simpl;
  repeat (constructor; [simpl; intuition discriminate |]); constructor.

(** ** The AST post-passes *)

Module ASTFacts.
Import AST.

(** C10.  A [Sequence] without children makes [simplifyAtomicSequence]
    return the null pointer, and there is a first draft of the AST for which
    the root that [generateAst] sets after its post-passes is null. *)
Theorem simplifyAtomicSequence_null_root :
  simplifyAtomicSequence (SequenceNode []) = None
  /\ exists RootNode, postPasses RootNode = None.
Proof.
  split; [reflexivity |].
  exists (CodeNode 0 true None). reflexivity.
Qed.

(** A tree that [generateAst] does not build: on a sequence of two children
    whose first child is a sequence of a single node,
    [simplifyAtomicSequence] returns the sequence as it was, since the
    result of the recursive call on the child is assigned to the loop
    variable and lost. *)
Example simplifyAtomicSequence_keeps_nested_singleton :
  let inner := SequenceNode [CodeNode 1 false None] in
  let root := SequenceNode [inner; CodeNode 2 false None] in
  simplifyAtomicSequence root = Some root
  /\ sequencesAtLeastTwo root = false
  /\ simplifyAtomicSequence inner = Some (CodeNode 1 false None).
Proof. repeat split. Qed.

End ASTFacts.

(** ** Edges and rankings under the graph primitives *)

Module GraphFacts.
Import CFG Props.

Lemma memb_In (n : NodeId) (l : list NodeId) : memb n l = true <-> In n l.
Proof.
  unfold memb. rewrite existsb_exists. split.
  - intros [x [Hx He]]. apply Nat.eqb_eq in He. now subst.
  - intros H. exists n. split; [assumption | apply Nat.eqb_refl].
Qed.

Lemma memb_false_In (n : NodeId) (l : list NodeId) :
  memb n l = false <-> ~ In n l.
Proof.
  rewrite <- memb_In. destruct (memb n l); split; intros; congruence.
Qed.

Lemma findNode_In (g : RegionCFG) (n : NodeId) (b : BasicBlockNode) :
  findNode g n = Some b -> In b (BlockNodes g) /\ ID b = n.
Proof.
  unfold findNode. intros H. apply find_some in H.
  destruct H as [Hin He]. apply Nat.eqb_eq in He. auto.
Qed.

Lemma In_findNode (g : RegionCFG) (b : BasicBlockNode) :
  In b (BlockNodes g) -> exists b', findNode g (ID b) = Some b'.
Proof.
  unfold findNode. intros Hin.
  destruct (find (fun b0 => ID b0 =? ID b) (BlockNodes g)) eqn:E; [eauto |].
  exfalso. apply (find_none _ _ E) in Hin. rewrite Nat.eqb_refl in Hin.
  discriminate.
Qed.

Lemma edge_successorsOf (g : RegionCFG) (n s : NodeId) :
  In s (successorsOf g n) -> edge g n s.
Proof.
  unfold successorsOf. destruct (findNode g n) as [b|] eqn:E; [| intros []].
  intros Hs. apply findNode_In in E. destruct E as [Hin Hid].
  exists b. auto.
Qed.

Lemma removeFirst_incl (n : NodeId) (l : list NodeId) :
  incl (removeFirst n l) l.
Proof.
  induction l as [|x l IH]; simpl; [apply incl_refl |].
  destruct (x =? n).
  - apply incl_tl, incl_refl.
  - intros y [Hy|Hy]; [left; assumption | right; apply IH; assumption].
Qed.

Lemma eraseFirst_incl (n : NodeId) (l : list BasicBlockNode) :
  incl (eraseFirst n l) l.
Proof.
  induction l as [|x l IH]; simpl; [apply incl_refl |].
  destruct (ID x =? n).
  - apply incl_tl, incl_refl.
  - intros y [Hy|Hy]; [left; assumption | right; apply IH; assumption].
Qed.

(** An edge of the updated graph starts either at an untouched node or at
    the image of a node that has the updated identity. *)
Lemma edge_updateNode (g : RegionCFG) (n : NodeId)
  (f : BasicBlockNode -> BasicBlockNode) (a s : NodeId) :
  edge (updateNode g n f) a s ->
  (a <> n /\ edge g a s)
  \/ (exists b, In b (BlockNodes g) /\ ID b = n /\ ID (f b) = a
                /\ In s (Successors (f b))).
Proof.
  intros [b' [Hin [Hid Hs]]]. simpl in Hin. apply in_map_iff in Hin.
  destruct Hin as [b [Hb Hin]].
  destruct (ID b =? n) eqn:E.
  - right. apply Nat.eqb_eq in E. exists b. subst b'. auto.
  - left. apply Nat.eqb_neq in E. subst b'. split; [congruence |].
    exists b. auto.
Qed.

Lemma respects_updateNode (r : NodeId -> nat) (g : RegionCFG) (n : NodeId)
  (f : BasicBlockNode -> BasicBlockNode) :
  respects r g ->
  (forall b, In b (BlockNodes g) -> ID b = n ->
     forall s, In s (Successors (f b)) -> r (ID (f b)) < r s) ->
  respects r (updateNode g n f).
Proof.
  intros Hr Hf a s He. apply edge_updateNode in He.
  destruct He as [[_ He] | [b [Hin [Hid [Ha Hs]]]]].
  - apply Hr. assumption.
  - subst a. eapply Hf; eassumption.
Qed.

(** Dropping successors keeps a ranking. *)
Lemma respects_shrink (r : NodeId -> nat) (g : RegionCFG) (n : NodeId)
  (f : BasicBlockNode -> BasicBlockNode) :
  respects r g ->
  (forall b, ID (f b) = ID b /\ incl (Successors (f b)) (Successors b)) ->
  respects r (updateNode g n f).
Proof.
  intros Hr Hf. apply respects_updateNode; [assumption |].
  intros b Hin Hid s Hs. destruct (Hf b) as [Hi Hincl]. rewrite Hi.
  apply Hr. exists b. auto.
Qed.

Lemma respects_insertNode (r : NodeId -> nat) (g : RegionCFG)
  (b : BasicBlockNode) :
  respects r g -> Successors b = [] -> respects r (insertNode g b).
Proof.
  intros Hr Hb a s [b' [Hin [Hid Hs]]]. simpl in Hin.
  apply in_app_or in Hin. destruct Hin as [Hin | [Heq | []]].
  - apply Hr. exists b'. auto.
  - subst b'. rewrite Hb in Hs. destruct Hs.
Qed.

Lemma respects_addEdge (r : NodeId -> nat) (g : RegionCFG) (a b : NodeId) :
  respects r g -> r a < r b -> respects r (addEdge g (a, b)).
Proof.
  intros Hr Hab. unfold addEdge. simpl.
  apply respects_updateNode; [assumption |].
  intros n Hin Hid s Hs. simpl in *. apply in_app_or in Hs.
  destruct Hs as [Hs | [Hs | []]].
  - apply Hr. exists n. auto.
  - subst s. rewrite Hid. assumption.
Qed.

Lemma respects_fold_removeSuccessor (r : NodeId -> nat) (Node : NodeId)
  (l : list NodeId) (g : RegionCFG) :
  respects r g ->
  respects r (fold_left (fun acc Predecessor =>
                updateNode acc Predecessor (fun b => removeSuccessor b Node))
              l g).
Proof.
  revert g. induction l as [|p l IH]; intros g Hr; simpl; [assumption |].
  apply IH. apply respects_shrink; [assumption |].
  intros b. split; [reflexivity | apply removeFirst_incl].
Qed.

Lemma respects_sub (r : NodeId -> nat) (g g' : RegionCFG) :
  respects r g -> incl (BlockNodes g') (BlockNodes g) -> respects r g'.
Proof.
  intros Hr Hincl a s [b [Hin H]]. apply Hr. exists b. auto.
Qed.

Lemma respects_removeNode (r : NodeId -> nat) (g g' : RegionCFG) (n : NodeId) :
  removeNode g n = Some g' -> respects r g -> respects r g'.
Proof.
  unfold removeNode. intros H Hr. inv_bind H as b Hb.
  inversion H; subst g'; clear H.
  eapply respects_sub.
  - apply respects_fold_removeSuccessor. eassumption.
  - simpl. apply eraseFirst_incl.
Qed.

Lemma count_removeFirst_other (n s : NodeId) (l : list NodeId) :
  s <> n ->
  count_occ Nat.eq_dec (removeFirst n l) s = count_occ Nat.eq_dec l s.
Proof.
  intros Hne. induction l as [|x l IH]; [reflexivity |]. simpl.
  destruct (x =? n) eqn:E.
  - apply Nat.eqb_eq in E. subst x.
    destruct (Nat.eq_dec n s); [congruence | reflexivity].
  - simpl. destruct (Nat.eq_dec x s); [f_equal |]; assumption.
Qed.

(** What [moveEdgeTarget] does to its source node. *)
Lemma moveEdgeTarget_inv (g g' : RegionCFG) (p old new : NodeId) :
  moveEdgeTarget g (p, old) new = Some g' ->
  exists b l, findNode g p = Some b
    /\ g' = updateNode g p (fun c => setSuccessors c l)
    /\ In old (Successors b)
    /\ (forall s, In s l -> In s (Successors b) \/ s = new)
    /\ In new l
    /\ (forall s, s <> old -> s <> new ->
          count_occ Nat.eq_dec l s = count_occ Nat.eq_dec (Successors b) s)
    /\ length l = length (Successors b).
Proof.
  unfold moveEdgeTarget. intros H. inv_bind H as b Hb. inv_bind H as b' Hb'.
  inversion H; subst g'; clear H. exists b, (Successors b').
  split; [assumption |]. split; [reflexivity |].
  destruct (isCheck b).
  - inv_bind Hb' as t Ht. inv_bind Hb' as f Hf. unfold getTrue, getFalse in *.
    destruct (Successors b) as [|t0 [|f0 [|? ?]]] eqn:ES; try discriminate.
    inversion Ht; inversion Hf; subst t0 f0.
    destruct (t =? old) eqn:E1.
    + apply Nat.eqb_eq in E1. inversion Hb'; subst b'; clear Hb'.
      unfold setTrue. simpl. rewrite ES.
      split; [left; assumption |].
      split; [intros s [Hs | [Hs | []]]; [right | left; right; left]; auto |].
      split; [left; reflexivity |]. split; [| reflexivity].
      intros s H1 H2. simpl.
      destruct (Nat.eq_dec new s), (Nat.eq_dec t s); congruence.
    + destruct (f =? old) eqn:E2; [| discriminate]. apply Nat.eqb_eq in E2.
      unfold setFalse in Hb'. rewrite ES in Hb'.
      inversion Hb'; subst b'; clear Hb'. simpl.
      split; [right; left; assumption |].
      split; [intros s [Hs | [Hs | []]]; [left; left | right]; auto |].
      split; [right; left; reflexivity |]. split; [| reflexivity].
      intros s H1 H2.
      destruct (Nat.eq_dec t s); destruct (Nat.eq_dec new s);
        destruct (Nat.eq_dec f s); congruence.
  - inv_bind Hb' as u Hu. apply assert_Some in Hu. apply memb_In in Hu.
    inversion Hb'; subst b'; clear Hb'. simpl.
    split; [assumption |].
    split.
    { intros s Hs. apply in_app_or in Hs.
      destruct Hs as [Hs | [Hs | []]]; [left | right; auto].
      eapply removeFirst_incl. eassumption. }
    split; [apply in_or_app; right; left; reflexivity |].
    split.
    { intros s H1 H2. rewrite count_occ_app. simpl.
      destruct (Nat.eq_dec new s); [congruence |].
      rewrite count_removeFirst_other by assumption. lia. }
    rewrite length_app. simpl. clear - Hu.
    induction (Successors b) as [|x l IH]; [destruct Hu |]. simpl.
    destruct (x =? old) eqn:E; [lia |]. simpl.
    destruct Hu as [Hu | Hu]; [apply Nat.eqb_neq in E; congruence |].
    specialize (IH Hu). lia.
Qed.

(** A successful [moveEdgeTarget] found the edge it repoints. *)
Lemma moveEdgeTarget_edge (g g' : RegionCFG) (p old new : NodeId) :
  moveEdgeTarget g (p, old) new = Some g' -> edge g p old.
Proof.
  intros H. apply moveEdgeTarget_inv in H.
  destruct H as [b [l [Hb [_ [Hold _]]]]].
  apply findNode_In in Hb. destruct Hb as [Hin Hid]. exists b. auto.
Qed.

Lemma moveEdgeTarget_respects (r : NodeId -> nat) (g g' : RegionCFG)
  (p old new : NodeId) :
  moveEdgeTarget g (p, old) new = Some g' ->
  respects r g -> r p < r new -> respects r g'.
Proof.
  intros H Hr Hlt. apply moveEdgeTarget_inv in H.
  destruct H as [b [l [Hb [Hg [_ [Hs _]]]]]].
  apply findNode_In in Hb. destruct Hb as [Hin Hb]. subst g'.
  apply respects_updateNode; [assumption |].
  intros c _ Hc s Hin'. simpl in *. rewrite Hc.
  destruct (Hs s Hin') as [H1 | H1].
  - apply Hr. exists b. auto.
  - subst s. assumption.
Qed.

(** The loop that repoints the selected predecessors keeps a ranking when
    whatever is below the old target is below the new one. *)
Lemma moveEdges_respects (r : NodeId -> nat) (Target NewTarget : NodeId)
  (sel : NodeId -> bool) (Predecessors : list NodeId) (g g' : RegionCFG) :
  moveEdges g Predecessors Target NewTarget sel = Some g' ->
  respects r g ->
  (forall p, r p < r Target -> r p < r NewTarget) ->
  respects r g'.
Proof.
  revert g. induction Predecessors as [|p l IH]; intros g H Hr Hlt; simpl in H.
  - inversion H; subst; assumption.
  - destruct (sel p).
    + inv_bind H as g1 Hg1. apply (IH g1); [assumption | | assumption].
      eapply moveEdgeTarget_respects; [eassumption | assumption |].
      apply Hlt. apply Hr. eapply moveEdgeTarget_edge. eassumption.
    + apply (IH g); assumption.
Qed.

(** ** [purgeDummies] *)




(** When the loop stops, no node of the graph qualifies any more. *)
Lemma purgeDummiesLoop_done (fuel : nat) :
  forall g acc g' removed,
  purgeDummiesLoop fuel g acc = Some (g', removed) ->
  find (isPurgeable g') (BlockNodes g') = None.
Proof.
  induction fuel as [|k IH]; intros g acc g' removed H; simpl in H;
    [discriminate |].
  destruct (find (isPurgeable g) (BlockNodes g)) as [b|] eqn:E.
  - inv_bind H as g1 Hg1. eapply IH. eassumption.
  - inversion H; subst; assumption.
Qed.

Lemma purgeDummies_idempotent (g g' : RegionCFG) (removed : list NodeId) :
  purgeDummies g = Some (g', removed) -> purgeDummies g' = Some (g', []).
Proof.
  unfold purgeDummies. intros H. apply purgeDummiesLoop_done in H.
  simpl. rewrite H. reflexivity.
Qed.

(** ** [purgeVirtualSink] *)

Lemma removeNodes_respects (r : NodeId -> nat) (l : list NodeId) :
  forall g g', removeNodes g l = Some g' -> respects r g -> respects r g'.
Proof.
  induction l as [|n l IH]; intros g g' H Hr; simpl in H.
  - inversion H; subst; assumption.
  - inv_bind H as g1 Hg1. apply (IH _ _ H).
    eapply respects_removeNode; eassumption.
Qed.

Lemma purgeVirtualSink_respects (r : NodeId -> nat) (fuel : nat)
  (g g' : RegionCFG) (Sink : NodeId) :
  purgeVirtualSink fuel g Sink = Some g' -> respects r g -> respects r g'.
Proof.
  unfold purgeVirtualSink. intros H Hr. inv_bind H as l Hl.
  eapply removeNodes_respects; eassumption.
Qed.

(** ** Fresh identities *)

Lemma fold_max_ge (l : list nat) (x : nat) :
  In x l -> x <= fold_right Nat.max 0 l.
Proof.
  induction l as [|y l IH]; intros Hin; [destruct Hin |].
  simpl. destruct Hin as [-> | Hin]; [lia |].
  specialize (IH Hin). lia.
Qed.

Lemma newID_gt_ID (g : RegionCFG) (b : BasicBlockNode) :
  In b (BlockNodes g) -> ID b < newID g.
Proof.
  intros Hin. unfold newID, maxId.
  assert (ID b <= fold_right Nat.max 0
            (flat_map (fun b => ID b :: Successors b) (BlockNodes g))).
  { apply fold_max_ge. apply in_flat_map. exists b. split; [assumption |].
    left. reflexivity. }
  lia.
Qed.

Lemma newID_gt_successor (g : RegionCFG) (b : BasicBlockNode) (s : NodeId) :
  In b (BlockNodes g) -> In s (Successors b) -> s < newID g.
Proof.
  intros Hin Hs. unfold newID, maxId.
  assert (s <= fold_right Nat.max 0
            (flat_map (fun b => ID b :: Successors b) (BlockNodes g))).
  { apply fold_max_ge. apply in_flat_map. exists b. split; [assumption |].
    right. assumption. }
  lia.
Qed.

Lemma newID_ge_counter (g : RegionCFG) : IDCounter g <= newID g.
Proof. unfold newID. lia. Qed.

Lemma edge_below_newID (g : RegionCFG) (a s : NodeId) :
  edge g a s -> a < newID g /\ s < newID g.
Proof.
  intros [b [Hin [Hid Hs]]]. subst a. split.
  - apply newID_gt_ID. assumption.
  - eapply newID_gt_successor; eassumption.
Qed.

(** Two rankings that agree on what the graph mentions are as good. *)
Lemma respects_agree (r r' : NodeId -> nat) (g : RegionCFG) :
  respects r g -> (forall x, x < newID g -> r' x = r x) -> respects r' g.
Proof.
  intros Hr Hag a s He. destruct (edge_below_newID _ _ _ He) as [Ha Hs].
  rewrite (Hag a Ha), (Hag s Hs). apply Hr. assumption.
Qed.

Lemma predecessors_edge (g : RegionCFG) (n p : NodeId) :
  In p (predecessors g n) -> edge g p n.
Proof.
  unfold predecessors. intros H. apply in_flat_map in H.
  destruct H as [b [Hin Hrep]]. apply repeat_spec in Hrep as Hp.
  exists b. split; [assumption | split; [symmetry; assumption |]].
  destruct (count_occ Nat.eq_dec (Successors b) n) eqn:E.
  - destruct Hrep.
  - apply (count_occ_In Nat.eq_dec). lia.
Qed.

Lemma edge_predecessors (g : RegionCFG) (n p : NodeId) :
  edge g p n -> In p (predecessors g n).
Proof.
  intros [b [Hin [Hid Hs]]]. unfold predecessors. apply in_flat_map.
  exists b. split; [assumption |]. subst p.
  apply (count_occ_In Nat.eq_dec) in Hs.
  destruct (count_occ Nat.eq_dec (Successors b) n); [lia |].
  left. reflexivity.
Qed.

(** ** Bounded identities *)

Lemma idsBounded_insertNode (g : RegionCFG) (b : BasicBlockNode) :
  ID b = newID g -> Successors b = [] -> idsBounded (insertNode g b).
Proof.
  intros Hid Hs c Hin. simpl in *. apply in_app_or in Hin.
  destruct Hin as [Hin | [<- | []]].
  - split.
    + apply newID_gt_ID in Hin. lia.
    + intros s Hin'. pose proof (newID_gt_successor _ _ _ Hin Hin'). lia.
  - split; [lia |]. rewrite Hs. intros s [].
Qed.

Lemma idsBounded_updateNode (g : RegionCFG) (n : NodeId)
  (f : BasicBlockNode -> BasicBlockNode) :
  idsBounded g ->
  (forall b, In b (BlockNodes g) -> ID b = n ->
     ID (f b) < IDCounter g
     /\ forall s, In s (Successors (f b)) -> s < IDCounter g) ->
  idsBounded (updateNode g n f).
Proof.
  intros Hb Hf c Hin. simpl in *. apply in_map_iff in Hin.
  destruct Hin as [b [Hc Hin]]. destruct (ID b =? n) eqn:E.
  - apply Nat.eqb_eq in E. subst c. apply Hf; assumption.
  - subst c. apply Hb. assumption.
Qed.

Lemma idsBounded_addEdge (g : RegionCFG) (a b : NodeId) :
  idsBounded g -> b < IDCounter g -> idsBounded (addEdge g (a, b)).
Proof.
  intros Hb Hlt. unfold addEdge. simpl. apply idsBounded_updateNode;
    [assumption |].
  intros c Hin Hid. destruct (Hb c Hin) as [H1 H2]. split; [assumption |].
  simpl. intros s Hs. apply in_app_or in Hs.
  destruct Hs as [Hs | [<- | []]]; auto.
Qed.

Lemma cloneNode_inv (g : RegionCFG) (n d : NodeId) (g' : RegionCFG) :
  cloneNode g n = Some (d, g') ->
  exists b, findNode g n = Some b /\ d = newID g
    /\ g' = insertNode g (mkNode d (NodeType b) (Weight b) (OriginalNode b) []).
Proof.
  unfold cloneNode. intros H. inv_bind H as b Hb. inversion H; subst.
  exists b. auto.
Qed.

Lemma lookup_In {V : Type} (m : list (NodeId * V)) (k : NodeId) (v : V) :
  lookup m k = Some v -> In (k, v) m.
Proof.
  unfold lookup. destruct (find (fun p => fst p =? k) m) as [[k' v']|] eqn:E;
    [| discriminate].
  simpl. intros H. inversion H; subst v'. apply find_some in E.
  destruct E as [Hin He]. simpl in He. apply Nat.eqb_eq in He. now subst.
Qed.

End GraphFacts.

(** ** What every step of the passes preserves

    A property of graphs that the building blocks of the passes (adding the
    sink, splitting a postdominator, editing a candidate, the two purges)
    preserve is preserved by [untangle] and by [inflate]. *)

Module PassFacts.
Import CFG Props GraphFacts.

Section Preservation.
Context {LLVM : Analyses}.
Variable P : RegionCFG -> Prop.

Hypothesis P_addSink :
  forall g, P g -> P (snd (addSink g (successorCountIs 0 g))).
Hypothesis P_split :
  forall fuel DT g Conditional Child PostDominator Sink g',
  splitPostDominator fuel DT g Conditional Child PostDominator Sink = Some g' ->
  P g -> P g'.
Hypothesis P_purgeVirtualSink :
  forall fuel g Sink g', purgeVirtualSink fuel g Sink = Some g' -> P g -> P g'.
Hypothesis P_purgeDummies :
  forall g g' removed, purgeDummies g = Some (g', removed) -> P g -> P g'.
Hypothesis P_edit :
  forall Conditional Sink Candidate IsPostDom st st',
  editCandidate Conditional Sink Candidate IsPostDom st = Some st' ->
  P (Graph st) -> P (Graph st').

Lemma untangleConditional_preserves fuel Sink WeightMap PDM g Conditional g' :
  untangleConditional fuel Sink WeightMap PDM g Conditional = Some g' ->
  P g -> P g'.
Proof.
  unfold untangleConditional. intros H HP.
  inv_bind H as PostDominator HPD. inv_bind H as w Hw.
  destruct (untangleSkips w); [inversion H; subst; assumption |].
  inv_bind H as g1 Hg1.
  assert (HP1 : P g1).
  { destruct (splitsElse w PostDominator Sink).
    - eapply P_split; eassumption.
    - inversion Hg1; subst; assumption. }
  destruct (splitsThen w PostDominator Sink).
  - eapply P_split; eassumption.
  - inversion H; subst; assumption.
Qed.

Lemma untangleLoop_preserves fuel Sink WeightMap PDM l :
  forall g g', untangleLoop fuel Sink WeightMap PDM l g = Some g' ->
  P g -> P g'.
Proof.
  induction l as [|c l IH]; intros g g' H HP; simpl in H.
  - inversion H; subst; assumption.
  - inv_bind H as g1 Hg1. apply (IH _ _ H).
    eapply untangleConditional_preserves; eassumption.
Qed.

Lemma untangle_preserves fuel g g' :
  untangle fuel g = Some g' -> P g -> P g'.
Proof.
  unfold untangle. intros H HP. inv_bind H as d Hd. inv_bind H as u Hu.
  pose proof (P_addSink _ HP) as HS.
  destruct (addSink g (successorCountIs 0 g)) as [Sink g1]. simpl in HS.
  inv_bind H as PDM HPDM. inv_bind H as Ordered HO. inv_bind H as g2 Hg2.
  eapply P_purgeVirtualSink; [eassumption |].
  eapply untangleLoop_preserves; eassumption.
Qed.

Lemma selectCandidate_graph Conditional st sel st' :
  selectCandidate Conditional st = Some (sel, st') -> Graph st' = Graph st.
Proof.
  unfold selectCandidate. intros H. inv_bind H as n Hn.
  destruct (memb n (WorkList st)).
  - destruct (memb n _).
    + destruct (negb _); inversion H; reflexivity.
    + inv_bind H as b Hb. destruct (negb _); inversion H; reflexivity.
  - inversion H; reflexivity.
Qed.

Lemma forgetRemoved_graph (l : list NodeId) :
  forall acc st', fold_left forgetRemoved l acc = Some st' ->
  exists st, acc = Some st /\ Graph st' = Graph st.
Proof.
  induction l as [|n l IH]; intros acc st' H; simpl in H.
  - eauto.
  - apply IH in H. destruct H as [st1 [H1 H2]].
    unfold forgetRemoved in H1. inv_bind H1 as st Hst.
    inv_bind H1 as cur Hcur. inv_bind H1 as It HIt.
    inversion H1; subst st1; clear H1. simpl in H2. eauto.
Qed.

Lemma purgeAfterEdit_preserves st st' :
  purgeAfterEdit st = Some st' -> P (Graph st) -> P (Graph st').
Proof.
  unfold purgeAfterEdit. intros H HP. inv_bind H as r Hr.
  destruct r as [g1 removed]. apply forgetRemoved_graph in H.
  destruct H as [st1 [H1 H2]]. inversion H1; subst st1; clear H1.
  rewrite H2. simpl. eapply P_purgeDummies; eassumption.
Qed.

Lemma worklistIteration_preserves Conditional Sink st again st' :
  worklistIteration Conditional Sink st = Some (again, st') ->
  P (Graph st) -> P (Graph st').
Proof.
  unfold worklistIteration. intros H HP. inv_bind H as r Hr.
  destruct r as [sel st1]. apply selectCandidate_graph in Hr as Hg.
  destruct sel as [| | Candidate IsPostDom].
  - inversion H; subst. rewrite Hg. assumption.
  - inversion H; subst. rewrite Hg. assumption.
  - inv_bind H as st2 Hst2. inv_bind H as st3 Hst3.
    inversion H; subst. eapply purgeAfterEdit_preserves; [eassumption |].
    eapply P_edit; [eassumption |]. rewrite Hg. assumption.
Qed.

Lemma worklistLoop_preserves fuel Conditional Sink :
  forall st st', worklistLoop fuel Conditional Sink st = Some st' ->
  P (Graph st) -> P (Graph st').
Proof.
  induction fuel as [|k IH]; intros st st' H HP; simpl in H; [discriminate |].
  destruct (WorkList st); [inversion H; subst; assumption |].
  inv_bind H as r Hr. destruct r as [again st1].
  apply worklistIteration_preserves in Hr; [| assumption].
  destruct again.
  - eapply IH; eassumption.
  - inversion H; subst; assumption.
Qed.

Lemma processConditional_preserves fuel Sink st st' :
  processConditional fuel Sink st = Some st' ->
  P (Graph st) -> P (Graph st').
Proof.
  unfold processConditional. intros H HP.
  destruct (ConditionalNodes st); [inversion H; subst; assumption |].
  inv_bind H as b Hb. inv_bind H as It HIt.
  apply worklistLoop_preserves in H; assumption.
Qed.

Lemma conditionalsLoop_preserves fuel Sink :
  forall st st', conditionalsLoop fuel Sink st = Some st' ->
  P (Graph st) -> P (Graph st').
Proof.
  induction fuel as [|k IH]; intros st st' H HP; [discriminate |].
  cbn [conditionalsLoop] in H.
  destruct (ConditionalNodes st) eqn:E; [inversion H; subst; assumption |].
  inv_bind H as st1 Hst1. eapply IH; [eassumption |].
  eapply processConditional_preserves; eassumption.
Qed.

Lemma inflate_preserves fuel g g' :
  inflate fuel g = Some g' -> P g -> P g'.
Proof.
  unfold inflate. intros H HP. inv_bind H as g0 Hg0.
  apply untangle_preserves in Hg0; [| assumption].
  inv_bind H as d Hd. inv_bind H as u Hu.
  pose proof (P_addSink _ Hg0) as HS.
  destruct (addSink g0 (successorCountIs 0 g0)) as [Sink g1]. simpl in HS.
  inv_bind H as u2 Hu2. inv_bind H as Ordered HO. inv_bind H as PDM HPDM.
  inv_bind H as st Hst. inv_bind H as r Hr. destruct r as [g2 removed].
  simpl in H. eapply P_purgeVirtualSink; [eassumption |].
  eapply P_purgeDummies; [eassumption |].
  apply conditionalsLoop_preserves in Hst; assumption.
Qed.

End Preservation.

End PassFacts.

(** ** The passes keep the graph acyclic *)

Module AcyclicFacts.
Import CFG Props GraphFacts.

Lemma respects_fold_addEdge_to (r : NodeId -> nat) (Sink : NodeId)
  (l : list NodeId) :
  forall g, respects r g -> (forall e, In e l -> r e < r Sink) ->
  respects r (fold_left (fun acc Exit => addEdge acc (Exit, Sink)) l g).
Proof.
  induction l as [|e l IH]; intros g Hr Hl; simpl; [assumption |].
  apply IH.
  - apply respects_addEdge; [assumption |]. apply Hl. left. reflexivity.
  - intros e' He'. apply Hl. right. assumption.
Qed.


Lemma successorCountIs_In (k : nat) (g : RegionCFG) (n : NodeId) :
  In n (successorCountIs k g) ->
  exists b, In b (BlockNodes g) /\ ID b = n /\ successor_size b = k.
Proof.
  unfold successorCountIs. intros H. apply in_map_iff in H.
  destruct H as [b [Hid Hin]]. apply filter_In in Hin.
  destruct Hin as [Hin Hk]. apply Nat.eqb_eq in Hk. eauto.
Qed.

(** The sink is ranked above every node there was. *)
Lemma addSink_acyclic (g : RegionCFG) :
  Acyclic g -> Acyclic (snd (addSink g (successorCountIs 0 g))).
Proof.
  intros [r Hr]. unfold addSink, addArtificialNode.
  set (Sink := newID g).
  set (top := fold_right Nat.max 0 (map r (nodes g))).
  exists (fun x => if x =? Sink then S top else r x). simpl.
  apply respects_fold_addEdge_to.
  - apply respects_insertNode; [| reflexivity].
    apply respects_agree with (r := r); [assumption |].
    intros x Hx. fold Sink in Hx.
    destruct (x =? Sink) eqn:E; [apply Nat.eqb_eq in E; lia | reflexivity].
  - intros e He. apply successorCountIs_In in He.
    destruct He as [b [Hin [Hid _]]]. rewrite Nat.eqb_refl.
    pose proof (newID_gt_ID _ _ Hin) as Hlt. fold Sink in Hlt.
    destruct (e =? Sink) eqn:E; [apply Nat.eqb_eq in E; lia |].
    assert (r e <= top); [| lia].
    apply fold_max_ge. apply in_map. unfold nodes. subst e.
    apply in_map. assumption.
Qed.




Lemma edge_insertNode (g : RegionCFG) (b : BasicBlockNode) (a s : NodeId) :
  edge (insertNode g b) a s ->
  edge g a s \/ (a = ID b /\ In s (Successors b)).
Proof.
  intros [c [Hin [Hid Hs]]]. simpl in Hin. apply in_app_or in Hin.
  destruct Hin as [Hin | [<- | []]].
  - left. exists c. auto.
  - right. auto.
Qed.




(** *** [cloneUntilExit]

    While the postdominator is cloned up to the exits, every clone has the
    rank of the node it copies. *)


(** Giving a node one more successor of higher rank. *)
Lemma update_new_successor (g : RegionCFG) (n sc : NodeId)
  (f : BasicBlockNode -> BasicBlockNode) (r : NodeId -> nat) :
  idsBounded g -> respects r g -> sc < IDCounter g -> r n < r sc ->
  (forall b, In b (BlockNodes g) -> ID b = n ->
     ID (f b) = n
     /\ forall s, In s (Successors (f b)) -> edge g n s \/ s = sc) ->
  idsBounded (updateNode g n f) /\ respects r (updateNode g n f).
Proof.
  intros Hb Hr Hsc Hlt Hf. split.
  - apply idsBounded_updateNode; [assumption |]. intros b Hin Hid.
    destruct (Hf b Hin Hid) as [Hfid Hfs]. destruct (Hb b Hin) as [H1 H2].
    split; [lia |]. intros s Hs. destruct (Hfs s Hs) as [H | ->]; auto.
    destruct H as [c [Hc [_ Hcs]]]. apply (Hb c Hc). assumption.
  - apply respects_updateNode; [assumption |]. intros b Hin Hid s Hs.
    destruct (Hf b Hin Hid) as [Hfid Hfs]. rewrite Hfid.
    destruct (Hfs s Hs) as [H | ->]; [| assumption].
    apply Hr. assumption.
Qed.

Lemma cloneSuccessor_None Sink CurrentNode CurrentClone (l : list NodeId) :
  fold_left (cloneSuccessor Sink CurrentNode CurrentClone) l None = None.
Proof. induction l as [|s l IH]; simpl; [reflexivity | assumption]. Qed.

Lemma cloneSuccessor_inv Sink CurrentNode CurrentClone Successor
  g M W flag g' M' W' flag' (r : NodeId -> nat) :
  cloneSuccessor Sink CurrentNode CurrentClone (Some (g, M, W, flag)) Successor
  = Some (g', M', W', flag') ->
  cloneInv g M r -> In (CurrentNode, CurrentClone) M ->
  r CurrentNode < r Successor -> Successor < IDCounter g ->
  exists r', cloneInv g' M' r' /\ incl M M'
    /\ (forall x, x < IDCounter g -> r' x = r x)
    /\ IDCounter g <= IDCounter g'
    /\ (flag' = true -> flag = true \/ Successor = Sink).
Proof.
  unfold cloneSuccessor. simpl. intros H Hinv Hpair Hlt Hbound.
  destruct (Successor =? Sink) eqn:ES.
  { inversion H; subst. apply Nat.eqb_eq in ES. exists r.
    split; [assumption |]. split; [apply incl_refl |].
    split; [reflexivity |]. split; [lia | auto]. }
  inv_bind H as res Hres. destruct res as [[sc g1] M1].
  (* the clone of the successor, old or new *)
  assert (Hmid : exists r1, cloneInv g1 M1 r1 /\ incl M M1
            /\ (forall x, x < IDCounter g -> r1 x = r x)
            /\ IDCounter g <= IDCounter g1 /\ In (Successor, sc) M1).
  { destruct Hinv as [Hb [Hr Hp]].
    destruct (lookup M Successor) as [sc0|] eqn:EL.
    - inversion Hres; subst sc0 g1 M1; clear Hres. apply lookup_In in EL.
      exists r. split; [split; [assumption | split; assumption] |].
      split; [apply incl_refl |]. split; [reflexivity |].
      split; [lia | assumption].
    - inv_bind Hres as c Hc. destruct c as [d g0]. simpl in Hres.
      inversion Hres; subst sc g1 M1; clear Hres.
      apply cloneNode_inv in Hc. destruct Hc as [b [_ [Hd Hg0]]].
      pose proof (newID_ge_counter g) as Hge.
      exists (fun x => if x =? d then r Successor else r x).
      assert (Hag : forall x, x < newID g ->
                (if x =? d then r Successor else r x) = r x).
      { intros x Hx. destruct (x =? d) eqn:E; [| reflexivity].
        apply Nat.eqb_eq in E. lia. }
      subst g0. split; [split; [| split] |].
      + apply idsBounded_insertNode; [simpl; assumption | reflexivity].
      + apply respects_insertNode; [| reflexivity].
        eapply respects_agree; eassumption.
      + simpl. intros x c [Heq | Hin].
        * inversion Heq; subst x c. rewrite Nat.eqb_refl.
          rewrite Hag by lia. split; [reflexivity | lia].
        * destruct (Hp _ _ Hin) as [H1 [H2 H3]].
          rewrite !Hag by lia. split; [assumption | lia].
      + split; [apply incl_tl, incl_refl |]. split; [| split].
        * intros x Hx. apply Hag. lia.
        * simpl. lia.
        * left. reflexivity. }
  destruct Hmid as [r1 [[Hb1 [Hr1 Hp1]] [Hincl [Hag [Hmono HSc]]]]].
  inv_bind H as cur Hcur. inv_bind H as clone Hclone. inv_bind H as g2 Hg2.
  inversion H; subst g' M' W' flag'; clear H.
  destruct (Hinv) as [_ [_ Hp]]. destruct (Hp _ _ Hpair) as [_ [HCN _]].
  destruct (Hp1 _ _ (Hincl _ Hpair)) as [HCC _].
  destruct (Hp1 _ _ HSc) as [Hsc [_ Hscb]].
  assert (Hnew : r1 CurrentClone < r1 sc).
  { rewrite HCC, Hsc, (Hag _ HCN), (Hag _ Hbound). assumption. }
  assert (Hupd : idsBounded g2 /\ respects r1 g2 /\ IDCounter g2 = IDCounter g1).
  { apply findNode_In in Hclone. destruct Hclone as [Hcin Hcid].
    assert (Hfin : forall f,
              (forall b, In b (BlockNodes g1) -> ID b = CurrentClone ->
                 ID (f b) = CurrentClone
                 /\ forall s, In s (Successors (f b)) ->
                      edge g1 CurrentClone s \/ s = sc) ->
              idsBounded (updateNode g1 CurrentClone f)
              /\ respects r1 (updateNode g1 CurrentClone f)
              /\ IDCounter (updateNode g1 CurrentClone f) = IDCounter g1).
    { intros f Hf.
      destruct (update_new_successor g1 CurrentClone sc f r1) as [Ha Hb];
        auto. }
    destruct (isCheck clone).
    - inv_bind Hg2 as u Hu. inv_bind Hg2 as t Ht. inv_bind Hg2 as f Hf.
      destruct (t =? Successor).
      + inversion Hg2; subst g2; clear Hg2. apply Hfin.
        intros b Hin Hid. split; [assumption |]. unfold setTrue. simpl.
        intros s Hs.
        assert (Hcase : s = sc \/ In s (Successors b)).
        { destruct (Successors b) as [|s0 l]; simpl in *;
            destruct Hs as [Hs | Hs]; auto. }
        destruct Hcase as [-> | Hs']; [right; reflexivity | left].
        exists b. auto.
      + destruct (f =? Successor); [| discriminate].
        inv_bind Hg2 as clone' Hcl'. inversion Hg2; subst g2; clear Hg2.
        unfold setFalse in Hcl'.
        destruct (Successors clone) as [|t0 l] eqn:ESc; [discriminate |].
        inversion Hcl'; subst clone'; clear Hcl'. apply Hfin.
        intros b Hin Hid. split; [assumption |]. simpl.
        intros s [Hs | [Hs | []]]; [left | right; auto].
        exists clone. rewrite ESc. subst s. split; [assumption |].
        split; [assumption | left; reflexivity].
    - inversion Hg2; subst g2; clear Hg2. split; [| split; [| reflexivity]].
      + apply idsBounded_addEdge; assumption.
      + apply respects_addEdge; assumption. }
  destruct Hupd as [Hb2 [Hr2 Hc2]].
  exists r1. split; [split; [assumption | split; [assumption |]] |].
  - intros x c Hin. rewrite Hc2. apply Hp1. assumption.
  - split; [assumption |]. split; [assumption |]. split; [lia |].
    intros Hf. left. assumption.
Qed.

Lemma cloneSuccessors_inv Sink CurrentNode CurrentClone (l : list NodeId) :
  forall g M W flag g' M' W' flag' (r : NodeId -> nat),
  fold_left (cloneSuccessor Sink CurrentNode CurrentClone) l
            (Some (g, M, W, flag)) = Some (g', M', W', flag') ->
  cloneInv g M r -> In (CurrentNode, CurrentClone) M ->
  (forall s, In s l -> r CurrentNode < r s /\ s < IDCounter g) ->
  exists r', cloneInv g' M' r' /\ incl M M'
    /\ (forall x, x < IDCounter g -> r' x = r x)
    /\ IDCounter g <= IDCounter g'
    /\ (flag' = true -> flag = true \/ In Sink l).
Proof.
  induction l as [|s l IH]; intros g M W flag g' M' W' flag' r H Hinv Hpair Hl;
    cbn [fold_left] in H.
  - inversion H; subst. exists r. split; [assumption |].
    split; [apply incl_refl |]. split; [reflexivity |]. split; [lia | auto].
  - destruct (cloneSuccessor Sink CurrentNode CurrentClone
                (Some (g, M, W, flag)) s) as [[[[g1 M1] W1] flag1]|] eqn:E.
    2:{ rewrite cloneSuccessor_None in H. discriminate. }
    destruct (Hl s (or_introl eq_refl)) as [Hs1 Hs2].
    destruct (cloneSuccessor_inv _ _ _ _ _ _ _ _ _ _ _ _ r E Hinv Hpair Hs1 Hs2)
      as [r1 [Hinv1 [Hincl1 [Hag1 [Hmono1 Hflag1]]]]].
    assert (HCN : CurrentNode < IDCounter g).
    { destruct Hinv as [_ [_ Hp]]. apply (Hp _ _ Hpair). }
    destruct (IH _ _ _ _ _ _ _ _ r1 H Hinv1 (Hincl1 _ Hpair))
      as [r' [Hinv' [Hincl' [Hag' [Hmono' Hflag']]]]].
    { intros s' Hs'. destruct (Hl s' (or_intror Hs')) as [H1 H2].
      rewrite (Hag1 _ HCN), (Hag1 _ H2). split; [assumption | lia]. }
    exists r'. split; [assumption |].
    split; [eapply incl_tran; eassumption |].
    split; [intros x Hx; rewrite Hag' by lia; apply Hag1; assumption |].
    split; [lia |].
    intros Hf. destruct (Hflag' Hf) as [H1 | H1]; [| right; right; assumption].
    destruct (Hflag1 H1) as [H2 | H2]; [left; assumption | right; left; auto].
Qed.

Lemma cloneUntilExitLoop_ranks (fuel : nat) (Sink : NodeId) :
  forall g M W AP g' (r : NodeId -> nat) x0 c0,
  cloneUntilExitLoop fuel Sink g M W AP = Some g' ->
  cloneInv g M r -> In (x0, c0) M ->
  exists r', respects r' g' /\ r' c0 = r' x0.
Proof.
  induction fuel as [|k IH]; intros g M W AP g' r x0 c0 H Hinv Hpair;
    simpl in H; [discriminate |].
  destruct W as [|CurrentNode rest].
  { inversion H; subst. exists r. destruct Hinv as [_ [Hr Hp]].
    split; [assumption | apply (Hp _ _ Hpair)]. }
  inv_bind H as u Hu.
  destruct (memb CurrentNode AP); [eapply IH; eassumption |].
  inv_bind H as CurrentClone HCC. inv_bind H as cur Hcur.
  inv_bind H as res Hres. destruct res as [[[g1 M1] W1] flag].
  apply lookup_In in HCC. apply findNode_In in Hcur.
  destruct Hcur as [Hcin Hcid].
  destruct (cloneSuccessors_inv _ _ _ _ _ _ _ _ _ _ _ _ r Hres Hinv HCC)
    as [r1 [Hinv1 [Hincl1 [Hag1 [Hmono1 Hflag1]]]]].
  { intros s Hs. destruct Hinv as [Hb [Hr _]]. split.
    - apply Hr. exists cur. auto.
    - apply (Hb cur Hcin). assumption. }
  eapply (IH _ _ _ _ _ r1); [eassumption | | apply Hincl1; eassumption].
  destruct flag; [| assumption].
  destruct (Hflag1 eq_refl) as [Hf | Hf]; [discriminate |].
  destruct Hinv as [Hb [Hr Hp]]. destruct Hinv1 as [Hb1 [Hr1 Hp1]].
  assert (HS : Sink < IDCounter g) by (apply (Hb cur Hcin); assumption).
  destruct (Hp _ _ HCC) as [_ [HCN _]].
  destruct (Hp1 _ _ (Hincl1 _ HCC)) as [HCC1 _].
  split; [| split].
  - apply idsBounded_addEdge; [assumption | lia].
  - apply respects_addEdge; [assumption |].
    rewrite HCC1, (Hag1 _ HCN), (Hag1 _ HS). apply Hr. exists cur. auto.
  - intros x c Hin. apply Hp1. assumption.
Qed.

Lemma cloneUntilExit_ranks fuel g Node Sink Clone g' :
  cloneUntilExit fuel g Node Sink = Some (Clone, g') ->
  Acyclic g -> exists r, respects r g' /\ r Clone = r Node.
Proof.
  unfold cloneUntilExit. intros H [r Hr]. inv_bind H as c Hc.
  destruct c as [d g1]. inv_bind H as g2 Hg2. inversion H; subst d g'; clear H.
  apply cloneNode_inv in Hc. destruct Hc as [b [Hb [Hd Hg1]]].
  apply findNode_In in Hb. destruct Hb as [Hbin Hbid].
  pose proof (newID_gt_ID _ _ Hbin) as Hlt. rewrite Hbid, <- Hd in Hlt.
  apply (cloneUntilExitLoop_ranks _ _ _ _ _ _ _
           (fun x => if x =? Clone then r Node else r x) _ _ Hg2);
    [| left; reflexivity].
  assert (Hag : forall x, x < newID g ->
            (if x =? Clone then r Node else r x) = r x).
  { intros x Hx. destruct (x =? Clone) eqn:E; [| reflexivity].
    apply Nat.eqb_eq in E. lia. }
  subst g1. split; [| split].
  - apply idsBounded_insertNode; [simpl; assumption | reflexivity].
  - apply respects_insertNode; [| reflexivity].
    eapply respects_agree; eassumption.
  - simpl. intros x c [Heq | []]. inversion Heq; subst x c.
    rewrite Nat.eqb_refl. rewrite Hag by lia. split; [reflexivity | lia].
Qed.

Lemma splitPostDominator_acyclic {LLVM : Analyses}
  fuel DT g Conditional Child PostDominator Sink g' :
  splitPostDominator fuel DT g Conditional Child PostDominator Sink = Some g' ->
  Acyclic g -> Acyclic g'.
Proof.
  unfold splitPostDominator. intros H HA. inv_bind H as c Hc.
  destruct c as [Clone g1]. inv_bind H as g2 Hg2. inv_bind H as u Hu.
  inversion H; subst g'; clear H.
  destruct (cloneUntilExit_ranks _ _ _ _ _ _ Hc HA) as [r [Hr Heq]].
  exists r. eapply moveEdges_respects; [eassumption | assumption |].
  intros p Hp. rewrite Heq. assumption.
Qed.

(** [untangle] and [inflate] take an acyclic graph to an acyclic graph. *)
Lemma untangle_acyclic {LLVM : Analyses} fuel g g' :
  untangle fuel g = Some g' -> Acyclic g -> Acyclic g'.
Proof.
  apply PassFacts.untangle_preserves.
  - apply addSink_acyclic.
  - intros. eapply splitPostDominator_acyclic; eassumption.
  - intros ? ? ? ? H [r Hr]. exists r.
    eapply purgeVirtualSink_respects; eassumption.
Qed.


End AcyclicFacts.

(** ** [isDAG] accepts every acyclic graph *)

Module DAGFacts.
Import CFG Props GraphFacts.

Lemma respectsb_sound (r : NodeId -> nat) (g : RegionCFG) :
  respectsb r g = true -> respects r g.
Proof.
  unfold respectsb. intros H a s [b [Hin [Hid Hs]]].
  rewrite forallb_forall in H. specialize (H b Hin).
  rewrite forallb_forall in H. specialize (H s Hs).
  apply Nat.ltb_lt in H. subst a. assumption.
Qed.

Lemma hasEdge_edge (g : RegionCFG) (a s : NodeId) :
  hasEdge g a s = true <-> edge g a s.
Proof.
  unfold hasEdge. rewrite existsb_exists. split.
  - intros [b [Hin H]]. apply andb_true_iff in H. destruct H as [H1 H2].
    apply Nat.eqb_eq in H1. apply memb_In in H2. exists b. auto.
  - intros [b [Hin [Hid Hs]]]. exists b. split; [assumption |].
    apply andb_true_iff. split; [apply Nat.eqb_eq; assumption |].
    apply memb_In. assumption.
Qed.

Lemma path_rank (r : NodeId -> nat) (g : RegionCFG) (a b : NodeId) :
  respects r g -> path g a b -> r a < r b.
Proof.
  intros Hr Hp. induction Hp as [a s He | a m s He Hp IH].
  - apply Hr. assumption.
  - apply Nat.lt_trans with (r m); [apply Hr |]; assumption.
Qed.

(** An acyclic graph has no path from a node back to itself. *)
Lemma acyclic_no_cycle (g : RegionCFG) (a : NodeId) :
  Acyclic g -> ~ path g a a.
Proof.
  intros [r Hr] Hp. apply (path_rank r) in Hp; [lia | assumption].
Qed.

(** What the search returns was seen before or is reached from the stack. *)
Lemma dfs_sound (g : RegionCFG) (fuel : nat) :
  forall stack seen x, In x (dfs g fuel stack seen) ->
  In x seen \/ exists s, In s stack /\ (x = s \/ path g s x).
Proof.
  induction fuel as [|k IH]; intros stack seen x H; simpl in H; [auto |].
  destruct stack as [|n rest]; [auto |].
  destruct (memb n seen).
  - destruct (IH _ _ _ H) as [H1 | [s [Hs H1]]]; [auto |].
    right. exists s. split; [right; assumption | assumption].
  - destruct (IH _ _ _ H) as [[H1 | H1] | [s [Hs H1]]].
    + right. exists n. split; [left; reflexivity | left; auto].
    + auto.
    + right. apply in_app_or in Hs. destruct Hs as [Hs | Hs].
      * exists n. split; [left; reflexivity |]. right.
        apply edge_successorsOf in Hs.
        destruct H1 as [-> | H1];
          [apply path_edge | eapply path_step]; eassumption.
      * exists s. split; [right; assumption | assumption].
Qed.

Lemma dfs_seen (g : RegionCFG) (fuel : nat) :
  forall stack seen x, In x seen -> In x (dfs g fuel stack seen).
Proof.
  induction fuel as [|k IH]; intros stack seen x H; simpl; [assumption |].
  destruct stack as [|n rest]; [assumption |].
  destruct (memb n seen); apply IH; [assumption | right; assumption].
Qed.

Lemma dfs_NoDup (g : RegionCFG) (fuel : nat) :
  forall stack seen, NoDup seen -> NoDup (dfs g fuel stack seen).
Proof.
  induction fuel as [|k IH]; intros stack seen H; simpl; [assumption |].
  destruct stack as [|n rest]; [assumption |].
  destruct (memb n seen) eqn:E; apply IH; [assumption |].
  constructor; [| assumption]. apply memb_false_In. assumption.
Qed.

Lemma reachable_sound (g : RegionCFG) (n x : NodeId) :
  In x (reachable g n) -> x = n \/ path g n x.
Proof.
  unfold reachable. intros H. apply dfs_sound in H.
  destruct H as [[] | [s [[<- | []] H]]]. assumption.
Qed.

Lemma reachable_self (g : RegionCFG) (n : NodeId) : In n (reachable g n).
Proof.
  unfold reachable. simpl. apply dfs_seen. left. reflexivity.
Qed.

Lemma filter_eqb_absent (l : list NodeId) (x : NodeId) :
  ~ In x l -> filter (fun m => m =? x) l = [].
Proof.
  induction l as [|y l IH]; intros Hn; [reflexivity |]. simpl.
  destruct (y =? x) eqn:E.
  - apply Nat.eqb_eq in E. exfalso. apply Hn. left. assumption.
  - apply IH. intros Hin. apply Hn. right. assumption.
Qed.

Lemma filter_eqb_length (l : list NodeId) (x : NodeId) :
  NoDup l -> In x l -> length (filter (fun m => m =? x) l) = 1.
Proof.
  induction l as [|y l IH]; intros Hnd Hin; [destruct Hin |].
  inversion Hnd as [|? ? Hny Hnd']; subst. simpl.
  destruct (y =? x) eqn:E.
  - apply Nat.eqb_eq in E. subst y. simpl. f_equal.
    rewrite filter_eqb_absent; [reflexivity | assumption].
  - apply Nat.eqb_neq in E. destruct Hin as [Hin | Hin]; [contradiction |].
    apply IH; assumption.
Qed.

Lemma FoundSCC_of_acyclic (g : RegionCFG) : Acyclic g -> FoundSCC g = false.
Proof.
  intros HA. destruct HA as [r Hr]. unfold FoundSCC.
  apply not_true_is_false. intros H.
  apply existsb_exists in H. destruct H as [n [Hn H]].
  apply orb_true_iff in H. destruct H as [H | H].
  - apply negb_true_iff in H. apply Nat.eqb_neq in H. apply H.
    unfold sccOf.
    rewrite filter_ext_in with (g := fun m => m =? n).
    + apply filter_eqb_length; [| assumption].
      unfold reachable. apply dfs_NoDup. constructor.
    + intros m Hm. destruct (m =? n) eqn:E.
      * apply Nat.eqb_eq in E. subst m.
        apply andb_true_iff. split; apply memb_In, reachable_self.
      * apply Nat.eqb_neq in E. apply not_true_is_false. intros Hc.
        apply andb_true_iff in Hc. destruct Hc as [H1 H2].
        apply memb_In in H1, H2. apply reachable_sound in H1, H2.
        destruct H1 as [H1 | H1]; [contradiction |].
        destruct H2 as [H2 | H2]; [congruence |].
        apply (path_rank r) in H1, H2; try assumption. lia.
  - apply memb_In in H. apply edge_successorsOf in H. apply Hr in H. lia.
Qed.

Lemma isDAG_entry (g : RegionCFG) :
  In (EntryNode g) (nodes g) -> isDAG g = Some (negb (FoundSCC g)).
Proof.
  intros HE. unfold isDAG.
  destruct (findNode g (EntryNode g)) eqn:E; [reflexivity |].
  exfalso. apply in_map_iff in HE. destruct HE as [b [Hb Hin]].
  unfold findNode in E.
  apply (find_none _ _ E) in Hin. rewrite Hb, Nat.eqb_refl in Hin.
  discriminate.
Qed.

Lemma isDAG_Some (g : RegionCFG) (d : bool) :
  isDAG g = Some d -> In (EntryNode g) (nodes g) /\ d = negb (FoundSCC g).
Proof.
  unfold isDAG. intros H. inv_bind H as b Hb. inversion H. split;
    [| reflexivity].
  unfold findNode in Hb. apply find_some in Hb. destruct Hb as [Hin Hb].
  apply Nat.eqb_eq in Hb. rewrite <- Hb. apply in_map. exact Hin.
Qed.

Lemma isDAG_None (g : RegionCFG) :
  ~ In (EntryNode g) (nodes g) -> isDAG g = None.
Proof.
  intros HE. destruct (isDAG g) as [d|] eqn:E; [| reflexivity].
  apply isDAG_Some in E. destruct E as [E _]. contradiction.
Qed.

Lemma isDAG_of_acyclic (g : RegionCFG) :
  Acyclic g -> In (EntryNode g) (nodes g) -> isDAG g = Some true.
Proof.
  intros HA HE. rewrite (isDAG_entry g HE), (FoundSCC_of_acyclic g HA).
  reflexivity.
Qed.

End DAGFacts.

(** ** The passes keep every non-empty node

    Edges aside, a node is its identity, kind, weight and original block;
    the primitives either leave these alone, add a node with a fresh
    identity, or erase an empty node. *)

Module NodeFacts.
Import CFG Props GraphFacts.


Lemma nodes_sigs (g : RegionCFG) : nodes g = map sigID (sigs g).
Proof.
  unfold nodes, sigs. rewrite map_map. reflexivity.
Qed.

Lemma grows_refl (g : RegionCFG) : grows g g.
Proof. split; [apply incl_refl | auto]. Qed.

Lemma grows_trans (g1 g2 g3 : RegionCFG) :
  grows g1 g2 -> grows g2 g3 -> grows g1 g3.
Proof.
  intros [H1 H2] [H3 H4]. split; [eapply incl_tran; eassumption | auto].
Qed.

Lemma sigs_updateNode (g : RegionCFG) (n : NodeId)
  (f : BasicBlockNode -> BasicBlockNode) :
  (forall c, sig (f c) = sig c) -> sigs (updateNode g n f) = sigs g.
Proof.
  intros Hf. unfold sigs. simpl. rewrite map_map. apply map_ext.
  intros c. destruct (ID c =? n); [apply Hf | reflexivity].
Qed.

Lemma sigs_setSuccessors (g : RegionCFG) (n : NodeId)
  (l : BasicBlockNode -> list NodeId) :
  sigs (updateNode g n (fun c => setSuccessors c (l c))) = sigs g.
Proof. apply sigs_updateNode. reflexivity. Qed.

Lemma grows_same_sigs (g g' : RegionCFG) : sigs g' = sigs g -> grows g g'.
Proof.
  intros H. split.
  - rewrite H. apply incl_refl.
  - unfold distinctIDs. rewrite !nodes_sigs, H. auto.
Qed.

Lemma sigs_addEdge (g : RegionCFG) (e : NodeId * NodeId) :
  sigs (addEdge g e) = sigs g.
Proof. unfold addEdge. apply sigs_updateNode. reflexivity. Qed.

Lemma sigs_fold_addEdge (f : NodeId -> NodeId * NodeId) (l : list NodeId) :
  forall g, sigs (fold_left (fun acc x => addEdge acc (f x)) l g) = sigs g.
Proof.
  induction l as [|x l IH]; intros g; simpl; [reflexivity |].
  rewrite IH. apply sigs_addEdge.
Qed.

Lemma sigs_moveEdgeTarget (g g' : RegionCFG) (e : NodeId * NodeId)
  (new : NodeId) :
  moveEdgeTarget g e new = Some g' -> sigs g' = sigs g.
Proof.
  destruct e as [p old]. intros H. apply moveEdgeTarget_inv in H.
  destruct H as [b [l [_ [-> _]]]]. apply (sigs_setSuccessors g p (fun _ => l)).
Qed.

Lemma sigs_moveEdges (Target NewTarget : NodeId) (sel : NodeId -> bool)
  (l : list NodeId) :
  forall g g', moveEdges g l Target NewTarget sel = Some g' ->
  sigs g' = sigs g.
Proof.
  induction l as [|p l IH]; intros g g' H; cbn [moveEdges] in H.
  - inversion H; reflexivity.
  - destruct (sel p); [| apply IH; assumption].
    inv_bind H as g1 Hg1. rewrite (IH _ _ H).
    eapply sigs_moveEdgeTarget. eassumption.
Qed.

Lemma grows_insertNode (g : RegionCFG) (b : BasicBlockNode) :
  ID b = newID g -> grows g (insertNode g b).
Proof.
  intros Hid. split.
  - unfold sigs. simpl. rewrite map_app. apply incl_appl, incl_refl.
  - unfold distinctIDs, nodes. simpl. intros H. rewrite map_app. simpl.
    apply NoDup_app; [assumption | repeat constructor; auto |].
    intros x Hx [<- | []]. apply in_map_iff in Hx.
    destruct Hx as [c [Hc Hin]]. apply newID_gt_ID in Hin. lia.
Qed.

Lemma grows_cloneNode (g g' : RegionCFG) (n d : NodeId) :
  cloneNode g n = Some (d, g') -> grows g g'.
Proof.
  intros H. apply cloneNode_inv in H. destruct H as [b [_ [Hd ->]]].
  apply grows_insertNode. assumption.
Qed.

Lemma keepsSigs_trans (g0 g g' : RegionCFG) :
  keepsSigs g0 g -> keepsSigs g g' -> keepsSigs g0 g'.
Proof. intros H1 H2 s Hs He. apply H2; [apply H1 |]; assumption. Qed.

Lemma grows_keepsSigs (g g' : RegionCFG) : grows g g' -> keepsSigs g g'.
Proof. intros [H _] s Hs _. apply H. assumption. Qed.

(** *** The growing steps *)

Lemma grows_addSink (g : RegionCFG) (ExitNodes : list NodeId) :
  grows g (snd (addSink g ExitNodes)).
Proof.
  unfold addSink, addArtificialNode. cbv beta iota. cbn [snd].
  apply grows_trans with (insertNode g (mkNode (newID g) Empty 0%N None []));
    [apply grows_insertNode; reflexivity |].
  apply grows_same_sigs.
  apply (sigs_fold_addEdge (fun Exit => (Exit, newID g))).
Qed.

Lemma grows_cloneSuccessor Sink CurrentNode CurrentClone Successor
  g M W flag g' M' W' flag' :
  cloneSuccessor Sink CurrentNode CurrentClone (Some (g, M, W, flag)) Successor
  = Some (g', M', W', flag') -> grows g g'.
Proof.
  unfold cloneSuccessor. simpl. intros H.
  destruct (Successor =? Sink); [inversion H; subst; apply grows_refl |].
  inv_bind H as res Hres. destruct res as [[sc g1] M1].
  assert (H1 : grows g g1).
  { destruct (lookup M Successor).
    - inversion Hres; subst. apply grows_refl.
    - inv_bind Hres as c Hc. destruct c as [d g0]. simpl in Hres.
      inversion Hres; subst. eapply grows_cloneNode. eassumption. }
  inv_bind H as cur Hcur. inv_bind H as clone Hclone. inv_bind H as g2 Hg2.
  inversion H; subst g' M' W' flag'; clear H.
  eapply grows_trans; [eassumption |]. apply grows_same_sigs.
  destruct (isCheck clone).
  - inv_bind Hg2 as u Hu. inv_bind Hg2 as t Ht. inv_bind Hg2 as f Hf.
    destruct (t =? Successor).
    + inversion Hg2; subst. apply sigs_updateNode. reflexivity.
    + destruct (f =? Successor); [| discriminate].
      inv_bind Hg2 as clone' Hcl. inversion Hg2; subst.
      apply sigs_updateNode. reflexivity.
  - inversion Hg2; subst. apply sigs_addEdge.
Qed.

Lemma grows_cloneSuccessors Sink CurrentNode CurrentClone (l : list NodeId) :
  forall g M W flag g' M' W' flag',
  fold_left (cloneSuccessor Sink CurrentNode CurrentClone) l
            (Some (g, M, W, flag)) = Some (g', M', W', flag') ->
  grows g g'.
Proof.
  induction l as [|s l IH]; intros g M W flag g' M' W' flag' H;
    cbn [fold_left] in H.
  - inversion H; subst. apply grows_refl.
  - destruct (cloneSuccessor Sink CurrentNode CurrentClone
                (Some (g, M, W, flag)) s) as [[[[g1 M1] W1] flag1]|] eqn:E.
    + eapply grows_trans; [eapply grows_cloneSuccessor; eassumption |].
      eapply IH. eassumption.
    + rewrite AcyclicFacts.cloneSuccessor_None in H. discriminate.
Qed.

Lemma grows_cloneUntilExitLoop (fuel : nat) (Sink : NodeId) :
  forall g M W AP g',
  cloneUntilExitLoop fuel Sink g M W AP = Some g' -> grows g g'.
Proof.
  induction fuel as [|k IH]; intros g M W AP g' H; simpl in H;
    [discriminate |].
  destruct W as [|CurrentNode rest]; [inversion H; subst; apply grows_refl |].
  inv_bind H as u Hu.
  destruct (memb CurrentNode AP); [eapply IH; eassumption |].
  inv_bind H as CurrentClone HCC. inv_bind H as cur Hcur.
  inv_bind H as res Hres. destruct res as [[[g1 M1] W1] flag].
  eapply grows_trans; [eapply grows_cloneSuccessors; eassumption |].
  eapply grows_trans; [| eapply IH; eassumption].
  destruct flag; [| apply grows_refl].
  apply grows_same_sigs. apply sigs_addEdge.
Qed.

Lemma grows_cloneUntilExit fuel g Node Sink Clone g' :
  cloneUntilExit fuel g Node Sink = Some (Clone, g') -> grows g g'.
Proof.
  unfold cloneUntilExit. intros H. inv_bind H as c Hc. destruct c as [d g1].
  inv_bind H as g2 Hg2. inversion H; subst.
  eapply grows_trans; [eapply grows_cloneNode; eassumption |].
  eapply grows_cloneUntilExitLoop. eassumption.
Qed.

Lemma grows_splitPostDominator {LLVM : Analyses}
  fuel DT g Conditional Child PostDominator Sink g' :
  splitPostDominator fuel DT g Conditional Child PostDominator Sink = Some g' ->
  grows g g'.
Proof.
  unfold splitPostDominator. intros H. inv_bind H as c Hc.
  destruct c as [Clone g1]. inv_bind H as g2 Hg2. inv_bind H as u Hu.
  inversion H; subst g'; clear H.
  eapply grows_trans; [eapply grows_cloneUntilExit; eassumption |].
  apply grows_same_sigs. eapply sigs_moveEdges. eassumption.
Qed.

Lemma grows_insertDummy Conditional Sink Candidate IsPostDom st st' :
  insertDummy Conditional Sink Candidate IsPostDom st = Some st' ->
  grows (Graph st) (Graph st').
Proof.
  unfold insertDummy, addArtificialNode. intros H.
  inv_bind H as u Hu. inv_bind H as c Hc. inv_bind H as g2 Hg2.
  inversion H; subst st'; clear H. cbn [Graph].
  apply grows_trans
    with (insertNode (Graph st) (mkNode (newID (Graph st)) Empty 0%N None []));
    [apply grows_insertNode; reflexivity |].
  apply grows_same_sigs. rewrite sigs_addEdge.
  eapply sigs_moveEdges. eassumption.
Qed.

Lemma grows_duplicateNode Candidate st st' :
  duplicateNode Candidate st = Some st' -> grows (Graph st) (Graph st').
Proof.
  unfold duplicateNode. intros H. inv_bind H as c Hc.
  destruct c as [Duplicated g1]. inv_bind H as orig Horig.
  inv_bind H as cand Hcand. inv_bind H as g2 Hg2. inv_bind H as g3 Hg3.
  inversion H; subst st'; clear H. simpl.
  eapply grows_trans; [eapply grows_cloneNode; eassumption |].
  apply grows_same_sigs. rewrite (sigs_moveEdges _ _ _ _ _ _ Hg3).
  destruct (isCheck cand).
  - inv_bind Hg2 as t Ht. inv_bind Hg2 as f Hf. inversion Hg2; subst.
    apply sigs_updateNode. reflexivity.
  - inversion Hg2; subst.
    apply (sigs_fold_addEdge (fun Successor => (Duplicated, Successor))).
Qed.

Lemma grows_editCandidate Conditional Sink Candidate IsPostDom st st' :
  editCandidate Conditional Sink Candidate IsPostDom st = Some st' ->
  grows (Graph st) (Graph st').
Proof.
  unfold editCandidate. intros H.
  destruct (_ && _).
  - eapply grows_insertDummy. eassumption.
  - eapply grows_duplicateNode. eassumption.
Qed.

(** *** The erasing steps *)


Lemma sigs_eraseFirst (n : NodeId) (l : list BasicBlockNode) :
  map sig (eraseFirst n l) = eraseSig n (map sig l).
Proof.
  induction l as [|b l IH]; [reflexivity |]. simpl.
  unfold sigID at 1. simpl. destruct (ID b =? n); [reflexivity |].
  simpl. f_equal. assumption.
Qed.

Lemma eraseSig_incl (n : NodeId) (l : list Sig) : incl (eraseSig n l) l.
Proof.
  induction l as [|x l IH]; simpl; [apply incl_refl |].
  destruct (sigID x =? n).
  - apply incl_tl, incl_refl.
  - intros y [Hy | Hy]; [left; assumption | right; apply IH; assumption].
Qed.

Lemma eraseSig_NoDup (n : NodeId) (l : list Sig) :
  NoDup (map sigID l) -> NoDup (map sigID (eraseSig n l)).
Proof.
  induction l as [|x l IH]; simpl; intros H; [assumption |].
  inversion H as [|? ? Hn Hnd]; subst.
  destruct (sigID x =? n); [assumption |]. simpl.
  constructor; [| apply IH; assumption].
  intros Hin. apply Hn. apply in_map_iff in Hin.
  destruct Hin as [y [Hy Hin]]. apply in_map_iff. exists y.
  split; [assumption |]. eapply eraseSig_incl. eassumption.
Qed.

(** Erasing an empty node loses no non-empty one. *)
Lemma eraseSig_keeps (n : NodeId) (l : list Sig) :
  (forall e, find (fun x => sigID x =? n) l = Some e -> sigEmpty e = true) ->
  forall s, In s l -> sigEmpty s = false -> In s (eraseSig n l).
Proof.
  induction l as [|x l IH]; intros He s Hin Hs; [destruct Hin |].
  simpl in *. destruct (sigID x =? n) eqn:E.
  - destruct Hin as [-> | Hin]; [| assumption].
    rewrite (He _ eq_refl) in Hs. discriminate.
  - destruct Hin as [-> | Hin]; [left; reflexivity |].
    right. apply IH; assumption.
Qed.

Lemma find_sig (n : NodeId) (l : list BasicBlockNode) :
  find (fun x => sigID x =? n) (map sig l)
  = option_map sig (find (fun b => ID b =? n) l).
Proof.
  induction l as [|b l IH]; [reflexivity |]. simpl.
  unfold sigID at 1. simpl. destruct (ID b =? n); [reflexivity | assumption].
Qed.

Lemma sigEmpty_sig (b : BasicBlockNode) : sigEmpty (sig b) = isEmpty b.
Proof. reflexivity. Qed.

Lemma sig_unique (l : list Sig) (s s' : Sig) :
  NoDup (map sigID l) -> In s l -> In s' l -> sigID s = sigID s' -> s = s'.
Proof.
  induction l as [|x l IH]; intros Hnd Hs Hs' Heq; [destruct Hs |].
  simpl in Hnd. inversion Hnd as [|? ? Hn Hnd']; subst.
  destruct Hs as [-> | Hs], Hs' as [-> | Hs'].
  - reflexivity.
  - exfalso. apply Hn. rewrite Heq. apply in_map. assumption.
  - exfalso. apply Hn. rewrite <- Heq. apply in_map. assumption.
  - apply IH; assumption.
Qed.

Lemma sigs_fold_removeSuccessor (Node : NodeId) (l : list NodeId) :
  forall g,
  sigs (fold_left (fun acc Predecessor =>
          updateNode acc Predecessor (fun b => removeSuccessor b Node)) l g)
  = sigs g.
Proof.
  induction l as [|p l IH]; intros g; simpl; [reflexivity |].
  rewrite IH. apply sigs_updateNode. reflexivity.
Qed.

Lemma removeNode_sigs (g g' : RegionCFG) (n : NodeId) :
  removeNode g n = Some g' -> sigs g' = eraseSig n (sigs g).
Proof.
  unfold removeNode. intros H. inv_bind H as b Hb.
  inversion H; subst g'; clear H. unfold sigs at 1. simpl.
  rewrite sigs_eraseFirst. fold (sigs (fold_left (fun acc Predecessor =>
    updateNode acc Predecessor (fun b => removeSuccessor b n))
    (predecessors g n) g)).
  rewrite sigs_fold_removeSuccessor. reflexivity.
Qed.

(** Removing a node whose identity belongs to an empty node. *)
Lemma removeNode_keeps (g g' : RegionCFG) (n : NodeId) :
  removeNode g n = Some g' -> distinctIDs g ->
  (forall b, findNode g n = Some b -> isEmpty b = true) ->
  distinctIDs g' /\ keepsSigs g g' /\ incl (sigs g') (sigs g).
Proof.
  intros H Hd He. apply removeNode_sigs in H.
  unfold distinctIDs in *. rewrite nodes_sigs in *. rewrite H.
  split; [apply eraseSig_NoDup; assumption |].
  split; [| apply eraseSig_incl].
  intros s Hs Hne. rewrite H. apply eraseSig_keeps; [| assumption | assumption].
  intros e Hfind. unfold sigs in Hfind. rewrite find_sig in Hfind.
  fold (findNode g n) in Hfind.
  destruct (findNode g n) as [b|] eqn:E; [| discriminate].
  simpl in Hfind. inversion Hfind; subst e. rewrite sigEmpty_sig.
  apply He. reflexivity.
Qed.

Lemma purgeNode_keeps (g g' : RegionCFG) (b : BasicBlockNode) :
  In b (BlockNodes g) -> isEmpty b = true -> purgeNode g b = Some g' ->
  distinctIDs g -> distinctIDs g' /\ keepsSigs g g'.
Proof.
  unfold purgeNode. intros Hin Hemp H Hd.
  inv_bind H as P HP. inv_bind H as S HS. inv_bind H as g1 Hg1.
  apply sigs_moveEdgeTarget in Hg1.
  assert (Hd1 : distinctIDs g1).
  { unfold distinctIDs in *. rewrite nodes_sigs in *. rewrite Hg1.
    assumption. }
  destruct (removeNode_keeps _ _ _ H Hd1) as [H1 [H2 _]].
  - intros b1 Hb1. apply findNode_In in Hb1. destruct Hb1 as [Hb1 Hid].
    rewrite <- sigEmpty_sig.
    rewrite (sig_unique (sigs g) (sig b1) (sig b)).
    + rewrite sigEmpty_sig. assumption.
    + unfold distinctIDs in Hd. rewrite nodes_sigs in Hd. assumption.
    + rewrite <- Hg1. apply in_map. assumption.
    + apply in_map. assumption.
    + assumption.
  - split; [assumption |]. intros s Hs Hne. apply H2; [| assumption].
    rewrite Hg1. assumption.
Qed.

Lemma purgeDummiesLoop_keeps (fuel : nat) :
  forall g acc g' removed,
  purgeDummiesLoop fuel g acc = Some (g', removed) ->
  distinctIDs g -> distinctIDs g' /\ keepsSigs g g'.
Proof.
  induction fuel as [|k IH]; intros g acc g' removed H Hd; simpl in H;
    [discriminate |].
  destruct (find (isPurgeable g) (BlockNodes g)) as [b|] eqn:E.
  - inv_bind H as g1 Hg1. apply find_some in E. destruct E as [Hin Hp].
    unfold isPurgeable in Hp. apply andb_true_iff in Hp.
    destruct Hp as [Hp _]. apply andb_true_iff in Hp. destruct Hp as [Hp _].
    destruct (purgeNode_keeps _ _ _ Hin Hp Hg1 Hd) as [H1 H2].
    destruct (IH _ _ _ _ H H1) as [H3 H4].
    split; [assumption | eapply keepsSigs_trans; eassumption].
  - inversion H; subst. split; [assumption |]. intros s Hs _. assumption.
Qed.

Lemma collectPurgeList_empty (fuel : nat) (g : RegionCFG) :
  forall W acc PL, collectPurgeList fuel g W acc = Some PL ->
  (forall n, In n acc -> exists b, findNode g n = Some b /\ isEmpty b = true) ->
  forall n, In n PL -> exists b, findNode g n = Some b /\ isEmpty b = true.
Proof.
  induction fuel as [|k IH]; intros W acc PL H Hacc; simpl in H;
    [discriminate |].
  destruct W as [|c rest]; [inversion H; subst; assumption |].
  inv_bind H as b Hb. destruct (isEmpty b) eqn:E.
  - apply (IH _ _ _ H). intros n Hn. apply in_app_or in Hn.
    destruct Hn as [Hn | [<- | []]]; [apply Hacc; assumption | eauto].
  - apply (IH _ _ _ H). assumption.
Qed.

Lemma removeNodes_keeps (PL : list NodeId) :
  forall g g', removeNodes g PL = Some g' -> distinctIDs g ->
  (forall n, In n PL -> forall b, findNode g n = Some b -> isEmpty b = true) ->
  distinctIDs g' /\ keepsSigs g g'.
Proof.
  induction PL as [|n PL IH]; intros g g' H Hd He; simpl in H.
  - inversion H; subst. split; [assumption |]. intros s Hs _. assumption.
  - inv_bind H as g1 Hg1.
    destruct (removeNode_keeps _ _ _ Hg1 Hd (He n (or_introl eq_refl)))
      as [H1 [H2 H3]].
    destruct (IH _ _ H H1) as [H4 H5].
    + intros m Hm b1 Hb1. apply findNode_In in Hb1.
      destruct Hb1 as [Hb1 Hid].
      assert (Hs1 : In (sig b1) (sigs g)) by (apply H3, in_map; assumption).
      unfold sigs in Hs1. apply in_map_iff in Hs1.
      destruct Hs1 as [b0 [Hsig Hb0]].
      destruct (In_findNode _ _ Hb0) as [b0' Hb0'].
      assert (Hid0 : ID b0 = m).
      { rewrite <- Hid. change (sigID (sig b0) = sigID (sig b1)).
        rewrite Hsig. reflexivity. }
      rewrite Hid0 in Hb0'. pose proof (He m (or_intror Hm) _ Hb0') as Hemp.
      apply findNode_In in Hb0'. destruct Hb0' as [Hb0' Hid0'].
      rewrite <- sigEmpty_sig, <- Hsig.
      rewrite (sig_unique (sigs g) (sig b0) (sig b0')).
      * rewrite sigEmpty_sig. assumption.
      * unfold distinctIDs in Hd. rewrite nodes_sigs in Hd. assumption.
      * apply in_map. assumption.
      * apply in_map. assumption.
      * unfold sigID, sig. simpl. congruence.
    + split; [assumption | eapply keepsSigs_trans; eassumption].
Qed.

Lemma purgeVirtualSink_keeps fuel g Sink g' :
  purgeVirtualSink fuel g Sink = Some g' -> distinctIDs g ->
  distinctIDs g' /\ keepsSigs g g'.
Proof.
  unfold purgeVirtualSink. intros H Hd. inv_bind H as PL HPL.
  apply (removeNodes_keeps _ _ _ H Hd).
  intros n Hn b Hb.
  destruct (collectPurgeList_empty _ _ _ _ _ HPL (fun n (H : In n []) =>
              match H with end) n Hn) as [b' [Hb' He]].
  congruence.
Qed.

(** *** [untangle] and [inflate] *)


Lemma kept_grows (g0 g g' : RegionCFG) : grows g g' -> kept g0 g -> kept g0 g'.
Proof.
  intros [Hi Hd] [H1 H2]. split; [auto |].
  intros s Hs He. apply Hi. apply H2; assumption.
Qed.

Lemma untangle_kept {LLVM : Analyses} fuel g0 g g' :
  untangle fuel g = Some g' -> kept g0 g -> kept g0 g'.
Proof.
  apply PassFacts.untangle_preserves.
  - intros x. apply kept_grows, grows_addSink.
  - intros until g'0. intros H. apply kept_grows.
    eapply grows_splitPostDominator. eassumption.
  - intros f x S x' H [H1 H2].
    destruct (purgeVirtualSink_keeps _ _ _ _ H H1) as [H3 H4].
    split; [assumption | eapply keepsSigs_trans; eassumption].
Qed.

Lemma inflate_kept {LLVM : Analyses} fuel g0 g g' :
  inflate fuel g = Some g' -> kept g0 g -> kept g0 g'.
Proof.
  apply PassFacts.inflate_preserves.
  - intros x. apply kept_grows, grows_addSink.
  - intros until g'0. intros H. apply kept_grows.
    eapply grows_splitPostDominator. eassumption.
  - intros f x S x' H [H1 H2].
    destruct (purgeVirtualSink_keeps _ _ _ _ H H1) as [H3 H4].
    split; [assumption | eapply keepsSigs_trans; eassumption].
  - intros x x' removed H [H1 H2].
    destruct (purgeDummiesLoop_keeps _ _ _ _ _ H H1) as [H3 H4].
    split; [assumption | eapply keepsSigs_trans; eassumption].
  - intros until st'. intros H. apply kept_grows.
    eapply grows_editCandidate. eassumption.
Qed.

Lemma keepsSigs_keepsNodes (g g' : RegionCFG) :
  keepsSigs g g' -> keepsNodes g g'.
Proof.
  intros H b Hin He.
  assert (Hs : In (sig b) (sigs g')).
  { apply H; [apply in_map; assumption | rewrite sigEmpty_sig; assumption]. }
  unfold sigs in Hs. apply in_map_iff in Hs. destruct Hs as [b' [Hsig Hb']].
  exists b'. inversion Hsig. auto.
Qed.

Lemma getWeight_le_sum (c : BasicBlockNode) (l : list BasicBlockNode) :
  In c l -> (getWeight c <= fold_right (fun c acc => getWeight c + acc) 0 l)%N.
Proof.
  induction l as [|x l IH]; intros Hin; [destruct Hin |]. simpl.
  destruct Hin as [-> | Hin]; [lia |]. specialize (IH Hin). lia.
Qed.

Lemma keepsNodes_classWeight (g g' : RegionCFG) (b : BasicBlockNode) :
  keepsNodes g g' -> In b (BlockNodes g) ->
  (getWeight b <= classWeight g' b)%N.
Proof.
  intros Hk Hin. destruct (isEmpty b) eqn:E.
  - unfold getWeight. rewrite E. lia.
  - destruct (Hk b Hin E) as [b' [Hb' [Hid [Hty [Hw Ho]]]]].
    assert (Hgw : getWeight b = getWeight b').
    { unfold getWeight, isEmpty in *. rewrite Hty, Hw. reflexivity. }
    rewrite Hgw. unfold classWeight. apply getWeight_le_sum.
    unfold equivalenceClassOf. apply filter_In. split; [assumption |].
    rewrite Hid, Nat.eqb_refl. apply orb_true_r.
Qed.

End NodeFacts.

(** ** [purgeDummies] on a chain [A -> Dummy -> B] *)

Module PurgeFacts.
Import CFG Props GraphFacts NodeFacts.

Lemma node_unique (l : list BasicBlockNode) (b c : BasicBlockNode) :
  NoDup (map ID l) -> In b l -> In c l -> ID b = ID c -> b = c.
Proof.
  induction l as [|x l IH]; intros Hnd Hb Hc Heq; [destruct Hb |].
  simpl in Hnd. inversion Hnd as [|? ? Hn Hnd']; subst.
  destruct Hb as [-> | Hb], Hc as [-> | Hc].
  - reflexivity.
  - exfalso. apply Hn. rewrite Heq. apply in_map. assumption.
  - exfalso. apply Hn. rewrite <- Heq. apply in_map. assumption.
  - apply IH; assumption.
Qed.

Lemma findNode_unique (g : RegionCFG) (b c : BasicBlockNode) :
  distinctIDs g -> In b (BlockNodes g) -> findNode g (ID b) = Some c -> c = b.
Proof.
  intros Hd Hin Hf. apply findNode_In in Hf. destruct Hf as [Hc Hid].
  apply (node_unique (BlockNodes g)); assumption.
Qed.


Lemma predecessors_profs (g : RegionCFG) (D : NodeId) :
  predecessors g D = flatProfs (profs D g).
Proof.
  unfold predecessors, flatProfs, profs.
  induction (BlockNodes g) as [|c l IH]; [reflexivity |]. simpl.
  rewrite IH. reflexivity.
Qed.

Lemma profs_updateNode (D : NodeId) (g : RegionCFG) (n : NodeId)
  (f : BasicBlockNode -> BasicBlockNode) :
  (forall c, In c (BlockNodes g) -> ID c = n -> prof D (f c) = prof D c) ->
  profs D (updateNode g n f) = profs D g.
Proof.
  intros Hf. unfold profs. simpl. rewrite map_map. apply map_ext_in.
  intros c Hin. destruct (ID c =? n) eqn:E; [| reflexivity].
  apply Nat.eqb_eq in E. apply Hf; assumption.
Qed.

Lemma profs_eraseFirst (D n : NodeId) (l : list BasicBlockNode) :
  map (prof D) (eraseFirst n l) = eraseProf n (map (prof D) l).
Proof.
  induction l as [|b l IH]; [reflexivity |]. simpl.
  destruct (ID b =? n); [reflexivity |]. simpl. f_equal. assumption.
Qed.

Lemma flatProfs_eraseProf (n : NodeId) (l : list (NodeId * nat)) :
  (forall e, find (fun x => fst x =? n) l = Some e -> snd e = 0) ->
  flatProfs (eraseProf n l) = flatProfs l.
Proof.
  induction l as [|[a k] l IH]; intros He; [reflexivity |].
  cbn [eraseProf find fst] in *. destruct (a =? n) eqn:E.
  - pose proof (He (a, k) eq_refl) as Hk. simpl in Hk. subst k.
    reflexivity.
  - unfold flatProfs in *. simpl. rewrite IH by assumption. reflexivity.
Qed.

Lemma find_prof (D n : NodeId) (l : list BasicBlockNode) :
  find (fun x => fst x =? n) (map (prof D) l)
  = option_map (prof D) (find (fun b => ID b =? n) l).
Proof.
  induction l as [|b l IH]; [reflexivity |]. simpl.
  destruct (ID b =? n); [reflexivity | assumption].
Qed.

Lemma profs_fold_removeSuccessor (D X : NodeId) (l : list NodeId) :
  D <> X -> forall g,
  profs D (fold_left (fun acc Predecessor =>
             updateNode acc Predecessor (fun b => removeSuccessor b X)) l g)
  = profs D g.
Proof.
  intros Hne. induction l as [|p l IH]; intros g; simpl; [reflexivity |].
  rewrite IH. apply profs_updateNode. intros c _ _. unfold prof. simpl.
  rewrite count_removeFirst_other by assumption. reflexivity.
Qed.

(** Removing a node that has no edge to [D] leaves the predecessors of [D]
    as they are. *)
Lemma removeNode_predecessors (g g' : RegionCFG) (X D : NodeId) :
  removeNode g X = Some g' -> D <> X ->
  (forall x, findNode g X = Some x ->
     count_occ Nat.eq_dec (Successors x) D = 0) ->
  predecessors g' D = predecessors g D.
Proof.
  unfold removeNode. intros H Hne Hx. inv_bind H as x Hfx.
  inversion H; subst g'; clear H.
  set (g1 := fold_left (fun acc Predecessor =>
    updateNode acc Predecessor (fun b => removeSuccessor b X))
    (predecessors g X) g).
  rewrite !predecessors_profs.
  change (profs D (setBlockNodes g1 (eraseFirst X (BlockNodes g1))))
    with (map (prof D) (eraseFirst X (BlockNodes g1))).
  rewrite profs_eraseFirst.
  change (map (prof D) (BlockNodes g1)) with (profs D g1). unfold g1.
  rewrite profs_fold_removeSuccessor by assumption.
  apply flatProfs_eraseProf. intros e He. unfold profs in He.
  rewrite find_prof in He. fold (findNode g X) in He. rewrite Hfx in He.
  simpl in He. inversion He; subst e. simpl. apply Hx. assumption.
Qed.

Lemma profs_moveEdgeTarget (D : NodeId) (g g' : RegionCFG)
  (P X S : NodeId) :
  distinctIDs g -> moveEdgeTarget g (P, X) S = Some g' ->
  D <> X -> D <> S -> profs D g' = profs D g.
Proof.
  intros Hd H HX HS. apply moveEdgeTarget_inv in H.
  destruct H as [b [l [Hb [-> [_ [_ [_ [Hcount _]]]]]]]].
  apply profs_updateNode. intros c Hc Hid. unfold prof. simpl.
  rewrite <- Hid in Hb. apply (findNode_unique g c b Hd Hc) in Hb. subst b.
  rewrite Hcount by congruence. reflexivity.
Qed.

Lemma distinctIDs_same_sigs (g g' : RegionCFG) :
  sigs g' = sigs g -> distinctIDs g -> distinctIDs g'.
Proof.
  intros H. unfold distinctIDs. rewrite !nodes_sigs, H. auto.
Qed.

Lemma purgeNode_predecessors (g g' : RegionCFG) (x : BasicBlockNode)
  (S D : NodeId) :
  distinctIDs g -> In x (BlockNodes g) -> Successors x = [S] ->
  purgeNode g x = Some g' -> D <> ID x -> D <> S ->
  predecessors g' D = predecessors g D.
Proof.
  unfold purgeNode. intros Hd Hin HS H HX HDS.
  inv_bind H as P HP. inv_bind H as S' HS'. inv_bind H as g1 Hg1.
  rewrite HS in HS'. simpl in HS'. inversion HS'; subst S'; clear HS'.
  rewrite (removeNode_predecessors _ _ _ _ H HX).
  - rewrite !predecessors_profs.
    rewrite (profs_moveEdgeTarget D _ _ _ _ _ Hd Hg1 HX HDS). reflexivity.
  - intros x1 Hx1.
    assert (Hp : find (fun y => fst y =? ID x) (profs D g1)
                 = Some (prof D x1)).
    { unfold profs. rewrite find_prof. fold (findNode g1 (ID x)).
      rewrite Hx1. reflexivity. }
    rewrite (profs_moveEdgeTarget D _ _ _ _ _ Hd Hg1 HX HDS) in Hp.
    unfold profs in Hp. rewrite find_prof in Hp.
    fold (findNode g (ID x)) in Hp.
    destruct (findNode g (ID x)) as [x0|] eqn:E; [| discriminate].
    apply (findNode_unique g x x0 Hd Hin) in E. subst x0. simpl in Hp.
    inversion Hp as [Hc]. rewrite HS. simpl.
    destruct (Nat.eq_dec S D); [congruence | reflexivity].
Qed.

Lemma setSuccessors_same (d : BasicBlockNode) :
  setSuccessors d (Successors d) = d.
Proof. destruct d; reflexivity. Qed.

Lemma removeFirst_absent (n : NodeId) (l : list NodeId) :
  ~ In n l -> removeFirst n l = l.
Proof.
  induction l as [|x l IH]; intros Hn; [reflexivity |]. simpl.
  destruct (x =? n) eqn:E.
  - apply Nat.eqb_eq in E. exfalso. apply Hn. left. assumption.
  - f_equal. apply IH. intros H. apply Hn. right. assumption.
Qed.

Lemma In_removeFirst_other (n s : NodeId) (l : list NodeId) :
  In s l -> s <> n -> In s (removeFirst n l).
Proof.
  intros Hin Hne. apply (count_occ_In Nat.eq_dec).
  rewrite count_removeFirst_other by assumption.
  apply (count_occ_In Nat.eq_dec). assumption.
Qed.

Lemma In_updateNode_same (g : RegionCFG) (n : NodeId)
  (f : BasicBlockNode -> BasicBlockNode) (d : BasicBlockNode) :
  In d (BlockNodes g) -> (ID d = n -> f d = d) ->
  In d (BlockNodes (updateNode g n f)).
Proof.
  intros Hin Hf. simpl. apply in_map_iff. exists d. split; [| assumption].
  destruct (ID d =? n) eqn:E; [| reflexivity].
  apply Nat.eqb_eq in E. auto.
Qed.

Lemma In_eraseFirst_other (n : NodeId) (l : list BasicBlockNode)
  (d : BasicBlockNode) :
  In d l -> ID d <> n -> In d (eraseFirst n l).
Proof.
  induction l as [|x l IH]; intros Hin Hne; [destruct Hin |]. simpl.
  destruct (ID x =? n) eqn:E.
  - destruct Hin as [-> | Hin]; [| assumption].
    apply Nat.eqb_eq in E. contradiction.
  - destruct Hin as [-> | Hin]; [left; reflexivity | right; auto].
Qed.

Lemma fold_removeSuccessor_node_other (X : NodeId) (d : BasicBlockNode)
  (l : list NodeId) :
  ~ In X (Successors d) -> forall g, In d (BlockNodes g) ->
  In d (BlockNodes (fold_left (fun acc Predecessor =>
          updateNode acc Predecessor (fun b => removeSuccessor b X)) l g)).
Proof.
  intros HX. induction l as [|p l IH]; intros g Hin; simpl; [assumption |].
  apply IH. apply In_updateNode_same; [assumption |]. intros _.
  unfold removeSuccessor. rewrite removeFirst_absent by assumption.
  apply setSuccessors_same.
Qed.

(** A node that has no edge to the purged one is left as it is. *)
Lemma purgeNode_node_other (g g' : RegionCFG) (x d : BasicBlockNode) :
  distinctIDs g -> In d (BlockNodes g) -> ~ In (ID x) (Successors d) ->
  ID d <> ID x -> purgeNode g x = Some g' -> In d (BlockNodes g').
Proof.
  unfold purgeNode. intros Hd Hin HX Hne H.
  inv_bind H as P HP. inv_bind H as S HS. inv_bind H as g1 Hg1.
  assert (H1 : In d (BlockNodes g1)).
  { apply moveEdgeTarget_inv in Hg1.
    destruct Hg1 as [b [l [Hb [-> [Hold _]]]]].
    apply In_updateNode_same; [assumption |]. intros Hid.
    rewrite <- Hid in Hb. apply (findNode_unique g d b Hd Hin) in Hb.
    subst b. contradiction. }
  unfold removeNode in H. inv_bind H as x1 Hx1.
  inversion H; subst g'; clear H. simpl.
  apply In_eraseFirst_other; [| assumption].
  apply fold_removeSuccessor_node_other; assumption.
Qed.

Lemma edge_updateNode_keep (g : RegionCFG) (n : NodeId)
  (f : BasicBlockNode -> BasicBlockNode) (a s : NodeId) :
  edge g a s ->
  (forall c, In c (BlockNodes g) -> ID c = n -> In s (Successors c) ->
     ID (f c) = ID c /\ In s (Successors (f c))) ->
  edge (updateNode g n f) a s.
Proof.
  intros [c [Hin [Hid Hs]]] Hf.
  exists (if ID c =? n then f c else c). split.
  - simpl. apply in_map_iff. exists c. auto.
  - destruct (ID c =? n) eqn:E; [| auto]. apply Nat.eqb_eq in E.
    destruct (Hf c Hin E Hs) as [H1 H2]. split; [congruence | assumption].
Qed.

Lemma edge_moveEdgeTarget_keep (g g' : RegionCFG) (P X S a s : NodeId) :
  distinctIDs g -> moveEdgeTarget g (P, X) S = Some g' ->
  edge g a s -> s <> X -> edge g' a s.
Proof.
  intros Hd H He Hne. apply moveEdgeTarget_inv in H.
  destruct H as [b [l [Hb [-> [_ [_ [Hnew [Hcount _]]]]]]]].
  apply edge_updateNode_keep; [assumption |].
  intros c Hc Hid Hs. split; [reflexivity |]. simpl.
  rewrite <- Hid in Hb. apply (findNode_unique g c b Hd Hc) in Hb. subst b.
  destruct (Nat.eq_dec s S) as [-> | HS]; [assumption |].
  apply (count_occ_In Nat.eq_dec). rewrite Hcount by assumption.
  apply (count_occ_In Nat.eq_dec). assumption.
Qed.

Lemma edge_removeNode_keep (g g' : RegionCFG) (X a s : NodeId) :
  removeNode g X = Some g' -> edge g a s -> a <> X -> s <> X ->
  edge g' a s.
Proof.
  unfold removeNode. intros H He Ha Hs. inv_bind H as x Hx.
  inversion H; subst g'; clear H.
  assert (H1 : forall l g0, edge g0 a s ->
            edge (fold_left (fun acc Predecessor =>
              updateNode acc Predecessor (fun b => removeSuccessor b X))
              l g0) a s).
  { induction l as [|p l IH]; intros g0 H0; simpl; [assumption |].
    apply IH. apply edge_updateNode_keep; [assumption |].
    intros c _ _ Hc. split; [reflexivity |]. simpl.
    apply In_removeFirst_other; assumption. }
  destruct (H1 (predecessors g X) g He) as [c [Hin [Hid Hcs]]].
  exists c. split; [| auto]. simpl. apply In_eraseFirst_other; congruence.
Qed.

Lemma purgeNode_edge_keep (g g' : RegionCFG) (x : BasicBlockNode)
  (a s : NodeId) :
  distinctIDs g -> purgeNode g x = Some g' -> edge g a s ->
  a <> ID x -> s <> ID x -> edge g' a s.
Proof.
  unfold purgeNode. intros Hd H He Ha Hs.
  inv_bind H as P HP. inv_bind H as S HS. inv_bind H as g1 Hg1.
  eapply edge_removeNode_keep; [eassumption | | assumption | assumption].
  eapply edge_moveEdgeTarget_keep; eassumption.
Qed.

Lemma eraseSig_absent (n : NodeId) (l : list Sig) :
  NoDup (map sigID l) -> ~ In n (map sigID (eraseSig n l)).
Proof.
  induction l as [|x l IH]; simpl; intros Hnd; [auto |].
  inversion Hnd as [|? ? Hn Hnd']; subst.
  destruct (sigID x =? n) eqn:E.
  - apply Nat.eqb_eq in E. subst n. assumption.
  - simpl. intros [H | H]; [apply Nat.eqb_neq in E; contradiction |].
    apply (IH Hnd'). assumption.
Qed.

Lemma removeNode_absent (g g' : RegionCFG) (X : NodeId) :
  removeNode g X = Some g' -> distinctIDs g -> ~ In X (nodes g').
Proof.
  intros H Hd. apply removeNode_sigs in H. rewrite nodes_sigs, H.
  apply eraseSig_absent. unfold distinctIDs in Hd.
  rewrite nodes_sigs in Hd. assumption.
Qed.

Lemma purgeNode_sigs_incl (g g' : RegionCFG) (x : BasicBlockNode) :
  purgeNode g x = Some g' -> incl (sigs g') (sigs g).
Proof.
  unfold purgeNode. intros H.
  inv_bind H as P HP. inv_bind H as S HS. inv_bind H as g1 Hg1.
  apply removeNode_sigs in H. rewrite H.
  rewrite (sigs_moveEdgeTarget _ _ _ _ Hg1). apply eraseSig_incl.
Qed.

End PurgeFacts.

(** ** The claims about the graph passes *)

Module PassTheorems.
Import Reference CFG Props GraphFacts Examples.

(** C6.  After a run of [untangle] or of [inflate] on a graph of distinct
    nodes, every non-empty node of the input is still there with its kind,
    weight and original block, and for every node of the input the weights
    of its equivalence class in the output sum up to at least its own
    weight. *)
Theorem class_weight_monotone {LLVM : Analyses} (fuel : nat)
  (g g' : RegionCFG) :
  distinctIDs g ->
  untangle fuel g = Some g' \/ inflate fuel g = Some g' ->
  keepsNodes g g'
  /\ forall b, In b (BlockNodes g) -> (getWeight b <= classWeight g' b)%N.
Proof.
  intros Hd H.
  assert (Hk : Props.kept g g').
  { assert (H0 : Props.kept g g).
    { split; [assumption |]. intros s Hs _. assumption. }
    destruct H as [H | H].
    - eapply NodeFacts.untangle_kept; eassumption.
    - eapply NodeFacts.inflate_kept; eassumption. }
  destruct Hk as [_ Hk]. apply NodeFacts.keepsSigs_keepsNodes in Hk.
  split; [assumption |]. intros b Hb.
  apply (NodeFacts.keepsNodes_classWeight g g' b); assumption.
Qed.

Lemma class_weight_monotone_witness :
  distinctIDs doubleDiamond
  /\ inflate 50 doubleDiamond = Some doubleDiamondCombed
  /\ (getWeight sharedArm <= classWeight doubleDiamondCombed sharedArm)%N.
Proof.
  assert (Hd : distinctIDs doubleDiamond) by distinct_ids.
  assert (HI : inflate 50 doubleDiamond = Some doubleDiamondCombed).
  { vm_compute. reflexivity. }
  split; [exact Hd |]. split; [exact HI |].
  refine (proj2 (class_weight_monotone 50 doubleDiamond doubleDiamondCombed
                   Hd (or_intror HI)) sharedArm _).
  simpl. auto.
Defined.

(** C7, the claim as it is written, fails on the chain [0 -> 1 -> 2 -> 3]
    whose nodes [1] and [2] are both dummies: [2] is an empty node with the
    single predecessor [1] and the single successor [3], but [1] is a dummy
    to purge as well and [purgeDummies] removes it, so that afterwards [1]
    has no edge to [3]. *)
Lemma purgeDummies_chain_counterexample :
  In (dummy 2 [3]) (BlockNodes chain)
  /\ isEmpty (dummy 2 [3]) = true
  /\ predecessors chain 2 = [1]
  /\ Successors (dummy 2 [3]) = [3]
  /\ isPurgeable chain (dummy 1 [2]) = true
  /\ purgeDummies chain = Some (chainPurged, [1; 2])
  /\ ~ edge chainPurged 1 3.
Proof.
  split; [simpl; auto |]. split; [reflexivity |]. split; [reflexivity |].
  split; [reflexivity |]. split; [reflexivity |].
  split; [vm_compute; reflexivity |].
  intros He. apply DAGFacts.hasEdge_edge in He. discriminate.
Qed.

End PassTheorems.

(** ** Exactly which edges the repointing loop moves *)

Module MoveFacts.
Import CFG Props GraphFacts NodeFacts PurgeFacts.


Lemma count_removeFirst_same (n : NodeId) (l : list NodeId) :
  In n l ->
  count_occ Nat.eq_dec (removeFirst n l) n + 1 = count_occ Nat.eq_dec l n.
Proof.
  induction l as [|x l IH]; intros Hin; [destruct Hin |]. simpl.
  destruct (x =? n) eqn:E.
  - apply Nat.eqb_eq in E. subst x.
    destruct (Nat.eq_dec n n); [lia | congruence].
  - apply Nat.eqb_neq in E. simpl.
    destruct (Nat.eq_dec x n); [congruence |].
    destruct Hin as [Hin | Hin]; [congruence | auto].
Qed.

Lemma Forall2_map_right {A : Type} (R : A -> A -> Prop) (f : A -> A)
  (l : list A) :
  (forall x, In x l -> R x (f x)) -> Forall2 R l (map f l).
Proof.
  induction l as [|x l IH]; intros H; simpl; constructor.
  - apply H. left. reflexivity.
  - apply IH. intros y Hy. apply H. right. assumption.
Qed.

Lemma Forall2_compose {A : Type} (R1 R2 R3 : A -> A -> Prop) (l1 : list A) :
  forall l2 l3,
  Forall2 R1 l1 l2 -> Forall2 R2 l2 l3 ->
  (forall x y z, In x l1 -> R1 x y -> R2 y z -> R3 x z) ->
  Forall2 R3 l1 l3.
Proof.
  induction l1 as [|x l1 IH]; intros l2 l3 H1 H2 H.
  - inversion H1; subst. inversion H2; subst. constructor.
  - inversion H1; subst. inversion H2; subst. constructor.
    + eapply H; [left; reflexivity | eassumption | eassumption].
    + eapply IH; [eassumption | eassumption |].
      intros a b c Ha. apply H. right. assumption.
Qed.

Lemma Forall2_In_left {A : Type} (R : A -> A -> Prop) (l1 l2 : list A)
  (x : A) :
  Forall2 R l1 l2 -> In x l1 -> exists y, In y l2 /\ R x y.
Proof.
  intros H. induction H as [|a b l1 l2 Hab H IH]; intros Hin;
    [destruct Hin |].
  destruct Hin as [<- | Hin].
  - exists b. split; [left; reflexivity | assumption].
  - destruct (IH Hin) as [y [Hy HR]]. exists y. split; [right |]; assumption.
Qed.

Lemma Forall2_In_right {A : Type} (R : A -> A -> Prop) (l1 l2 : list A)
  (y : A) :
  Forall2 R l1 l2 -> In y l2 -> exists x, In x l1 /\ R x y.
Proof.
  intros H. induction H as [|a b l1 l2 Hab H IH]; intros Hin;
    [destruct Hin |].
  destruct Hin as [<- | Hin].
  - exists a. split; [left; reflexivity | assumption].
  - destruct (IH Hin) as [x [Hx HR]]. exists x. split; [right |]; assumption.
Qed.

(** One call of [moveEdgeTarget] repoints one edge of its source and
    nothing else. *)
Lemma moveEdgeTarget_repointed (g g' : RegionCFG) (p T N : NodeId) :
  distinctIDs g -> T <> N -> moveEdgeTarget g (p, T) N = Some g' ->
  Forall2 (fun b b' => repointed T N (if ID b =? p then 1 else 0) b b')
          (BlockNodes g) (BlockNodes g').
Proof.
  intros Hd Hne H. unfold moveEdgeTarget in H. inv_bind H as b Hb.
  inv_bind H as b' Hb'. inversion H; subst g'; clear H. simpl.
  apply Forall2_map_right. intros c Hc.
  destruct (ID c =? p) eqn:E.
  2:{ unfold repointed. repeat split; auto; lia. }
  apply Nat.eqb_eq in E. rewrite <- E in Hb.
  apply (findNode_unique g c b Hd Hc) in Hb. subst b.
  unfold repointed, cnt. simpl. split; [reflexivity |].
  destruct (isCheck c).
  - inv_bind Hb' as t Ht. inv_bind Hb' as f Hf. unfold getTrue, getFalse in *.
    destruct (Successors c) as [|t0 [|f0 [|? ?]]] eqn:ES; try discriminate.
    inversion Ht; inversion Hf; subst t0 f0.
    destruct (t =? T) eqn:E1.
    + apply Nat.eqb_eq in E1. subst t. inversion Hb'; subst b'; clear Hb'.
      unfold setTrue. simpl. rewrite ES. simpl.
      repeat split; intros;
        repeat match goal with
               | |- context [Nat.eq_dec ?a ?b] => destruct (Nat.eq_dec a b)
               end; try congruence; try lia.
    + apply Nat.eqb_neq in E1.
      destruct (f =? T) eqn:E2; [| discriminate]. apply Nat.eqb_eq in E2.
      subst f. unfold setFalse in Hb'. rewrite ES in Hb'.
      inversion Hb'; subst b'; clear Hb'. simpl.
      repeat split; intros;
        repeat match goal with
               | |- context [Nat.eq_dec ?a ?b] => destruct (Nat.eq_dec a b)
               end; try congruence; try lia.
  - inv_bind Hb' as u Hu. apply assert_Some in Hu. apply memb_In in Hu.
    inversion Hb'; subst b'; clear Hb'. simpl.
    rewrite !count_occ_app. simpl.
    destruct (Nat.eq_dec N T); [congruence |].
    destruct (Nat.eq_dec N N); [| congruence].
    pose proof (count_removeFirst_same T (Successors c) Hu) as H1.
    pose proof (count_removeFirst_other T N (Successors c)) as H2.
    split; [rewrite Nat.add_0_r; exact H1 |].
    split; [f_equal; apply H2; assumption |].
    intros s HsT HsN. rewrite count_occ_app. simpl.
    destruct (Nat.eq_dec N s); [congruence |].
    rewrite Nat.add_0_r. apply count_removeFirst_other. assumption.
Qed.

Lemma repointed_distinct (T N : NodeId) (k : NodeId -> nat)
  (g g' : RegionCFG) :
  Forall2 (fun b b' => repointed T N (k (ID b)) b b')
          (BlockNodes g) (BlockNodes g') ->
  sigs g' = sigs g.
Proof.
  unfold sigs. intros H.
  induction H as [|b b' l l' [Hs _] H IH]; [reflexivity |].
  simpl. rewrite Hs, IH. reflexivity.
Qed.

Lemma moveEdges_repointed (T N : NodeId) (sel : NodeId -> bool)
  (l : list NodeId) :
  T <> N -> forall g g', distinctIDs g ->
  moveEdges g l T N sel = Some g' ->
  Forall2 (fun b b' => repointed T N (moved sel l (ID b)) b b')
          (BlockNodes g) (BlockNodes g').
Proof.
  intros Hne. induction l as [|p l IH]; intros g g' Hd H;
    cbn [moveEdges] in H.
  - inversion H; subst g'; clear H.
    rewrite <- (map_id (BlockNodes g)) at 2. apply Forall2_map_right.
    intros b _. unfold repointed, moved. simpl.
    destruct (sel (ID b)); repeat split; auto; lia.
  - destruct (sel p) eqn:Ep.
    + inv_bind H as g1 Hg1.
      pose proof (moveEdgeTarget_repointed _ _ _ _ _ Hd Hne Hg1) as H1.
      assert (Hd1 : distinctIDs g1).
      { apply (distinctIDs_same_sigs g g1); [| assumption].
        eapply sigs_moveEdgeTarget. eassumption. }
      pose proof (IH _ _ Hd1 H) as H2.
      eapply Forall2_compose; [exact H1 | exact H2 |].
      intros x y z _ [Hs1 [Ha1 [Hb1 Hc1]]] [Hs2 [Ha2 [Hb2 Hc2]]].
      assert (Hid : ID y = ID x).
      { change (sigID (sig y) = sigID (sig x)). rewrite Hs1. reflexivity. }
      rewrite Hid in *. unfold repointed, moved in *. simpl.
      split; [congruence |].
      destruct (Nat.eq_dec p (ID x)) as [E | E].
      * subst p. rewrite Ep in *. rewrite Nat.eqb_refl in *.
        split; [lia |]. split; [lia |].
        intros s H3 H4. rewrite Hc2, Hc1; auto.
      * assert (E' : (ID x =? p) = false) by (apply Nat.eqb_neq; congruence).
        rewrite E' in *.
        split; [destruct (sel (ID x)); lia |].
        split; [destruct (sel (ID x)); lia |].
        intros s H3 H4. rewrite Hc2, Hc1; auto.
    + pose proof (IH _ _ Hd H) as H2.
      eapply Forall2_impl; [| exact H2].
      intros b b' [Hs [Ha [Hb Hc]]]. unfold repointed, moved in *. simpl.
      destruct (Nat.eq_dec p (ID b)) as [E | E].
      * subst p. rewrite Ep in *. repeat split; auto.
      * repeat split; auto.
Qed.

Lemma count_repeat (x y : NodeId) (n : nat) :
  count_occ Nat.eq_dec (repeat x n) y = if x =? y then n else 0.
Proof.
  induction n as [|n IH]; simpl.
  - destruct (x =? y); reflexivity.
  - destruct (Nat.eq_dec x y) as [E | E].
    + rewrite IH. apply Nat.eqb_eq in E. rewrite E. reflexivity.
    + rewrite IH. apply Nat.eqb_neq in E. rewrite E. reflexivity.
Qed.

(** A node is listed among the predecessors of [T] once per edge to [T]. *)
Lemma count_predecessors (g : RegionCFG) (T : NodeId) (b : BasicBlockNode) :
  distinctIDs g -> In b (BlockNodes g) ->
  count_occ Nat.eq_dec (predecessors g T) (ID b) = cnt b T.
Proof.
  unfold distinctIDs, nodes, predecessors.
  induction (BlockNodes g) as [|c l IH]; intros Hnd Hin; [destruct Hin |].
  simpl in *. inversion Hnd as [|? ? Hn Hnd']; subst.
  rewrite count_occ_app, count_repeat.
  destruct Hin as [-> | Hin].
  - rewrite Nat.eqb_refl.
    assert (H0 : forall l0 : list BasicBlockNode,
              ~ In (ID b) (map ID l0) ->
              count_occ Nat.eq_dec
                (flat_map (fun b0 => repeat (ID b0)
                   (count_occ Nat.eq_dec (Successors b0) T)) l0) (ID b) = 0).
    { induction l0 as [|c0 l0 IH0]; intros Hc; [reflexivity |]. simpl.
      rewrite count_occ_app, count_repeat.
      destruct (ID c0 =? ID b) eqn:E.
      - apply Nat.eqb_eq in E. exfalso. apply Hc. left. assumption.
      - rewrite IH0; [reflexivity |]. intros H1. apply Hc. right. assumption. }
    rewrite (H0 l Hn). unfold cnt. lia.
  - destruct (ID c =? ID b) eqn:E.
    + apply Nat.eqb_eq in E. exfalso. apply Hn. rewrite E. apply in_map.
      assumption.
    + rewrite (IH Hnd' Hin). reflexivity.
Qed.

Lemma edge_cnt (g : RegionCFG) (a s : NodeId) :
  edge g a s <-> exists b, In b (BlockNodes g) /\ ID b = a /\ 0 < cnt b s.
Proof.
  unfold edge, cnt. split; intros [b [Hin [Hid Hs]]]; exists b;
    (split; [assumption | split; [assumption |]]);
    apply (count_occ_In Nat.eq_dec); assumption.
Qed.

(** After the loop has run over the predecessors of [T], the edges of the
    graph are the old ones, except that those into [T] from the selected
    sources now go to [N]. *)
Lemma moveEdges_edges (g g' : RegionCFG) (T N : NodeId)
  (sel : NodeId -> bool) :
  distinctIDs g -> T <> N ->
  moveEdges g (predecessors g T) T N sel = Some g' ->
  forall a s,
  edge g' a s <->
  (edge g a s /\ ~ (s = T /\ sel a = true))
  \/ (s = N /\ edge g a T /\ sel a = true).
Proof.
  intros Hd Hne H a s.
  pose proof (moveEdges_repointed T N sel _ Hne _ _ Hd H) as HF.
  assert (Hk : forall b, In b (BlockNodes g) ->
            moved sel (predecessors g T) (ID b)
            = if sel (ID b) then cnt b T else 0).
  { intros b Hb. unfold moved. rewrite (count_predecessors g T b Hd Hb).
    reflexivity. }
  rewrite !edge_cnt. split.
  - intros [b' [Hb' [Hid Hpos]]].
    destruct (Forall2_In_right _ _ _ _ HF Hb') as [b [Hb [Hs [Ha [Hb0 Hc]]]]].
    assert (Hidb : ID b = a).
    { rewrite <- Hid. change (sigID (sig b) = sigID (sig b')).
      rewrite Hs. reflexivity. }
    rewrite (Hk b Hb), Hidb in *.
    destruct (sel a) eqn:Es.
    + destruct (Nat.eq_dec s T) as [-> | HsT]; [lia |].
      destruct (Nat.eq_dec s N) as [-> | HsN].
      * destruct (Nat.eq_dec (cnt b T) 0) as [E0 | E0].
        -- left. split; [| tauto]. exists b. split; [assumption |].
           split; [assumption | lia].
        -- right. split; [reflexivity |]. split; [| reflexivity].
           exists b. split; [assumption |].
           split; [assumption | lia].
      * left. split; [| tauto]. exists b. split; [assumption |].
        split; [assumption |]. rewrite <- Hc; assumption.
    + left. split; [| intros [_ Hx]; discriminate].
      exists b. split; [assumption |]. split; [assumption |].
      destruct (Nat.eq_dec s T) as [-> | HsT]; [lia |].
      destruct (Nat.eq_dec s N) as [-> | HsN]; [lia |].
      rewrite <- Hc; assumption.
  - intros [[[b [Hb [Hid Hpos]]] Hnot] | [-> [He Hsel]]].
    + destruct (Forall2_In_left _ _ _ _ HF Hb) as [b' [Hb' [Hs [Ha [Hb0 Hc]]]]].
      exists b'. split; [assumption |]. split.
      { rewrite <- Hid. change (sigID (sig b') = sigID (sig b)).
        rewrite Hs. reflexivity. }
      rewrite (Hk b Hb), Hid in *.
      destruct (Nat.eq_dec s T) as [-> | HsT].
      * destruct (sel a); [exfalso; apply Hnot; auto | lia].
      * destruct (Nat.eq_dec s N) as [-> | HsN]; [lia |].
        rewrite Hc; assumption.
    + destruct He as [b [Hb [Hid Hpos]]].
      destruct (Forall2_In_left _ _ _ _ HF Hb) as [b' [Hb' [Hs [Ha [Hb0 Hc]]]]].
      exists b'. split; [assumption |]. split.
      { rewrite <- Hid. change (sigID (sig b') = sigID (sig b)).
        rewrite Hs. reflexivity. }
      rewrite (Hk b Hb), Hid, Hsel in *. lia.
Qed.

End MoveFacts.

(** ** The branch of [inflate] that inserts a dummy *)

Module CombFacts.
Import CFG Props GraphFacts NodeFacts PurgeFacts MoveFacts.

Lemma In_setInsert (x n : NodeId) (s : list NodeId) :
  In x (setInsert n s) <-> x = n \/ In x s.
Proof.
  unfold setInsert. destruct (memb n s) eqn:E.
  - apply memb_In in E. split; [auto |]. intros [-> | H]; assumption.
  - rewrite in_app_iff. simpl. split.
    + intros [H | [<- | []]]; auto.
    + intros [-> | H]; auto.
Qed.

Lemma In_setErase (x n : NodeId) (s : list NodeId) :
  In x (setErase n s) <-> In x s /\ x <> n.
Proof.
  unfold setErase. rewrite filter_In. split; intros [H1 H2]; split;
    try assumption.
  - intros ->. rewrite Nat.eqb_refl in H2. discriminate.
  - apply Nat.eqb_neq in H2. rewrite H2. reflexivity.
Qed.



Lemma predecessor_size_edge (g : RegionCFG) (n : NodeId) :
  0 < predecessor_size g n -> exists p, edge g p n.
Proof.
  unfold predecessor_size. destruct (predecessors g n) as [|p l] eqn:E;
    simpl; [lia |]. intros _. exists p. apply predecessors_edge.
  rewrite E. left. reflexivity.
Qed.


Lemma findNode_insertNode (g : RegionCFG) (b : BasicBlockNode) (n : NodeId) :
  In n (nodes g) -> findNode (insertNode g b) n = findNode g n.
Proof.
  unfold findNode, nodes. simpl.
  induction (BlockNodes g) as [|c l IH]; intros Hin; [destruct Hin |].
  simpl. destruct (ID c =? n) eqn:E; [reflexivity |].
  apply IH. destruct Hin as [Hin | Hin]; [| assumption].
  apply Nat.eqb_neq in E. contradiction.
Qed.


Lemma moveEdgeTarget_succeeds (g : RegionCFG) (b : BasicBlockNode)
  (p T N : NodeId) :
  findNode g p = Some b -> In T (Successors b) ->
  (isCheck b = true -> successor_size b = 2) ->
  exists g', moveEdgeTarget g (p, T) N = Some g'.
Proof.
  intros Hb HT Hc. unfold moveEdgeTarget. rewrite Hb. cbn [bind].
  destruct (isCheck b) eqn:E.
  - specialize (Hc eq_refl). unfold successor_size in Hc.
    unfold getTrue, getFalse, setFalse.
    destruct (Successors b) as [|t [|f [|? ?]]] eqn:ES; try discriminate.
    cbn [bind]. destruct HT as [<- | [<- | []]].
    + rewrite Nat.eqb_refl. cbn [bind]. eauto.
    + destruct (t =? f); cbn [bind]; [eauto |].
      rewrite Nat.eqb_refl. cbn [bind]. eauto.
  - apply memb_In in HT. rewrite HT. cbn [assert bind]. eauto.
Qed.

Lemma moveEdgeTarget_checks (g g' : RegionCFG) (p T N : NodeId) :
  distinctIDs g -> checksComplete g ->
  moveEdgeTarget g (p, T) N = Some g' -> checksComplete g'.
Proof.
  intros Hd Hc H. apply moveEdgeTarget_inv in H.
  destruct H as [b [l [Hb [-> [_ [_ [_ [_ Hlen]]]]]]]].
  intros c Hin Hck. simpl in Hin. apply in_map_iff in Hin.
  destruct Hin as [c0 [Hc0 Hin]]. destruct (ID c0 =? p) eqn:E.
  - apply Nat.eqb_eq in E. rewrite <- E in Hb.
    apply (findNode_unique g c0 b Hd Hin) in Hb. subst b c.
    unfold successor_size. simpl. rewrite Hlen. apply (Hc c0 Hin Hck).
  - subst c0. apply Hc; assumption.
Qed.

(** The repointing loop goes through when the list it runs over holds a
    source no more often than that source has edges to the target. *)
Lemma moveEdges_succeeds (T N : NodeId) (sel : NodeId -> bool)
  (l : list NodeId) :
  T <> N -> forall g, distinctIDs g -> checksComplete g ->
  (forall p, In p l -> In p (nodes g)) ->
  (forall b, In b (BlockNodes g) ->
     count_occ Nat.eq_dec l (ID b) <= cnt b T) ->
  exists g', moveEdges g l T N sel = Some g'.
Proof.
  intros Hne. induction l as [|p l IH]; intros g Hd Hck Hn Hcnt;
    cbn [moveEdges]; [eauto |].
  destruct (sel p) eqn:Ep.
  - assert (Hp : In p (nodes g)) by (apply Hn; left; reflexivity).
    unfold nodes in Hp. apply in_map_iff in Hp. destruct Hp as [b [Hid Hb]].
    destruct (In_findNode g b Hb) as [b' Hb']. rewrite Hid in Hb'.
    pose proof (findNode_In _ _ _ Hb') as [Hin' Hid'].
    assert (HT : In T (Successors b')).
    { apply (count_occ_In Nat.eq_dec). specialize (Hcnt b' Hin').
      rewrite Hid' in Hcnt. simpl in Hcnt.
      destruct (Nat.eq_dec p p); [| congruence]. unfold cnt in Hcnt. lia. }
    destruct (moveEdgeTarget_succeeds g b' p T N Hb' HT (Hck b' Hin'))
      as [g1 Hg1].
    rewrite Hg1. cbn [bind].
    pose proof (moveEdgeTarget_repointed _ _ _ _ _ Hd Hne Hg1) as Hrep.
    assert (Hs1 : sigs g1 = sigs g)
      by (eapply sigs_moveEdgeTarget; eassumption).
    apply IH.
    + apply (distinctIDs_same_sigs g g1); assumption.
    + eapply moveEdgeTarget_checks; eassumption.
    + intros q Hq. rewrite nodes_sigs, Hs1, <- nodes_sigs. apply Hn.
      right. assumption.
    + intros c Hc.
      destruct (Forall2_In_right _ _ _ c Hrep Hc) as [c0 [Hc0 [Hsig [Ha _]]]].
      assert (Hid0 : ID c = ID c0).
      { change (sigID (sig c) = sigID (sig c0)). rewrite Hsig. reflexivity. }
      specialize (Hcnt c0 Hc0). rewrite Hid0. simpl in Hcnt.
      destruct (Nat.eq_dec p (ID c0)) as [E | E].
      * rewrite <- E in Ha. rewrite Nat.eqb_refl in Ha. lia.
      * assert (E' : (ID c0 =? p) = false) by (apply Nat.eqb_neq; congruence).
        rewrite E' in Ha. lia.
  - apply IH; try assumption.
    + intros q Hq. apply Hn. right. assumption.
    + intros b Hb. specialize (Hcnt b Hb). simpl in Hcnt.
      destruct (Nat.eq_dec p (ID b)); lia.
Qed.


End CombFacts.

(** ** The claims about the worklist of [inflate] *)

Module CombTheorems.
Import Reference CFG Props GraphFacts NodeFacts PurgeFacts MoveFacts CombFacts.
Import Examples.




End CombTheorems.

(** ** The decisions of [untangle] *)

Module UntangleFacts.
Import CFG Props GraphFacts NodeFacts PurgeFacts MoveFacts.

Lemma length_pos {A : Type} (l : list A) :
  (0 <? length l) = true <-> l <> [].
Proof.
  destruct l; simpl; split; try congruence; try discriminate; auto.
Qed.

Lemma setIntersection_In (a b : list NodeId) (n : NodeId) :
  In n (setIntersection a b) <-> In n a /\ In n b.
Proof. unfold setIntersection. rewrite filter_In, memb_In. tauto. Qed.

(** The two early [continue]s, in words. *)
Lemma untangleSkips_true (w : UntangleWeights) :
  untangleSkips w = true <->
  (NotDominatedThenNodes w <> [] /\ NotDominatedElseNodes w <> [])
  \/ (exists n, In n (ThenNodes w) /\ In n (ElseNodes w)).
Proof.
  unfold untangleSkips. rewrite Bool.orb_true_iff, Bool.andb_true_iff.
  rewrite !length_pos. split; (intros [H | H]; [left; exact H | right]).
  - destruct (setIntersection (ThenNodes w) (ElseNodes w)) as [|n l] eqn:E;
      [congruence |].
    exists n. apply setIntersection_In. rewrite E. left. reflexivity.
  - destruct H as [n Hn]. apply setIntersection_In in Hn.
    intros E. rewrite E in Hn. destruct Hn.
Qed.

(** [isGreater] is the strict order of the unsigned numbers. *)
Lemma isGreater_lt (Op1 Op2 : N) :
  (Op2 < UINT_MOD)%N -> (isGreater Op1 Op2 = true <-> (Op2 < Op1)%N).
Proof.
  intros H. unfold isGreater, umul. rewrite N.mul_1_l.
  rewrite N.mod_small by assumption.
  destruct (Op2 <? Op1)%N eqn:E.
  - apply N.ltb_lt in E. tauto.
  - apply N.ltb_ge in E. split; [discriminate | lia].
Qed.

Lemma uadd_bounded (a b : N) : (uadd a b < UINT_MOD)%N.
Proof. unfold uadd. apply N.mod_lt. discriminate. Qed.

Lemma cloneUntilExit_clone (fuel : nat) (g g' : RegionCFG)
  (Node Sink Clone : NodeId) :
  cloneUntilExit fuel g Node Sink = Some (Clone, g') ->
  Clone = newID g /\ In Clone (nodes g') /\ In Node (nodes g).
Proof.
  unfold cloneUntilExit. intros H. inv_bind H as c Hc. destruct c as [d g1].
  inv_bind H as g2 Hg2. inversion H; subst; clear H.
  pose proof (grows_cloneUntilExitLoop _ _ _ _ _ _ _ Hg2) as [Hincl _].
  apply cloneNode_inv in Hc. destruct Hc as [b [Hb [Hd ->]]].
  split; [assumption |]. split.
  - rewrite nodes_sigs. apply in_map_iff.
    exists (sig (mkNode Clone (NodeType b) (Weight b) (OriginalNode b) [])).
    split; [reflexivity |]. apply Hincl. unfold sigs. simpl.
    rewrite map_app. apply in_or_app. right. left. reflexivity.
  - apply findNode_In in Hb. destruct Hb as [Hin Hid]. rewrite <- Hid.
    apply in_map. assumption.
Qed.

(** What either split of [untangle] does: [cloneUntilExit] makes the clone
    of the postdominator, a fresh node, and the loop repoints to it the
    edges into the postdominator that the test picks. *)
Lemma splitPostDominator_retargeted {LLVM : Analyses} (fuel : nat)
  (DT g g' : RegionCFG) (Conditional Child PostDominator Sink : NodeId) :
  distinctIDs g ->
  splitPostDominator fuel DT g Conditional Child PostDominator Sink
  = Some g' ->
  ~ In (newID g) (nodes g) /\ In (newID g) (nodes g')
  /\ exists g1,
       cloneUntilExit fuel g PostDominator Sink = Some (newID g, g1)
       /\ retargeted g1 g' PostDominator (newID g)
            (fun Predecessor =>
               dominates DT Child Predecessor
               || (Predecessor =? Conditional)).
Proof.
  intros Hd H. unfold splitPostDominator in H. inv_bind H as c Hc.
  destruct c as [Clone g1]. inv_bind H as g2 Hg2. inv_bind H as u Hu.
  inversion H; subst g2; clear H.
  destruct (cloneUntilExit_clone _ _ _ _ _ _ Hc) as [-> [HC HN]].
  assert (Hfresh : ~ In (newID g) (nodes g)).
  { intros Hn. unfold nodes in Hn. apply in_map_iff in Hn.
    destruct Hn as [b [Hid Hb]]. pose proof (newID_gt_ID _ _ Hb). lia. }
  split; [assumption |]. split.
  - rewrite nodes_sigs, (sigs_moveEdges _ _ _ _ _ _ Hg2), <- nodes_sigs.
    assumption.
  - exists g1. split; [assumption |].
    assert (Hd1 : distinctIDs g1).
    { apply (grows_cloneUntilExit _ _ _ _ _ _ Hc). assumption. }
    assert (Hne : PostDominator <> newID g) by congruence.
    exact (moveEdges_edges g1 g' PostDominator (newID g) _ Hd1 Hne Hg2).
Qed.

Lemma splitsElse_true (w : UntangleWeights) (PostDominator Sink : NodeId) :
  splitsElse w PostDominator Sink = true <->
  (ThreeWeight w < TwoWeight w)%N /\ (ThreeWeight w < OneWeight w)%N
  /\ PostDominator <> Sink.
Proof.
  unfold splitsElse. rewrite !Bool.andb_true_iff, Bool.negb_true_iff.
  rewrite !isGreater_lt by apply uadd_bounded. rewrite Nat.eqb_neq. tauto.
Qed.

Lemma splitsThen_true (w : UntangleWeights) (PostDominator Sink : NodeId) :
  splitsThen w PostDominator Sink = true <->
  (TwoWeight w < ThreeWeight w)%N /\ (TwoWeight w < OneWeight w)%N
  /\ PostDominator <> Sink.
Proof.
  unfold splitsThen. rewrite !Bool.andb_true_iff, Bool.negb_true_iff.
  rewrite !isGreater_lt by apply uadd_bounded. rewrite Nat.eqb_neq. tauto.
Qed.

End UntangleFacts.

Module UntangleTheorems.
Import Reference CFG Props GraphFacts NodeFacts PurgeFacts MoveFacts.
Import UntangleFacts Examples.

(** C5.  When [untangle] processes a conditional both of whose arms hold a
    node that the conditional does not dominate, or whose two arms (the
    postdominator left out) share a node, the iteration ends at one of the
    two early [continue]s: it completes and leaves the graph as it is. *)
Theorem untangle_skip_leaves_graph {LLVM : Analyses} (fuel : nat)
  (Sink : NodeId) (WeightMap : list (NodeId * N))
  (PostDominatorMap : list (NodeId * NodeId)) (g : RegionCFG)
  (Conditional PostDominator : NodeId) (w : UntangleWeights) :
  lookup PostDominatorMap Conditional = Some PostDominator ->
  untangleWeights WeightMap g Conditional PostDominator Sink = Some w ->
  (NotDominatedThenNodes w <> [] /\ NotDominatedElseNodes w <> [])
  \/ (exists n, In n (ThenNodes w) /\ In n (ElseNodes w)) ->
  untangleConditional fuel Sink WeightMap PostDominatorMap g Conditional
  = Some g.
Proof.
  intros Hpd Hw Hskip. apply untangleSkips_true in Hskip.
  unfold untangleConditional. rewrite Hpd. cbn [bind]. rewrite Hw.
  cbn [bind]. rewrite Hskip. reflexivity.
Qed.

Lemma untangle_skip_leaves_graph_witness :
  addSink doubleDiamond (successorCountIs 0 doubleDiamond)
  = (6, doubleDiamondSunk)
  /\ computePostDominators doubleDiamondSunk [0; 1; 2]
     = Some [(0, 5); (1, 5); (2, 5)]
  /\ untangleConditional 50 6 doubleDiamondWeights [(0, 5); (1, 5); (2, 5)]
       doubleDiamondSunk 1 = Some doubleDiamondSunk.
Proof.
  split; [vm_compute; reflexivity |]. split; [vm_compute; reflexivity |].
  refine (untangle_skip_leaves_graph 50 6 doubleDiamondWeights
            [(0, 5); (1, 5); (2, 5)] doubleDiamondSunk 1 5
            doubleDiamondArms _ _ _).
  - reflexivity.
  - vm_compute. reflexivity.
  - left. split; discriminate.
Defined.

(** C4 (amended).  When [untangle] processes a conditional that it does not
    skip, with [Two = Then + PostDominator], [Three = Else + PostDominator]
    and [One = Then + Else] in unsigned arithmetic: if [Three < Two],
    [Three < One] and the postdominator is not the sink, then
    [cloneUntilExit] clones the postdominator up to the sink and exactly the
    edges into the postdominator that come from what the else child
    dominates, or from the conditional, are repointed to the clone; if
    [Two < Three], [Two < One] and the postdominator is not the sink, the
    same with the then child; a clone is made in these two cases only, and
    in every other case the graph stays as it is.  The order is the strict
    one, with no factor. *)
Theorem untangle_split_iff {LLVM : Analyses} (fuel : nat) (Sink : NodeId)
  (WeightMap : list (NodeId * N)) (PostDominatorMap : list (NodeId * NodeId))
  (g g' : RegionCFG) (Conditional PostDominator : NodeId)
  (w : UntangleWeights) :
  distinctIDs g ->
  lookup PostDominatorMap Conditional = Some PostDominator ->
  untangleWeights WeightMap g Conditional PostDominator Sink = Some w ->
  untangleSkips w = false ->
  untangleConditional fuel Sink WeightMap PostDominatorMap g Conditional
  = Some g' ->
  let heavyThen :=
    (ThreeWeight w < TwoWeight w)%N /\ (ThreeWeight w < OneWeight w)%N
    /\ PostDominator <> Sink in
  let heavyElse :=
    (TwoWeight w < ThreeWeight w)%N /\ (TwoWeight w < OneWeight w)%N
    /\ PostDominator <> Sink in
  (heavyThen ->
     exists g1,
       cloneUntilExit fuel g PostDominator Sink = Some (newID g, g1)
       /\ retargeted g1 g' PostDominator (newID g)
            (fun Predecessor =>
               dominates g (ElseChild w) Predecessor
               || (Predecessor =? Conditional)))
  /\ (heavyElse ->
     exists g1,
       cloneUntilExit fuel g PostDominator Sink = Some (newID g, g1)
       /\ retargeted g1 g' PostDominator (newID g)
            (fun Predecessor =>
               dominates g (ThenChild w) Predecessor
               || (Predecessor =? Conditional)))
  /\ (In (newID g) (nodes g') <-> heavyThen \/ heavyElse)
  /\ (~ heavyThen -> ~ heavyElse -> g' = g).
Proof.
  intros Hd Hpd Hw Hskip H heavyThen heavyElse.
  assert (Hfresh : ~ In (newID g) (nodes g)).
  { intros Hn. unfold nodes in Hn. apply in_map_iff in Hn.
    destruct Hn as [b [Hid Hb]]. pose proof (newID_gt_ID _ _ Hb). lia. }
  unfold untangleConditional in H. rewrite Hpd in H. cbn [bind] in H.
  rewrite Hw in H. cbn [bind] in H. rewrite Hskip in H.
  destruct (splitsElse w PostDominator Sink) eqn:EE.
  - assert (HT : heavyThen) by (apply splitsElse_true; assumption).
    assert (ET : splitsThen w PostDominator Sink = false).
    { destruct (splitsThen w PostDominator Sink) eqn:ET; [| reflexivity].
      apply splitsThen_true in ET. unfold heavyThen in HT. lia. }
    rewrite ET in H. inv_bind H as g1 Hg1. inversion H; subst g1; clear H.
    destruct (splitPostDominator_retargeted _ _ _ _ _ _ _ _ Hd Hg1)
      as [_ [Hin Hsplit]].
    split; [intros _; exact Hsplit |].
    split; [intros HE; unfold heavyThen, heavyElse in *; lia |].
    split; [tauto | tauto].
  - assert (HT : ~ heavyThen).
    { intros HT. apply splitsElse_true in HT. congruence. }
    cbn [bind] in H.
    destruct (splitsThen w PostDominator Sink) eqn:ET.
    + assert (HE : heavyElse) by (apply splitsThen_true; assumption).
      destruct (splitPostDominator_retargeted _ _ _ _ _ _ _ _ Hd H)
        as [_ [Hin Hsplit]].
      split; [tauto |]. split; [intros _; exact Hsplit |].
      split; [tauto | tauto].
    + assert (HE : ~ heavyElse).
      { intros HE. apply splitsThen_true in HE. congruence. }
      inversion H; subst g'; clear H.
      split; [tauto |]. split; [tauto |]. split; [tauto | auto].
Qed.

Lemma untangle_split_iff_witness :
  untangleConditional 50 5 skewedWeights [(0, 4); (1, 4)] skewedSunk 1
  = Some skewedSplit
  /\ cloneUntilExit 50 skewedSunk 4 5 = Some (6, skewedCloned)
  /\ retargeted skewedCloned skewedSplit 4 6
       (fun Predecessor =>
          dominates skewedSunk 3 Predecessor || (Predecessor =? 1))
  /\ In 6 (nodes skewedSplit).
Proof.
  assert (HU : untangleConditional 50 5 skewedWeights [(0, 4); (1, 4)]
                 skewedSunk 1 = Some skewedSplit).
  { vm_compute. reflexivity. }
  assert (HC : cloneUntilExit 50 skewedSunk 4 5 = Some (6, skewedCloned)).
  { vm_compute. reflexivity. }
  assert (Hd : distinctIDs skewedSunk) by distinct_ids.
  assert (Hw : untangleWeights skewedWeights skewedSunk 1 4 5
               = Some skewedArms).
  { vm_compute. reflexivity. }
  destruct (untangle_split_iff 50 5 skewedWeights [(0, 4); (1, 4)]
              skewedSunk skewedSplit 1 4 _ Hd eq_refl Hw eq_refl HU)
    as [H1 [_ [H3 _]]].
  assert (HT : (ThreeWeight skewedArms < TwoWeight skewedArms)%N
               /\ (ThreeWeight skewedArms < OneWeight skewedArms)%N
               /\ 4 <> 5).
  { split; [reflexivity |]. split; [reflexivity | discriminate]. }
  split; [exact HU |]. split; [exact HC |].
  destruct (H1 HT) as [g1 [Hg1 Hr]].
  assert (E : g1 = skewedCloned).
  { rewrite HC in Hg1. inversion Hg1. reflexivity. }
  rewrite E in Hr. split; [exact Hr |].
  apply H3. left. exact HT.
Defined.

(** C4, the claim as it is written, fails on [sinkJoin].  For the
    conditional [1] the postdominator is the sink; the iteration is not
    skipped, [Three = 0] is below both [Two = 5] and [One = 5], and yet
    nothing is cloned and no edge is moved: the iteration, and the whole of
    [untangle], leave the graph as it is. *)
Lemma untangle_split_iff_counterexample :
  addSink sinkJoin (successorCountIs 0 sinkJoin) = (4, sinkJoinSunk)
  /\ computePostDominators sinkJoinSunk [0; 1] = Some [(0, 4); (1, 4)]
  /\ (exists w,
        untangleWeights sinkJoinWeights sinkJoinSunk 1 4 4 = Some w
        /\ untangleSkips w = false
        /\ (ThreeWeight w < TwoWeight w)%N
        /\ (ThreeWeight w < OneWeight w)%N
        /\ isGreater (TwoWeight w) (ThreeWeight w) = true
        /\ isGreater (OneWeight w) (ThreeWeight w) = true)
  /\ untangleConditional 50 4 sinkJoinWeights [(0, 4); (1, 4)]
       sinkJoinSunk 1 = Some sinkJoinSunk
  /\ untangle 50 sinkJoin = Some (mkCFG (BlockNodes sinkJoin) 0 5).
Proof.
  split; [vm_compute; reflexivity |]. split; [vm_compute; reflexivity |].
  split.
  { exists sinkJoinArms.
    repeat split; vm_compute; reflexivity. }
  split; vm_compute; reflexivity.
Qed.

End UntangleTheorems.

(** ** The passes do not depend on the order in which sets are enumerated

    The sets of node pointers that [untangle] and [inflate] iterate over
    ([ThenNodes], [ElseNodes], [PostDominatorToExit], the nodes of
    [inverse_depth_first]) come in the order of the addresses of the nodes.
    In the model this order is the order of the lists that the analyses
    return: two runs that differ in the addresses are two instances of
    [Analyses] that return the same sets, enumerated differently. *)

Module OrderFacts.
Import CFG Props GraphFacts.

Lemma bool_eq_iff (a b : bool) : (a = true <-> b = true) -> a = b.
Proof. destruct a, b; intros [H1 H2]; auto; symmetry; auto. Qed.

Lemma memb_same (n : NodeId) (l l' : list NodeId) :
  (forall x, In x l <-> In x l') -> memb n l = memb n l'.
Proof. intros H. apply bool_eq_iff. rewrite !memb_In. apply H. Qed.

Lemma uadd_swap (acc a b : N) : uadd (uadd acc a) b = uadd (uadd acc b) a.
Proof.
  unfold uadd. assert (HM : UINT_MOD <> 0%N) by discriminate.
  rewrite !N.Div0.add_mod_idemp_l. f_equal. lia.
Qed.

Lemma fold_uadd_Permutation (f : NodeId -> N) (l l' : list NodeId) :
  Permutation l l' ->
  forall acc, fold_left (fun a n => uadd a (f n)) l acc
              = fold_left (fun a n => uadd a (f n)) l' acc.
Proof.
  induction 1 as [| x l l' _ IH | x y l | l l' l'' _ IH1 _ IH2];
    intros acc; simpl.
  - reflexivity.
  - apply IH.
  - rewrite uadd_swap. reflexivity.
  - rewrite IH1. apply IH2.
Qed.

Lemma sumWeights_Permutation (WeightMap : list (NodeId * N))
  (l l' : list NodeId) :
  Permutation l l' -> sumWeights WeightMap l = sumWeights WeightMap l'.
Proof. intros H. apply fold_uadd_Permutation. assumption. Qed.

Lemma nodup_Permutation (l l' : list NodeId) :
  (forall x, In x l <-> In x l') ->
  Permutation (nodup Nat.eq_dec l) (nodup Nat.eq_dec l').
Proof.
  intros H. apply NoDup_Permutation; try apply NoDup_nodup.
  intros x. rewrite !nodup_In. apply H.
Qed.

Lemma filter_Permutation (f f' : NodeId -> bool) (l l' : list NodeId) :
  (forall x, f x = f' x) -> NoDup l -> Permutation l l' ->
  Permutation (filter f l) (filter f' l').
Proof.
  intros Hf Hn Hp. apply NoDup_Permutation.
  - apply NoDup_filter. assumption.
  - apply NoDup_filter. eapply Permutation_NoDup; eassumption.
  - intros x. rewrite !filter_In, Hf. split; intros [H1 H2]; split;
      try assumption.
    + eapply Permutation_in; eassumption.
    + eapply Permutation_in; [apply Permutation_sym |]; eassumption.
Qed.

Lemma setIntersection_same (a a' b b' : list NodeId) :
  Permutation a a' -> Permutation b b' ->
  (0 <? length (setIntersection a b))
  = (0 <? length (setIntersection a' b')).
Proof.
  intros Ha Hb.
  assert (H : forall (u v : list NodeId),
            (0 <? length (setIntersection u v)) = true
            <-> exists n, In n u /\ In n v).
  { intros u v. unfold setIntersection. split.
    - destruct (filter (fun n => memb n v) u) as [|n l] eqn:E;
        [discriminate |]. intros _. exists n.
      assert (Hn : In n (filter (fun n => memb n v) u))
        by (rewrite E; left; reflexivity).
      apply filter_In in Hn. rewrite memb_In in Hn. exact Hn.
    - intros [n [H1 H2]].
      assert (Hn : In n (filter (fun n => memb n v) u))
        by (apply filter_In; rewrite memb_In; auto).
      destruct (filter (fun n => memb n v) u); [destruct Hn | reflexivity]. }
  apply bool_eq_iff. rewrite !H. split; intros [n [H1 H2]]; exists n; split.
  - eapply Permutation_in; eassumption.
  - eapply Permutation_in; eassumption.
  - eapply Permutation_in; [apply Permutation_sym |]; eassumption.
  - eapply Permutation_in; [apply Permutation_sym |]; eassumption.
Qed.

Lemma moveEdges_ext (sel sel' : NodeId -> bool) (T N : NodeId)
  (l : list NodeId) :
  (forall p, sel p = sel' p) ->
  forall g, moveEdges g l T N sel = moveEdges g l T N sel'.
Proof.
  intros H. induction l as [|p l IH]; intros g; cbn [moveEdges];
    [reflexivity |].
  rewrite <- H. destruct (sel p); [| apply IH].
  destruct (moveEdgeTarget g (p, T) N); cbn [bind]; [apply IH | reflexivity].
Qed.

Section TwoRuns.
Variables A B : Analyses.
Hypothesis same_dominates :
  forall g a b, @dominates A g a b = @dominates B g a b.
Hypothesis same_postDominator :
  forall g n, @postDominator A g n = @postDominator B g n.
Hypothesis same_RPOT : forall g, @RPOT A g = @RPOT B g.
Hypothesis same_inverse :
  forall g n x,
    In x (@inverse_depth_first A g n) <-> In x (@inverse_depth_first B g n).
Hypothesis same_reachable :
  forall g s t x,
    In x (@findReachableNodes A g s t) <-> In x (@findReachableNodes B g s t).

Lemma armNodes_same (g : RegionCFG) (Child PostDominator : NodeId) :
  NoDup (@armNodes A g Child PostDominator)
  /\ Permutation (@armNodes A g Child PostDominator)
                 (@armNodes B g Child PostDominator).
Proof.
  unfold armNodes, setErase. split.
  - apply NoDup_filter, NoDup_nodup.
  - apply filter_Permutation; [reflexivity | apply NoDup_nodup |].
    apply nodup_Permutation. apply same_reachable.
Qed.

Lemma notDominatedNodes_same (g : RegionCFG) (Conditional : NodeId)
  (l l' : list NodeId) :
  NoDup l -> Permutation l l' ->
  Permutation (@notDominatedNodes A g Conditional l)
              (@notDominatedNodes B g Conditional l').
Proof.
  intros Hn Hp. unfold notDominatedNodes.
  apply filter_Permutation; try assumption.
  intros x. rewrite same_dominates. reflexivity.
Qed.

Lemma orderNodes_same (g : RegionCFG) (L : list NodeId) (DoReverse : bool) :
  @orderNodes A g L DoReverse = @orderNodes B g L DoReverse.
Proof. unfold orderNodes. rewrite same_RPOT. reflexivity. Qed.

Lemma computePostDominators_same (g : RegionCFG) (l : list NodeId) :
  @computePostDominators A g l = @computePostDominators B g l.
Proof.
  induction l as [|c l IH]; simpl; [reflexivity |].
  rewrite same_postDominator, IH. reflexivity.
Qed.

Lemma splitPostDominator_same (fuel : nat) (DT g : RegionCFG)
  (Conditional Child PostDominator Sink : NodeId) :
  @splitPostDominator A fuel DT g Conditional Child PostDominator Sink
  = @splitPostDominator B fuel DT g Conditional Child PostDominator Sink.
Proof.
  unfold splitPostDominator.
  destruct (cloneUntilExit fuel g PostDominator Sink) as [[Clone g1]|];
    cbn [bind]; [| reflexivity].
  rewrite (moveEdges_ext
             (fun Predecessor =>
                @dominates A DT Child Predecessor
                || (Predecessor =? Conditional))
             (fun Predecessor =>
                @dominates B DT Child Predecessor
                || (Predecessor =? Conditional))).
  - reflexivity.
  - intros p. rewrite same_dominates. reflexivity.
Qed.

(** The two runs may enumerate the arms differently, but they count and
    weigh them alike. *)
Lemma untangleWeights_same (WeightMap : list (NodeId * N)) (g : RegionCFG)
  (Conditional PostDominator Sink : NodeId) :
  match @untangleWeights A WeightMap g Conditional PostDominator Sink,
        @untangleWeights B WeightMap g Conditional PostDominator Sink with
  | Some w, Some w' =>
      ThenChild w = ThenChild w' /\ ElseChild w = ElseChild w'
      /\ untangleSkips w = untangleSkips w'
      /\ ThenWeight w = ThenWeight w' /\ ElseWeight w = ElseWeight w'
      /\ PostDominatorWeight w = PostDominatorWeight w'
  | None, None => True
  | _, _ => False
  end.
Proof.
  unfold untangleWeights.
  destruct (findNode g Conditional) as [b|]; cbn [bind]; [| exact I].
  destruct (assert (successor_size b =? 2)); cbn [bind]; [| exact I].
  destruct (nth_error (Successors b) 0) as [t|]; cbn [bind]; [| exact I].
  destruct (nth_error (Successors b) 1) as [e|]; cbn [bind]; [| exact I].
  destruct (armNodes_same g t PostDominator) as [Hnt Hpt].
  destruct (armNodes_same g e PostDominator) as [Hne Hpe].
  pose proof (notDominatedNodes_same g Conditional _ _ Hnt Hpt) as Hdt.
  pose proof (notDominatedNodes_same g Conditional _ _ Hne Hpe) as Hde.
  split; [reflexivity |]. split; [reflexivity |]. split.
  - unfold untangleSkips. cbn [NotDominatedThenNodes NotDominatedElseNodes
                                ThenNodes ElseNodes].
    rewrite (Permutation_length Hdt), (Permutation_length Hde).
    rewrite (setIntersection_same _ _ _ _ Hpt Hpe). reflexivity.
  - cbn [ThenWeight ElseWeight PostDominatorWeight].
    split; [apply sumWeights_Permutation; assumption |].
    split; [apply sumWeights_Permutation; assumption |].
    apply sumWeights_Permutation, nodup_Permutation, same_reachable.
Qed.

Lemma untangleConditional_same (fuel : nat) (Sink : NodeId)
  (WeightMap : list (NodeId * N)) (PostDominatorMap : list (NodeId * NodeId))
  (g : RegionCFG) (Conditional : NodeId) :
  @untangleConditional A fuel Sink WeightMap PostDominatorMap g Conditional
  = @untangleConditional B fuel Sink WeightMap PostDominatorMap g Conditional.
Proof.
  unfold untangleConditional.
  destruct (lookup PostDominatorMap Conditional) as [PostDominator|];
    cbn [bind]; [| reflexivity].
  pose proof (untangleWeights_same WeightMap g Conditional PostDominator Sink)
    as H.
  destruct (@untangleWeights A WeightMap g Conditional PostDominator Sink)
    as [w|];
    destruct (@untangleWeights B WeightMap g Conditional PostDominator Sink)
    as [w'|]; try contradiction; cbn [bind]; [| reflexivity].
  destruct H as [Ht [He [Hs [Htw [Hew Hpw]]]]].
  rewrite Hs. destruct (untangleSkips w'); [reflexivity |].
  unfold splitsElse, splitsThen, OneWeight, TwoWeight, ThreeWeight.
  rewrite Ht, He, Htw, Hew, Hpw, !splitPostDominator_same.
  destruct (_ && _ && _); cbn [bind].
  - destruct (splitPostDominator fuel g g Conditional (ElseChild w')
                PostDominator Sink); cbn [bind]; [| reflexivity].
    destruct (_ && _ && _); [apply splitPostDominator_same | reflexivity].
  - destruct (_ && _ && _); [apply splitPostDominator_same | reflexivity].
Qed.

Lemma untangleLoop_same (fuel : nat) (Sink : NodeId)
  (WeightMap : list (NodeId * N)) (PostDominatorMap : list (NodeId * NodeId))
  (l : list NodeId) :
  forall g,
  @untangleLoop A fuel Sink WeightMap PostDominatorMap l g
  = @untangleLoop B fuel Sink WeightMap PostDominatorMap l g.
Proof.
  induction l as [|c l IH]; intros g; simpl; [reflexivity |].
  rewrite untangleConditional_same.
  destruct (untangleConditional fuel Sink WeightMap PostDominatorMap g c);
    cbn [bind]; [apply IH | reflexivity].
Qed.

Lemma untangle_same (fuel : nat) (g : RegionCFG) :
  @untangle A fuel g = @untangle B fuel g.
Proof.
  unfold untangle. destruct (isDAG g) as [d|]; cbn [bind]; [| reflexivity].
  destruct (assert d); cbn [bind]; [| reflexivity].
  destruct (addSink g (successorCountIs 0 g)) as [Sink g1].
  rewrite computePostDominators_same.
  destruct (computePostDominators g1 (successorCountIs 2 g)) as [m|];
    cbn [bind]; [| reflexivity].
  rewrite orderNodes_same.
  destruct (orderNodes g1 (successorCountIs 2 g) false) as [Ordered|];
    cbn [bind]; [| reflexivity].
  rewrite untangleLoop_same. reflexivity.
Qed.

Lemma isCombConditional_same (g0 g : RegionCFG) (ExitNodes : list NodeId)
  (b : BasicBlockNode) :
  @isCombConditional A g0 g ExitNodes b = @isCombConditional B g0 g ExitNodes b.
Proof.
  assert (HR : forall n, @reachableExits A g0 ExitNodes n
                         = @reachableExits B g0 ExitNodes n).
  { intros n. unfold reachableExits. apply filter_ext. intros Exit.
    apply memb_same. apply same_inverse. }
  assert (HD : forall l, forallb (fun Exit => @dominates A g (ID b) Exit) l
                         = forallb (fun Exit => @dominates B g (ID b) Exit) l).
  { intros l. induction l as [|x l IH]; simpl; [reflexivity |].
    rewrite same_dominates, IH. reflexivity. }
  unfold isCombConditional.
  destruct (Successors b) as [|s0 [|s1 [|? ?]]]; try reflexivity.
  rewrite !HR, !HD. reflexivity.
Qed.

Lemma inflate_same (fuel : nat) (g : RegionCFG) :
  @inflate A fuel g = @inflate B fuel g.
Proof.
  unfold inflate. rewrite untangle_same.
  destruct (@untangle B fuel g) as [g0|]; cbn [bind]; [| reflexivity].
  destruct (isDAG g0) as [d|]; cbn [bind]; [| reflexivity].
  destruct (assert d); cbn [bind]; [| reflexivity].
  destruct (addSink g0 (successorCountIs 0 g0)) as [Sink g1].
  destruct (assert _); cbn [bind]; [| reflexivity].
  rewrite (filter_ext _ _ (isCombConditional_same g0 g1
                             (successorCountIs 0 g0))).
  rewrite orderNodes_same.
  destruct (orderNodes g1 _ false) as [Ordered|]; cbn [bind];
    [| reflexivity].
  rewrite computePostDominators_same, same_RPOT. reflexivity.
Qed.

End TwoRuns.

End OrderFacts.

Module OrderTheorems.
Import Reference CFG Props Examples.

(** The order in which the two set-valued helpers enumerate their nodes
    does not matter: two runs of [untangle], or of [inflate], on the same
    graph give the same result when their analyses agree on dominance, on
    the immediate postdominators and on the reverse post-order, and return
    the same sets of nodes, each in its own order. *)
Lemma passes_ignore_enumeration_order (A B : Analyses) (fuel : nat)
  (g : RegionCFG) :
  (forall g a b, @CFG.dominates A g a b = @CFG.dominates B g a b) ->
  (forall g n, @CFG.postDominator A g n = @CFG.postDominator B g n) ->
  (forall g, @CFG.RPOT A g = @CFG.RPOT B g) ->
  (forall g n x,
     In x (@CFG.inverse_depth_first A g n)
     <-> In x (@CFG.inverse_depth_first B g n)) ->
  (forall g s t x,
     In x (@CFG.findReachableNodes A g s t)
     <-> In x (@CFG.findReachableNodes B g s t)) ->
  @untangle A fuel g = @untangle B fuel g
  /\ @inflate A fuel g = @inflate B fuel g.
Proof.
  intros H1 H2 H3 H4 H5. split.
  - apply OrderFacts.untangle_same; assumption.
  - apply OrderFacts.inflate_same; assumption.
Qed.

Lemma passes_ignore_enumeration_order_witness :
  @findReachableNodes analyses doubleDiamondSunk 1 5
  <> @findReachableNodes analysesReversed doubleDiamondSunk 1 5
  /\ @untangle analyses 50 doubleDiamond
     = @untangle analysesReversed 50 doubleDiamond
  /\ @inflate analyses 50 doubleDiamond
     = @inflate analysesReversed 50 doubleDiamond.
Proof.
  split; [discriminate |].
  apply (passes_ignore_enumeration_order analyses analysesReversed 50
           doubleDiamond).
  - reflexivity.
  - reflexivity.
  - reflexivity.
  - intros g n x. simpl. apply in_rev.
  - intros g s t x. simpl. apply in_rev.
Defined.

End OrderTheorems.

(** ** More about the AST post-passes *)

Module ASTPassFacts.
Import AST ASTProps.

(** Induction over the AST, through its lists and optional children. *)
Lemma ASTNode_induction (P : ASTNode -> Prop) :
  (forall bb e s, (forall n, s = Some n -> P n) -> P (CodeNode bb e s)) ->
  (forall bb c t e s,
     (forall n, t = Some n -> P n) -> (forall n, e = Some n -> P n) ->
     (forall n, s = Some n -> P n) -> P (IfNode bb c t e s)) ->
  (forall bb b s,
     (forall n, b = Some n -> P n) -> (forall n, s = Some n -> P n) ->
     P (ScsNode bb b s)) ->
  (forall l, Forall P l -> P (SequenceNode l)) ->
  (forall bb s, (forall n, s = Some n -> P n) -> P (SetNode bb s)) ->
  P BreakNode -> P ContinueNode ->
  forall n, P n.
Proof.
  intros HC HI HS HQ HT HB HK.
  fix IH 1. intros n.
  destruct n as [bb e s | bb c t e s | bb b s | l | bb s | |].
  - apply HC. destruct s as [x|]; intros m Hm;
      [injection Hm as <-; apply IH | discriminate].
  - apply HI.
    + destruct t as [x|]; intros m Hm;
        [injection Hm as <-; apply IH | discriminate].
    + destruct e as [x|]; intros m Hm;
        [injection Hm as <-; apply IH | discriminate].
    + destruct s as [x|]; intros m Hm;
        [injection Hm as <-; apply IH | discriminate].
  - apply HS.
    + destruct b as [x|]; intros m Hm;
        [injection Hm as <-; apply IH | discriminate].
    + destruct s as [x|]; intros m Hm;
        [injection Hm as <-; apply IH | discriminate].
  - apply HQ.
    exact ((fix go (l : list ASTNode) : Forall P l :=
              match l with
              | [] => Forall_nil P
              | x :: r => Forall_cons x (IH x) (go r)
              end) l).
  - apply HT. destruct s as [x|]; intros m Hm;
      [injection Hm as <-; apply IH | discriminate].
  - exact HB.
  - exact HK.
Qed.

Lemma simplifyDummies_children (l : list ASTNode) :
  simplifyDummies (SequenceNode l)
  = SequenceNode (map simplifyDummies (nonEmptyNodes l)).
Proof.
  simpl. f_equal. unfold nonEmptyNodes.
  induction l as [|x l IH]; simpl; [reflexivity |].
  destruct (isEmpty x); simpl; rewrite IH; reflexivity.
Qed.

Lemma isEmpty_simplifyDummies (n : ASTNode) :
  isEmpty (simplifyDummies n) = isEmpty n.
Proof. destruct n; reflexivity. Qed.

Lemma nonEmptyNodes_simplified (l : list ASTNode) :
  nonEmptyNodes (map simplifyDummies (nonEmptyNodes l))
  = map simplifyDummies (nonEmptyNodes l).
Proof.
  unfold nonEmptyNodes. induction l as [|x l IH]; simpl; [reflexivity |].
  destruct (isEmpty x) eqn:E; simpl; [exact IH |].
  rewrite isEmpty_simplifyDummies, E. simpl. rewrite IH. reflexivity.
Qed.

Lemma map_fixed {A : Type} (f : A -> A) (l : list A) :
  Forall (fun x => f (f x) = f x) l -> map f (map f l) = map f l.
Proof.
  induction 1 as [|x l Hx _ IH]; simpl; [reflexivity |].
  rewrite Hx, IH. reflexivity.
Qed.

Lemma Forall_sublist {A : Type} (P : A -> Prop) (f : A -> bool)
  (l : list A) : Forall P l -> Forall P (filter f l).
Proof.
  induction 1 as [|x l Hx _ IH]; simpl; [constructor |].
  destruct (f x); [constructor |]; assumption.
Qed.

(** X1.  In a sequence [simplifyDummies] keeps exactly the children that are
    not empty, in their order and each simplified in turn, so that no child
    of the sequence it leaves is empty. *)
Theorem simplifyDummies_removes_empties (l : list ASTNode) :
  simplifyDummies (SequenceNode l)
  = SequenceNode (map simplifyDummies (nonEmptyNodes l))
  /\ Forall (fun Node => isEmpty Node = false)
            (map simplifyDummies (nonEmptyNodes l)).
Proof.
  split; [apply simplifyDummies_children |].
  apply Forall_forall. intros x Hx. apply in_map_iff in Hx.
  destruct Hx as [y [<- Hy]]. rewrite isEmpty_simplifyDummies.
  unfold nonEmptyNodes in Hy. apply filter_In in Hy.
  destruct Hy as [_ Hy]. destruct (isEmpty y); [discriminate | reflexivity].
Qed.

(** X2.  Running [simplifyDummies] a second time changes nothing. *)
Theorem simplifyDummies_idempotent (n : ASTNode) :
  simplifyDummies (simplifyDummies n) = simplifyDummies n.
Proof.
  induction n as [bb e s Hs | bb c t e s Ht He Hs | bb b s Hb Hs
                 | l Hl | bb s Hs | |] using ASTNode_induction;
    try reflexivity.
  - simpl. f_equal.
    + destruct t as [x|]; simpl; [| reflexivity]. f_equal. apply Ht.
      reflexivity.
    + destruct e as [x|]; simpl; [| reflexivity]. f_equal. apply He.
      reflexivity.
  - rewrite !simplifyDummies_children, nonEmptyNodes_simplified.
    f_equal. apply map_fixed. apply Forall_sublist. assumption.
Qed.

Lemma after_length (l : list ASTNode) :
  length (map afterSimplifyAtomicSequence l) = length l.
Proof. apply length_map. Qed.

(** [simplifyAtomicSequence] on a sequence, by the number of children. *)
Lemma simplifyAtomicSequence_many (x y : ASTNode) (l : list ASTNode) :
  simplifyAtomicSequence (SequenceNode (x :: y :: l))
  = Some (SequenceNode (map afterSimplifyAtomicSequence (x :: y :: l))).
Proof. reflexivity. Qed.

(** X3.  The node that [simplifyAtomicSequence] returns is never a sequence
    of fewer than two children, and neither is the then branch, the else
    branch or the loop body that it stores in the node it returns. *)
Theorem simplifyAtomicSequence_proper_root (n r : ASTNode) :
  simplifyAtomicSequence n = Some r ->
  properRoot r
  /\ (forall bb c t e s, r = IfNode bb c t e s ->
        properBranch t /\ properBranch e)
  /\ (forall bb b s, r = ScsNode bb b s -> properBranch b).
Proof.
  assert (H : forall m q, simplifyAtomicSequence m = Some q -> properRoot q).
  { induction m as [bb e s Hs | bb c t e s Ht He Hs | bb b s Hb Hs
                   | l Hl | bb s Hs | |] using ASTNode_induction;
      intros q Hq; simpl in Hq; try (inversion Hq; subst; exact I).
    destruct l as [|x [|y l]]; [discriminate | |].
    - inversion Hl; subst. auto.
    - inversion Hq; subst. simpl. rewrite length_map. simpl. lia. }
  assert (HB : forall o : option ASTNode,
            properBranch (match o with
                          | Some m => simplifyAtomicSequence m
                          | None => None
                          end)).
  { intros [m|]; [| exact I].
    destruct (simplifyAtomicSequence m) as [q|] eqn:E; [| exact I].
    simpl. eapply H. eassumption. }
  revert r.
  induction n as [bb e s Hs | bb c t e s Ht He Hs | bb b s Hb Hs
                 | l Hl | bb s Hs | |] using ASTNode_induction;
    intros r Hr; (split; [eapply H; eassumption |]); simpl in Hr.
  - inversion Hr; subst. split; intros; discriminate.
  - inversion Hr; subst. split; [| intros; discriminate].
    intros bb' c' t' e' s' E. inversion E; subst. split; apply HB.
  - inversion Hr; subst. split; [intros; discriminate |].
    intros bb' b' s' E. inversion E; subst. apply HB.
  - destruct l as [|x [|y l]]; [discriminate | |].
    + inversion Hl; subst. apply H2. assumption.
    + inversion Hr; subst. split; intros; discriminate.
  - inversion Hr; subst. split; intros; discriminate.
  - inversion Hr; subst. split; intros; discriminate.
  - inversion Hr; subst. split; intros; discriminate.
Qed.

Lemma simplifyAtomicSequence_proper_root_witness :
  simplifyAtomicSequence wrappedIf = Some unwrappedIf
  /\ properRoot unwrappedIf
  /\ (forall bb c t e s, unwrappedIf = IfNode bb c t e s ->
        properBranch t /\ properBranch e)
  /\ (forall bb b s, unwrappedIf = ScsNode bb b s -> properBranch b).
Proof.
  split; [reflexivity |].
  apply (simplifyAtomicSequence_proper_root wrappedIf unwrappedIf).
  reflexivity.
Defined.

(** X4.  [simplifyAtomicSequence] changes nothing on a node it has
    returned. *)
Theorem simplifyAtomicSequence_idempotent (n r : ASTNode) :
  simplifyAtomicSequence n = Some r -> simplifyAtomicSequence r = Some r.
Proof.
  assert (H : forall m,
            (forall q, simplifyAtomicSequence m = Some q ->
                       simplifyAtomicSequence q = Some q)
            /\ afterSimplifyAtomicSequence (afterSimplifyAtomicSequence m)
               = afterSimplifyAtomicSequence m).
  { assert (HO : forall o : option ASTNode,
              (forall m, o = Some m ->
                 forall q, simplifyAtomicSequence m = Some q ->
                           simplifyAtomicSequence q = Some q) ->
              match match o with
                    | Some m => simplifyAtomicSequence m
                    | None => None
                    end with
              | Some m => simplifyAtomicSequence m
              | None => None
              end
              = match o with
                | Some m => simplifyAtomicSequence m
                | None => None
                end).
    { intros [m|] Hm; [| reflexivity].
      destruct (simplifyAtomicSequence m) as [q|] eqn:E; [| reflexivity].
      eapply Hm; [reflexivity | eassumption]. }
    induction m as [bb e s Hs | bb c t e s Ht He Hs | bb b s Hb Hs
                   | l Hl | bb s Hs | |] using ASTNode_induction;
      try (split; [intros q Hq; inversion Hq; subst |]; reflexivity).
    - assert (E1 := HO t (fun m Hm => proj1 (Ht m Hm))).
      assert (E2 := HO e (fun m Hm => proj1 (He m Hm))).
      split.
      + intros q Hq. simpl in Hq. inversion Hq; subst. simpl.
        rewrite E1, E2. reflexivity.
      + simpl. rewrite E1, E2. reflexivity.
    - assert (E1 := HO b (fun m Hm => proj1 (Hb m Hm))).
      split.
      + intros q Hq. simpl in Hq. inversion Hq; subst. simpl.
        rewrite E1. reflexivity.
      + simpl. rewrite E1. reflexivity.
    - assert (HM : map afterSimplifyAtomicSequence
                       (map afterSimplifyAtomicSequence l)
                   = map afterSimplifyAtomicSequence l).
      { apply map_fixed. eapply Forall_impl; [| exact Hl].
        intros a [_ Ha]. exact Ha. }
      destruct l as [|x [|y l]].
      + split; [intros q Hq; discriminate | reflexivity].
      + inversion Hl as [|? ? [Hx1 Hx2] _]; subst. split.
        * intros q Hq. apply Hx1. exact Hq.
        * simpl. simpl in Hx2. rewrite Hx2. reflexivity.
      + split.
        * intros q Hq. rewrite simplifyAtomicSequence_many in Hq.
          inversion Hq; subst. simpl map at 1.
          change (simplifyAtomicSequence
                    (SequenceNode
                       (map afterSimplifyAtomicSequence (x :: y :: l)))
                  = Some (SequenceNode
                            (map afterSimplifyAtomicSequence (x :: y :: l)))).
          simpl map. rewrite simplifyAtomicSequence_many.
          change (Some (SequenceNode
                          (map afterSimplifyAtomicSequence
                             (map afterSimplifyAtomicSequence (x :: y :: l))))
                  = Some (SequenceNode
                            (map afterSimplifyAtomicSequence (x :: y :: l)))).
          rewrite HM. reflexivity.
        * change (afterSimplifyAtomicSequence
                    (SequenceNode
                       (map afterSimplifyAtomicSequence (x :: y :: l)))
                  = SequenceNode
                      (map afterSimplifyAtomicSequence (x :: y :: l))).
          simpl map.
          change (SequenceNode
                    (map afterSimplifyAtomicSequence
                       (map afterSimplifyAtomicSequence (x :: y :: l)))
                  = SequenceNode
                      (map afterSimplifyAtomicSequence (x :: y :: l))).
          rewrite HM. reflexivity. }
  intros Hr. exact (proj1 (H n) r Hr).
Qed.

Lemma simplifyAtomicSequence_idempotent_witness :
  simplifyAtomicSequence wrappedIf = Some unwrappedIf
  /\ simplifyAtomicSequence unwrappedIf = Some unwrappedIf.
Proof.
  split; [reflexivity |].
  apply (simplifyAtomicSequence_idempotent wrappedIf unwrappedIf).
  reflexivity.
Defined.

End ASTPassFacts.

(** ** The sequences that are left after the post-passes *)

Module SequenceFacts.
Import AST ASTProps CFG Builder.





(** What the loop of [generateAst] registers for a node is a first draft
    when the trees of its children are, and when the body of a collapsed
    node is what the post-passes made of the first draft of its body
    graph. *)
Lemma buildASTNode_Draft (Node : BasicBlockNode) (Body : option ASTNode)
  (Children : list (NodeId * option ASTNode)) (r : ASTNode) :
  buildASTNode Node Body Children = Some (Some r) ->
  (forall bb n, In (bb, Some n) Children -> Draft n) ->
  (isCollapsed Node = true ->
   exists BodyDraft, Draft BodyDraft /\ Body = postPasses BodyDraft) ->
  Draft r.
Proof.
  intros H HC HB.
  assert (Hopt : forall bb a, In (bb, a) Children ->
                 forall n, a = Some n -> Draft n).
  { intros bb a Hin n ->. apply (HC bb n Hin). }
  unfold buildASTNode in H. destruct (isCollapsed Node).
  - destruct (HB eq_refl) as [B [HBD ->]]. inv_bind H as u Hu.
    destruct Children as [|[b0 a0] [|c1 l]]; try discriminate;
      inversion H; subst; apply Draft_scs; try assumption.
    + intros n Hn. discriminate.
    + apply (Hopt b0 a0). left. reflexivity.
  - clear HB. inv_bind H as u Hu.
    destruct Children as [|[b0 a0] [|[b1 a1] [|[b2 a2] [|c3 l]]]];
      try discriminate.
    + destruct (isBreak Node); [inversion H; subst; constructor |].
      destruct (isContinue Node); [inversion H; subst; constructor |].
      destruct (isSet Node);
        [inversion H; subst; constructor; intros n Hn; discriminate |].
      destruct (CFG.isEmpty Node || isCode Node); [| discriminate].
      inversion H; subst. constructor. intros n Hn. discriminate.
    + assert (H0 : forall n, a0 = Some n -> Draft n).
      { apply (Hopt b0 a0). left. reflexivity. }
      assert (HN : forall n, @None ASTNode = Some n -> Draft n).
      { intros n Hn. discriminate. }
      inv_bind H as v Hv.
      destruct (isSet Node); [inversion H; subst; constructor; assumption |].
      destruct (CFG.isCheck Node).
      * inv_bind H as t Ht. inv_bind H as f Hf.
        destruct (b0 =? t);
          [inversion H; subst; constructor; assumption |].
        destruct (b0 =? f); [| discriminate].
        inversion H; subst. constructor; assumption.
      * inversion H; subst. constructor; assumption.
    + assert (H0 : forall n, a0 = Some n -> Draft n).
      { apply (Hopt b0 a0). left. reflexivity. }
      assert (H1 : forall n, a1 = Some n -> Draft n).
      { apply (Hopt b1 a1). right. left. reflexivity. }
      assert (HN : forall n, @None ASTNode = Some n -> Draft n).
      { intros n Hn. discriminate. }
      inv_bind H as v Hv. destruct (CFG.isCheck Node).
      * inv_bind H as t Ht. inv_bind H as f Hf.
        destruct ((b0 =? t) && (b1 =? f));
          [inversion H; subst; constructor; assumption |].
        destruct ((b1 =? t) && (b0 =? f)); [| discriminate].
        inversion H; subst. constructor; assumption.
      * inversion H; subst. constructor; assumption.
    + assert (H0 : forall n, a0 = Some n -> Draft n).
      { apply (Hopt b0 a0). left. reflexivity. }
      assert (H1 : forall n, a1 = Some n -> Draft n).
      { apply (Hopt b1 a1). right. left. reflexivity. }
      assert (H2 : forall n, a2 = Some n -> Draft n).
      { apply (Hopt b2 a2). right. right. left. reflexivity. }
      inv_bind H as v Hv. destruct (CFG.isCheck Node).
      * inv_bind H as t Ht. inv_bind H as f Hf.
        destruct ((b0 =? t) && (b2 =? f));
          [inversion H; subst; constructor; assumption |].
        destruct ((b2 =? t) && (b0 =? f)); [| discriminate].
        inversion H; subst. constructor; assumption.
      * inversion H; subst. constructor; assumption.
Qed.

End SequenceFacts.

Module SequenceTheorems.
Import AST ASTProps Builder.



End SequenceTheorems.

(** ** What [removeNode] leaves *)

Module RemovalFacts.
Import CFG Props GraphFacts NodeFacts PurgeFacts MoveFacts.

Lemma In_setErase_iff (x n : NodeId) (s : list NodeId) :
  In x (setErase n s) <-> In x s /\ x <> n.
Proof.
  unfold setErase. rewrite filter_In, Bool.negb_true_iff, Nat.eqb_neq.
  tauto.
Qed.

Lemma removeFirstN_cons_other (k : nat) (n x : NodeId) (l : list NodeId) :
  x <> n -> removeFirstN k n (x :: l) = x :: removeFirstN k n l.
Proof.
  intros Hne. revert l. induction k as [|k IH]; intros l; [reflexivity |].
  simpl. apply Nat.eqb_neq in Hne. rewrite Hne. apply IH.
Qed.

Lemma removeFirstN_all (n : NodeId) (l : list NodeId) :
  removeFirstN (count_occ Nat.eq_dec l n) n l = setErase n l.
Proof.
  unfold setErase. induction l as [|x l IH]; [reflexivity |]. simpl.
  destruct (Nat.eq_dec x n) as [E | E].
  - subst x. simpl. rewrite Nat.eqb_refl. simpl. exact IH.
  - rewrite removeFirstN_cons_other by assumption.
    apply Nat.eqb_neq in E. rewrite E. simpl. rewrite IH. reflexivity.
Qed.

Lemma fold_removeSuccessor_nodes (n : NodeId) (l : list NodeId) :
  forall g,
  BlockNodes (fold_left (fun acc Predecessor =>
                updateNode acc Predecessor (fun b => removeSuccessor b n)) l g)
  = map (fun b => setSuccessors b
                    (removeFirstN (count_occ Nat.eq_dec l (ID b)) n
                                  (Successors b)))
        (BlockNodes g).
Proof.
  induction l as [|p l IH]; intros g; simpl.
  - rewrite <- (map_id (BlockNodes g)) at 1. apply map_ext.
    intros b. destruct b; reflexivity.
  - rewrite IH. simpl. rewrite map_map. apply map_ext. intros b.
    destruct (ID b =? p) eqn:E.
    + apply Nat.eqb_eq in E. simpl. rewrite E.
      destruct (Nat.eq_dec p p); [| congruence]. reflexivity.
    + apply Nat.eqb_neq in E.
      destruct (Nat.eq_dec p (ID b)); [congruence |]. reflexivity.
Qed.

Lemma fold_removeSuccessor_rest (n : NodeId) (l : list NodeId) :
  forall g,
  EntryNode (fold_left (fun acc Predecessor =>
               updateNode acc Predecessor (fun b => removeSuccessor b n)) l g)
  = EntryNode g
  /\ IDCounter (fold_left (fun acc Predecessor =>
                  updateNode acc Predecessor (fun b => removeSuccessor b n))
                 l g)
     = IDCounter g.
Proof.
  induction l as [|p l IH]; intros g; simpl; [auto |].
  destruct (IH (updateNode g p (fun b => removeSuccessor b n))) as [H1 H2].
  rewrite H1, H2. auto.
Qed.

Lemma eraseFirst_nodesBut (n : NodeId) (l : list BasicBlockNode) :
  NoDup (map ID l) -> eraseFirst n l = nodesBut n l.
Proof.
  unfold nodesBut. induction l as [|b l IH]; intros Hnd; [reflexivity |].
  simpl in *. inversion Hnd as [|? ? Hn Hnd']; subst.
  destruct (ID b =? n) eqn:E; simpl.
  - apply Nat.eqb_eq in E. subst n. symmetry.
    apply forallb_filter_id.
    apply forallb_forall. intros c Hc. apply Bool.negb_true_iff.
    destruct (ID c =? ID b) eqn:E2; [| reflexivity].
    apply Nat.eqb_eq in E2. exfalso. apply Hn. rewrite <- E2.
    apply in_map. assumption.
  - rewrite IH by assumption. reflexivity.
Qed.

Lemma nodesBut_map (n : NodeId) (F : BasicBlockNode -> BasicBlockNode)
  (l : list BasicBlockNode) :
  (forall c, In c l -> F c = withoutEdgesTo n c) ->
  nodesBut n (map F l) = map (withoutEdgesTo n) (nodesBut n l).
Proof.
  unfold nodesBut. induction l as [|c l IH]; intros HM; [reflexivity |].
  simpl. rewrite (HM c) by (left; reflexivity).
  change (ID (withoutEdgesTo n c)) with (ID c).
  destruct (ID c =? n); simpl.
  - apply IH. intros c1 Hc1. apply HM. right. assumption.
  - f_equal. apply IH. intros c1 Hc1. apply HM. right. assumption.
Qed.

(** [removeNode] erases the node and every edge into it, and changes nothing
    else. *)
Lemma removeNode_structure (g g' : RegionCFG) (n : NodeId) :
  distinctIDs g -> removeNode g n = Some g' ->
  BlockNodes g' = map (withoutEdgesTo n) (nodesBut n (BlockNodes g))
  /\ EntryNode g' = EntryNode g /\ IDCounter g' = IDCounter g.
Proof.
  intros Hd H. unfold removeNode in H. inv_bind H as b Hb.
  inversion H; subst g'; clear H. simpl.
  destruct (fold_removeSuccessor_rest n (predecessors g n) g) as [HE HC].
  split; [| split; assumption].
  rewrite fold_removeSuccessor_nodes.
  rewrite eraseFirst_nodesBut.
  - apply nodesBut_map. intros c0 Hc0.
    rewrite (count_predecessors g n c0 Hd Hc0).
    unfold cnt. rewrite removeFirstN_all. reflexivity.
  - rewrite map_map. simpl. exact Hd.
Qed.

Lemma removeNode_nodes (g g' : RegionCFG) (n : NodeId) :
  distinctIDs g -> removeNode g n = Some g' ->
  nodes g' = setErase n (nodes g).
Proof.
  intros Hd H. destruct (removeNode_structure g g' n Hd H) as [HB _].
  unfold nodes, setErase. rewrite HB, map_map. unfold nodesBut. simpl.
  clear HB. induction (BlockNodes g) as [|c l IH]; [reflexivity |]. simpl.
  destruct (ID c =? n); simpl; rewrite IH; reflexivity.
Qed.

Lemma removeNode_edges (g g' : RegionCFG) (n : NodeId) :
  distinctIDs g -> removeNode g n = Some g' ->
  forall a s, edge g' a s <-> edge g a s /\ a <> n /\ s <> n.
Proof.
  intros Hd H a s. destruct (removeNode_structure g g' n Hd H) as [HB _].
  unfold edge. rewrite HB. split.
  - intros [b [Hin [Hid Hs]]]. apply in_map_iff in Hin.
    destruct Hin as [c [<- Hc]]. unfold nodesBut in Hc.
    apply filter_In in Hc. destruct Hc as [Hc Hne]. simpl in *.
    apply In_setErase_iff in Hs.
    apply Bool.negb_true_iff, Nat.eqb_neq in Hne.
    split; [exists c; tauto |]. split; [congruence | tauto].
  - intros [[b [Hin [Hid Hs]]] [Ha Hs']].
    exists (withoutEdgesTo n b). split; [| split].
    + apply in_map. unfold nodesBut. apply filter_In. split; [assumption |].
      apply Bool.negb_true_iff, Nat.eqb_neq. congruence.
    + exact Hid.
    + simpl. apply In_setErase_iff. auto.
Qed.

Lemma removeNode_distinct (g g' : RegionCFG) (n : NodeId) :
  distinctIDs g -> removeNode g n = Some g' -> distinctIDs g'.
Proof.
  intros Hd H. unfold distinctIDs. rewrite (removeNode_nodes g g' n Hd H).
  unfold setErase. apply NoDup_filter. exact Hd.
Qed.

Lemma removeNode_Some (g : RegionCFG) (n : NodeId) :
  In n (nodes g) -> exists g', removeNode g n = Some g'.
Proof.
  intros Hin. unfold nodes in Hin. apply in_map_iff in Hin.
  destruct Hin as [b [Hid Hb]]. destruct (In_findNode g b Hb) as [b' Hb'].
  unfold removeNode. rewrite <- Hid, Hb'. cbn [bind]. eauto.
Qed.

Lemma removeNode_None (g : RegionCFG) (n : NodeId) :
  ~ In n (nodes g) -> removeNode g n = None.
Proof.
  intros Hn. unfold removeNode.
  destruct (findNode g n) as [b|] eqn:E; [| reflexivity].
  apply findNode_In in E. destruct E as [Hb Hid]. exfalso. apply Hn.
  rewrite <- Hid. apply in_map. assumption.
Qed.

(** Removing a list of nodes, one after the other. *)
Lemma removeNodes_spec (PL : list NodeId) :
  forall g g', distinctIDs g -> removeNodes g PL = Some g' ->
  NoDup PL /\ incl PL (nodes g) /\ distinctIDs g'
  /\ (forall x, In x (nodes g') <-> In x (nodes g) /\ ~ In x PL)
  /\ (forall a s, edge g' a s <-> edge g a s /\ ~ In a PL /\ ~ In s PL).
Proof.
  induction PL as [|p PL IH]; intros g g' Hd H; simpl in H.
  - inversion H; subst g'. split; [constructor |].
    split; [intros x [] |]. split; [assumption |].
    split; intros; simpl; tauto.
  - inv_bind H as g1 Hg1.
    pose proof (removeNode_nodes g g1 p Hd Hg1) as HN.
    pose proof (removeNode_edges g g1 p Hd Hg1) as HE.
    pose proof (removeNode_distinct g g1 p Hd Hg1) as Hd1.
    destruct (IH g1 g' Hd1 H) as [Hnd [Hincl [Hd' [Hn' He']]]].
    assert (Hp : In p (nodes g)).
    { destruct (in_dec Nat.eq_dec p (nodes g)) as [Hp | Hp]; [assumption |].
      rewrite (removeNode_None g p Hp) in Hg1. discriminate. }
    split.
    { constructor; [| assumption]. intros Hp'. apply Hincl in Hp'.
      rewrite HN in Hp'. apply In_setErase_iff in Hp'. tauto. }
    split.
    { intros x [<- | Hx]; [assumption |]. apply Hincl in Hx.
      rewrite HN in Hx. apply In_setErase_iff in Hx. tauto. }
    split; [assumption |]. split.
    + intros x. rewrite Hn', HN, In_setErase_iff. simpl.
      intuition congruence.
    + intros a s. rewrite He', HE. simpl. intuition congruence.
Qed.

End RemovalFacts.

(** ** What [purgeVirtualSink] removes *)

Module SinkFacts.
Import CFG Props GraphFacts NodeFacts PurgeFacts MoveFacts RemovalFacts.

(** Every node put on the purge list reaches the sink through empty nodes. *)
Lemma collectPurgeList_sound (g : RegionCFG) (Sink : NodeId) (fuel : nat) :
  forall W acc PL, collectPurgeList fuel g W acc = Some PL ->
  (forall w, In w W ->
     w = Sink \/ exists m, emptyChain g Sink m /\ edge g w m) ->
  (forall n, In n acc -> emptyChain g Sink n) ->
  forall n, In n PL -> emptyChain g Sink n.
Proof.
  induction fuel as [|k IH]; intros W acc PL H HW Hacc; simpl in H;
    [discriminate |].
  destruct W as [|w rest]; [inversion H; subst; assumption |].
  inv_bind H as b Hb. destruct (isEmpty b) eqn:E.
  - assert (Hw : emptyChain g Sink w).
    { destruct (HW w (or_introl eq_refl)) as [-> | [m [Hm He]]].
      - eapply emptyChain_sink; eassumption.
      - eapply emptyChain_step; eassumption. }
    apply (IH _ _ _ H).
    + intros p Hp. apply in_app_or in Hp. destruct Hp as [Hp | Hp].
      * right. exists w. split; [assumption |].
        apply predecessors_edge. apply in_rev. assumption.
      * apply HW. right. assumption.
    + intros n Hn. apply in_app_or in Hn.
      destruct Hn as [Hn | [<- | []]]; [apply Hacc |]; assumption.
  - apply (IH _ _ _ H); [| assumption].
    intros p Hp. apply HW. right. assumption.
Qed.

(** The purge list is closed: it holds the sink, and every empty predecessor
    of one of its nodes. *)
Lemma collectPurgeList_closed (g : RegionCFG) (Sink : NodeId) (fuel : nat) :
  forall W acc PL, collectPurgeList fuel g W acc = Some PL ->
  (forall n, emptyChain g Sink n ->
     (n = Sink \/ exists m, In m acc /\ edge g n m) ->
     In n W \/ In n acc) ->
  forall n, emptyChain g Sink n ->
    (n = Sink \/ exists m, In m PL /\ edge g n m) -> In n PL.
Proof.
  induction fuel as [|k IH]; intros W acc PL H Hinv; simpl in H;
    [discriminate |].
  destruct W as [|w rest].
  - inversion H; subst. intros n Hn Hc.
    destruct (Hinv n Hn Hc) as [[] | Hacc]. assumption.
  - inv_bind H as b Hb. destruct (isEmpty b) eqn:E.
    + apply (IH _ _ _ H). intros n Hn Hc.
      assert (Hd : (n = Sink \/ exists m, In m acc /\ edge g n m)
                   \/ edge g n w).
      { destruct Hc as [-> | [m [Hm He]]]; [left; left; reflexivity |].
        apply in_app_or in Hm. destruct Hm as [Hm | [<- | []]].
        - left. right. exists m. auto.
        - right. assumption. }
      destruct Hd as [Hd | Hd].
      * destruct (Hinv n Hn Hd) as [[<- | Hr] | Ha].
        -- right. apply in_or_app. right. left. reflexivity.
        -- left. apply in_or_app. right. assumption.
        -- right. apply in_or_app. left. assumption.
      * left. apply in_or_app. left. apply -> in_rev.
        apply edge_predecessors. assumption.
    + apply (IH _ _ _ H). intros n Hn Hc.
      destruct (Hinv n Hn Hc) as [[<- | Hr] | Ha]; [| auto | auto].
      exfalso. inversion Hn as [b' Hb' He' | ? m b' Hb' He' _ _]; subst;
        rewrite Hb in Hb'; inversion Hb'; subst; congruence.
Qed.

Lemma collectPurgeList_chains (g : RegionCFG) (Sink : NodeId) (fuel : nat)
  (PL : list NodeId) :
  collectPurgeList fuel g [Sink] [] = Some PL ->
  forall n, In n PL <-> emptyChain g Sink n.
Proof.
  intros H n. split.
  - apply (collectPurgeList_sound g Sink fuel _ _ _ H).
    + intros w [<- | []]. left. reflexivity.
    + intros x [].
  - intros Hn.
    assert (Hclosed := collectPurgeList_closed g Sink fuel _ _ _ H).
    assert (Hinit : forall x, emptyChain g Sink x ->
              (x = Sink \/ exists m, In m [] /\ edge g x m) ->
              In x [Sink] \/ In x []).
    { intros x _ [-> | [m [[] _]]]. left. left. reflexivity. }
    specialize (Hclosed Hinit).
    induction Hn as [b Hb He | x m b Hb He Hedge Hm IHm].
    + apply Hclosed; [eapply emptyChain_sink; eassumption | left; reflexivity].
    + apply Hclosed; [eapply emptyChain_step; eassumption |].
      right. exists m. auto.
Qed.

(** How often a node is on the purge list: once for the first push of the
    sink, and once for each edge to each entry of the list. *)
Lemma collectPurgeList_count (g : RegionCFG) (c0 : NodeId -> nat)
  (fuel : nat) :
  forall W acc PL, collectPurgeList fuel g W acc = Some PL ->
  forall n b, findNode g n = Some b -> isEmpty b = true ->
  count_occ Nat.eq_dec W n + count_occ Nat.eq_dec acc n
  = c0 n + count_occ Nat.eq_dec (flat_map (predecessors g) acc) n ->
  count_occ Nat.eq_dec PL n
  = c0 n + count_occ Nat.eq_dec (flat_map (predecessors g) PL) n.
Proof.
  induction fuel as [|k IH]; intros W acc PL H n b Hb He Hinv; simpl in H;
    [discriminate |].
  destruct W as [|w rest]; [inversion H; subst; exact Hinv |].
  inv_bind H as bw Hbw. destruct (isEmpty bw) eqn:E.
  - apply (IH _ _ _ H n b Hb He).
    rewrite flat_map_app, !count_occ_app, count_occ_rev. simpl.
    rewrite app_nil_r. simpl in Hinv.
    destruct (Nat.eq_dec w n); lia.
  - apply (IH _ _ _ H n b Hb He). simpl in Hinv.
    destruct (Nat.eq_dec w n) as [-> | Hne]; [| exact Hinv].
    rewrite Hb in Hbw. inversion Hbw; subst. congruence.
Qed.

Lemma count_flat_map_two (f : NodeId -> list NodeId) (l : list NodeId)
  (m1 m2 n : NodeId) :
  m1 <> m2 -> In m1 l -> In m2 l ->
  count_occ Nat.eq_dec (f m1) n + count_occ Nat.eq_dec (f m2) n
  <= count_occ Nat.eq_dec (flat_map f l) n.
Proof.
  intros Hne.
  assert (H1 : forall m l0, In m l0 ->
            count_occ Nat.eq_dec (f m) n
            <= count_occ Nat.eq_dec (flat_map f l0) n).
  { intros m l0. induction l0 as [|x l0 IH]; intros Hin; [destruct Hin |].
    simpl. rewrite count_occ_app. destruct Hin as [-> | Hin]; [lia |].
    specialize (IH Hin). lia. }
  induction l as [|x l IH]; intros Hm1 Hm2; [destruct Hm1 |].
  simpl. rewrite count_occ_app.
  destruct Hm1 as [-> | Hm1], Hm2 as [E | Hm2].
  - congruence.
  - pose proof (H1 m2 l Hm2). lia.
  - subst x. pose proof (H1 m1 l Hm1). lia.
  - specialize (IH Hm1 Hm2). lia.
Qed.

End SinkFacts.

(** ** Theorems about removing nodes *)

Module RemovalTheorems.
Import CFG Props GraphFacts NodeFacts PurgeFacts MoveFacts RemovalFacts.
Import SinkFacts Examples.

(** X5.  In a graph of distinct nodes [removeNode] erases the node and every
    edge into it or out of it and changes nothing else: the other nodes stay
    in their order, an edge stays exactly when neither of its ends is the
    node, and no successor list mentions the node any more. *)
Theorem removeNode_leaves_no_reference (g g' : RegionCFG) (n : NodeId) :
  distinctIDs g -> removeNode g n = Some g' ->
  nodes g' = setErase n (nodes g)
  /\ (forall a s, edge g' a s <-> edge g a s /\ a <> n /\ s <> n)
  /\ (forall b, In b (BlockNodes g') -> ~ In n (Successors b))
  /\ sigs g' = eraseSig n (sigs g)
  /\ distinctIDs g'.
Proof.
  intros Hd H. split; [apply removeNode_nodes; assumption |].
  split; [apply removeNode_edges; assumption |].
  split.
  - intros b Hb Hs.
    assert (He : edge g' (ID b) n) by (exists b; auto).
    apply (removeNode_edges g g' n Hd H) in He. tauto.
  - split; [apply removeNode_sigs; assumption |].
    eapply removeNode_distinct; eassumption.
Qed.

Lemma removeNode_leaves_no_reference_witness :
  removeNode emptyFork 4
  = Some (mkCFG [block 0 1 [1]; dummy 1 [2; 3]; dummy 2 []; dummy 3 []] 0 5)
  /\ nodes (mkCFG [block 0 1 [1]; dummy 1 [2; 3]; dummy 2 []; dummy 3 []] 0 5)
     = setErase 4 (nodes emptyFork).
Proof.
  assert (H : removeNode emptyFork 4
              = Some (mkCFG [block 0 1 [1]; dummy 1 [2; 3]; dummy 2 [];
                             dummy 3 []] 0 5)).
  { vm_compute. reflexivity. }
  split; [exact H |].
  refine (proj1 (removeNode_leaves_no_reference emptyFork _ 4 _ H)).
  distinct_ids.
Defined.

(** X6.  When [purgeVirtualSink] completes on a graph of distinct nodes, it
    has removed exactly the nodes from which the sink is reached through
    empty nodes only (the sink itself, if it is empty), together with their
    edges: every other node and every edge between two other nodes is
    still there. *)
Theorem purgeVirtualSink_removes_empty_chains (fuel : nat)
  (g g' : RegionCFG) (Sink : NodeId) :
  distinctIDs g -> purgeVirtualSink fuel g Sink = Some g' ->
  (forall x, In x (nodes g') <-> In x (nodes g) /\ ~ emptyChain g Sink x)
  /\ (forall a s, edge g' a s <->
         edge g a s /\ ~ emptyChain g Sink a /\ ~ emptyChain g Sink s)
  /\ distinctIDs g'.
Proof.
  intros Hd H. unfold purgeVirtualSink in H. inv_bind H as PL HPL.
  pose proof (collectPurgeList_chains g Sink fuel PL HPL) as HC.
  destruct (removeNodes_spec PL g g' Hd H) as [_ [_ [Hd' [Hn He]]]].
  split; [| split; [| assumption]].
  - intros x. rewrite Hn, HC. tauto.
  - intros a s. rewrite He, !HC. tauto.
Qed.

Lemma purgeVirtualSink_removes_empty_chains_witness :
  purgeVirtualSink 10 emptyTail 2 = Some emptyTailPurged
  /\ (In 1 (nodes emptyTailPurged)
      <-> In 1 (nodes emptyTail) /\ ~ emptyChain emptyTail 2 1).
Proof.
  assert (H : purgeVirtualSink 10 emptyTail 2 = Some emptyTailPurged).
  { vm_compute. reflexivity. }
  split; [exact H |].
  refine (proj1 (purgeVirtualSink_removes_empty_chains 10 emptyTail
                   emptyTailPurged 2 _ H) 1).
  distinct_ids.
Defined.

(** X7.  [purgeVirtualSink] puts a node on its purge list once for every
    path of empty nodes that leads from it to the sink, and removes it once
    for every entry.  So when an empty node has edges to two different
    nodes from which the sink is reached through empty nodes only, the
    second removal finds the node already removed, and the function does
    not complete, whatever the fuel. *)
Theorem purgeVirtualSink_aborts_on_empty_fork (fuel : nat) (g : RegionCFG)
  (Sink n m1 m2 : NodeId) (b : BasicBlockNode) :
  distinctIDs g ->
  findNode g n = Some b -> isEmpty b = true ->
  edge g n m1 -> edge g n m2 -> m1 <> m2 ->
  emptyChain g Sink m1 -> emptyChain g Sink m2 ->
  purgeVirtualSink fuel g Sink = None.
Proof.
  intros Hd Hb He He1 He2 Hne Hm1 Hm2. unfold purgeVirtualSink.
  destruct (collectPurgeList fuel g [Sink] []) as [PL|] eqn:HPL;
    [| reflexivity].
  cbn [bind]. destruct (removeNodes g PL) as [g'|] eqn:HR; [| reflexivity].
  exfalso.
  destruct (removeNodes_spec PL g g' Hd HR) as [Hnd _].
  pose proof (collectPurgeList_chains g Sink fuel PL HPL) as HC.
  pose proof (collectPurgeList_count g
                (fun x => count_occ Nat.eq_dec [Sink] x) fuel _ _ _ HPL
                n b Hb He) as Hcount.
  simpl in Hcount. specialize (Hcount eq_refl).
  pose proof (count_flat_map_two (predecessors g) PL m1 m2 n Hne
                (proj2 (HC m1) Hm1) (proj2 (HC m2) Hm2)) as Htwo.
  assert (H1 : 0 < count_occ Nat.eq_dec (predecessors g m1) n).
  { apply count_occ_In. apply edge_predecessors. assumption. }
  assert (H2 : 0 < count_occ Nat.eq_dec (predecessors g m2) n).
  { apply count_occ_In. apply edge_predecessors. assumption. }
  pose proof (proj1 (NoDup_count_occ Nat.eq_dec PL) Hnd n) as Hle.
  lia.
Qed.

Lemma purgeVirtualSink_aborts_on_empty_fork_witness :
  purgeVirtualSink 50 emptyFork 4 = None.
Proof.
  apply (purgeVirtualSink_aborts_on_empty_fork 50 emptyFork 4 1 2 3
           (dummy 1 [2; 3])).
  - distinct_ids.
  - reflexivity.
  - reflexivity.
  - apply DAGFacts.hasEdge_edge. reflexivity.
  - apply DAGFacts.hasEdge_edge. reflexivity.
  - discriminate.
  - apply (emptyChain_step emptyFork 4 2 4 (dummy 2 [4]));
      [reflexivity | reflexivity | apply DAGFacts.hasEdge_edge; reflexivity |].
    apply (emptyChain_sink emptyFork 4 (dummy 4 [])); reflexivity.
  - apply (emptyChain_step emptyFork 4 3 4 (dummy 3 [4]));
      [reflexivity | reflexivity | apply DAGFacts.hasEdge_edge; reflexivity |].
    apply (emptyChain_sink emptyFork 4 (dummy 4 [])); reflexivity.
Defined.

End RemovalTheorems.


(** ** [purgeDummies] always completes *)

Module PurgeTotalFacts.
Import CFG Props GraphFacts NodeFacts PurgeFacts MoveFacts CombFacts.
Import RemovalFacts.

Lemma isPurgeable_inv (g : RegionCFG) (b : BasicBlockNode) :
  isPurgeable g b = true ->
  isEmpty b = true
  /\ (exists P, predecessors g (ID b) = [P])
  /\ (exists S, Successors b = [S]).
Proof.
  unfold isPurgeable, predecessor_size, successor_size. intros H.
  apply Bool.andb_true_iff in H. destruct H as [H H3].
  apply Bool.andb_true_iff in H. destruct H as [H1 H2].
  apply Nat.eqb_eq in H2, H3. split; [assumption |]. split.
  - destruct (predecessors g (ID b)) as [|P [|? ?]]; try discriminate. eauto.
  - destruct (Successors b) as [|S [|? ?]]; try discriminate. eauto.
Qed.

Lemma empty_not_check (b : BasicBlockNode) :
  isEmpty b = true -> isCheck b = false.
Proof. unfold isEmpty, isCheck. destruct (NodeType b); simpl; congruence. Qed.

Lemma edge_In_predecessors (g : RegionCFG) (a X : NodeId) :
  edge g a X <-> In a (predecessors g X).
Proof. split; [apply edge_predecessors | apply predecessors_edge]. Qed.

Lemma edge_of_node (g : RegionCFG) (b : BasicBlockNode) (m : NodeId) :
  distinctIDs g -> In b (BlockNodes g) ->
  (edge g (ID b) m <-> In m (Successors b)).
Proof.
  intros Hd Hb. split.
  - intros [c [Hc [Hid Hm]]].
    rewrite (node_unique (BlockNodes g) c b Hd Hc Hb Hid) in Hm. assumption.
  - intros Hm. exists b. auto.
Qed.

(** The edges after the repointing of one turn. *)
Lemma purge_move_edges (g g1 : RegionCFG) (b : BasicBlockNode)
  (P S : NodeId) :
  distinctIDs g -> In b (BlockNodes g) -> isEmpty b = true ->
  predecessors g (ID b) = [P] -> Successors b = [S] ->
  moveEdgeTarget g (P, ID b) S = Some g1 ->
  forall a s, edge g1 a s <->
    (edge g a s /\ s <> ID b) \/ (s = S /\ a = P).
Proof.
  intros Hd Hb He HP HS H a s.
  assert (HPX : forall x, edge g x (ID b) <-> x = P).
  { intros x. rewrite edge_In_predecessors, HP. simpl. intuition. }
  destruct (Nat.eq_dec (ID b) S) as [E | E].
  - (* the node is its own successor, hence its own predecessor *)
    assert (EP : P = ID b).
    { symmetry. apply HPX. apply (edge_of_node g b (ID b) Hd Hb).
      rewrite HS, E. left. reflexivity. }
    assert (Hg1 : BlockNodes g1 = BlockNodes g).
    { rewrite EP in H. apply moveEdgeTarget_inv in H.
      destruct H as [b0 [l [Hb0 [-> [_ [Hl [_ [_ Hlen]]]]]]]].
      rewrite (findNode_unique g b b0 Hd Hb Hb0) in *.
      rewrite HS in Hl, Hlen.
      assert (El : l = [S]).
      { destruct l as [|x [|? ?]]; try discriminate.
        destruct (Hl x (or_introl eq_refl)) as [[<- | []] | ->]; reflexivity. }
      subst l. simpl.
      rewrite <- (map_id (BlockNodes g)) at 2. apply map_ext_in.
      intros c Hc. destruct (ID c =? ID b) eqn:E2; [| reflexivity].
      apply Nat.eqb_eq in E2.
      rewrite (node_unique (BlockNodes g) c b Hd Hc Hb E2).
      rewrite <- HS. apply setSuccessors_same. }
    unfold edge at 1. rewrite Hg1. fold (edge g a s).
    split.
    + intros Hedge. destruct (Nat.eq_dec s (ID b)) as [-> | Hs];
        [| left; auto].
      right. split; [assumption |]. apply HPX. assumption.
    + intros [[Hedge _] | [-> ->]]; [assumption |].
      rewrite <- E. apply HPX. reflexivity.
  - assert (Hm : moveEdges g (predecessors g (ID b)) (ID b) S
                   (fun _ => true) = Some g1).
    { rewrite HP. cbn [moveEdges]. rewrite H. reflexivity. }
    rewrite (moveEdges_edges g g1 (ID b) S _ Hd E Hm a s), HPX. intuition.
Qed.

(** One turn of the loop goes through, and this is what it leaves. *)
Lemma purgeNode_total (g : RegionCFG) (b : BasicBlockNode) :
  distinctIDs g -> checksComplete g -> In b (BlockNodes g) ->
  isPurgeable g b = true ->
  exists g' P S,
    purgeNode g b = Some g'
    /\ predecessors g (ID b) = [P] /\ Successors b = [S]
    /\ distinctIDs g' /\ checksComplete g'
    /\ nodes g' = setErase (ID b) (nodes g)
    /\ incl (sigs g') (sigs g)
    /\ purgeStep g g' (ID b) P S.
Proof.
  intros Hd Hck Hb Hp.
  destruct (isPurgeable_inv g b Hp) as [He [[P HP] [S HS]]].
  assert (HPX : forall x, edge g x (ID b) <-> x = P).
  { intros x. rewrite edge_In_predecessors, HP. simpl. intuition. }
  assert (HXS : forall m, edge g (ID b) m <-> m = S).
  { intros m. rewrite (edge_of_node g b m Hd Hb), HS. simpl. intuition. }
  (* the repointing *)
  assert (HeP : edge g P (ID b)) by (apply HPX; reflexivity).
  destruct HeP as [p [Hp1 [Hp2 Hp3]]].
  destruct (In_findNode g p Hp1) as [p' Hp'].
  rewrite (findNode_unique g p p' Hd Hp1 Hp') in Hp'. rewrite Hp2 in Hp'.
  destruct (moveEdgeTarget_succeeds g p P (ID b) S Hp' Hp3 (Hck p Hp1))
    as [g1 Hg1].
  pose proof (purge_move_edges g g1 b P S Hd Hb He HP HS Hg1) as HE1.
  assert (Hs1 : sigs g1 = sigs g)
    by (eapply sigs_moveEdgeTarget; eassumption).
  assert (Hd1 : distinctIDs g1)
    by (apply (distinctIDs_same_sigs g g1); assumption).
  assert (Hck1 : checksComplete g1)
    by exact (moveEdgeTarget_checks g g1 P (ID b) S Hd Hck Hg1).
  (* the removal *)
  assert (Hin1 : In (ID b) (nodes g1)).
  { rewrite nodes_sigs, Hs1, <- nodes_sigs. apply in_map. assumption. }
  destruct (removeNode_Some g1 (ID b) Hin1) as [g' Hg'].
  destruct (removeNode_structure g1 g' (ID b) Hd1 Hg') as [HB _].
  pose proof (removeNode_edges g1 g' (ID b) Hd1 Hg') as HE'.
  exists g', P, S.
  split.
  { unfold purgeNode. rewrite HP, HS. cbn [nth_error bind]. rewrite Hg1.
    cbn [bind]. exact Hg'. }
  split; [assumption |]. split; [assumption |].
  split; [eapply removeNode_distinct; eassumption |].
  split.
  { intros c' Hc' Hcheck. rewrite HB in Hc'. apply in_map_iff in Hc'.
    destruct Hc' as [c [<- Hc]]. unfold nodesBut in Hc.
    apply filter_In in Hc. destruct Hc as [Hc Hne].
    apply Bool.negb_true_iff, Nat.eqb_neq in Hne.
    assert (Hno : ~ In (ID b) (Successors c)).
    { intros Hin.
      assert (Hedge : edge g1 (ID c) (ID b)) by (exists c; auto).
      apply HE1 in Hedge. destruct Hedge as [[_ Hx] | [Hx1 Hx2]];
        [congruence |].
      (* then S is the node itself, and so is its predecessor *)
      assert (HSS : edge g (ID b) (ID b)) by (apply HXS; congruence).
      apply HPX in HSS. congruence. }
    unfold successor_size, withoutEdgesTo. simpl.
    unfold setErase. rewrite forallb_filter_id.
    - apply (Hck1 c Hc Hcheck).
    - apply forallb_forall. intros x Hx. apply Bool.negb_true_iff.
      apply Nat.eqb_neq. intros ->. contradiction. }
  split.
  { rewrite (removeNode_nodes g1 g' (ID b) Hd1 Hg').
    rewrite !nodes_sigs, Hs1. reflexivity. }
  split.
  { rewrite (removeNode_sigs g1 g' (ID b) Hg'), Hs1. apply eraseSig_incl. }
  split; [| split; [intros a Ha; apply HPX; assumption |
                    split; [intros m Hm; apply HXS; assumption |
                            split; [apply HPX | apply HXS]; reflexivity]]].
  intros a s. rewrite HE', HE1. split.
  - intros [[[H1 H2] | [-> ->]] [H3 H4]]; [left | right]; auto.
  - intros [[H1 [H2 H3]] | [-> [-> [H2 H3]]]]; (split; [| auto]);
      [left | right]; auto.
Qed.

(** A turn of the loop keeps the paths between the nodes that stay. *)
Lemma purgeStep_paths (g g' : RegionCFG) (X P S : NodeId) :
  purgeStep g g' X P S ->
  forall a c, a <> X -> c <> X -> (path g' a c <-> path g a c).
Proof.
  intros [HE [HP [HS [HPX HXS]]]] a c Ha Hc. split.
  - clear Ha Hc. intros Hp.
    assert (Hone : forall x y, edge g' x y -> path g x y).
    { intros x y Hxy. apply HE in Hxy.
      destruct Hxy as [[Hxy _] | [-> [-> _]]]; [apply path_edge; assumption |].
      eapply path_step; [exact HPX | apply path_edge; exact HXS]. }
    assert (Happ : forall x y z, path g x y -> path g y z -> path g x z).
    { intros x y z Hxy. induction Hxy as [x y Hxy | x m y Hxm _ IH];
        intros Hyz; [eapply path_step; eassumption |].
      eapply path_step; [exact Hxm | apply IH; exact Hyz]. }
    induction Hp as [x y Hxy | x m y Hxm _ IH]; [apply Hone; assumption |].
    eapply Happ; [apply Hone; exact Hxm | exact IH].
  - intros Hp. revert Ha.
    assert (Hsrc : forall x y, path g' x y -> x <> X).
    { intros x y Hxy. destruct Hxy as [x y Hxy | x m y Hxy _];
        apply HE in Hxy; tauto. }
    assert (H : (a <> X -> path g' a c)
                /\ (a = X -> c = S \/ path g' S c)).
    { induction Hp as [x y Hxy | x m y Hxm Hmy IH].
      - split.
        + intros Hx. apply path_edge. apply HE. left. auto.
        + intros ->. left. apply HS. assumption.
      - specialize (IH Hc). destruct IH as [IH1 IH2]. split.
        + intros Hx. destruct (Nat.eq_dec m X) as [-> | Hm].
          * pose proof (HP x Hxm) as ->.
            destruct (IH2 eq_refl) as [-> | Hpath].
            -- apply path_edge. apply HE. right. auto.
            -- eapply path_step; [| exact Hpath]. apply HE. right.
               split; [reflexivity |]. split; [reflexivity |].
               split; [assumption |]. eapply Hsrc. eassumption.
          * eapply path_step; [| apply IH1; assumption].
            apply HE. left. auto.
        + intros ->. pose proof (HS m Hxm) as ->.
          destruct (Nat.eq_dec S X) as [E | E].
          * apply IH2. assumption.
          * right. apply IH1. assumption. }
    tauto.
Qed.

Lemma setErase_length (x : NodeId) (l : list NodeId) :
  NoDup l -> In x l -> S (length (setErase x l)) = length l.
Proof.
  unfold setErase. induction l as [|y l IH]; intros Hnd Hin;
    [destruct Hin |].
  inversion Hnd as [|? ? Hn Hnd']; subst. simpl.
  destruct (y =? x) eqn:E; simpl.
  - apply Nat.eqb_eq in E. subst y. f_equal.
    rewrite forallb_filter_id; [reflexivity |].
    apply forallb_forall. intros z Hz. apply Bool.negb_true_iff.
    apply Nat.eqb_neq. intros ->. contradiction.
  - f_equal. apply IH; [assumption |]. destruct Hin as [-> | Hin];
      [| assumption]. rewrite Nat.eqb_refl in E. discriminate.
Qed.

(** What the loop of [purgeDummies] does when its fuel exceeds the number
    of nodes. *)
Lemma purgeDummiesLoop_total (fuel : nat) :
  forall g acc,
  distinctIDs g -> checksComplete g -> length (BlockNodes g) < fuel ->
  exists g' removed,
    purgeDummiesLoop fuel g acc = Some (g', acc ++ removed)
    /\ distinctIDs g' /\ checksComplete g'
    /\ (forall b, In b (BlockNodes g') -> isPurgeable g' b = false)
    /\ NoDup removed
    /\ (forall x, In x (nodes g') <-> In x (nodes g) /\ ~ In x removed)
    /\ incl (sigs g') (sigs g)
    /\ (forall n, In n removed ->
          exists b, In b (BlockNodes g) /\ ID b = n /\ isEmpty b = true)
    /\ (forall a c, In a (nodes g') -> In c (nodes g') ->
          (path g' a c <-> path g a c)).
Proof.
  induction fuel as [|k IH]; intros g acc Hd Hck Hlen; [lia |].
  simpl. destruct (find (isPurgeable g) (BlockNodes g)) as [b|] eqn:Ef.
  - apply find_some in Ef. destruct Ef as [Hb Hp].
    destruct (purgeNode_total g b Hd Hck Hb Hp)
      as [g1 [P [S [Hg1 [HP [HS [Hd1 [Hck1 [Hn1 [Hs1 Hstep]]]]]]]]]].
    rewrite Hg1. cbn [bind].
    assert (HbN : In (ID b) (nodes g)) by (apply in_map; assumption).
    assert (Hlen1 : length (BlockNodes g1) < k).
    { pose proof (setErase_length (ID b) (nodes g) Hd HbN) as HL.
      rewrite <- Hn1 in HL. unfold nodes in HL. rewrite !length_map in HL.
      lia. }
    destruct (IH g1 (acc ++ [ID b]) Hd1 Hck1 Hlen1)
      as [g' [removed [Hrun [Hd' [Hck' [Hdone [Hnd [Hn' [Hs' [Hem Hpa]]]]]]]]]].
    exists g', (ID b :: removed).
    assert (Hn1' : forall x, In x (nodes g1) <-> In x (nodes g) /\ x <> ID b).
    { intros x. rewrite Hn1. apply In_setErase_iff. }
    split; [rewrite Hrun, <- app_assoc; reflexivity |].
    split; [assumption |]. split; [assumption |]. split; [assumption |].
    split.
    { constructor; [| assumption]. intros Hin.
      destruct (Hem _ Hin) as [c [Hc [Hid _]]].
      assert (Hc' : In (ID b) (nodes g1)) by (rewrite <- Hid; apply in_map;
                                               assumption).
      apply Hn1' in Hc'. tauto. }
    split.
    { intros x. rewrite Hn', Hn1'. simpl. intuition congruence. }
    split; [eapply incl_tran; eassumption |].
    split.
    { intros n [<- | Hn].
      - exists b. destruct (isPurgeable_inv g b Hp) as [He _]. auto.
      - destruct (Hem n Hn) as [c [Hc [Hid He]]].
        assert (Hsig : In (sig c) (sigs g)) by (apply Hs1, in_map; assumption).
        unfold sigs in Hsig. apply in_map_iff in Hsig.
        destruct Hsig as [c0 [Hsig Hc0]]. exists c0.
        split; [assumption |]. split.
        + rewrite <- Hid. change (sigID (sig c0) = sigID (sig c)).
          rewrite Hsig. reflexivity.
        + rewrite <- sigEmpty_sig, Hsig, sigEmpty_sig. assumption. }
    intros a c Ha Hc. rewrite (Hpa a c Ha Hc).
    apply (purgeStep_paths g g1 (ID b) P S Hstep).
    + apply Hn' in Ha. destruct Ha as [Ha _]. apply Hn1' in Ha. tauto.
    + apply Hn' in Hc. destruct Hc as [Hc _]. apply Hn1' in Hc. tauto.
  - exists g, []. rewrite app_nil_r.
    split; [reflexivity |]. split; [assumption |]. split; [assumption |].
    split; [intros b Hb; apply (find_none _ _ Ef b Hb) |].
    split; [constructor |].
    split; [intros x; simpl; tauto |].
    split; [apply incl_refl |].
    split; [intros n [] |]. intros; tauto.
Qed.

End PurgeTotalFacts.

(** ** Theorems about [purgeDummies] *)

Module PurgeTheorems.
Import CFG Props GraphFacts NodeFacts PurgeFacts MoveFacts CombFacts.
Import RemovalFacts PurgeTotalFacts Examples.

(** X8.  On a graph of distinct nodes whose [Check] nodes have their two
    successors, [purgeDummies] always completes.  The graph it returns has
    no empty node with exactly one predecessor and one successor left; the
    list it returns holds, once each, exactly the nodes that are gone, and
    each of them was an empty node of the input. *)
Theorem purgeDummies_completes (g : RegionCFG) :
  distinctIDs g -> checksComplete g ->
  exists g' removed,
    purgeDummies g = Some (g', removed)
    /\ (forall b, In b (BlockNodes g') -> isPurgeable g' b = false)
    /\ NoDup removed
    /\ (forall x, In x (nodes g') <-> In x (nodes g) /\ ~ In x removed)
    /\ (forall n, In n removed ->
          exists b, In b (BlockNodes g) /\ ID b = n /\ isEmpty b = true)
    /\ distinctIDs g' /\ checksComplete g'.
Proof.
  intros Hd Hck. unfold purgeDummies.
  destruct (purgeDummiesLoop_total (S (length (BlockNodes g))) g [] Hd Hck
              (Nat.lt_succ_diag_r _))
    as [g' [removed [Hrun [Hd' [Hck' [Hdone [Hnd [Hn [_ [Hem _]]]]]]]]]].
  exists g', removed. simpl in Hrun. tauto.
Qed.

Lemma purgeDummies_completes_witness :
  exists g' removed,
    purgeDummies chain = Some (g', removed)
    /\ (forall b, In b (BlockNodes g') -> isPurgeable g' b = false)
    /\ NoDup removed.
Proof.
  destruct (purgeDummies_completes chain)
    as [g' [removed [H1 [H2 [H3 _]]]]].
  - distinct_ids.
  - intros b Hb Hc. simpl in Hb.
    repeat (destruct Hb as [<- | Hb]; [discriminate |]). destruct Hb.
  - exists g', removed. auto.
Defined.

(** X9.  [purgeDummies] does not change which of the remaining nodes reach
    which: between two nodes of the graph it returns there is a path in
    that graph exactly when there is one in the input. *)
Theorem purgeDummies_keeps_paths (g g' : RegionCFG)
  (removed : list NodeId) (a c : NodeId) :
  distinctIDs g -> checksComplete g ->
  purgeDummies g = Some (g', removed) ->
  In a (nodes g') -> In c (nodes g') ->
  (path g' a c <-> path g a c).
Proof.
  intros Hd Hck H Ha Hc. unfold purgeDummies in H.
  destruct (purgeDummiesLoop_total (S (length (BlockNodes g))) g [] Hd Hck
              (Nat.lt_succ_diag_r _))
    as [g1 [removed1 [Hrun [_ [_ [_ [_ [_ [_ [_ Hpa]]]]]]]]]].
  rewrite Hrun in H. inversion H; subst. apply Hpa; assumption.
Qed.

Lemma purgeDummies_keeps_paths_witness :
  path chainPurged 0 3 <-> path chain 0 3.
Proof.
  apply (purgeDummies_keeps_paths chain chainPurged [1; 2] 0 3).
  - distinct_ids.
  - intros b Hb Hc. simpl in Hb.
    repeat (destruct Hb as [<- | Hb]; [discriminate |]). destruct Hb.
  - vm_compute. reflexivity.
  - simpl. tauto.
  - simpl. tauto.
Defined.

End PurgeTheorems.

(** ** A dummy between two nodes that [purgeDummies] leaves alone *)

Module ChainFacts.
Import CFG Props GraphFacts NodeFacts PurgeFacts MoveFacts CombFacts.
Import RemovalFacts PurgeTotalFacts.

Lemma ID_bypass (X P S : NodeId) (c : BasicBlockNode) :
  ID (bypass X P S c) = ID c.
Proof. unfold bypass. destruct (ID c =? P); reflexivity. Qed.

Lemma NodeType_bypass (X P S : NodeId) (c : BasicBlockNode) :
  NodeType (bypass X P S c) = NodeType c.
Proof. unfold bypass. destruct (ID c =? P); reflexivity. Qed.

Lemma bypass_other (X P S : NodeId) (c : BasicBlockNode) :
  ID c <> P -> bypass X P S c = c.
Proof.
  intros H. unfold bypass. apply Nat.eqb_neq in H. rewrite H. reflexivity.
Qed.

Lemma setErase_absent (n : NodeId) (l : list NodeId) :
  ~ In n l -> setErase n l = l.
Proof.
  intros H. unfold setErase. apply forallb_filter_id.
  apply forallb_forall. intros x Hx. apply negb_true_iff, Nat.eqb_neq.
  intros ->. contradiction.
Qed.

Lemma removeFirst_length (n : NodeId) (l : list NodeId) :
  In n l -> S (length (removeFirst n l)) = length l.
Proof.
  induction l as [|x l IH]; intros Hin; [destruct Hin |]. simpl.
  destruct (x =? n) eqn:E; [reflexivity |]. simpl. f_equal. apply IH.
  destruct Hin as [-> | Hin]; [| assumption].
  rewrite Nat.eqb_refl in E. discriminate.
Qed.

Lemma count_occ_replace (X S T : NodeId) (l : list NodeId) :
  T <> X ->
  count_occ Nat.eq_dec (map (fun s => if s =? X then S else s) l) T
  = count_occ Nat.eq_dec l T
    + (if T =? S then count_occ Nat.eq_dec l X else 0).
Proof.
  intros HT. induction l as [|y l IH]; simpl.
  - destruct (T =? S); reflexivity.
  - rewrite IH. destruct (y =? X) eqn:E.
    + apply Nat.eqb_eq in E. subst y.
      destruct (Nat.eq_dec X T); [congruence |].
      destruct (Nat.eq_dec X X); [| congruence].
      destruct (Nat.eq_dec S T) as [-> | HST].
      * rewrite Nat.eqb_refl. lia.
      * assert (E2 : (T =? S) = false) by (apply Nat.eqb_neq; congruence).
        rewrite E2. lia.
    + apply Nat.eqb_neq in E.
      destruct (Nat.eq_dec y X); [congruence |].
      destruct (Nat.eq_dec y T); destruct (T =? S); lia.
Qed.

Lemma nodesBut_NoDup (n : NodeId) (l : list BasicBlockNode) :
  NoDup (map ID l) -> NoDup (map ID (nodesBut n l)).
Proof.
  unfold nodesBut. induction l as [|b l IH]; intros Hnd; [constructor |].
  simpl in *. inversion Hnd as [|? ? Hn Hnd']; subst.
  destruct (negb (ID b =? n)); [| auto]. simpl. constructor; [| auto].
  intros Hin. apply Hn. apply in_map_iff in Hin.
  destruct Hin as [c [Hid Hc]]. apply filter_In in Hc.
  apply in_map_iff. exists c. tauto.
Qed.

Lemma nodesBut_absent (n : NodeId) (l : list BasicBlockNode) :
  ~ In n (map ID l) -> nodesBut n l = l.
Proof.
  intros H. unfold nodesBut. apply forallb_filter_id.
  apply forallb_forall. intros c Hc. apply negb_true_iff, Nat.eqb_neq.
  intros E. apply H. rewrite <- E. apply in_map. assumption.
Qed.

Lemma nodesBut_map_ID (n : NodeId) (F : BasicBlockNode -> BasicBlockNode)
  (l : list BasicBlockNode) :
  (forall c, ID (F c) = ID c) ->
  nodesBut n (map F l) = map F (nodesBut n l).
Proof.
  intros HF. unfold nodesBut. induction l as [|c l IH]; [reflexivity |].
  simpl. rewrite HF. destruct (negb (ID c =? n)); simpl; rewrite IH;
    reflexivity.
Qed.

(** The number of edges into a node, node by node. *)
Lemma predecessor_size_sum (g : RegionCFG) (T : NodeId) :
  predecessor_size g T = list_sum (map (fun b => cnt b T) (BlockNodes g)).
Proof.
  unfold predecessor_size, predecessors, cnt.
  induction (BlockNodes g) as [|b l IH]; [reflexivity |]. simpl.
  rewrite length_app, repeat_length, IH. reflexivity.
Qed.

Lemma list_sum_nodesBut (f : BasicBlockNode -> nat)
  (l : list BasicBlockNode) (x : BasicBlockNode) :
  NoDup (map ID l) -> In x l ->
  list_sum (map f l) = f x + list_sum (map f (nodesBut (ID x) l)).
Proof.
  induction l as [|b l IH]; intros Hnd Hin; [destruct Hin |].
  simpl in Hnd. inversion Hnd as [|? ? Hn Hnd']; subst.
  destruct Hin as [-> | Hin].
  - unfold nodesBut. simpl. rewrite Nat.eqb_refl. simpl.
    fold (nodesBut (ID x) l). rewrite (nodesBut_absent _ _ Hn). reflexivity.
  - assert (E : (ID b =? ID x) = false).
    { apply Nat.eqb_neq. intros E. apply Hn. rewrite E. apply in_map.
      assumption. }
    unfold nodesBut. simpl. rewrite E. simpl. fold (nodesBut (ID x) l).
    rewrite (IH Hnd' Hin). lia.
Qed.

(** The graph after one turn of the loop of [purgeDummies]: the dummy is
    gone, and its predecessor has the edge to its successor instead. *)
Lemma purgeNode_structure (g g' : RegionCFG) (x : BasicBlockNode)
  (P S : NodeId) :
  distinctIDs g -> In x (BlockNodes g) ->
  predecessors g (ID x) = [P] -> Successors x = [S] ->
  purgeNode g x = Some g' ->
  BlockNodes g' = map (bypass (ID x) P S) (nodesBut (ID x) (BlockNodes g)).
Proof.
  intros Hd Hx HP HS H. unfold purgeNode in H. rewrite HP, HS in H.
  cbn [nth_error bind] in H. inv_bind H as g1 Hg1.
  assert (Hd1 : distinctIDs g1).
  { apply (distinctIDs_same_sigs g g1); [| assumption].
    eapply sigs_moveEdgeTarget. eassumption. }
  destruct (removeNode_structure g1 g' (ID x) Hd1 H) as [HB _].
  rewrite HB. clear HB H Hd1.
  assert (Hcnt : forall c, In c (BlockNodes g) ->
            cnt c (ID x) = if ID c =? P then 1 else 0).
  { intros c Hc. rewrite <- (count_predecessors g (ID x) c Hd Hc), HP.
    simpl. destruct (Nat.eq_dec P (ID c)) as [E | E].
    - rewrite <- E, Nat.eqb_refl. reflexivity.
    - assert (E2 : (ID c =? P) = false) by (apply Nat.eqb_neq; congruence).
      rewrite E2. reflexivity. }
  unfold moveEdgeTarget in Hg1. inv_bind Hg1 as p Hp. inv_bind Hg1 as b' Hb'.
  inversion Hg1; subst g1; clear Hg1.
  cbn [updateNode setBlockNodes BlockNodes].
  rewrite nodesBut_map_ID.
  2:{ intros c. destruct (ID c =? P); reflexivity. }
  rewrite map_map. apply map_ext_in. intros c Hc.
  apply filter_In in Hc. destruct Hc as [Hc Hne].
  apply negb_true_iff, Nat.eqb_neq in Hne.
  specialize (Hcnt c Hc). unfold bypass. destruct (ID c =? P) eqn:E.
  - apply Nat.eqb_eq in E.
    destruct (findNode_In g P p Hp) as [Hpin Hpid].
    assert (Hcp : c = p).
    { apply (node_unique (BlockNodes g) c p Hd Hc Hpin). congruence. }
    subst p.
    assert (HSX : S <> ID x).
    { intros ->. assert (Hin : In (ID x) (predecessors g (ID x))).
      { apply edge_predecessors. exists x. rewrite HS. simpl. auto. }
      rewrite HP in Hin. destruct Hin as [Hin | []]. congruence. }
    unfold withoutEdgesTo, setSuccessors. cbn [ID NodeType Weight
      OriginalNode Successors]. f_equal.
    unfold cnt in Hcnt. destruct (isCheck c).
    + inv_bind Hb' as t Ht. inv_bind Hb' as f Hf.
      unfold getTrue in Ht. unfold getFalse in Hf.
      destruct (Successors c) as [|t' [|f' [|? ?]]] eqn:ES;
        try discriminate.
      inversion Ht; subst t'. inversion Hf; subst f'. clear Ht Hf.
      simpl in Hcnt.
      destruct (t =? ID x) eqn:Et.
      * apply Nat.eqb_eq in Et. inversion Hb'; subst b'. clear Hb'.
        unfold setTrue. rewrite ES. cbn [Successors setSuccessors map].
        assert (Hf : f <> ID x).
        { intros ->. subst t. destruct (Nat.eq_dec (ID x) (ID x));
            [discriminate | congruence]. }
        apply Nat.eqb_neq in Hf as Ef. rewrite Ef.
        assert (Ett : (t =? ID x) = true) by (apply Nat.eqb_eq; assumption).
        rewrite Ett. apply setErase_absent.
        intros [Hin | [Hin | []]]; congruence.
      * destruct (f =? ID x) eqn:Ef; [| discriminate].
        unfold setFalse in Hb'. rewrite ES in Hb'.
        inversion Hb'; subst b'. clear Hb'.
        cbn [Successors setSuccessors map]. rewrite Et, Ef.
        apply Nat.eqb_neq in Et. apply setErase_absent.
        intros [Hin | [Hin | []]]; congruence.
    + inv_bind Hb' as u Hu. inversion Hb'; subst b'. clear Hb'.
      cbn [Successors addSuccessor removeSuccessor setSuccessors].
      apply setErase_absent. intros Hin. apply in_app_or in Hin.
      destruct Hin as [Hin | [Hin | []]]; [| congruence].
      apply assert_Some, memb_In in Hu.
      pose proof (count_removeFirst_same (ID x) (Successors c) Hu) as Hc1.
      apply (count_occ_In Nat.eq_dec) in Hin. lia.
  - unfold withoutEdgesTo. rewrite setErase_absent.
    + apply setSuccessors_same.
    + intros Hin. apply (count_occ_In Nat.eq_dec) in Hin. unfold cnt in Hcnt.
      lia.
Qed.

(** One turn of the loop of [purgeDummies] leaves to every other node the
    number of its predecessors and of its successors: a node is a dummy to
    purge afterwards exactly when it was one before. *)
Lemma purgeNode_degrees (g g' : RegionCFG) (x : BasicBlockNode)
  (P S : NodeId) :
  distinctIDs g -> In x (BlockNodes g) ->
  predecessors g (ID x) = [P] -> Successors x = [S] ->
  purgeNode g x = Some g' ->
  distinctIDs g'
  /\ forall c, In c (BlockNodes g) -> ID c <> ID x ->
       successor_size (bypass (ID x) P S c) = successor_size c
       /\ predecessor_size g' (ID c) = predecessor_size g (ID c)
       /\ isPurgeable g' (bypass (ID x) P S c) = isPurgeable g c.
Proof.
  intros Hd Hx HP HS H.
  pose proof (purgeNode_structure g g' x P S Hd Hx HP HS H) as HB.
  set (X := ID x) in *. set (L := nodesBut X (BlockNodes g)) in *.
  assert (HL : NoDup (map ID L)) by (apply nodesBut_NoDup; assumption).
  assert (Hd' : distinctIDs g').
  { unfold distinctIDs, nodes. rewrite HB, map_map.
    rewrite (map_ext _ ID (ID_bypass X P S)). assumption. }
  split; [assumption |].
  assert (Hcnt : forall c, In c (BlockNodes g) ->
            cnt c X = if ID c =? P then 1 else 0).
  { intros c Hc. rewrite <- (count_predecessors g X c Hd Hc), HP.
    simpl. destruct (Nat.eq_dec P (ID c)) as [E | E].
    - rewrite <- E, Nat.eqb_refl. reflexivity.
    - assert (E2 : (ID c =? P) = false) by (apply Nat.eqb_neq; congruence).
      rewrite E2. reflexivity. }
  assert (Hsucc : forall c, In c (BlockNodes g) ->
            successor_size (bypass X P S c) = successor_size c).
  { intros c Hc. specialize (Hcnt c Hc). unfold bypass, successor_size.
    destruct (ID c =? P); [| reflexivity].
    cbn [Successors setSuccessors]. destruct (isCheck c).
    - apply length_map.
    - rewrite length_app. simpl. rewrite Nat.add_1_r.
      apply removeFirst_length. apply (count_occ_In Nat.eq_dec).
      unfold cnt in Hcnt. lia. }
  assert (Hpred : forall T, T <> X ->
            predecessor_size g' T = predecessor_size g T).
  { intros T HT. destruct (Nat.eq_dec T S) as [-> | HTS].
    2:{ unfold predecessor_size.
        rewrite (purgeNode_predecessors g g' x S T Hd Hx HS H HT HTS).
        reflexivity. }
    assert (HPX : P <> X).
    { intros ->. assert (Hin : In S (Successors x)).
      { apply (edge_of_node g x S Hd Hx).
        assert (He : edge g X X).
        { apply predecessors_edge. fold X. rewrite HP. left. reflexivity. }
        destruct He as [c [Hc [Hid HcS]]].
        rewrite (node_unique (BlockNodes g) c x Hd Hc Hx Hid) in HcS.
        rewrite HS in HcS. destruct HcS as [<- | []].
        exists x. rewrite HS. simpl. auto. }
      assert (He : In X (Successors x)).
      { assert (He : edge g X X).
        { apply predecessors_edge. fold X. rewrite HP. left. reflexivity. }
        apply (edge_of_node g x X Hd Hx). exact He. }
      rewrite HS in He. destruct He as [He | []]. congruence. }
    assert (Hp : exists p, In p (BlockNodes g) /\ ID p = P).
    { assert (He : edge g P X).
      { apply predecessors_edge. fold X. rewrite HP. left. reflexivity. }
      destruct He as [p [Hp [Hid _]]]. exists p. auto. }
    destruct Hp as [p [Hp Hpid]].
    assert (HpL : In p L).
    { unfold L, nodesBut. apply filter_In. split; [assumption |].
      apply negb_true_iff, Nat.eqb_neq. congruence. }
    rewrite !predecessor_size_sum, HB, map_map.
    rewrite (list_sum_nodesBut (fun c => cnt c S) (BlockNodes g) x Hd Hx).
    fold X. fold L.
    rewrite (list_sum_nodesBut (fun c => cnt (bypass X P S c) S) L p HL HpL).
    rewrite (list_sum_nodesBut (fun c => cnt c S) L p HL HpL).
    rewrite (map_ext_in (fun c => cnt (bypass X P S c) S)
                        (fun c => cnt c S) (nodesBut (ID p) L)).
    2:{ intros c Hc. unfold nodesBut in Hc. apply filter_In in Hc.
        destruct Hc as [_ Hc]. apply negb_true_iff, Nat.eqb_neq in Hc.
        rewrite bypass_other by congruence. reflexivity. }
    assert (Hx1 : cnt x S = 1).
    { unfold cnt. rewrite HS. simpl.
      destruct (Nat.eq_dec S S); [reflexivity | congruence]. }
    assert (Hp1 : cnt (bypass X P S p) S = cnt p S + 1).
    { pose proof (Hcnt p Hp) as HcX. unfold bypass.
      rewrite Hpid, Nat.eqb_refl in *. unfold cnt in *.
      cbn [Successors setSuccessors]. destruct (isCheck p).
      - rewrite (count_occ_replace X S S (Successors p) HT).
        rewrite Nat.eqb_refl. lia.
      - rewrite count_occ_app. simpl.
        destruct (Nat.eq_dec S S); [| congruence].
        rewrite count_removeFirst_other by congruence. reflexivity. }
    lia. }
  intros c Hc Hne. split; [apply Hsucc; assumption |].
  split; [apply Hpred; assumption |].
  unfold isPurgeable. rewrite ID_bypass, (Hsucc c Hc), (Hpred (ID c) Hne).
  unfold isEmpty. rewrite NodeType_bypass. reflexivity.
Qed.

(** The slots of a [Check] node that do not lead to the dummy of the turn
    are left as they are, and the one that does leads to its successor. *)
Lemma bypass_slots (X P S : NodeId) (c : BasicBlockNode) (t : NodeId) :
  isCheck c = true ->
  (getTrue c = Some t ->
   getTrue (bypass X P S c)
   = Some (if (ID c =? P) && (t =? X) then S else t))
  /\ (getFalse c = Some t ->
      getFalse (bypass X P S c)
      = Some (if (ID c =? P) && (t =? X) then S else t)).
Proof.
  intros Hck. unfold bypass, getTrue, getFalse.
  destruct (ID c =? P); cbn [andb]; [| tauto].
  cbn [Successors setSuccessors]. rewrite Hck.
  destruct (Successors c) as [|t' [|f' [|? ?]]]; cbn [map];
    split; intros Ht; try discriminate; inversion Ht; subst; reflexivity.
Qed.

(** One turn of the loop of [purgeDummies] keeps [chainInv]. *)
Lemma purgeNode_chainInv (a0 : BasicBlockNode) (D B : NodeId)
  (g g' : RegionCFG) (x : BasicBlockNode) :
  chainInv a0 D B g -> In x (BlockNodes g) -> isPurgeable g x = true ->
  purgeNode g x = Some g' -> chainInv a0 D B g'.
Proof.
  intros [Hd [Hne Hcase]] Hx Hp H.
  destruct (isPurgeable_inv g x Hp) as [Hemp [[P HP] [S HS]]].
  assert (HxA : ID x <> ID a0).
  { intros E. rewrite (Hne x Hx (or_introl E)) in Hp. discriminate. }
  assert (HxB : ID x <> B).
  { intros E. rewrite (Hne x Hx (or_intror E)) in Hp. discriminate. }
  pose proof (purgeNode_structure g g' x P S Hd Hx HP HS H) as HB.
  destruct (purgeNode_degrees g g' x P S Hd Hx HP HS H) as [Hd' Hdeg].
  assert (Hin' : forall c, In c (BlockNodes g) -> ID c <> ID x ->
                 In (bypass (ID x) P S c) (BlockNodes g')).
  { intros c Hc Hcx. rewrite HB. apply in_map. unfold nodesBut.
    apply filter_In. split; [assumption |].
    apply negb_true_iff, Nat.eqb_neq. assumption. }
  assert (Hout : ~ In (ID x) (nodes g')).
  { unfold nodes. rewrite HB, map_map.
    rewrite (map_ext _ ID (ID_bypass (ID x) P S)).
    intros Hin. apply in_map_iff in Hin. destruct Hin as [c [Hid Hc]].
    unfold nodesBut in Hc. apply filter_In in Hc. destruct Hc as [_ Hc].
    apply negb_true_iff, Nat.eqb_neq in Hc. contradiction. }
  assert (Hsub : forall n, In n (nodes g') -> In n (nodes g)).
  { intros n Hin. unfold nodes in Hin. rewrite HB, map_map in Hin.
    rewrite (map_ext _ ID (ID_bypass (ID x) P S)) in Hin.
    apply in_map_iff in Hin. destruct Hin as [c [Hid Hc]].
    unfold nodesBut in Hc. apply filter_In in Hc. destruct Hc as [Hc _].
    rewrite <- Hid. apply in_map. assumption. }
  assert (Hslot : forall T a, In a (BlockNodes g) -> sameSlot D T a0 a ->
            T <> ID x ->
            sameSlot D T a0 (bypass (ID x) P S a)).
  { intros T a Ha [Hid [Hty [Hsz Hsl]]] HT.
    assert (Hax : ID a <> ID x) by congruence.
    split; [rewrite ID_bypass; assumption |].
    split; [rewrite NodeType_bypass; assumption |].
    split; [rewrite (proj1 (Hdeg a Ha Hax)); assumption |].
    intros Hck. destruct (Hsl Hck) as [HT1 HF1].
    assert (Hcka : isCheck a = true).
    { unfold isCheck in *. rewrite Hty. assumption. }
    destruct (bypass_slots (ID x) P S a T Hcka) as [HT2 HF2].
    apply Nat.eqb_neq in HT. rewrite HT, andb_false_r in HT2, HF2.
    split; intros H0; auto. }
  split; [assumption |]. split.
  { intros c' Hc' Hid. rewrite HB in Hc'. apply in_map_iff in Hc'.
    destruct Hc' as [c [<- Hc]]. unfold nodesBut in Hc.
    apply filter_In in Hc. destruct Hc as [Hc Hcx].
    apply negb_true_iff, Nat.eqb_neq in Hcx.
    rewrite ID_bypass in Hid.
    rewrite (proj2 (proj2 (Hdeg c Hc Hcx))). apply (Hne c Hc Hid). }
  destruct Hcase
    as [[a [d [Ha [Hsl [Hdin [Hdid [Hdemp [Hdpred Hdsucc]]]]]]]]
       | [Habs [He [a [Ha Hsl]]]]].
  - destruct (Nat.eq_dec (ID x) D) as [E | E].
    + (* the dummy of the chain is the one purged *)
      right. rewrite <- Hdid in E.
      apply (node_unique (BlockNodes g) x d Hd Hx Hdin) in E. subst x.
      rewrite Hdid in *. rewrite Hdpred in HP. rewrite Hdsucc in HS.
      inversion HP; subst P. inversion HS; subst S. clear HP HS.
      destruct Hsl as [Hid [Hty [Hsz Hsl]]].
      assert (HaD : ID a <> D) by congruence.
      assert (HcntD : cnt a D = 1).
      { rewrite <- (count_predecessors g D a Hd Ha), Hdpred, Hid. simpl.
        destruct (Nat.eq_dec (ID a0) (ID a0)); [reflexivity | congruence]. }
      split; [assumption |]. split.
      * exists (bypass D (ID a0) B a).
        split; [apply Hin'; assumption |].
        split; [rewrite ID_bypass; assumption |].
        unfold bypass. apply Nat.eqb_eq in Hid as Eid. rewrite Eid.
        cbn [Successors setSuccessors]. destruct (isCheck a).
        -- apply in_map_iff. exists D. rewrite Nat.eqb_refl.
           split; [reflexivity |]. apply (count_occ_In Nat.eq_dec).
           unfold cnt in HcntD. lia.
        -- apply in_or_app. right. left. reflexivity.
      * exists (bypass D (ID a0) B a).
        split; [apply Hin'; assumption |].
        split; [rewrite ID_bypass; assumption |].
        split; [rewrite NodeType_bypass; assumption |].
        split; [rewrite (proj1 (Hdeg a Ha HaD)); assumption |].
        intros Hck. destruct (Hsl Hck) as [HT1 HF1].
        assert (Hcka : isCheck a = true).
        { unfold isCheck in *. rewrite Hty. assumption. }
        destruct (bypass_slots D (ID a0) B a D Hcka) as [HT2 HF2].
        apply Nat.eqb_eq in Hid as Eid.
        rewrite Eid, Nat.eqb_refl in HT2, HF2. cbn [andb] in HT2, HF2.
        split; intros H0; auto.
    + (* another dummy is purged *)
      left. exists (bypass (ID x) P S a), d.
      assert (HS' : D <> S).
      { intros <-. assert (Hin : In (ID x) (predecessors g D)).
        { apply edge_predecessors. exists x. rewrite HS. simpl. auto. }
        rewrite Hdpred in Hin. destruct Hin as [Hin | []]. congruence. }
      assert (HdP : ID d <> P).
      { intros <-. assert (Hin : In (ID x) (Successors d)).
        { apply (edge_of_node g d (ID x) Hd Hdin).
          apply predecessors_edge. rewrite HP. left. reflexivity. }
        rewrite Hdsucc in Hin. destruct Hin as [Hin | []]. congruence. }
      split; [apply Hin'; [assumption | destruct Hsl; congruence] |].
      split; [apply Hslot; [assumption | assumption | congruence] |].
      split.
      { rewrite <- (bypass_other (ID x) P S d HdP).
        apply Hin'; [assumption | congruence]. }
      split; [assumption |]. split; [assumption |]. split; [| assumption].
      rewrite (purgeNode_predecessors g g' x S D Hd Hx HS H);
        [assumption | congruence | congruence].
  - right. split; [intros Hin; apply Habs, Hsub; assumption |]. split.
    + apply (purgeNode_edge_keep g g' x (ID a0) B Hd H He); congruence.
    + exists (bypass (ID x) P S a).
      split; [apply Hin'; [assumption | destruct Hsl; congruence] |].
      apply Hslot; [assumption | assumption | congruence].
Qed.

Lemma purgeDummiesLoop_chain (a0 : BasicBlockNode) (D B : NodeId)
  (fuel : nat) :
  forall g acc g' removed,
  purgeDummiesLoop fuel g acc = Some (g', removed) ->
  chainInv a0 D B g ->
  ~ In D (nodes g') /\ edge g' (ID a0) B
  /\ exists a, In a (BlockNodes g') /\ sameSlot D B a0 a.
Proof.
  induction fuel as [|k IH]; intros g acc g' removed H Hinv; simpl in H;
    [discriminate |].
  destruct (find (isPurgeable g) (BlockNodes g)) as [x|] eqn:E.
  - inv_bind H as g1 Hg1. apply find_some in E. destruct E as [Hx Hp].
    eapply IH; [eassumption |]. eapply purgeNode_chainInv; eassumption.
  - inversion H; subst g' removed; clear H.
    destruct Hinv
      as [_ [_ [[a [d [_ [_ [Hdin [Hdid [Hdemp [Hdpred Hdsucc]]]]]]]] | Hok]]];
      [| assumption].
    exfalso. apply (find_none _ _ E) in Hdin. unfold isPurgeable in Hdin.
    unfold predecessor_size, successor_size in Hdin.
    rewrite Hdemp, Hdid, Hdpred, Hdsucc in Hdin. discriminate.
Qed.

End ChainFacts.

Module ChainTheorems.
Import CFG Props GraphFacts Examples.

(** C7 (amended).  In a graph of distinct nodes, let [Dummy] be an empty
    node whose only predecessor is [A] and whose only successor is [B],
    where neither [A] nor [B] is itself an empty node with exactly one
    predecessor and one successor.  When [purgeDummies] returns, [Dummy]
    is no longer a node of the graph and [A] has an edge to [B]; the edge
    is the one that led to [Dummy]: [A] has its kind and the number of
    successors it had, and if [A] is a [Check] node the true or false
    successor that was [Dummy] is [B].  A second run of [purgeDummies]
    removes nothing and returns the same graph. *)
Theorem purgeDummies_bypasses_dummy (g g' : RegionCFG)
  (Dummy : BasicBlockNode) (A B : NodeId) (removed : list NodeId) :
  distinctIDs g ->
  In Dummy (BlockNodes g) -> isEmpty Dummy = true ->
  predecessors g (ID Dummy) = [A] -> Successors Dummy = [B] ->
  (forall c, In c (BlockNodes g) -> ID c = A \/ ID c = B ->
     isPurgeable g c = false) ->
  purgeDummies g = Some (g', removed) ->
  ~ In (ID Dummy) (nodes g')
  /\ edge g' A B
  /\ (forall a, In a (BlockNodes g) -> ID a = A ->
        exists a', In a' (BlockNodes g') /\ sameSlot (ID Dummy) B a a')
  /\ purgeDummies g' = Some (g', []).
Proof.
  intros Hd Hin Hemp Hpred Hsucc Hne H.
  assert (HA : exists a0, In a0 (BlockNodes g) /\ ID a0 = A).
  { assert (He : edge g A (ID Dummy)).
    { apply predecessors_edge. rewrite Hpred. left. reflexivity. }
    destruct He as [a0 [Ha0 [Hid _]]]. exists a0. auto. }
  destruct HA as [a0 [Ha0 Hid0]]. subst A.
  assert (Hinv : chainInv a0 (ID Dummy) B g).
  { split; [assumption |]. split; [assumption |]. left.
    exists a0, Dummy. split; [assumption |]. split.
    - split; [reflexivity |]. split; [reflexivity |].
      split; [reflexivity |]. intros _. split; auto.
    - repeat split; assumption. }
  destruct (ChainFacts.purgeDummiesLoop_chain a0 (ID Dummy) B _ _ _ _ _
              H Hinv) as [H1 [H2 H3]].
  split; [assumption |]. split; [assumption |]. split.
  - intros a Ha Hid.
    rewrite (PurgeFacts.node_unique (BlockNodes g) a a0 Hd Ha Ha0 Hid).
    exact H3.
  - eapply purgeDummies_idempotent. eassumption.
Qed.

Lemma purgeDummies_bypasses_dummy_witness :
  purgeDummies forkChain = Some (forkChainPurged, [3])
  /\ ~ In 3 (nodes forkChainPurged)
  /\ edge forkChainPurged 0 4
  /\ getFalse (mkNode 0 Check 1 None [1; 3]) = Some 3
  /\ (exists a', In a' (BlockNodes forkChainPurged)
                 /\ sameSlot 3 4 (mkNode 0 Check 1 None [1; 3]) a')
  /\ purgeDummies forkChainPurged = Some (forkChainPurged, []).
Proof.
  assert (HP : purgeDummies forkChain = Some (forkChainPurged, [3])).
  { vm_compute. reflexivity. }
  split; [exact HP |].
  destruct (purgeDummies_bypasses_dummy forkChain forkChainPurged
              (dummy 3 [4]) 0 4 [3]) as [H1 [H2 [H3 H4]]].
  - distinct_ids.
  - simpl. auto.
  - reflexivity.
  - reflexivity.
  - reflexivity.
  - intros c Hc Hid. simpl in Hc.
    destruct Hc as [<- | [<- | [<- | [<- | []]]]]; simpl in *;
      try reflexivity; destruct Hid; discriminate.
  - exact HP.
  - split; [exact H1 |]. split; [exact H2 |]. split; [reflexivity |].
    split; [| exact H4].
    apply (H3 (mkNode 0 Check 1 None [1; 3])); [simpl; auto | reflexivity].
Defined.

End ChainTheorems.


(** ** [cloneUntilExit] only appends *)

Module CloneFacts.
Import CFG Props GraphFacts.

Lemma maxId_prefix (g0 g : RegionCFG) (added : list BasicBlockNode) :
  BlockNodes g = BlockNodes g0 ++ added -> maxId g0 <= maxId g.
Proof.
  unfold maxId. intros ->. rewrite flat_map_app.
  generalize (flat_map (fun b => ID b :: Successors b) (BlockNodes g0)).
  intros l. induction l as [|x l IH]; simpl; lia.
Qed.

Lemma newID_prefix (g0 g : RegionCFG) (added : list BasicBlockNode) :
  BlockNodes g = BlockNodes g0 ++ added -> IDCounter g0 <= IDCounter g ->
  newID g0 <= newID g.
Proof.
  intros H Hc. pose proof (maxId_prefix g0 g added H). unfold newID. lia.
Qed.

Lemma updateNode_suffix (g0 g : RegionCFG) (added : list BasicBlockNode)
  (n : NodeId) (f : BasicBlockNode -> BasicBlockNode) :
  BlockNodes g = BlockNodes g0 ++ added -> newID g0 <= n ->
  BlockNodes (updateNode g n f)
  = BlockNodes g0 ++ map (fun b => if ID b =? n then f b else b) added.
Proof.
  intros H Hn. simpl. rewrite H, map_app. f_equal.
  rewrite <- (map_id (BlockNodes g0)) at 2. apply map_ext_in.
  intros b Hb. pose proof (newID_gt_ID g0 b Hb).
  destruct (ID b =? n) eqn:E; [| reflexivity].
  apply Nat.eqb_eq in E. lia.
Qed.

(** Changing the edges of an added node, to added nodes or to the sink. *)
Lemma appended_update (g0 g : RegionCFG) (Sink n : NodeId)
  (f : BasicBlockNode -> BasicBlockNode) :
  appended g0 Sink g -> newID g0 <= n ->
  (forall a, ID (f a) = ID a /\ NodeType (f a) = NodeType a
             /\ Weight (f a) = Weight a /\ OriginalNode (f a) = OriginalNode a) ->
  (forall a s, In s (Successors (f a)) ->
     In s (Successors a) \/ s = Sink \/ newID g0 <= s) ->
  appended g0 Sink (updateNode g n f).
Proof.
  intros [added [HB HF]] Hn Hsig Hsucc.
  exists (map (fun b => if ID b =? n then f b else b) added). split.
  - apply updateNode_suffix; assumption.
  - apply Forall_forall. intros a' Ha'. apply in_map_iff in Ha'.
    destruct Ha' as [a [<- Ha]].
    pose proof (proj1 (Forall_forall _ _) HF a Ha) as [H1 [H2 H3]].
    destruct (ID a =? n); [| split; [| split]; assumption].
    destruct (Hsig a) as [E1 [E2 [E3 E4]]].
    split; [rewrite E1; assumption |]. split.
    + destruct H2 as [b [Hb [Hne [T1 [T2 T3]]]]]. exists b.
      rewrite E2, E3, E4. auto.
    + intros s Hs. destruct (Hsucc a s Hs) as [Hs' | Hs']; [| exact Hs'].
      apply H3. assumption.
Qed.

Lemma cloning_update (g0 g : RegionCFG) (Sink n : NodeId)
  (M : list (NodeId * NodeId)) (f : BasicBlockNode -> BasicBlockNode) :
  cloning g0 Sink g M -> newID g0 <= n ->
  (forall a, ID (f a) = ID a /\ NodeType (f a) = NodeType a
             /\ Weight (f a) = Weight a /\ OriginalNode (f a) = OriginalNode a) ->
  (forall a s, In s (Successors (f a)) ->
     In s (Successors a) \/ s = Sink \/ newID g0 <= s) ->
  cloning g0 Sink (updateNode g n f) M.
Proof.
  intros [Ha [He [Hc HM]]] Hn Hsig Hsucc. split; [| split; [| split]].
  - apply appended_update; assumption.
  - exact He.
  - exact Hc.
  - exact HM.
Qed.

Lemma cloning_addEdge (g0 g : RegionCFG) (Sink n s : NodeId)
  (M : list (NodeId * NodeId)) :
  cloning g0 Sink g M -> newID g0 <= n -> s = Sink \/ newID g0 <= s ->
  cloning g0 Sink (addEdge g (n, s)) M.
Proof.
  intros H Hn Hs. unfold addEdge. cbn [fst snd].
  apply cloning_update; [assumption | assumption | |].
  - intros a. simpl. auto.
  - intros a x Hx. simpl in Hx. apply in_app_or in Hx.
    destruct Hx as [Hx | [<- | []]]; auto.
Qed.

(** Below [newID g0] the lookups of [g] find the nodes of [g0]; from there
    on, the added ones. *)
Lemma findNode_old (g0 g : RegionCFG) (Sink n : NodeId) (b : BasicBlockNode) :
  appended g0 Sink g -> n < newID g0 -> findNode g n = Some b ->
  In b (BlockNodes g0).
Proof.
  intros [added [HB HF]] Hn H. apply findNode_In in H. destruct H as [Hin Hid].
  rewrite HB in Hin. apply in_app_or in Hin.
  destruct Hin as [Hin | Hin]; [assumption |].
  destruct (proj1 (Forall_forall _ _) HF b Hin) as [H _]. lia.
Qed.

Lemma findNode_added (g0 g : RegionCFG) (Sink n : NodeId) (b : BasicBlockNode) :
  appended g0 Sink g -> newID g0 <= n -> findNode g n = Some b ->
  isCloneOf g0 Sink b.
Proof.
  intros [added [HB HF]] Hn H. apply findNode_In in H. destruct H as [Hin Hid].
  rewrite HB in Hin. apply in_app_or in Hin. destruct Hin as [Hin | Hin].
  - pose proof (newID_gt_ID g0 b Hin). lia.
  - apply (proj1 (Forall_forall _ _) HF b Hin).
Qed.

Lemma cloning_cloneNode (g0 g g1 : RegionCFG) (Sink n d : NodeId)
  (M : list (NodeId * NodeId)) :
  cloning g0 Sink g M -> n < newID g0 -> n <> Sink ->
  cloneNode g n = Some (d, g1) ->
  cloning g0 Sink g1 ((n, d) :: M) /\ newID g0 <= d.
Proof.
  intros [Ha [He [Hc HM]]] Hn Hne H. apply cloneNode_inv in H.
  destruct H as [b [Hb [Hd Hg1]]].
  pose proof (findNode_old g0 g Sink n b Ha Hn Hb) as Hold.
  apply findNode_In in Hb. destruct Hb as [_ Hid].
  destruct Ha as [added [HB HF]].
  pose proof (newID_prefix g0 g added HB Hc) as Hle.
  pose proof (newID_ge_counter g) as Hge.
  assert (Hd' : newID g0 <= d) by lia.
  split; [| exact Hd']. subst g1. split; [| split; [| split]].
  - exists (added ++ [mkNode d (NodeType b) (Weight b) (OriginalNode b) []]).
    simpl. split; [rewrite HB, app_assoc; reflexivity |].
    apply Forall_app. split; [assumption |]. constructor; [| constructor].
    split; [exact Hd' |]. split.
    + exists b. simpl. split; [assumption |]. split; [congruence | auto].
    + simpl. intros s [].
  - exact He.
  - simpl. lia.
  - intros x c [Heq | Hin]; [inversion Heq; subst; exact Hd' |].
    apply (HM x c Hin).
Qed.

Lemma cloneSuccessor_cloning (g0 : RegionCFG)
  (Sink CurrentNode CurrentClone Successor : NodeId)
  (g : RegionCFG) (M : list (NodeId * NodeId)) (W : list NodeId) (flag : bool)
  (g' : RegionCFG) (M' : list (NodeId * NodeId)) (W' : list NodeId)
  (flag' : bool) :
  cloneSuccessor Sink CurrentNode CurrentClone (Some (g, M, W, flag)) Successor
  = Some (g', M', W', flag') ->
  cloning g0 Sink g M -> newID g0 <= CurrentClone -> Successor < newID g0 ->
  cloning g0 Sink g' M' /\ incl W' (Successor :: W).
Proof.
  unfold cloneSuccessor. cbn [bind]. intros H Hinv HCC HS.
  destruct (Successor =? Sink) eqn:ES.
  { inversion H; subst. split; [assumption | apply incl_tl, incl_refl]. }
  apply Nat.eqb_neq in ES.
  inv_bind H as res Hres. destruct res as [[sc g1] M1].
  assert (Hmid : cloning g0 Sink g1 M1 /\ newID g0 <= sc).
  { destruct (lookup M Successor) as [sc0|] eqn:EL.
    - inversion Hres; subst sc0 g1 M1; clear Hres. apply lookup_In in EL.
      split; [assumption |]. destruct Hinv as [_ [_ [_ HM]]].
      apply (HM _ _ EL).
    - inv_bind Hres as c Hc. destruct c as [d gc]. simpl in Hres.
      inversion Hres; subst sc g1 M1; clear Hres.
      apply (cloning_cloneNode g0 g gc Sink Successor d M); assumption. }
  destruct Hmid as [Hinv1 Hsc].
  inv_bind H as cur Hcur. inv_bind H as clone Hclone. inv_bind H as g2 Hg2.
  inversion H; subst g' M' W' flag'; clear H.
  split; [| apply incl_refl].
  destruct (isCheck clone).
  - inv_bind Hg2 as u Hu. inv_bind Hg2 as t Ht. inv_bind Hg2 as f Hf.
    destruct (t =? Successor).
    + inversion Hg2; subst g2; clear Hg2.
      apply cloning_update; [assumption | assumption | |].
      * intros a. unfold setTrue. simpl. auto.
      * intros a s. unfold setTrue. simpl. intros Hs.
        destruct (Successors a) as [|s0 l]; simpl in *;
          destruct Hs as [Hs | Hs]; subst; auto.
    + destruct (f =? Successor); [| discriminate].
      inv_bind Hg2 as clone' Hcl'. inversion Hg2; subst g2; clear Hg2.
      unfold setFalse in Hcl'.
      destruct (Successors clone) as [|t0 l] eqn:ESc; [discriminate |].
      inversion Hcl'; subst clone'; clear Hcl'. cbn [Successors setSuccessors].
      destruct Hinv1 as [Ha1 Hrest].
      destruct (findNode_added g0 g1 Sink CurrentClone clone Ha1 HCC Hclone)
        as [_ [_ Hcs]].
      assert (Ht0 : t0 = Sink \/ newID g0 <= t0).
      { apply Hcs. rewrite ESc. left. reflexivity. }
      apply cloning_update; [split; assumption | assumption | |].
      * intros a. simpl. auto.
      * intros a s. simpl. intros [<- | [<- | []]]; auto.
  - inversion Hg2; subst g2; clear Hg2.
    apply cloning_addEdge; auto.
Qed.

Lemma cloneSuccessors_cloning (g0 : RegionCFG)
  (Sink CurrentNode CurrentClone : NodeId) (l : list NodeId) :
  forall (g : RegionCFG) (M : list (NodeId * NodeId)) (W : list NodeId)
    (flag : bool) (g' : RegionCFG) (M' : list (NodeId * NodeId))
    (W' : list NodeId) (flag' : bool),
  fold_left (cloneSuccessor Sink CurrentNode CurrentClone) l
            (Some (g, M, W, flag)) = Some (g', M', W', flag') ->
  cloning g0 Sink g M -> newID g0 <= CurrentClone ->
  (forall s, In s l -> s < newID g0) ->
  cloning g0 Sink g' M' /\ incl W' (l ++ W).
Proof.
  induction l as [|s l IH]; intros g M W flag g' M' W' flag' H Hinv HCC Hl;
    cbn [fold_left] in H.
  - inversion H; subst. split; [assumption | apply incl_refl].
  - destruct (cloneSuccessor Sink CurrentNode CurrentClone
                (Some (g, M, W, flag)) s) as [[[[g1 M1] W1] flag1]|] eqn:E.
    2:{ rewrite AcyclicFacts.cloneSuccessor_None in H. discriminate. }
    destruct (cloneSuccessor_cloning g0 Sink CurrentNode CurrentClone s
                g M W flag g1 M1 W1 flag1 E Hinv HCC (Hl s (or_introl eq_refl)))
      as [Hinv1 HW1].
    destruct (IH g1 M1 W1 flag1 g' M' W' flag' H Hinv1 HCC
                (fun x Hx => Hl x (or_intror Hx))) as [Hinv' HW'].
    split; [assumption |]. intros x Hx. apply HW' in Hx.
    apply in_app_or in Hx. destruct Hx as [Hx | Hx].
    + right. apply in_or_app. left. assumption.
    + apply HW1 in Hx. destruct Hx as [<- | Hx]; [left; reflexivity |].
      right. apply in_or_app. right. assumption.
Qed.

Lemma cloneUntilExitLoop_cloning (g0 : RegionCFG) (fuel : nat) (Sink : NodeId) :
  forall (g : RegionCFG) (M : list (NodeId * NodeId)) (W AP : list NodeId)
    (g' : RegionCFG),
  cloneUntilExitLoop fuel Sink g M W AP = Some g' ->
  cloning g0 Sink g M -> (forall w, In w W -> w < newID g0) ->
  appended g0 Sink g' /\ EntryNode g' = EntryNode g0.
Proof.
  induction fuel as [|k IH]; intros g M W AP g' H Hinv HW;
    simpl in H; [discriminate |].
  destruct W as [|CurrentNode rest].
  { inversion H; subst. destruct Hinv as [Ha [He _]]. auto. }
  inv_bind H as u Hu.
  destruct (memb CurrentNode AP).
  { apply (IH g M rest AP g' H Hinv). intros w Hw. apply HW. right. exact Hw. }
  inv_bind H as CurrentClone HCC. inv_bind H as cur Hcur.
  inv_bind H as res Hres. destruct res as [[[g1 M1] W1] flag].
  apply lookup_In in HCC.
  assert (HCCge : newID g0 <= CurrentClone).
  { destruct Hinv as [_ [_ [_ HM]]]. apply (HM _ _ HCC). }
  assert (Hold : In cur (BlockNodes g0)).
  { destruct Hinv as [Ha _].
    apply (findNode_old g0 g Sink CurrentNode cur Ha); [| assumption].
    apply HW. left. reflexivity. }
  destruct (cloneSuccessors_cloning g0 Sink CurrentNode CurrentClone
              (Successors cur) g M rest false g1 M1 W1 flag Hres Hinv HCCge)
    as [Hinv1 HW1].
  { intros s Hs. apply (newID_gt_successor g0 cur s Hold Hs). }
  apply (IH _ M1 W1 (CurrentNode :: AP) g' H).
  - destruct flag; [| assumption].
    apply cloning_addEdge; auto.
  - intros w Hw. apply HW1 in Hw. apply in_app_or in Hw.
    destruct Hw as [Hw | Hw].
    + apply (newID_gt_successor g0 cur w Hold Hw).
    + apply HW. right. assumption.
Qed.

Lemma cloneUntilExitLoop_start (fuel : nat) (Sink : NodeId) (g g' : RegionCFG)
  (M : list (NodeId * NodeId)) (Node : NodeId) (rest AP : list NodeId) :
  cloneUntilExitLoop fuel Sink g M (Node :: rest) AP = Some g' -> Node <> Sink.
Proof.
  destruct fuel as [|k]; simpl; [discriminate |]. intros H.
  destruct (Node =? Sink) eqn:E; [discriminate |].
  apply Nat.eqb_neq. assumption.
Qed.

Lemma cloning_refl (g : RegionCFG) (Sink : NodeId) : cloning g Sink g [].
Proof.
  split; [| split; [reflexivity | split; [lia | intros x c []]]].
  exists []. split; [symmetry; apply app_nil_r | constructor].
Qed.

End CloneFacts.

Module CloneTheorems.
Import CFG Props Examples GraphFacts CloneFacts.

(** X10.  When [cloneUntilExit] returns, it was not started at the sink, the
    clone it returns is the first node it added, and the graph is the old
    one followed by added nodes: the old nodes keep their place in
    [BlockNodes], their kind and their edges, the entry is unchanged, and
    each added node has a fresh identity, the kind, weight and original
    block of an old node other than the sink, and edges only to added nodes
    or to the sink. *)
Theorem cloneUntilExit_only_appends (fuel : nat) (g g' : RegionCFG)
  (Node Sink Clone : NodeId) :
  cloneUntilExit fuel g Node Sink = Some (Clone, g') ->
  Node <> Sink /\ Clone = newID g
  /\ EntryNode g' = EntryNode g
  /\ exists added,
       BlockNodes g' = BlockNodes g ++ added
       /\ Forall (isCloneOf g Sink) added
       /\ In Clone (map ID added).
Proof.
  unfold cloneUntilExit. intros H. inv_bind H as c Hc. destruct c as [d g1].
  inv_bind H as g2 Hg2. inversion H; subst d g'; clear H.
  pose proof (cloneUntilExitLoop_start _ _ _ _ _ _ _ _ Hg2) as Hne.
  pose proof (cloneNode_inv _ _ _ _ Hc) as [b [Hb [Hd Hg1]]].
  pose proof (findNode_In _ _ _ Hb) as [Hbin Hbid].
  pose proof (newID_gt_ID g b Hbin) as Hlt. rewrite Hbid in Hlt.
  destruct (cloning_cloneNode g g g1 Sink Node Clone [] (cloning_refl g Sink)
              Hlt Hne Hc) as [Hinv _].
  destruct (cloneUntilExitLoop_cloning g fuel Sink g1 [(Node, Clone)] [Node] []
              g2 Hg2 Hinv) as [[added [HB HF]] He].
  { intros w [<- | []]. assumption. }
  split; [assumption |]. split; [assumption |]. split; [assumption |].
  exists added. split; [assumption |]. split; [assumption |].
  (* the clone was added first and nothing is ever erased *)
  pose proof (NodeFacts.grows_cloneUntilExitLoop _ _ _ _ _ _ _ Hg2)
    as [Hincl _].
  assert (Hin : In Clone (nodes g2)).
  { rewrite NodeFacts.nodes_sigs. apply in_map_iff.
    exists (Clone, NodeType b, Weight b, OriginalNode b).
    split; [reflexivity |]. apply Hincl. subst g1. unfold sigs. simpl.
    rewrite map_app. apply in_or_app. right. left. reflexivity. }
  unfold nodes in Hin. rewrite HB, map_app in Hin. apply in_app_or in Hin.
  destruct Hin as [Hin | Hin]; [| assumption].
  apply in_map_iff in Hin. destruct Hin as [b' [Hid' Hb']].
  pose proof (newID_gt_ID g b' Hb'). lia.
Qed.

Lemma cloneUntilExit_only_appends_witness :
  cloneUntilExit 50 skewedSunk 4 5 = Some (6, skewedCloned)
  /\ (4 <> 5 /\ 6 = newID skewedSunk
      /\ EntryNode skewedCloned = EntryNode skewedSunk
      /\ exists added,
           BlockNodes skewedCloned = BlockNodes skewedSunk ++ added
           /\ Forall (isCloneOf skewedSunk 5) added
           /\ In 6 (map ID added)).
Proof.
  split; [vm_compute; reflexivity |].
  apply (cloneUntilExit_only_appends 50 skewedSunk skewedCloned 4 5 6).
  vm_compute. reflexivity.
Defined.

End CloneTheorems.

(** ** The passes leave [EntryNode] as it is *)

Module EntryFacts.
Import CFG Props GraphFacts NodeFacts RemovalFacts CloneFacts.

Lemma moveEdgeTarget_entry (g g' : RegionCFG) (e : NodeId * NodeId)
  (new : NodeId) :
  moveEdgeTarget g e new = Some g' -> EntryNode g' = EntryNode g.
Proof.
  destruct e as [p old]. intros H. apply moveEdgeTarget_inv in H.
  destruct H as [b [l [_ [-> _]]]]. reflexivity.
Qed.

Lemma moveEdges_entry (Target NewTarget : NodeId) (sel : NodeId -> bool)
  (l : list NodeId) :
  forall g g', moveEdges g l Target NewTarget sel = Some g' ->
  EntryNode g' = EntryNode g.
Proof.
  induction l as [|p l IH]; intros g g' H; cbn [moveEdges] in H.
  - inversion H. reflexivity.
  - destruct (sel p).
    + inv_bind H as g1 Hg1. rewrite (IH _ _ H).
      eapply moveEdgeTarget_entry. eassumption.
    + apply IH. assumption.
Qed.

Lemma fold_entry {A : Type} (F : RegionCFG -> A -> RegionCFG) (l : list A) :
  (forall acc x, EntryNode (F acc x) = EntryNode acc) ->
  forall g, EntryNode (fold_left F l g) = EntryNode g.
Proof.
  intros HF. induction l as [|x l IH]; intros g; simpl; [reflexivity |].
  rewrite IH. apply HF.
Qed.

Lemma addSink_entry (g : RegionCFG) (ExitNodes : list NodeId) :
  EntryNode (snd (addSink g ExitNodes)) = EntryNode g.
Proof.
  unfold addSink, addArtificialNode. cbn [snd].
  rewrite fold_entry; [reflexivity |]. intros acc x. reflexivity.
Qed.

Lemma removeNode_entry (g g' : RegionCFG) (n : NodeId) :
  removeNode g n = Some g' -> EntryNode g' = EntryNode g.
Proof.
  unfold removeNode. intros H. inv_bind H as b Hb.
  inversion H; subst g'; clear H. cbn [setBlockNodes EntryNode].
  apply (proj1 (fold_removeSuccessor_rest n (predecessors g n) g)).
Qed.

Lemma removeNodes_entry (l : list NodeId) :
  forall g g', removeNodes g l = Some g' -> EntryNode g' = EntryNode g.
Proof.
  induction l as [|n l IH]; intros g g' H; cbn [removeNodes] in H.
  - inversion H. reflexivity.
  - inv_bind H as g1 Hg1. rewrite (IH _ _ H).
    eapply removeNode_entry. eassumption.
Qed.

Lemma purgeVirtualSink_entry (fuel : nat) (g g' : RegionCFG) (Sink : NodeId) :
  purgeVirtualSink fuel g Sink = Some g' -> EntryNode g' = EntryNode g.
Proof.
  unfold purgeVirtualSink. intros H. inv_bind H as PL HPL.
  eapply removeNodes_entry. eassumption.
Qed.



Lemma cloneUntilExit_entry (fuel : nat) (g g' : RegionCFG)
  (Node Sink Clone : NodeId) :
  cloneUntilExit fuel g Node Sink = Some (Clone, g') ->
  EntryNode g' = EntryNode g.
Proof.
  unfold cloneUntilExit. intros H. inv_bind H as c Hc. destruct c as [d g1].
  inv_bind H as g2 Hg2. inversion H; subst d g'; clear H.
  pose proof (cloneUntilExitLoop_start _ _ _ _ _ _ _ _ Hg2) as Hne.
  pose proof (cloneNode_inv _ _ _ _ Hc) as [b [Hb [Hd Hg1]]].
  pose proof (findNode_In _ _ _ Hb) as [Hbin Hbid].
  pose proof (newID_gt_ID g b Hbin) as Hlt. rewrite Hbid in Hlt.
  destruct (cloning_cloneNode g g g1 Sink Node Clone [] (cloning_refl g Sink)
              Hlt Hne Hc) as [Hinv _].
  destruct (cloneUntilExitLoop_cloning g fuel Sink g1 [(Node, Clone)] [Node] []
              g2 Hg2 Hinv) as [_ He]; [| assumption].
  intros w [<- | []]. assumption.
Qed.

Lemma splitPostDominator_entry {LLVM : Analyses} (fuel : nat)
  (DT g g' : RegionCFG) (Conditional Child PostDominator Sink : NodeId) :
  splitPostDominator fuel DT g Conditional Child PostDominator Sink = Some g' ->
  EntryNode g' = EntryNode g.
Proof.
  unfold splitPostDominator. intros H. inv_bind H as c Hc.
  destruct c as [Clone g1]. inv_bind H as g2 Hg2. inv_bind H as u Hu.
  inversion H; subst g'; clear H.
  rewrite (moveEdges_entry _ _ _ _ _ _ Hg2).
  eapply cloneUntilExit_entry. eassumption.
Qed.


Lemma untangle_entry {LLVM : Analyses} (fuel : nat) (g g' : RegionCFG) :
  untangle fuel g = Some g' -> EntryNode g' = EntryNode g.
Proof.
  intros H.
  apply (PassFacts.untangle_preserves (fun x => EntryNode x = EntryNode g))
    with (fuel := fuel) (g := g); [| | | assumption | reflexivity].
  - intros x Hx. rewrite addSink_entry. assumption.
  - intros until g'0. intros Hs Hx.
    rewrite (splitPostDominator_entry _ _ _ _ _ _ _ _ Hs). assumption.
  - intros f x S x' Hs Hx. rewrite (purgeVirtualSink_entry _ _ _ _ Hs).
    assumption.
Qed.


End EntryFacts.

(** ** What [inflate] returns *)

Module InflateTheorems.
Import Reference CFG Props GraphFacts Examples.



(** Why the entry is named above.  [purgeDummies] and [purgeVirtualSink]
    do not look at [EntryNode]: an empty entry with one incoming edge (the
    entry of a region has none) is a dummy to purge like any other, and
    [inflate] then returns a graph from which the entry is gone, where
    [isDAG] has no node to start from. *)
Example inflate_purges_empty_entry :
  Acyclic enteredDummy
  /\ inflate 50 enteredDummy = Some enteredDummyCombed
  /\ ~ In (EntryNode enteredDummyCombed) (nodes enteredDummyCombed)
  /\ isDAG enteredDummyCombed = None.
Proof.
  split.
  { exists (fun x => match x with 2 => 0 | 0 => 1 | _ => 2 end).
    apply DAGFacts.respectsb_sound. reflexivity. }
  split; [vm_compute; reflexivity |].
  split; [simpl; intuition discriminate | reflexivity].
Qed.

End InflateTheorems.

(** ** [orderNodes] *)

Module OrderNodesTheorems.
Import CFG Props Examples GraphFacts.

Lemma filter_memb_In (L order : list NodeId) (x : NodeId) :
  In x (filter (fun RPOTBB => memb RPOTBB L) order) <-> In x order /\ In x L.
Proof. rewrite filter_In, memb_In. reflexivity. Qed.

(** X11.  With a traversal that visits no node twice, [orderNodes] returns
    exactly when [L] has no node twice and only nodes that the traversal
    reaches; what it returns is then a rearrangement of [L]; and the reversed
    order is the reverse of the plain one. *)
Theorem orderNodes_rearranges (A : Analyses) (g : RegionCFG)
  (L : list NodeId) (DoReverse : bool) :
  NoDup (@RPOT A g) ->
  ((exists Result, @orderNodes A g L DoReverse = Some Result)
   <-> NoDup L /\ incl L (@RPOT A g))
  /\ (forall Result, @orderNodes A g L DoReverse = Some Result ->
        Permutation L Result /\ NoDup Result)
  /\ @orderNodes A g L true = option_map (@rev NodeId) (@orderNodes A g L false).
Proof.
  intros HN. unfold orderNodes.
  set (order := if DoReverse then rev (RPOT g) else RPOT g).
  assert (HNo : NoDup order).
  { unfold order. destruct DoReverse; [apply NoDup_rev |]; assumption. }
  assert (Hin : forall x, In x order <-> In x (RPOT g)).
  { intros x. unfold order. destruct DoReverse; [| reflexivity].
    symmetry. apply in_rev. }
  set (Result := filter (fun RPOTBB => memb RPOTBB L) order).
  assert (HNR : NoDup Result) by (apply NoDup_filter; assumption).
  assert (HRL : incl Result L).
  { intros x Hx. apply filter_memb_In in Hx. tauto. }
  assert (Hsucc : length L = length Result ->
            NoDup L /\ incl L (RPOT g) /\ Permutation L Result).
  { intros Hlen.
    assert (HLN : NoDup L).
    { apply NoDup_incl_NoDup with (l := Result); [assumption | lia | assumption]. }
    assert (HLR : incl L Result).
    { apply NoDup_length_incl; [assumption | lia | assumption]. }
    split; [assumption |]. split.
    - intros x Hx. apply HLR in Hx. apply filter_memb_In in Hx.
      apply Hin. tauto.
    - apply NoDup_Permutation; [assumption | assumption |].
      intros x. split; [apply HLR | apply HRL]. }
  split; [| split].
  - split.
    + intros [R HR]. destruct (length L =? length Result) eqn:E;
        [| discriminate].
      apply Nat.eqb_eq in E. destruct (Hsucc E) as [H1 [H2 _]]. auto.
    + intros [HLN HLi]. exists Result.
      assert (HP : Permutation L Result).
      { apply NoDup_Permutation; [assumption | assumption |].
        intros x. split; [| apply HRL].
        intros Hx. apply filter_memb_In. split; [| assumption].
        apply Hin, HLi, Hx. }
      rewrite (Permutation_length HP), Nat.eqb_refl. reflexivity.
  - intros R HR. destruct (length L =? length Result) eqn:E; [| discriminate].
    apply Nat.eqb_eq in E. destruct (Hsucc E) as [_ [_ HP]].
    simpl in HR. inversion HR; subst R. auto.
  - rewrite filter_rev, length_rev.
    destruct (length L =? _); reflexivity.
Qed.

Lemma orderNodes_rearranges_witness :
  NoDup (@RPOT Reference.analyses skewedSunk)
  /\ @orderNodes Reference.analyses skewedSunk [4; 1; 0] false = Some [0; 1; 4]
  /\ Permutation [4; 1; 0] [0; 1; 4].
Proof.
  assert (HN : NoDup (@RPOT Reference.analyses skewedSunk)).
  { vm_compute. repeat (constructor; [simpl; intuition discriminate |]).
    constructor. }
  split; [exact HN |]. split; [vm_compute; reflexivity |].
  apply (orderNodes_rearranges Reference.analyses skewedSunk [4; 1; 0] false HN).
  vm_compute. reflexivity.
Defined.

End OrderNodesTheorems.

(** ** [removeNotReachables] *)

Module ReachFacts.
Import CFG Props GraphFacts RemovalFacts PurgeTotalFacts.

Lemma path_target (g : RegionCFG) (a s : NodeId) :
  path g a s -> exists p, edge g p s.
Proof.
  intros H. induction H as [a s He | a m s He Hp IH]; [eauto | assumption].
Qed.

Lemma path_sub (g g' : RegionCFG) (a s : NodeId) :
  (forall x y, edge g x y -> edge g' x y) -> path g a s -> path g' a s.
Proof.
  intros Hsub H. induction H as [a s He | a m s He Hp IH].
  - apply path_edge. apply Hsub. assumption.
  - eapply path_step; [apply Hsub; eassumption | assumption].
Qed.

Lemma edge_source_node (g : RegionCFG) (a s : NodeId) :
  edge g a s -> In a (nodes g).
Proof.
  intros [b [Hin [Hid _]]]. unfold nodes. rewrite <- Hid.
  apply in_map. assumption.
Qed.

Lemma isDangling_inv (g : RegionCFG) (b : BasicBlockNode) :
  isDangling g b = true ->
  ID b <> EntryNode g /\ forall p, ~ edge g p (ID b).
Proof.
  unfold isDangling, predecessor_size. intros H.
  apply andb_true_iff in H. destruct H as [H1 H2].
  apply negb_true_iff, Nat.eqb_neq in H1. apply Nat.eqb_eq in H2.
  split; [congruence |]. intros p Hp. apply edge_In_predecessors in Hp.
  destruct (predecessors g (ID b)); [destruct Hp | discriminate].
Qed.

Lemma isDangling_false (g : RegionCFG) (b : BasicBlockNode) :
  isDangling g b = false ->
  ID b = EntryNode g \/ exists p, edge g p (ID b).
Proof.
  unfold isDangling. intros H. apply andb_false_iff in H.
  destruct H as [H | H].
  - left. apply negb_false_iff, Nat.eqb_eq in H. congruence.
  - right. apply Nat.eqb_neq in H.
    apply CombFacts.predecessor_size_edge. lia.
Qed.

(** Removing a node without predecessors takes no edge from another node,
    and what is anchored stays so. *)
Lemma remove_dangling (g g1 : RegionCFG) (n : NodeId) :
  distinctIDs g -> (forall p, ~ edge g p n) -> n <> EntryNode g ->
  removeNode g n = Some g1 ->
  (forall a s, edge g1 a s <-> edge g a s /\ a <> n)
  /\ (forall x, anchored g x -> x <> n /\ anchored g1 x).
Proof.
  intros Hd Hno Hne H.
  pose proof (removeNode_edges g g1 n Hd H) as HE.
  destruct (removeNode_structure g g1 n Hd H) as [_ [Hentry _]].
  assert (HE' : forall a s, edge g1 a s <-> edge g a s /\ a <> n).
  { intros a s. rewrite HE. split; [tauto |]. intros [H1 H2].
    split; [assumption |]. split; [assumption |].
    intros ->. apply (Hno a). assumption. }
  split; [exact HE' |].
  assert (Hpath : forall a x, a <> n -> path g a x -> path g1 a x).
  { intros a x Ha Hp. induction Hp as [a s He | a m s He Hp IH].
    - apply path_edge. apply HE'. auto.
    - eapply path_step; [apply HE'; split; eassumption |].
      apply IH. intros ->. apply (Hno a). assumption. }
  assert (Hcyc : forall a, a = EntryNode g \/ path g a a -> a <> n).
  { intros a [-> | Hp]; [auto |]. intros ->.
    destruct (path_target g n n Hp) as [p Hp']. apply (Hno p). assumption. }
  intros x [a [Hr Ha]]. pose proof (Hcyc a Ha) as Han. split.
  - destruct Hr as [<- | Hp]; [assumption |]. intros ->.
    destruct (path_target g a n Hp) as [p Hp']. apply (Hno p). assumption.
  - exists a. split.
    + destruct Hr as [<- | Hp]; [left; reflexivity | right; auto].
    + rewrite Hentry. destruct Ha as [-> | Hp]; [left; reflexivity |].
      right. auto.
Qed.

Lemma removeNotReachablesLoop_spec (fuel : nat) :
  forall g,
  distinctIDs g -> length (BlockNodes g) < fuel ->
  exists g',
    removeNotReachablesLoop fuel g = Some g'
    /\ EntryNode g' = EntryNode g
    /\ distinctIDs g'
    /\ incl (nodes g') (nodes g)
    /\ (forall a s, edge g' a s <-> edge g a s /\ In a (nodes g'))
    /\ (forall b, In b (BlockNodes g') -> isDangling g' b = false)
    /\ (forall x, In x (nodes g) -> anchored g x ->
          In x (nodes g') /\ anchored g' x).
Proof.
  induction fuel as [|k IH]; intros g Hd Hlen; [lia |].
  cbn [removeNotReachablesLoop].
  destruct (find (isDangling g) (BlockNodes g)) as [It|] eqn:EF.
  - apply find_some in EF. destruct EF as [Hin Hdang].
    destruct (isDangling_inv g It Hdang) as [Hne Hno].
    assert (HIn : In (ID It) (nodes g)) by (apply in_map; assumption).
    destruct (removeNode_Some g (ID It) HIn) as [g1 Hg1].
    rewrite Hg1. cbn [bind].
    pose proof (removeNode_nodes g g1 (ID It) Hd Hg1) as Hnodes.
    pose proof (removeNode_distinct g g1 (ID It) Hd Hg1) as Hd1.
    destruct (removeNode_structure g g1 (ID It) Hd Hg1) as [_ [Hentry _]].
    destruct (remove_dangling g g1 (ID It) Hd Hno Hne Hg1) as [HE Hanch].
    assert (Hlen1 : length (BlockNodes g1) < k).
    { pose proof (setErase_length (ID It) (nodes g) Hd HIn) as HL.
      rewrite <- Hnodes in HL. unfold nodes in HL. rewrite !length_map in HL.
      lia. }
    destruct (IH g1 Hd1 Hlen1)
      as [g' [Hrun [He' [Hd' [Hincl [Hedge [Hpost Hkeep]]]]]]].
    exists g'. split; [assumption |]. split; [congruence |].
    split; [assumption |]. split; [| split; [| split]].
    + intros x Hx. apply Hincl in Hx. rewrite Hnodes in Hx.
      apply CombFacts.In_setErase in Hx. tauto.
    + intros a s. rewrite Hedge, HE. split; [tauto |]. intros [H1 H2].
      split; [| assumption]. split; [assumption |]. intros ->.
      apply Hincl in H2. rewrite Hnodes in H2.
      apply CombFacts.In_setErase in H2. tauto.
    + assumption.
    + intros x Hx Hax. destruct (Hanch x Hax) as [Hxn Hax1].
      apply Hkeep; [| assumption]. rewrite Hnodes.
      apply CombFacts.In_setErase. auto.
  - exists g. split; [reflexivity |]. split; [reflexivity |].
    split; [assumption |]. split; [apply incl_refl |]. split; [| split].
    + intros a s. split; [| tauto]. intros He.
      split; [assumption | apply (edge_source_node g a s He)].
    + intros b Hb. apply (find_none _ _ EF b Hb).
    + auto.
Qed.

Lemma removeNotReachables_spec (g : RegionCFG) :
  distinctIDs g ->
  exists g',
    removeNotReachables g = Some g'
    /\ EntryNode g' = EntryNode g
    /\ distinctIDs g'
    /\ incl (nodes g') (nodes g)
    /\ (forall a s, edge g' a s <-> edge g a s /\ In a (nodes g'))
    /\ (forall b, In b (BlockNodes g') -> isDangling g' b = false)
    /\ (forall x, In x (nodes g) -> anchored g x ->
          In x (nodes g') /\ anchored g' x).
Proof.
  intros Hd. apply removeNotReachablesLoop_spec; [assumption |].
  apply Nat.lt_succ_diag_r.
Qed.

(** In a graph that can be ranked, a node either is the entry, or hangs
    under a node without predecessors, or comes after the entry. *)
Lemma ranked_reached (g : RegionCFG) (r : NodeId -> nat) :
  respects r g ->
  (forall b, In b (BlockNodes g) -> isDangling g b = false) ->
  forall k x, r x < k -> In x (nodes g) ->
  x = EntryNode g \/ path g (EntryNode g) x.
Proof.
  intros Hr Hpost. induction k as [|k IH]; intros x Hk Hx; [lia |].
  unfold nodes in Hx. apply in_map_iff in Hx. destruct Hx as [b [Hid Hb]].
  destruct (isDangling_false g b (Hpost b Hb)) as [He | [p Hp]].
  - left. congruence.
  - rewrite Hid in Hp. right.
    pose proof (Hr p x Hp) as Hlt.
    destruct (IH p) as [-> | Hpath];
      [lia | apply (edge_source_node g p x Hp) | |].
    + apply path_edge. assumption.
    + clear IH Hk Hlt. induction Hpath as [a s He | a m s He Hq IHq].
      * eapply path_step; [eassumption | apply path_edge; assumption].
      * eapply path_step; [eassumption | apply IHq; assumption].
Qed.

End ReachFacts.

Module ReachTheorems.
Import CFG Props Examples GraphFacts ReachFacts.

(** X12.  [removeNotReachables] always returns; afterwards every node but
    the entry has a predecessor, no node is new, and a node that is left has
    all the edges it had. *)
Theorem removeNotReachables_leaves_no_dangling (g : RegionCFG) :
  distinctIDs g ->
  exists g',
    removeNotReachables g = Some g'
    /\ EntryNode g' = EntryNode g
    /\ incl (nodes g') (nodes g)
    /\ (forall a s, edge g' a s <-> edge g a s /\ In a (nodes g'))
    /\ (forall x, In x (nodes g') -> x <> EntryNode g ->
          exists p, edge g' p x)
    /\ distinctIDs g'.
Proof.
  intros Hd.
  destruct (removeNotReachables_spec g Hd)
    as [g' [Hrun [He [Hd' [Hincl [Hedge [Hpost _]]]]]]].
  exists g'. split; [assumption |]. split; [assumption |].
  split; [assumption |]. split; [assumption |]. split; [| assumption].
  intros x Hx Hne. unfold nodes in Hx. apply in_map_iff in Hx.
  destruct Hx as [b [Hid Hb]].
  destruct (isDangling_false g' b (Hpost b Hb)) as [H | H].
  - exfalso. apply Hne. congruence.
  - rewrite Hid in H. exact H.
Qed.

Lemma removeNotReachables_leaves_no_dangling_witness :
  exists g',
    removeNotReachables danglingArm = Some g'
    /\ EntryNode g' = EntryNode danglingArm
    /\ incl (nodes g') (nodes danglingArm).
Proof.
  destruct (removeNotReachables_leaves_no_dangling danglingArm)
    as [g' [H1 [H2 [H3 _]]]].
  - distinct_ids.
  - exists g'. auto.
Defined.

(** X13.  [removeNotReachables] keeps every node that the entry reaches, and
    also every node reached from a cycle, whether or not the entry reaches
    that cycle. *)
Theorem removeNotReachables_keeps_anchored (g g' : RegionCFG) (x : NodeId) :
  distinctIDs g -> removeNotReachables g = Some g' ->
  In x (nodes g) -> anchored g x -> In x (nodes g').
Proof.
  intros Hd H Hx Ha.
  destruct (removeNotReachables_spec g Hd) as [g0 [Hrun [_ [_ [_ [_ [_ Hk]]]]]]].
  rewrite H in Hrun. inversion Hrun; subst g0. apply (Hk x Hx Ha).
Qed.

Lemma removeNotReachables_keeps_anchored_witness :
  removeNotReachables leftOvers = Some leftOversRemoved
  /\ In 6 (nodes leftOversRemoved).
Proof.
  split; [vm_compute; reflexivity |].
  apply (removeNotReachables_keeps_anchored leftOvers leftOversRemoved 6).
  - distinct_ids.
  - vm_compute. reflexivity.
  - simpl. tauto.
  - exists 5. split.
    + right. apply path_edge. exists (block 5 1 [6]). simpl. tauto.
    + right. apply (path_step leftOvers 5 6 5).
      * exists (block 5 1 [6]). simpl. tauto.
      * apply path_edge. exists (block 6 1 [5; 1]). simpl. tauto.
Defined.

(** X14.  On a graph without cycles [removeNotReachables] leaves exactly the
    entry and the nodes that the entry reaches. *)
Theorem removeNotReachables_dag_leaves_reachable (g g' : RegionCFG)
  (x : NodeId) :
  distinctIDs g -> Acyclic g -> removeNotReachables g = Some g' ->
  (In x (nodes g') <->
   In x (nodes g) /\ (x = EntryNode g \/ path g (EntryNode g) x)).
Proof.
  intros Hd [r Hr] H.
  destruct (removeNotReachables_spec g Hd)
    as [g0 [Hrun [He [_ [Hincl [Hedge [Hpost Hk]]]]]]].
  rewrite H in Hrun. inversion Hrun; subst g0; clear Hrun. split.
  - intros Hx. split; [apply Hincl; assumption |].
    assert (Hr' : respects r g').
    { intros a s Has. apply Hr. apply Hedge in Has. tauto. }
    destruct (ranked_reached g' r Hr' Hpost (S (r x)) x (Nat.lt_succ_diag_r _) Hx)
      as [Hx' | Hp].
    + left. congruence.
    + right. rewrite <- He. apply (path_sub g' g); [| assumption].
      intros a s Has. apply Hedge in Has. tauto.
  - intros [Hx Hreach]. apply (Hk x Hx). exists (EntryNode g). split.
    + destruct Hreach as [-> | Hp]; [left; reflexivity | right; assumption].
    + left. reflexivity.
Qed.

Lemma removeNotReachables_dag_leaves_reachable_witness :
  removeNotReachables danglingArm = Some danglingArmRemoved
  /\ (In 4 (nodes danglingArmRemoved) <->
      In 4 (nodes danglingArm)
      /\ (4 = EntryNode danglingArm \/ path danglingArm (EntryNode danglingArm) 4)).
Proof.
  split; [vm_compute; reflexivity |].
  apply (removeNotReachables_dag_leaves_reachable danglingArm danglingArmRemoved 4).
  - distinct_ids.
  - exists (fun n => match n with 0 => 2 | 1 => 3 | 3 => 0 | 4 => 1 | _ => 0 end).
    apply DAGFacts.respectsb_sound. vm_compute. reflexivity.
  - vm_compute. reflexivity.
Defined.

End ReachTheorems.

(** ** [connectContinueNode] *)

Module ContinueFacts.
Import CFG Props GraphFacts NodeFacts PurgeFacts MoveFacts CombFacts.

Lemma cnt_zero_nil (b : BasicBlockNode) :
  (forall s, cnt b s = 0) -> Successors b = [].
Proof.
  unfold cnt. destruct (Successors b) as [|x l]; [reflexivity |].
  intros H. specialize (H x). simpl in H.
  destruct (Nat.eq_dec x x); [discriminate | congruence].
Qed.

Lemma repointed_leaf (T N : NodeId) (x x' : BasicBlockNode) :
  repointed T N 0 x x' -> Successors x = [] -> x' = x.
Proof.
  intros [Hs [H1 [H2 H3]]] Hx.
  assert (H0 : forall s, cnt x s = 0).
  { intros s. unfold cnt. rewrite Hx. reflexivity. }
  assert (Hx' : Successors x' = []).
  { apply cnt_zero_nil. intros s.
    destruct (Nat.eq_dec s T) as [-> | HT]; [specialize (H0 T); lia |].
    destruct (Nat.eq_dec s N) as [-> | HN]; [specialize (H0 N); lia |].
    rewrite (H3 s HT HN). apply H0. }
  destruct x, x'. unfold sig in Hs. simpl in *.
  inversion Hs; subst. reflexivity.
Qed.

Lemma repointed_leaves (T N p : NodeId) (l l' : list BasicBlockNode) :
  Forall2 (fun b b' => repointed T N (if ID b =? p then 1 else 0) b b') l l' ->
  (forall x, In x l -> ID x <> p /\ Successors x = []) -> l' = l.
Proof.
  intros H. induction H as [|x x' l l' Hxx H IH]; intros Hl; [reflexivity |].
  destruct (Hl x (or_introl eq_refl)) as [Hne Hs].
  apply Nat.eqb_neq in Hne. rewrite Hne in Hxx.
  rewrite (repointed_leaf T N x x' Hxx Hs). f_equal.
  apply IH. intros y Hy. apply Hl. right. assumption.
Qed.

Lemma linkCount_app (links : list (NodeId * NodeId)) (p c a c' : NodeId) :
  linkCount (links ++ [(p, c)]) a c'
  = linkCount links a c' + (if (p =? a) && (c =? c') then 1 else 0).
Proof.
  unfold linkCount. rewrite filter_app, length_app. simpl.
  destruct ((p =? a) && (c =? c')); reflexivity.
Qed.

Lemma linkCount_In (links : list (NodeId * NodeId)) (a c : NodeId) :
  0 < linkCount links a c <-> In (a, c) links.
Proof.
  unfold linkCount. split.
  - intros H.
    destruct (filter (fun l => (fst l =? a) && (snd l =? c)) links)
      as [|[x y] r] eqn:E; [simpl in H; lia |].
    assert (Hin : In (x, y) (filter (fun l => (fst l =? a) && (snd l =? c))
                               links)) by (rewrite E; left; reflexivity).
    apply filter_In in Hin. destruct Hin as [Hin Hb]. simpl in Hb.
    apply andb_true_iff in Hb. destruct Hb as [H1 H2].
    apply Nat.eqb_eq in H1. apply Nat.eqb_eq in H2. subst. assumption.
  - intros Hin.
    assert (Hf : In (a, c) (filter (fun l => (fst l =? a) && (snd l =? c))
                              links)).
    { apply filter_In. split; [assumption |]. simpl.
      rewrite !Nat.eqb_refl. reflexivity. }
    destruct (filter (fun l => (fst l =? a) && (snd l =? c)) links);
      [destruct Hf | simpl; lia].
Qed.

Lemma linkCount_absent (links : list (NodeId * NodeId)) (a c : NodeId) :
  ~ In c (map snd links) -> linkCount links a c = 0.
Proof.
  intros H. destruct (linkCount links a c) eqn:E; [reflexivity |].
  exfalso. apply H. apply in_map_iff. exists (a, c). split; [reflexivity |].
  apply linkCount_In. lia.
Qed.

Lemma sig_ID (b b' : BasicBlockNode) : sig b' = sig b -> ID b' = ID b.
Proof. unfold sig. intros H. inversion H. reflexivity. Qed.

Lemma sig_isCheck (b b' : BasicBlockNode) :
  sig b' = sig b -> isCheck b' = isCheck b.
Proof. unfold sig, isCheck. intros H. inversion H. reflexivity. Qed.

Lemma continuing_start (g : RegionCFG) :
  distinctIDs g -> checksComplete g -> continuing g [] g.
Proof.
  intros Hd Hc. exists (BlockNodes g). simpl.
  split; [symmetry; apply app_nil_r |]. split.
  - rewrite <- (map_id (BlockNodes g)) at 2. apply Forall2_map_right.
    intros b Hb. unfold continued. simpl.
    split; [reflexivity |]. split; [lia |]. split; [reflexivity |].
    intros c [].
  - split; [reflexivity |]. split; [constructor |].
    split; [intros c [] |]. split; [lia |]. split; assumption.
Qed.

(** One turn of the loop: a new [Continue] node takes one edge of [p] into
    the entry. *)
Lemma continue_step (g cur : RegionCFG) (links : list (NodeId * NodeId))
  (p : NodeId) (b : BasicBlockNode) :
  continuing g links cur -> In b (BlockNodes g) -> ID b = p ->
  count_occ Nat.eq_dec (map fst links) p < cnt b (EntryNode g) ->
  exists g2,
    moveEdgeTarget (insertNode cur (continueNode (newID cur)))
                   (p, EntryNode cur) (newID cur) = Some g2
    /\ continuing g (links ++ [(p, newID cur)]) g2.
Proof.
  intros [olds [HB [HF [HE [HND [Hfresh [Hnew [Hd Hck]]]]]]]] Hb Hid Hcount.
  set (c := newID cur). set (E := EntryNode g) in *.
  set (g1 := insertNode cur (continueNode c)).
  destruct (Forall2_In_left _ _ _ b HF Hb) as [b' [Hb' Hcont]].
  pose proof Hcont as [Hsig [HcE [Hoth Hlink]]].
  assert (Hid' : ID b' = p) by (rewrite (sig_ID b b' Hsig); assumption).
  assert (Hb'cur : In b' (BlockNodes cur)).
  { rewrite HB. apply in_or_app. left. assumption. }
  assert (HEin : In E (Successors b')).
  { apply (count_occ_In Nat.eq_dec). unfold cnt in *. rewrite Hid in HcE. lia. }
  assert (HEc : E < c) by (apply (newID_gt_successor cur b' E Hb'cur HEin)).
  assert (HEg : E < newID g).
  { apply (newID_gt_successor g b E Hb). apply (count_occ_In Nat.eq_dec).
    unfold cnt in Hcount. lia. }
  assert (Hd1 : distinctIDs g1).
  { apply (grows_insertNode cur (continueNode c)); [reflexivity | assumption]. }
  assert (Hck1 : checksComplete g1).
  { intros x Hx Hc. unfold g1 in Hx. simpl in Hx. apply in_app_or in Hx.
    destruct Hx as [Hx | [<- | []]]; [apply Hck; assumption | discriminate]. }
  assert (Hb'1 : In b' (BlockNodes g1)).
  { unfold g1. simpl. apply in_or_app. left. assumption. }
  assert (Hfind : findNode g1 p = Some b').
  { destruct (In_findNode g1 b' Hb'1) as [x Hx]. rewrite Hid' in Hx.
    rewrite Hx. f_equal.
    apply (findNode_unique g1 b' x Hd1 Hb'1). rewrite Hid'. assumption. }
  destruct (moveEdgeTarget_succeeds g1 b' p E c Hfind HEin) as [g2 Hg2].
  { intros Hc. apply (Hck b' Hb'cur Hc). }
  replace (EntryNode cur) with E by (symmetry; assumption).
  exists g2. split; [exact Hg2 |].
  assert (HneEc : E <> c) by lia.
  pose proof (moveEdgeTarget_repointed g1 g2 p E c Hd1 HneEc Hg2) as HR.
  unfold g1 in HR. cbn [BlockNodes insertNode] in HR.
  rewrite HB, <- app_assoc in HR.
  apply Forall2_app_inv_l in HR.
  destruct HR as [olds2 [rest2 [HR1 [HR2 HB2]]]].
  (* the [Continue] nodes are as they were *)
  assert (Hleaves : rest2 = map (fun l => continueNode (snd l)) links
                              ++ [continueNode c]).
  { apply (repointed_leaves E c p _ _ HR2). intros x Hx.
    assert (Hxs : Successors x = []).
    { apply in_app_or in Hx. destruct Hx as [Hx | [<- | []]]; [| reflexivity].
      apply in_map_iff in Hx. destruct Hx as [l [<- _]]. reflexivity. }
    split; [| assumption]. intros Hxp.
    assert (Hx1 : In x (BlockNodes g1)).
    { unfold g1. cbn [BlockNodes insertNode]. rewrite HB, <- app_assoc.
      apply in_or_app. right. assumption. }
    rewrite <- Hid' in Hxp.
    destruct (In_findNode g1 x Hx1) as [y Hy].
    pose proof (findNode_unique g1 x y Hd1 Hx1 Hy) as ->.
    rewrite Hxp in Hy.
    destruct (In_findNode g1 b' Hb'1) as [z Hz].
    pose proof (findNode_unique g1 b' z Hd1 Hb'1 Hz) as ->.
    assert (x = b') by congruence. subst x.
    rewrite Hxs in HEin. destruct HEin. }
  assert (Hcfresh : ~ In c (map snd links)).
  { intros Hc. apply in_map_iff in Hc. destruct Hc as [l [Hl Hin]].
    assert (Hx : In (continueNode (snd l)) (BlockNodes cur)).
    { rewrite HB. apply in_or_app. right.
      apply (in_map (fun l => continueNode (snd l))). assumption. }
    apply newID_gt_ID in Hx. simpl in Hx. unfold c in Hl. lia. }
  exists olds2. split; [| split; [| split; [| split; [| split; [| split; [| split]]]]]].
  - rewrite HB2, Hleaves, map_app. reflexivity.
  - apply (Forall2_compose _ _ _ _ _ _ HF HR1).
    intros x y z Hx [Hs1 [Hc1 [Ho1 Hl1]]] [Hs2 [Hc2 [Hn2 Ho2]]].
    rewrite (sig_ID x y Hs1) in Hc2, Hn2.
    assert (Hx0 : cnt x c = 0).
    { destruct (cnt x c) eqn:Ecnt; [reflexivity |]. exfalso.
      assert (Hin : In c (Successors x)).
      { apply (count_occ_In Nat.eq_dec). unfold cnt in Ecnt. lia. }
      pose proof (newID_gt_successor g x c Hx Hin). unfold c in *. lia. }
    assert (Hy0 : cnt y c = 0).
    { rewrite (Ho1 c); [assumption | lia | assumption]. }
    split; [congruence |]. split; [| split].
    + rewrite map_app, count_occ_app. simpl.
      destruct (Nat.eq_dec p (ID x)) as [Ep | Ep].
      * rewrite <- Ep, Nat.eqb_refl in Hc2. unfold E in *. lia.
      * assert (Ex : (ID x =? p) = false) by (apply Nat.eqb_neq; congruence).
        rewrite Ex in Hc2. unfold E in *. lia.
    + intros s HsE Hs. rewrite map_app, in_app_iff in Hs. simpl in Hs.
      rewrite (Ho2 s); [| assumption | intros ->; apply Hs; auto].
      apply Ho1; [assumption |]. intros Hin. apply Hs. auto.
    + intros c' Hc'. rewrite map_app, in_app_iff in Hc'. simpl in Hc'.
      rewrite linkCount_app.
      destruct (Nat.eq_dec c' c) as [-> | Hne].
      * rewrite Hn2, Hy0, (linkCount_absent links (ID x) c Hcfresh).
        rewrite Nat.eqb_refl, andb_true_r, (Nat.eqb_sym p (ID x)).
        reflexivity.
      * assert (Hin : In c' (map snd links)) by (destruct Hc' as [H | [H | []]]; [assumption | congruence]).
        assert (Ec : (c =? c') = false) by (apply Nat.eqb_neq; congruence).
        rewrite Ec, andb_false_r, Nat.add_0_r, <- (Hl1 c' Hin).
        apply Ho2; [| assumption]. intros HcE'.
        apply Hfresh in Hin. lia.
  - apply moveEdgeTarget_inv in Hg2.
    destruct Hg2 as [x [l [_ [-> _]]]]. simpl. assumption.
  - rewrite map_app. simpl. apply NoDup_app; [assumption | repeat constructor; auto |].
    intros x Hx [<- | []]. apply Hcfresh. assumption.
  - intros c' Hc'. rewrite map_app, in_app_iff in Hc'. simpl in Hc'.
    destruct Hc' as [H | [<- | []]]; [apply Hfresh; assumption | assumption].
  - assert (Hin : In (continueNode c) (BlockNodes g2)).
    { rewrite HB2, Hleaves. apply in_or_app. right. apply in_or_app. right.
      left. reflexivity. }
    apply newID_gt_ID in Hin. simpl in Hin. unfold c in Hin. lia.
  - apply (distinctIDs_same_sigs g1 g2); [| assumption].
    apply (repointed_distinct E c (fun i => if i =? p then 1 else 0)).
    apply (moveEdgeTarget_repointed g1 g2 p E c Hd1 HneEc Hg2).
  - apply (moveEdgeTarget_checks g1 g2 p E c Hd1 Hck1 Hg2).
Qed.

End ContinueFacts.

Module ContinueLoopFacts.
Import CFG Props GraphFacts NodeFacts PurgeFacts MoveFacts CombFacts.
Import ContinueFacts.

Lemma connectContinues_spec (g : RegionCFG) (rest : list NodeId) :
  distinctIDs g ->
  forall links cur,
  continuing g links cur ->
  map fst links ++ rest = predecessors g (EntryNode g) ->
  exists g' links',
    connectContinues cur rest = Some g'
    /\ continuing g links' g'
    /\ map fst links' = predecessors g (EntryNode g).
Proof.
  intros Hd. induction rest as [|p rest IH]; intros links cur Hinv Hl.
  - exists cur, links. rewrite app_nil_r in Hl. auto.
  - assert (Hp : In p (predecessors g (EntryNode g))).
    { rewrite <- Hl. apply in_or_app. right. left. reflexivity. }
    apply predecessors_edge in Hp. destruct Hp as [b [Hb [Hid HE]]].
    assert (Hcount : count_occ Nat.eq_dec (map fst links) p
                     < cnt b (EntryNode g)).
    { rewrite <- (count_predecessors g (EntryNode g) b Hd Hb), <- Hl, Hid.
      rewrite count_occ_app. simpl.
      destruct (Nat.eq_dec p p); [lia | congruence]. }
    destruct (continue_step g cur links p b Hinv Hb Hid Hcount)
      as [g2 [Hg2 Hinv2]].
    assert (Hunf : connectContinues cur (p :: rest)
                   = (do g' <- moveEdgeTarget
                                 (insertNode cur (continueNode (newID cur)))
                                 (p, EntryNode cur) (newID cur);
                      connectContinues g' rest)) by reflexivity.
    rewrite Hunf, Hg2. cbn [bind].
    apply (IH (links ++ [(p, newID cur)]) g2 Hinv2).
    rewrite map_app, <- app_assoc. exact Hl.
Qed.

(** What [connectContinueNode] makes of the graph. *)
Lemma connectContinueNode_spec (g : RegionCFG) :
  distinctIDs g -> checksComplete g ->
  exists g' links,
    connectContinueNode g = Some g'
    /\ map fst links = predecessors g (EntryNode g)
    /\ NoDup (map snd links)
    /\ (forall c, In c (map snd links) -> newID g <= c)
    /\ EntryNode g' = EntryNode g
    /\ sigs g' = sigs g ++ map (fun l => sig (continueNode (snd l))) links
    /\ (forall a s, edge g' a s <->
          (edge g a s /\ s <> EntryNode g) \/ In (a, s) links)
    /\ distinctIDs g' /\ checksComplete g'.
Proof.
  intros Hd Hck. unfold connectContinueNode.
  destruct (connectContinues_spec g (predecessors g (EntryNode g)) Hd [] g
              (continuing_start g Hd Hck) eq_refl)
    as [g' [links [Hrun [Hinv Hfst]]]].
  destruct Hinv as [olds [HB [HF [HE [HND [Hfresh [Hnew [Hd' Hck']]]]]]]].
  exists g', links. split; [assumption |]. split; [assumption |].
  split; [assumption |]. split; [assumption |]. split; [assumption |].
  split; [| split; [| split; assumption]].
  - unfold sigs. rewrite HB, map_app, map_map. f_equal.
    clear HB. induction HF as [|b b' l l' [Hs _] HF IH]; [reflexivity |].
    simpl. rewrite Hs, IH. reflexivity.
  - assert (Hzero : forall b x, In b (BlockNodes g) ->
              continued (EntryNode g) links b x -> cnt x (EntryNode g) = 0).
    { intros b x Hb [_ [Hc _]].
      rewrite Hfst, (count_predecessors g (EntryNode g) b Hd Hb) in Hc. lia. }
    assert (Hold : forall s, s < newID g -> ~ In s (map snd links)).
    { intros s Hs Hin. apply Hfresh in Hin. lia. }
    intros a s. split.
    + intros [x [Hx [Hid Hs]]]. rewrite HB in Hx. apply in_app_or in Hx.
      destruct Hx as [Hx | Hx].
      2:{ apply in_map_iff in Hx. destruct Hx as [l [<- _]]. destruct Hs. }
      destruct (Forall2_In_right _ _ _ x HF Hx) as [b [Hb Hcont]].
      pose proof (Hzero b x Hb Hcont) as Hz.
      destruct Hcont as [Hsig [_ [Hoth Hlink]]].
      assert (Hpos : 0 < cnt x s) by (apply (count_occ_In Nat.eq_dec); exact Hs).
      assert (Hida : ID b = a) by (rewrite <- (sig_ID b x Hsig); assumption).
      destruct (Nat.eq_dec s (EntryNode g)) as [-> | HsE]; [lia |].
      destruct (in_dec Nat.eq_dec s (map snd links)) as [Hin | Hnin].
      * right. apply linkCount_In. rewrite <- Hida, <- (Hlink s Hin). exact Hpos.
      * left. split; [| assumption]. exists b.
        split; [assumption |]. split; [assumption |].
        apply (count_occ_In Nat.eq_dec). fold (cnt b s).
        rewrite <- (Hoth s HsE Hnin). exact Hpos.
    + intros [[[b [Hb [Hid Hs]]] HsE] | Hin].
      * destruct (Forall2_In_left _ _ _ b HF Hb) as [x [Hx Hcont]].
        destruct Hcont as [Hsig [_ [Hoth _]]].
        exists x. split; [rewrite HB; apply in_or_app; left; assumption |].
        split; [rewrite (sig_ID b x Hsig); assumption |].
        apply (count_occ_In Nat.eq_dec). fold (cnt x s).
        rewrite (Hoth s HsE (Hold s (newID_gt_successor g b s Hb Hs))).
        apply (count_occ_In Nat.eq_dec). exact Hs.
      * assert (Ha : In a (predecessors g (EntryNode g))).
        { rewrite <- Hfst. apply in_map_iff. exists (a, s). auto. }
        apply predecessors_edge in Ha. destruct Ha as [b [Hb [Hid _]]].
        destruct (Forall2_In_left _ _ _ b HF Hb) as [x [Hx Hcont]].
        destruct Hcont as [Hsig [_ [_ Hlink]]].
        exists x. split; [rewrite HB; apply in_or_app; left; assumption |].
        split; [rewrite (sig_ID b x Hsig); assumption |].
        apply (count_occ_In Nat.eq_dec). fold (cnt x s).
        rewrite (Hlink s), Hid.
        -- apply linkCount_In. assumption.
        -- apply in_map_iff. exists (a, s). auto.
Qed.

End ContinueLoopFacts.

Module ContinueTheorems.
Import CFG Props Examples GraphFacts ContinueFacts ContinueLoopFacts.

(** X15.  [connectContinueNode] always returns.  It adds one [Continue]
    node, new and without successors, for each edge into the entry, and
    repoints that edge to it, so that the entry has no predecessor left and
    each new node has one; every other edge is as it was, and no node
    changes its kind, weight or original block. *)
Theorem connectContinueNode_cuts_back_edges (g : RegionCFG) :
  distinctIDs g -> checksComplete g ->
  exists g' links,
    connectContinueNode g = Some g'
    /\ map fst links = predecessors g (EntryNode g)
    /\ NoDup (map snd links)
    /\ (forall c, In c (map snd links) -> newID g <= c)
    /\ EntryNode g' = EntryNode g
    /\ sigs g' = sigs g ++ map (fun l => sig (continueNode (snd l))) links
    /\ (forall a s, edge g' a s <->
          (edge g a s /\ s <> EntryNode g) \/ In (a, s) links)
    /\ (forall a, ~ edge g' a (EntryNode g))
    /\ (forall a a' c, In c (map snd links) ->
          edge g' a c -> edge g' a' c -> a = a')
    /\ distinctIDs g' /\ checksComplete g'.
Proof.
  intros Hd Hck.
  destruct (connectContinueNode_spec g Hd Hck)
    as [g' [links [Hrun [Hfst [HND [Hfresh [HE [Hsig [Hedge [Hd' Hck']]]]]]]]]].
  exists g', links. split; [assumption |]. split; [assumption |].
  split; [assumption |]. split; [assumption |]. split; [assumption |].
  split; [assumption |]. split; [assumption |].
  split; [| split; [| split; assumption]].
  - intros a Ha. apply Hedge in Ha. destruct Ha as [[_ Hne] | Hin];
      [apply Hne; reflexivity |].
    assert (Ha : In a (predecessors g (EntryNode g))).
    { rewrite <- Hfst. apply in_map_iff. exists (a, EntryNode g). auto. }
    apply predecessors_edge, edge_below_newID in Ha.
    assert (Hc : newID g <= EntryNode g).
    { apply Hfresh. apply in_map_iff. exists (a, EntryNode g). auto. }
    lia.
  - intros a a' c Hc Ha Ha'.
    assert (Hlink : forall x, edge g' x c -> In (x, c) links).
    { intros x Hx. apply Hedge in Hx. destruct Hx as [[Hx _] | Hx];
        [| assumption].
      apply edge_below_newID in Hx. apply Hfresh in Hc. lia. }
    apply Hlink in Ha. apply Hlink in Ha'. clear - HND Ha Ha'.
    induction links as [|[x y] l IH]; [destruct Ha |].
    simpl in HND. inversion HND as [|? ? Hn Hnd]; subst.
    assert (Hk : forall z, In (z, c) l -> In c (map snd l)).
    { intros z Hz. apply in_map_iff. exists (z, c). auto. }
    destruct Ha as [Ha | Ha]; destruct Ha' as [Ha' | Ha'].
    + congruence.
    + inversion Ha; subst. exfalso. apply Hn. apply (Hk a'). assumption.
    + inversion Ha'; subst. exfalso. apply Hn. apply (Hk a). assumption.
    + apply IH; assumption.
Qed.

Lemma loopBody_checks : checksComplete loopBody.
Proof.
  intros b Hb Hc. simpl in Hb.
  repeat (destruct Hb as [<- | Hb]; [first [reflexivity | discriminate] |]).
  destruct Hb.
Qed.

Lemma connectContinueNode_cuts_back_edges_witness :
  connectContinueNode loopBody = Some loopBodyCut
  /\ exists g' links,
       connectContinueNode loopBody = Some g'
       /\ map fst links = predecessors loopBody (EntryNode loopBody)
       /\ NoDup (map snd links)
       /\ (forall c, In c (map snd links) -> newID loopBody <= c)
       /\ EntryNode g' = EntryNode loopBody.
Proof.
  split; [vm_compute; reflexivity |].
  destruct (connectContinueNode_cuts_back_edges loopBody)
    as [g' [links [H1 [H2 [H3 [H4 [H5 _]]]]]]].
  - distinct_ids.
  - exact loopBody_checks.
  - exists g', links. auto.
Defined.

(** X16.  If the edges of the graph that do not enter the entry can be
    ranked, so that every cycle passes through the entry, then the graph
    that [connectContinueNode] leaves has no cycle, and [isDAG] accepts
    it. *)
Theorem connectContinueNode_makes_dag (g : RegionCFG) (r : NodeId -> nat) :
  distinctIDs g -> checksComplete g -> In (EntryNode g) (nodes g) ->
  (forall a s, edge g a s -> s <> EntryNode g -> r a < r s) ->
  exists g',
    connectContinueNode g = Some g' /\ Acyclic g' /\ isDAG g' = Some true.
Proof.
  intros Hd Hck HEn Hr.
  destruct (connectContinueNode_spec g Hd Hck)
    as [g' [links [Hrun [Hfst [_ [Hfresh [HE' [Hsigs [Hedge _]]]]]]]]].
  exists g'. split; [assumption |].
  assert (HA : Acyclic g').
  { exists (fun x => if x <? newID g then r x
                     else S (list_max (map r (nodes g)))).
    intros a s Has. apply Hedge in Has. destruct Has as [[He HsE] | Hin].
    - destruct (edge_below_newID g a s He) as [Ha Hs].
      apply Nat.ltb_lt in Ha. apply Nat.ltb_lt in Hs. rewrite Ha, Hs.
      apply Hr; assumption.
    - assert (Hs : newID g <= s).
      { apply Hfresh. apply in_map_iff. exists (a, s). auto. }
      assert (Ha : In a (predecessors g (EntryNode g))).
      { rewrite <- Hfst. apply in_map_iff. exists (a, s). auto. }
      apply predecessors_edge in Ha.
      destruct (edge_below_newID g a (EntryNode g) Ha) as [Ha' _].
      pose proof (ReachFacts.edge_source_node g a (EntryNode g) Ha) as Hin'.
      apply Nat.ltb_lt in Ha'. rewrite Ha'.
      assert (Hsge : (s <? newID g) = false) by (apply Nat.ltb_ge; assumption).
      rewrite Hsge.
      assert (Hle : r a <= list_max (map r (nodes g))).
      { assert (HF : Forall (fun k => k <= list_max (map r (nodes g)))
                       (map r (nodes g))).
        { apply list_max_le. apply Nat.le_refl. }
        apply (proj1 (Forall_forall _ _) HF). apply in_map. assumption. }
      lia. }
  split; [assumption |]. apply DAGFacts.isDAG_of_acyclic; [assumption |].
  rewrite HE', NodeFacts.nodes_sigs, Hsigs, map_app. apply in_or_app. left.
  rewrite <- NodeFacts.nodes_sigs. exact HEn.
Qed.

Lemma connectContinueNode_makes_dag_witness :
  isDAG loopBody = Some false
  /\ exists g',
       connectContinueNode loopBody = Some g'
       /\ Acyclic g' /\ isDAG g' = Some true.
Proof.
  split; [vm_compute; reflexivity |].
  apply (connectContinueNode_makes_dag loopBody (fun n => n)).
  - distinct_ids.
  - exact loopBody_checks.
  - simpl. auto.
  - intros a s [b [Hb [Hid Hs]]] Hne. simpl in Hb, Hne.
    repeat (destruct Hb as [<- | Hb];
            [simpl in *; subst a; intuition lia |]).
    destruct Hb.
Defined.

End ContinueTheorems.

(** ** The virtual sink of [untangle] and [inflate] *)

Module SinkNodeFacts.
Import CFG Props GraphFacts NodeFacts PurgeFacts MoveFacts CombFacts.

(** After the loop over the exits every node has its own successors,
    followed by one edge to the sink for each time it is among the exits. *)
Lemma fold_addEdge_successors (Sink : NodeId) (ExitNodes : list NodeId) :
  forall g,
  Forall2 (fun b b' =>
             sig b' = sig b
             /\ Successors b'
                = Successors b
                  ++ repeat Sink (count_occ Nat.eq_dec ExitNodes (ID b)))
          (BlockNodes g)
          (BlockNodes (fold_left (fun acc Exit => addEdge acc (Exit, Sink))
                                 ExitNodes g)).
Proof.
  induction ExitNodes as [|x l IH]; intros g; cbn [fold_left].
  - rewrite <- (map_id (BlockNodes g)) at 2. apply Forall2_map_right.
    intros b Hb. simpl. rewrite app_nil_r. auto.
  - apply (Forall2_compose
             (fun b b' => sig b' = sig b
                /\ Successors b'
                   = Successors b ++ (if ID b =? x then [Sink] else []))
             (fun b b' => sig b' = sig b
                /\ Successors b'
                   = Successors b
                     ++ repeat Sink (count_occ Nat.eq_dec l (ID b)))
             _ (BlockNodes g) (BlockNodes (addEdge g (x, Sink))) _).
    + unfold addEdge. cbn [fst snd updateNode setBlockNodes BlockNodes].
      apply Forall2_map_right. intros b Hb.
      destruct (ID b =? x); simpl; [auto |]. rewrite app_nil_r. auto.
    + apply IH.
    + intros a b c Ha [Hs1 Hsucc1] [Hs2 Hsucc2].
      split; [congruence |]. rewrite Hsucc2, Hsucc1, <- app_assoc. f_equal.
      rewrite (ContinueFacts.sig_ID a b Hs1). simpl.
      destruct (Nat.eq_dec x (ID a)) as [E | E].
      * rewrite <- E, Nat.eqb_refl. reflexivity.
      * assert (Ex : (ID a =? x) = false) by (apply Nat.eqb_neq; congruence).
        rewrite Ex. reflexivity.
Qed.

Lemma successorCountIs_iff (k : nat) (g : RegionCFG) (n : NodeId) :
  In n (successorCountIs k g) <->
  exists b, In b (BlockNodes g) /\ ID b = n /\ successor_size b = k.
Proof.
  unfold successorCountIs. rewrite in_map_iff. split.
  - intros [b [Hid Hb]]. apply filter_In in Hb. destruct Hb as [Hb Hk].
    apply Nat.eqb_eq in Hk. eauto.
  - intros [b [Hb [Hid Hk]]]. exists b. split; [assumption |].
    apply filter_In. split; [assumption |]. apply Nat.eqb_eq. assumption.
Qed.

Lemma successorCountIs_NoDup (k : nat) (g : RegionCFG) :
  distinctIDs g -> NoDup (successorCountIs k g).
Proof.
  unfold distinctIDs, nodes, successorCountIs.
  induction (BlockNodes g) as [|b l IH]; intros H; simpl; [constructor |].
  inversion H as [|? ? Hn Hnd]; subst.
  destruct (successor_size b =? k); simpl; [| apply IH; assumption].
  constructor; [| apply IH; assumption].
  intros Hin. apply Hn. apply in_map_iff in Hin.
  destruct Hin as [c [Hc Hin]]. apply filter_In in Hin.
  apply in_map_iff. exists c. tauto.
Qed.

(** What adding the sink makes of the graph. *)
Lemma addSink_spec (g : RegionCFG) :
  distinctIDs g ->
  fst (addSink g (successorCountIs 0 g)) = newID g
  /\ sigs (snd (addSink g (successorCountIs 0 g)))
     = sigs g ++ [(newID g, Empty, 0%N, None)]
  /\ (forall a s,
        edge (snd (addSink g (successorCountIs 0 g))) a s <->
        edge g a s \/ (s = newID g /\ In a (successorCountIs 0 g)))
  /\ successorCountIs 0 (snd (addSink g (successorCountIs 0 g))) = [newID g]
  /\ distinctIDs (snd (addSink g (successorCountIs 0 g))).
Proof.
  intros Hd. set (ExitNodes := successorCountIs 0 g).
  unfold addSink, addArtificialNode. cbv beta iota zeta. cbn [fst snd].
  set (Sink := newID g).
  set (g1 := insertNode g (mkNode Sink Empty 0%N None [])).
  pose proof (fold_addEdge_successors Sink ExitNodes g1) as HF.
  set (g2 := fold_left (fun acc Exit => addEdge acc (Exit, Sink)) ExitNodes g1)
    in *.
  assert (Hsig : sigs g2 = sigs g ++ [(Sink, Empty, 0%N, None)]).
  { unfold g2. rewrite (sigs_fold_addEdge (fun Exit => (Exit, Sink))).
    unfold g1, sigs. simpl. rewrite map_app. reflexivity. }
  assert (Hexit : forall b, In b (BlockNodes g) ->
            count_occ Nat.eq_dec ExitNodes (ID b)
            = if successor_size b =? 0 then 1 else 0).
  { intros b Hb. destruct (successor_size b =? 0) eqn:E.
    - apply Nat.eqb_eq in E.
      assert (Hin : In (ID b) ExitNodes).
      { apply successorCountIs_iff. eauto. }
      pose proof (successorCountIs_NoDup 0 g Hd) as HN.
      pose proof (proj1 (NoDup_count_occ Nat.eq_dec ExitNodes) HN (ID b)).
      apply (count_occ_In Nat.eq_dec) in Hin. fold ExitNodes in H. lia.
    - apply Nat.eqb_neq in E. apply count_occ_not_In. intros Hin.
      apply successorCountIs_iff in Hin. destruct Hin as [c [Hc [Hid Hk]]].
      destruct (In_findNode g c Hc) as [y Hy].
      pose proof (findNode_unique g c y Hd Hc Hy) as ->.
      rewrite Hid in Hy.
      destruct (In_findNode g b Hb) as [z Hz].
      pose proof (findNode_unique g b z Hd Hb Hz) as ->.
      assert (b = c) by congruence. subst c. contradiction. }
  assert (Hsinkexit : ~ In Sink ExitNodes).
  { intros Hin. apply successorCountIs_iff in Hin.
    destruct Hin as [b [Hb [Hid _]]]. apply newID_gt_ID in Hb.
    unfold Sink in Hid. lia. }
  unfold g1 in HF. cbn [BlockNodes insertNode] in HF.
  apply Forall2_app_inv_l in HF.
  destruct HF as [olds [last [HF1 [HF2 HB]]]].
  inversion HF2 as [|x sk l0 l1 [Hsk1 Hsk2] Hnil]; subst.
  inversion Hnil; subst. clear HF2 Hnil.
  cbn [ID Successors] in Hsk2.
  rewrite (count_occ_not_In Nat.eq_dec ExitNodes Sink) in Hsinkexit.
  rewrite Hsinkexit in Hsk2. simpl in Hsk2.
  split; [reflexivity |]. split; [exact Hsig |]. split; [| split].
  - intros a s. unfold edge. rewrite HB. split.
    + intros [b' [Hb' [Hid Hs]]]. apply in_app_or in Hb'.
      destruct Hb' as [Hb' | [<- | []]]; [| rewrite Hsk2 in Hs; destruct Hs].
      destruct (Forall2_In_right _ _ _ b' HF1 Hb') as [b [Hb [Hs1 Hs2]]].
      rewrite Hs2 in Hs. apply in_app_or in Hs.
      pose proof (ContinueFacts.sig_ID b b' Hs1) as Hidb.
      destruct Hs as [Hs | Hs].
      * left. exists b. split; [assumption |]. split; [congruence | assumption].
      * right. apply repeat_spec in Hs as Hs'. split; [assumption |].
        apply (count_occ_In Nat.eq_dec). rewrite <- Hid, Hidb.
        destruct (count_occ Nat.eq_dec ExitNodes (ID b)); [destruct Hs | lia].
    + intros [[b [Hb [Hid Hs]]] | [-> Hin]].
      * destruct (Forall2_In_left _ _ _ b HF1 Hb) as [b' [Hb' [Hs1 Hs2]]].
        exists b'. split; [apply in_or_app; left; assumption |].
        split; [rewrite (ContinueFacts.sig_ID b b' Hs1); assumption |].
        rewrite Hs2. apply in_or_app. left. assumption.
      * apply successorCountIs_iff in Hin as Hin'.
        destruct Hin' as [b [Hb [Hid Hk]]].
        destruct (Forall2_In_left _ _ _ b HF1 Hb) as [b' [Hb' [Hs1 Hs2]]].
        exists b'. split; [apply in_or_app; left; assumption |].
        split; [rewrite (ContinueFacts.sig_ID b b' Hs1); assumption |].
        rewrite Hs2, (Hexit b Hb), Hk. simpl. apply in_or_app. right.
        left. reflexivity.
  - unfold successorCountIs. rewrite HB, filter_app, map_app.
    assert (Hnone : filter (fun b => successor_size b =? 0) olds = []).
    { clear HB. induction HF1 as [|b b' l l' [Hs1 Hs2] HF1 IH];
        [reflexivity |].
      simpl. rewrite IH.
      2:{ intros c Hc. apply Hexit. right. assumption. }
      unfold successor_size at 1. rewrite Hs2, length_app, repeat_length.
      rewrite (Hexit b (or_introl eq_refl)). unfold successor_size.
      destruct (length (Successors b)); reflexivity. }
    rewrite Hnone. simpl. unfold successor_size. rewrite Hsk2. simpl.
    unfold sig in Hsk1. simpl in Hsk1. inversion Hsk1. reflexivity.
  - apply (grows_addSink g ExitNodes). assumption.
Qed.

End SinkNodeFacts.

Module SinkNodeTheorems.
Import CFG Props Examples GraphFacts SinkNodeFacts.

(** X17.  The sink that [untangle] and [inflate] add is a new empty node;
    every node that had no successor gets one edge, to the sink, and no
    other edge changes; afterwards the sink is the only node without
    successors. *)
Theorem addSink_unique_exit (g : RegionCFG) :
  distinctIDs g ->
  fst (addSink g (successorCountIs 0 g)) = newID g
  /\ sigs (snd (addSink g (successorCountIs 0 g)))
     = sigs g ++ [(newID g, Empty, 0%N, None)]
  /\ (forall a s,
        edge (snd (addSink g (successorCountIs 0 g))) a s <->
        edge g a s \/ (s = newID g /\ In a (successorCountIs 0 g)))
  /\ successorCountIs 0 (snd (addSink g (successorCountIs 0 g))) = [newID g]
  /\ distinctIDs (snd (addSink g (successorCountIs 0 g))).
Proof. apply addSink_spec. Qed.

Lemma addSink_unique_exit_witness :
  addSink sinkJoin (successorCountIs 0 sinkJoin) = (4, sinkJoinSunk)
  /\ successorCountIs 0 (snd (addSink sinkJoin (successorCountIs 0 sinkJoin)))
     = [newID sinkJoin].
Proof.
  split; [vm_compute; reflexivity |].
  apply (addSink_unique_exit sinkJoin). distinct_ids.
Defined.

(** X18.  In a graph without cycles whose edges all lead to nodes of the
    graph, every node has a path to the sink once the sink is added. *)
Theorem addSink_all_reach_sink (g : RegionCFG) (a : NodeId) :
  distinctIDs g -> Acyclic g ->
  (forall x s, edge g x s -> In s (nodes g)) ->
  In a (nodes g) ->
  path (snd (addSink g (successorCountIs 0 g))) a (newID g).
Proof.
  intros Hd [r Hr] Hclosed.
  destruct (addSink_spec g Hd) as [_ [_ [Hedge _]]].
  set (g1 := snd (addSink g (successorCountIs 0 g))) in *.
  set (M := list_max (map r (nodes g))).
  assert (HM : forall x, In x (nodes g) -> r x <= M).
  { intros x Hx.
    assert (HF : Forall (fun k => k <= M) (map r (nodes g))).
    { apply list_max_le. apply Nat.le_refl. }
    apply (proj1 (Forall_forall _ _) HF). apply in_map. assumption. }
  assert (H : forall k x, In x (nodes g) -> M - r x < k ->
            path g1 x (newID g)).
  { induction k as [|k IH]; intros x Hx Hk; [lia |].
    unfold nodes in Hx. apply in_map_iff in Hx. destruct Hx as [b [Hid Hb]].
    destruct (Successors b) as [|s l] eqn:ES.
    - apply path_edge. apply Hedge. right. split; [reflexivity |].
      apply successorCountIs_iff. exists b. unfold successor_size.
      rewrite ES. auto.
    - assert (He : edge g x s).
      { exists b. rewrite ES. split; [assumption |].
        split; [assumption | left; reflexivity]. }
      pose proof (Hr x s He) as Hlt.
      pose proof (Hclosed x s He) as Hs.
      pose proof (HM s Hs) as HsM.
      apply (path_step g1 x s (newID g)).
      + apply Hedge. left. assumption.
      + apply IH; [assumption | lia]. }
  intros Ha. apply (H (S (M - r a)) a Ha). lia.
Qed.

Lemma addSink_all_reach_sink_witness :
  path (snd (addSink doubleDiamond (successorCountIs 0 doubleDiamond))) 0
       (newID doubleDiamond).
Proof.
  apply (addSink_all_reach_sink doubleDiamond 0).
  - distinct_ids.
  - exists (fun n => n). apply DAGFacts.respectsb_sound. vm_compute.
    reflexivity.
  - intros x s [b [Hb [Hid Hs]]]. simpl in Hb.
    repeat (destruct Hb as [<- | Hb]; [simpl in *; intuition lia |]).
    destruct Hb.
  - simpl. tauto.
Defined.

End SinkNodeTheorems.

(** ** What [untangle] returns *)

Module UntangleOutputTheorems.
Import CFG Props Examples GraphFacts NodeFacts PurgeFacts.

(** X19.  When [untangle] returns, [isDAG] has accepted its input, the sink
    it had added is no longer in the graph, the identities are still
    distinct, and a graph without cycles is still without cycles.  [isDAG]
    accepts such an output when its entry is still a node, which it is
    whenever the entry was not an empty node of the input.  When the entry
    has been removed with the sink (an empty entry from which only empty
    nodes lead to the sink), [isDAG] has no node to start from, and
    [inflate], which asserts [isDAG] right after [untangle], does not
    complete. *)
Theorem untangle_dag_without_sink {LLVM : Analyses} (fuel : nat)
  (g g' : RegionCFG) :
  distinctIDs g -> untangle fuel g = Some g' ->
  isDAG g = Some true
  /\ ~ In (newID g) (nodes g')
  /\ distinctIDs g'
  /\ (Acyclic g ->
      Acyclic g' /\ (In (EntryNode g') (nodes g') -> isDAG g' = Some true))
  /\ ((forall b, In b (BlockNodes g) -> ID b = EntryNode g ->
         isEmpty b = false) ->
      In (EntryNode g') (nodes g'))
  /\ (~ In (EntryNode g') (nodes g') ->
      isDAG g' = None /\ inflate fuel g = None).
Proof.
  intros Hd H. pose proof H as Hrun. unfold untangle in H.
  inv_bind H as d Hdag. inv_bind H as u Hu. apply assert_Some in Hu.
  subst d. split; [exact Hdag |].
  destruct (SinkNodeFacts.addSink_spec g Hd) as [HS [Hsig [_ [_ Hd1]]]].
  destruct (addSink g (successorCountIs 0 g)) as [Sink g1].
  cbn [fst snd] in HS, Hsig, Hd1. subst Sink.
  inv_bind H as PDM HPDM. inv_bind H as Ordered HO. inv_bind H as g2 Hg2.
  assert (Hgrow : grows g1 g2).
  { apply (PassFacts.untangleLoop_preserves (fun x => grows g1 x)
             (fun f DT x c ch pd s x' Hs Hx =>
                grows_trans g1 x x' Hx
                  (grows_splitPostDominator f DT x c ch pd s x' Hs))
             _ _ _ _ _ _ _ Hg2).
    apply grows_refl. }
  destruct Hgrow as [Hincl Hd2]. specialize (Hd2 Hd1).
  assert (Hsink : exists b, findNode g2 (newID g) = Some b /\ isEmpty b = true).
  { assert (Hin : In (newID g, Empty, 0%N, None) (sigs g2)).
    { apply Hincl. rewrite Hsig. apply in_or_app. right. left. reflexivity. }
    unfold sigs in Hin. apply in_map_iff in Hin. destruct Hin as [b [Hsb Hb]].
    assert (Hid : ID b = newID g) by (unfold sig in Hsb; congruence).
    destruct (In_findNode g2 b Hb) as [b' Hb'].
    pose proof (findNode_unique g2 b b' Hd2 Hb Hb') as ->.
    exists b. rewrite <- Hid. split; [assumption |].
    unfold isEmpty. unfold sig in Hsb. inversion Hsb as [[H1 H2 H3 H4]].
    rewrite H2. reflexivity. }
  destruct Hsink as [b [Hfind Hempty]].
  unfold purgeVirtualSink in H. inv_bind H as PL HPL.
  pose proof (SinkFacts.collectPurgeList_chains g2 (newID g) fuel PL HPL) as HC.
  destruct (RemovalFacts.removeNodes_spec PL g2 g' Hd2 H)
    as [_ [_ [Hd' [Hn _]]]].
  split; [| split; [assumption |]]; [| split; [| split]].
  - intros Hin. apply Hn in Hin. destruct Hin as [_ Hnot]. apply Hnot.
    apply HC. apply (emptyChain_sink g2 (newID g) b Hfind Hempty).
  - intros HA. pose proof (AcyclicFacts.untangle_acyclic fuel g g' Hrun HA).
    split; [assumption |].
    intros HE. apply DAGFacts.isDAG_of_acyclic; assumption.
  - intros Hne.
    destruct (DAGFacts.isDAG_Some g true Hdag) as [HE _].
    apply in_map_iff in HE. destruct HE as [e [Hid He]].
    assert (Hk : kept g g').
    { apply (untangle_kept fuel g g g' Hrun).
      split; [assumption |]. intros s Hs _. assumption. }
    destruct Hk as [_ Hk].
    rewrite (EntryFacts.untangle_entry fuel g g' Hrun), <- Hid.
    rewrite nodes_sigs. apply in_map_iff. exists (sig e).
    split; [reflexivity |]. apply Hk; [apply in_map; assumption |].
    rewrite sigEmpty_sig. apply (Hne e He Hid).
  - intros HE. apply DAGFacts.isDAG_None in HE. split; [exact HE |].
    unfold inflate. rewrite Hrun. cbn [bind]. rewrite HE. reflexivity.
Qed.

Lemma untangle_dag_without_sink_witness :
  @untangle Reference.analyses 50 skewed = Some skewedUntangled
  /\ isDAG skewed = Some true
  /\ ~ In (newID skewed) (nodes skewedUntangled)
  /\ distinctIDs skewedUntangled
  /\ isDAG skewedUntangled = Some true.
Proof.
  assert (H : @untangle Reference.analyses 50 skewed = Some skewedUntangled).
  { vm_compute. reflexivity. }
  split; [exact H |].
  destruct (@untangle_dag_without_sink Reference.analyses 50 skewed
              skewedUntangled) as [H1 [H2 [H3 [H4 _]]]].
  - distinct_ids.
  - exact H.
  - split; [exact H1 |]. split; [exact H2 |]. split; [exact H3 |].
    apply H4.
    + exists (fun x => x). apply DAGFacts.respectsb_sound. reflexivity.
    + simpl. auto.
Defined.

(** The graph of one empty node: [untangle] removes the entry with the
    sink, and the assertion of [inflate] has no entry to read. *)
Example untangle_removes_empty_entry :
  @untangle Reference.analyses 50 loneDummy = Some loneDummyUntangled
  /\ ~ In (EntryNode loneDummyUntangled) (nodes loneDummyUntangled)
  /\ isDAG loneDummyUntangled = None
  /\ @inflate Reference.analyses 50 loneDummy = None.
Proof.
  split; [vm_compute; reflexivity |]. split; [simpl; tauto |].
  split; vm_compute; reflexivity.
Qed.

End UntangleOutputTheorems.

(** ** The branch of [inflate] that duplicates the candidate *)

Module DuplicateFacts.
Import CFG Props GraphFacts NodeFacts PurgeFacts MoveFacts CombFacts.

(** Before the predecessors are looked at, the graph is the old one with
    the duplicate at its end, and the duplicate has the successors of the
    candidate, in their order. *)
Lemma fold_addEdge_last (l : list NodeId) :
  forall (g : RegionCFG) (old : list BasicBlockNode) (d : BasicBlockNode),
  BlockNodes g = old ++ [d] ->
  (forall b, In b old -> ID b <> ID d) ->
  fold_left (fun acc Successor => addEdge acc (ID d, Successor)) l g
  = setBlockNodes g (old ++ [setSuccessors d (Successors d ++ l)]).
Proof.
  induction l as [|s l IH]; intros g old d HB Hold; cbn [fold_left].
  - rewrite app_nil_r. destruct g as [bn e c]. simpl in *. subst bn.
    destruct d. reflexivity.
  - assert (HB1 : BlockNodes (addEdge g (ID d, s))
                  = old ++ [addSuccessor d s]).
    { unfold addEdge. cbn [fst snd updateNode setBlockNodes BlockNodes].
      rewrite HB, map_app. simpl. rewrite Nat.eqb_refl. f_equal.
      rewrite <- (map_id old) at 2. apply map_ext_in. intros b Hb.
      destruct (ID b =? ID d) eqn:E; [| reflexivity].
      apply Nat.eqb_eq in E. exfalso. apply (Hold b Hb). assumption. }
    pose proof (IH (addEdge g (ID d, s)) old (addSuccessor d s) HB1 Hold)
      as HI.
    change (ID (addSuccessor d s)) with (ID d) in HI. rewrite HI.
    unfold setBlockNodes. simpl. rewrite <- app_assoc. reflexivity.
Qed.

Lemma moveEdges_untouched (T N : NodeId) (sel : NodeId -> bool)
  (l : list NodeId) :
  forall g g' b, moveEdges g l T N sel = Some g' ->
  In b (BlockNodes g) -> ~ In (ID b) l -> In b (BlockNodes g').
Proof.
  induction l as [|p l IH]; intros g g' b H Hb Hn; cbn [moveEdges] in H.
  - inversion H; subst. assumption.
  - assert (Hp : ID b <> p) by (intros E; apply Hn; left; auto).
    assert (Hl : ~ In (ID b) l) by (intros E; apply Hn; right; auto).
    destruct (sel p).
    + inv_bind H as g1 Hg1. apply (IH g1 g' b H); [| assumption].
      apply moveEdgeTarget_inv in Hg1.
      destruct Hg1 as [x [l' [_ [-> _]]]]. simpl.
      apply in_map_iff. exists b. split; [| assumption].
      apply Nat.eqb_neq in Hp. rewrite Hp. reflexivity.
    + apply (IH g g' b H); assumption.
Qed.

End DuplicateFacts.

Module DuplicateTheorems.
Import CFG Props Examples GraphFacts NodeFacts PurgeFacts MoveFacts CombFacts.
Import DuplicateFacts.

(** X20.  The branch "Duplicate node" of [inflate], for a candidate that is
    in the graph, is in [CloneToOriginalMap] and is not its own successor:
    it adds one node, a copy of the candidate with the successors of the
    candidate in the same order; the edges that enter the candidate from
    the predecessors not yet visited now enter the copy, and no other edge
    changes; the copy joins the class of the candidate's original, and it
    becomes a conditional to process with the candidate's postdominator
    exactly when the candidate is a conditional. *)
Theorem duplicateNode_splits_predecessors (Candidate OriginalNode_ : NodeId)
  (st : CombState) (c : BasicBlockNode) :
  distinctIDs (Graph st) -> checksComplete (Graph st) ->
  findNode (Graph st) Candidate = Some c ->
  ~ In Candidate (Successors c) ->
  lookup (CloneToOriginalMap st) Candidate = Some OriginalNode_ ->
  exists st',
    duplicateNode Candidate st = Some st'
    /\ sigs (Graph st')
       = sigs (Graph st)
         ++ [(newID (Graph st), NodeType c, Weight c, OriginalNode c)]
    /\ findNode (Graph st') (newID (Graph st))
       = Some (mkNode (newID (Graph st)) (NodeType c) (Weight c)
                 (OriginalNode c) (Successors c))
    /\ (forall a s, edge (Graph st') a s <->
          (a = newID (Graph st) /\ In s (Successors c))
          \/ (edge (Graph st) a s
              /\ ~ (s = Candidate /\ ~ In a (Visited st)))
          \/ (s = newID (Graph st) /\ edge (Graph st) a Candidate
              /\ ~ In a (Visited st)))
    /\ lookup (CloneToOriginalMap st') (newID (Graph st)) = Some OriginalNode_
    /\ In (newID (Graph st)) (equivalenceClass st' (Some OriginalNode_))
    /\ WorkList st' = WorkList st /\ Visited st' = Visited st
    /\ (In Candidate (ConditionalNodesComplete st) ->
          ConditionalNodes st' = newID (Graph st) :: ConditionalNodes st
          /\ In (newID (Graph st)) (ConditionalNodesComplete st')
          /\ forall p, lookup (PostDominatorMap st) Candidate = Some p ->
               lookup (PostDominatorMap st') (newID (Graph st)) = Some p)
    /\ (~ In Candidate (ConditionalNodesComplete st) ->
          ConditionalNodes st' = ConditionalNodes st
          /\ ConditionalNodesComplete st' = ConditionalNodesComplete st
          /\ PostDominatorMap st' = PostDominatorMap st).
Proof.
  intros Hd Hck Hc Hself HO.
  set (g := Graph st) in *. set (D := newID g).
  pose proof (findNode_In g Candidate c Hc) as [Hcin Hcid].
  assert (HCin : In Candidate (nodes g)).
  { rewrite <- Hcid. apply in_map. assumption. }
  set (d0 := mkNode D (NodeType c) (Weight c) (OriginalNode c) []).
  set (d := mkNode D (NodeType c) (Weight c) (OriginalNode c) (Successors c)).
  set (g1 := insertNode g d0).
  set (g2 := insertNode g d).
  assert (Hold : forall b, In b (BlockNodes g) -> ID b <> D).
  { intros b Hb. apply newID_gt_ID in Hb. unfold D. lia. }
  (* the copy with its successors *)
  assert (Hg2 : (if isCheck c then
                   do TrueSuccessor <- getTrue c;
                   do FalseSuccessor <- getFalse c;
                   Some (updateNode g1 D
                           (fun b => setSuccessors b
                                       [TrueSuccessor; FalseSuccessor]))
                 else
                   Some (fold_left
                           (fun acc Successor => addEdge acc (D, Successor))
                           (Successors c) g1)) = Some g2).
  { destruct (isCheck c) eqn:EC.
    - pose proof (Hck c Hcin EC) as H2. unfold successor_size in H2.
      unfold getTrue, getFalse.
      destruct (Successors c) as [|t [|f [|? ?]]] eqn:ES; try discriminate.
      cbn [bind]. f_equal. unfold g2, g1, d, d0, updateNode, insertNode,
        setBlockNodes. simpl. rewrite map_app. simpl.
      rewrite Nat.eqb_refl. f_equal. f_equal.
      rewrite <- (map_id (BlockNodes g)) at 2. apply map_ext_in.
      intros b Hb. destruct (ID b =? D) eqn:E; [| reflexivity].
      apply Nat.eqb_eq in E. exfalso. apply (Hold b Hb). assumption.
    - f_equal.
      pose proof (fold_addEdge_last (Successors c) g1 (BlockNodes g) d0
                    eq_refl Hold) as HI.
      change (ID d0) with D in HI. rewrite HI. reflexivity. }
  assert (Hd2 : distinctIDs g2).
  { apply (grows_insertNode g d); [reflexivity | assumption]. }
  assert (Hck2 : checksComplete g2).
  { intros b Hb Hcb. unfold g2 in Hb. simpl in Hb. apply in_app_or in Hb.
    destruct Hb as [Hb | [<- | []]]; [apply Hck; assumption |].
    unfold successor_size. simpl. apply (Hck c Hcin). exact Hcb. }
  assert (Hne : Candidate <> D).
  { pose proof (newID_gt_ID g c Hcin). unfold D. lia. }
  assert (Hedge2 : forall a s, edge g2 a s <->
            edge g a s \/ (a = D /\ In s (Successors c))).
  { intros a s. split; [apply (AcyclicFacts.edge_insertNode g d a s) |].
    intros [[b [Hb [Hid Hs]]] | [-> Hs]].
    - exists b. split; [unfold g2; simpl; apply in_or_app; auto | auto].
    - exists d. split; [unfold g2; simpl; apply in_or_app; right; left;
                        reflexivity | auto]. }
  destruct (moveEdges_succeeds Candidate D
              (fun Predecessor => negb (nodeVisited Predecessor (Visited st)))
              (predecessors g2 Candidate) Hne g2 Hd2 Hck2) as [g3 Hg3].
  { intros p Hp. apply predecessors_edge in Hp.
    destruct Hp as [b [Hb [Hidb _]]]. subst p. apply in_map. assumption. }
  { intros b Hb. rewrite (count_predecessors g2 Candidate b Hd2 Hb). lia. }
  assert (Hf1 : findNode g1 Candidate = Some c).
  { unfold g1. rewrite (findNode_insertNode g d0 Candidate HCin). exact Hc. }
  assert (Hrun : exists st', duplicateNode Candidate st = Some st'
            /\ Graph st' = g3
            /\ CloneToOriginalMap st' = (D, OriginalNode_) :: CloneToOriginalMap st
            /\ NodesEquivalenceClass st'
               = (OriginalNode_,
                  setInsert D (equivalenceClass st (Some OriginalNode_)))
                 :: NodesEquivalenceClass st
            /\ WorkList st' = WorkList st /\ Visited st' = Visited st
            /\ ConditionalNodes st'
               = (if memb Candidate (ConditionalNodesComplete st)
                  then D :: ConditionalNodes st else ConditionalNodes st)
            /\ ConditionalNodesComplete st'
               = (if memb Candidate (ConditionalNodesComplete st)
                  then setInsert D (ConditionalNodesComplete st)
                  else ConditionalNodesComplete st)
            /\ PostDominatorMap st'
               = (if memb Candidate (ConditionalNodesComplete st) then
                    match lookup (PostDominatorMap st) Candidate with
                    | Some p => (D, p) :: PostDominatorMap st
                    | None => PostDominatorMap st
                    end
                  else PostDominatorMap st)).
  { unfold duplicateNode, cloneNode. fold g. rewrite Hc. cbn [bind].
    fold D. fold d0. fold g1. rewrite HO. cbn [bind]. rewrite Hf1.
    cbn [bind]. rewrite Hg2. cbn [bind]. rewrite Hg3. cbn [bind].
    eexists. split; [reflexivity |]. cbn.
    repeat split; reflexivity. }
  destruct Hrun as [st' [Hdup [HG [HCM [HEC [HW [HV [HCN [HCC HPM]]]]]]]]].
  exists st'. split; [exact Hdup |]. rewrite HG.
  pose proof (sigs_moveEdges _ _ _ _ g2 g3 Hg3) as Hs3.
  split; [| split; [| split; [| split; [| split; [| split; [| split;
    [| split]]]]]]].
  - rewrite Hs3. unfold g2, sigs. simpl. rewrite map_app. reflexivity.
  - assert (Hin : In d (BlockNodes g3)).
    { apply (moveEdges_untouched _ _ _ _ g2 g3 d Hg3).
      - unfold g2. simpl. apply in_or_app. right. left. reflexivity.
      - intros Hp. apply predecessors_edge in Hp. apply Hedge2 in Hp.
        destruct Hp as [Hp | [_ Hp]]; [| contradiction].
        apply edge_below_newID in Hp. simpl in Hp. fold g in Hp. fold D in Hp.
        lia. }
    assert (Hd3 : distinctIDs g3).
    { apply (distinctIDs_same_sigs g2 g3 Hs3 Hd2). }
    destruct (In_findNode g3 d Hin) as [x Hx].
    rewrite (findNode_unique g3 d x Hd3 Hin Hx) in Hx. exact Hx.
  - intros a s.
    rewrite (moveEdges_edges g2 g3 Candidate D _ Hd2 Hne Hg3 a s).
    rewrite !Hedge2. unfold nodeVisited.
    rewrite negb_true_iff, <- not_true_iff_false, memb_In.
    split.
    + intros [[[He | [Ha Hs]] Hnot] | [Hs [[He | [Ha HC]] Hv]]].
      * right. left. tauto.
      * left. auto.
      * right. right. auto.
      * contradiction.
    + intros [[Ha Hs] | [[He Hnot] | [Hs [He Hv]]]].
      * left. split; [right; auto |]. intros [-> _]. contradiction.
      * left. split; [left; assumption | assumption].
      * right. auto.
  - rewrite HCM. unfold lookup. simpl. rewrite Nat.eqb_refl. reflexivity.
  - unfold equivalenceClass. rewrite HEC. unfold lookup. simpl.
    rewrite Nat.eqb_refl. simpl. apply In_setInsert. left. reflexivity.
  - exact HW.
  - exact HV.
  - intros Hin. apply memb_In in Hin. rewrite Hin in HCN, HCC, HPM.
    split; [exact HCN |]. split.
    + rewrite HCC. apply In_setInsert. left. reflexivity.
    + intros p Hp. rewrite HPM, Hp. unfold lookup. simpl.
      rewrite Nat.eqb_refl. reflexivity.
  - intros Hin.
    assert (Hm : memb Candidate (ConditionalNodesComplete st) = false).
    { apply not_true_iff_false. intros Hm. apply Hin. apply memb_In.
      assumption. }
    rewrite Hm in HCN, HCC, HPM. auto.
Qed.

Lemma duplicateNode_splits_predecessors_witness :
  exists st',
    duplicateNode 2 sinkJoinState = Some st'
    /\ sigs (Graph st') = sigs sinkJoinSunk ++ [(5, Code, 5%N, Some 2)]
    /\ findNode (Graph st') 5 = Some (mkNode 5 Code 5 (Some 2) [4]).
Proof.
  destruct (duplicateNode_splits_predecessors 2 2 sinkJoinState
              (block 2 5 [4])) as [st' [H1 [H2 [H3 _]]]].
  - distinct_ids.
  - intros b Hb Hc. simpl in Hb.
    repeat (destruct Hb as [<- | Hb]; [discriminate |]). destruct Hb.
  - reflexivity.
  - simpl. intuition discriminate.
  - reflexivity.
  - exists st'. auto.
Defined.

End DuplicateTheorems.

(** ** The AST node that [generateAst] builds for a graph node *)

Module BuilderTheorems.
Import AST CFG Builder.

(** X21.  The AST node that [generateAst] builds for a graph node leads to
    the AST nodes of the children in the dominator tree and, for a collapsed
    node, to the body: to each of them once and to nothing else. *)
Theorem buildASTNode_keeps_children (Node : BasicBlockNode)
  (Body : option ASTNode) (Children : list (NodeId * option ASTNode))
  (r : ASTNode) :
  buildASTNode Node Body Children = Some (Some r) ->
  Permutation (childLinks r)
    ((if isCollapsed Node then present Body else [])
     ++ flat_map (fun c => present (snd c)) Children).
Proof.
  unfold buildASTNode. intros H.
  destruct (isCollapsed Node).
  - inv_bind H as u Hu.
    destruct Children as [|[b0 a0] [|c1 l]]; try discriminate;
      inversion H; subst; simpl; rewrite ?app_nil_r; apply Permutation_refl.
  - inv_bind H as u Hu.
    destruct Children as [|[b0 a0] [|[b1 a1] [|[b2 a2] [|c3 l]]]];
      try discriminate.
    + destruct (isBreak Node); [inversion H; subst; constructor |].
      destruct (isContinue Node); [inversion H; subst; constructor |].
      destruct (isSet Node); [inversion H; subst; constructor |].
      destruct (CFG.isEmpty Node || isCode Node); [| discriminate].
      inversion H; subst. constructor.
    + inv_bind H as v Hv.
      destruct (isSet Node);
        [inversion H; subst; simpl; rewrite app_nil_r; apply Permutation_refl |].
      destruct (CFG.isCheck Node).
      * inv_bind H as t Ht. inv_bind H as f Hf.
        destruct (b0 =? t);
          [inversion H; subst; simpl; apply Permutation_refl |].
        destruct (b0 =? f); [| discriminate].
        inversion H; subst. simpl. apply Permutation_refl.
      * inversion H; subst. simpl. rewrite app_nil_r. apply Permutation_refl.
    + inv_bind H as v Hv. destruct (CFG.isCheck Node).
      * inv_bind H as t Ht. inv_bind H as f Hf.
        destruct ((b0 =? t) && (b1 =? f));
          [inversion H; subst; simpl; rewrite !app_nil_r;
           apply Permutation_refl |].
        destruct ((b1 =? t) && (b0 =? f)); [| discriminate].
        inversion H; subst. simpl. rewrite !app_nil_r.
        apply Permutation_app_comm.
      * inversion H; subst. simpl. rewrite !app_nil_r. apply Permutation_refl.
    + inv_bind H as v Hv.
      assert (Hswap : forall x y z : list ASTNode,
                Permutation (x ++ y ++ z) (x ++ z ++ y)).
      { intros x y z. apply Permutation_app_head, Permutation_app_comm. }
      assert (Hrev : forall x y z : list ASTNode,
                Permutation (z ++ x ++ y) (x ++ y ++ z)).
      { intros x y z. rewrite (app_assoc x y z). apply Permutation_app_comm. }
      destruct (CFG.isCheck Node).
      * inv_bind H as t Ht. inv_bind H as f Hf.
        destruct ((b0 =? t) && (b2 =? f));
          [inversion H; subst; simpl; rewrite !app_nil_r; apply Hswap |].
        destruct ((b2 =? t) && (b0 =? f)); [| discriminate].
        inversion H; subst. simpl. rewrite !app_nil_r.
        eapply Permutation_trans; [apply Hrev | apply Permutation_refl].
      * inversion H; subst. simpl. rewrite !app_nil_r. apply Hswap.
Qed.

Lemma buildASTNode_keeps_children_witness :
  buildASTNode checkNode None
    [(2, Some (leaf 2)); (3, Some (leaf 3)); (1, Some (leaf 1))]
  = Some (Some (IfNode 0 true (Some (leaf 1)) (Some (leaf 2)) (Some (leaf 3))))
  /\ Permutation [leaf 1; leaf 2; leaf 3] [leaf 2; leaf 3; leaf 1].
Proof.
  split; [reflexivity |].
  apply (buildASTNode_keeps_children checkNode None
           [(2, Some (leaf 2)); (3, Some (leaf 3)); (1, Some (leaf 1))]
           (IfNode 0 true (Some (leaf 1)) (Some (leaf 2)) (Some (leaf 3)))).
  reflexivity.
Defined.

(** X22.  For a [Check] node [generateAst] builds an [IfCheck] node whose
    then branch is the AST node of the child that is the true successor and
    whose else branch is that of the child that is the false successor, in
    whichever order the dominator tree lists the children; with one child
    the other branch and the follow node are null. *)
Theorem buildASTNode_check_branches (Node : BasicBlockNode)
  (Body : option ASTNode) (Children : list (NodeId * option ASTNode))
  (r : ASTNode) (t f : NodeId) :
  CFG.isCheck Node = true -> getTrue Node = Some t -> getFalse Node = Some f ->
  buildASTNode Node Body Children = Some (Some r) ->
  exists T E S,
    r = IfNode (ID Node) true T E S
    /\ ((2 <= length Children /\ In (t, T) Children /\ In (f, E) Children)
        \/ (Children = [(t, T)] /\ E = None /\ S = None)
        \/ (Children = [(f, E)] /\ T = None /\ S = None)).
Proof.
  intros Hc Ht Hf H. unfold buildASTNode in H.
  assert (Hkind : isCollapsed Node = false /\ isBreak Node = false
                  /\ isContinue Node = false /\ isSet Node = false
                  /\ CFG.isEmpty Node = false /\ isCode Node = false).
  { unfold CFG.isCheck, isCollapsed, isBreak, isContinue, isSet, CFG.isEmpty,
      isCode in *. destruct (NodeType Node); try discriminate.
    repeat split; reflexivity. }
  destruct Hkind as [K1 [K2 [K3 [K4 [K5 K6]]]]].
  rewrite K1, Hc, Ht, Hf, K2, K3, K4, K5, K6 in H. cbn [bind] in H.
  inv_bind H as u Hu.
  destruct Children as [|[b0 a0] [|[b1 a1] [|[b2 a2] [|c3 l]]]];
    try discriminate.
  - cbn [negb andb assert bind] in H.
    destruct (b0 =? t) eqn:E0.
    + apply Nat.eqb_eq in E0. inversion H; subst.
      exists a0, None, None. split; [reflexivity |]. right. left. auto.
    + destruct (b0 =? f) eqn:E1; [| discriminate].
      apply Nat.eqb_eq in E1. inversion H; subst.
      exists None, a0, None. split; [reflexivity |]. right. right. auto.
  - cbn [negb andb assert bind] in H.
    destruct ((b0 =? t) && (b1 =? f)) eqn:E0.
    + apply andb_true_iff in E0. destruct E0 as [E0 E1].
      apply Nat.eqb_eq in E0. apply Nat.eqb_eq in E1. inversion H; subst.
      exists a0, a1, None. split; [reflexivity |]. left. simpl.
      split; [lia | tauto].
    + destruct ((b1 =? t) && (b0 =? f)) eqn:E1; [| discriminate].
      apply andb_true_iff in E1. destruct E1 as [E1 E2].
      apply Nat.eqb_eq in E1. apply Nat.eqb_eq in E2. inversion H; subst.
      exists a1, a0, None. split; [reflexivity |]. left. simpl.
      split; [lia | tauto].
  - cbn [negb andb assert bind] in H.
    destruct ((b0 =? t) && (b2 =? f)) eqn:E0.
    + apply andb_true_iff in E0. destruct E0 as [E0 E1].
      apply Nat.eqb_eq in E0. apply Nat.eqb_eq in E1. inversion H; subst.
      exists a0, a2, a1. split; [reflexivity |]. left. simpl.
      split; [lia | tauto].
    + destruct ((b2 =? t) && (b0 =? f)) eqn:E1; [| discriminate].
      apply andb_true_iff in E1. destruct E1 as [E1 E2].
      apply Nat.eqb_eq in E1. apply Nat.eqb_eq in E2. inversion H; subst.
      exists a2, a0, a1. split; [reflexivity |]. left. simpl.
      split; [lia | tauto].
Qed.

Lemma buildASTNode_check_branches_witness :
  exists T E S,
    IfNode 0 true (Some (leaf 1)) (Some (leaf 2)) (Some (leaf 3))
    = IfNode (ID checkNode) true T E S
    /\ ((2 <= length [(2, Some (leaf 2)); (3, Some (leaf 3));
                      (1, Some (leaf 1))]
         /\ In (1, T) [(2, Some (leaf 2)); (3, Some (leaf 3));
                       (1, Some (leaf 1))]
         /\ In (2, E) [(2, Some (leaf 2)); (3, Some (leaf 3));
                       (1, Some (leaf 1))])
        \/ ([(2, Some (leaf 2)); (3, Some (leaf 3)); (1, Some (leaf 1))]
            = [(1, T)] /\ E = None /\ S = None)
        \/ ([(2, Some (leaf 2)); (3, Some (leaf 3)); (1, Some (leaf 1))]
            = [(2, E)] /\ T = None /\ S = None)).
Proof.
  apply (buildASTNode_check_branches checkNode None
           [(2, Some (leaf 2)); (3, Some (leaf 3)); (1, Some (leaf 1))]
           (IfNode 0 true (Some (leaf 1)) (Some (leaf 2)) (Some (leaf 3)))
           1 2); reflexivity.
Defined.

End BuilderTheorems.

(** ** [isDAG] and the cycles that the entry reaches *)

Module SearchFacts.
Import CFG Props GraphFacts PurgeFacts DAGFacts.

Lemma unexpanded_nil (g : RegionCFG) :
  unexpanded (BlockNodes g) [] = edgeCount g.
Proof. reflexivity. Qed.

Lemma unexpanded_absent (l : list BasicBlockNode) (n : NodeId)
  (seen : list NodeId) :
  ~ In n (map ID l) -> unexpanded l (n :: seen) = unexpanded l seen.
Proof.
  induction l as [|b l IH]; intros Hn; [reflexivity |].
  cbn [unexpanded fold_right]. fold (unexpanded l (n :: seen)).
  fold (unexpanded l seen). rewrite IH.
  2:{ intros H. apply Hn. right. assumption. }
  cbn [memb existsb].
  assert (E : (ID b =? n) = false).
  { apply Nat.eqb_neq. intros E. apply Hn. left. assumption. }
  rewrite E. reflexivity.
Qed.

Lemma unexpanded_step (l : list BasicBlockNode) (n : NodeId)
  (seen : list NodeId) :
  NoDup (map ID l) -> memb n seen = false ->
  unexpanded l (n :: seen)
  + length (match find (fun b => ID b =? n) l with
            | Some b => Successors b
            | None => []
            end)
  = unexpanded l seen.
Proof.
  intros Hnd Hseen. induction l as [|b l IH]; [reflexivity |].
  simpl in Hnd. inversion Hnd as [|? ? Hn Hnd']; subst.
  cbn [unexpanded fold_right find]. fold (unexpanded l (n :: seen)).
  fold (unexpanded l seen). cbn [memb existsb].
  destruct (ID b =? n) eqn:E.
  - apply Nat.eqb_eq in E. rewrite E in *. fold (memb n seen).
    rewrite Hseen, (unexpanded_absent l n seen Hn). simpl. lia.
  - cbn [orb]. fold (memb (ID b) seen). specialize (IH Hnd'). lia.
Qed.

(** With enough fuel the search ends with a set that holds the stack and
    what was seen, and that the successors of the new nodes do not leave. *)
Lemma dfs_closed (g : RegionCFG) :
  distinctIDs g ->
  forall fuel stack seen,
  length stack + unexpanded (BlockNodes g) seen <= fuel ->
  incl seen (dfs g fuel stack seen)
  /\ incl stack (dfs g fuel stack seen)
  /\ forall v, In v (dfs g fuel stack seen) -> ~ In v seen ->
       forall s, In s (successorsOf g v) -> In s (dfs g fuel stack seen).
Proof.
  intros Hd. induction fuel as [|k IH]; intros stack seen Hfuel.
  - destruct stack as [|n rest]; [| simpl in Hfuel; lia]. simpl.
    split; [apply incl_refl |]. split; [intros x [] |].
    intros v Hv Hnv. contradiction.
  - destruct stack as [|n rest].
    + simpl. split; [apply incl_refl |]. split; [intros x [] |].
      intros v Hv Hnv. contradiction.
    + cbn [dfs]. destruct (memb n seen) eqn:E.
      * destruct (IH rest seen) as [H1 [H2 H3]]; [simpl in Hfuel; lia |].
        split; [assumption |]. split; [| assumption].
        intros x [<- | Hx]; [| apply H2; assumption].
        apply H1. apply memb_In. assumption.
      * pose proof (unexpanded_step (BlockNodes g) n seen Hd E) as Hstep.
        fold (findNode g n) in Hstep. fold (successorsOf g n) in Hstep.
        destruct (IH (successorsOf g n ++ rest) (n :: seen))
          as [H1 [H2 H3]].
        { rewrite length_app. simpl in Hfuel. lia. }
        split; [intros x Hx; apply H1; right; assumption |].
        split.
        -- intros x [<- | Hx]; [apply H1; left; reflexivity |].
           apply H2. apply in_or_app. right. assumption.
        -- intros v Hv Hnv s Hs. destruct (Nat.eq_dec v n) as [-> | Hne].
           ++ apply H2. apply in_or_app. left. assumption.
           ++ apply (H3 v Hv); [| assumption].
              intros [Hc | Hc]; [congruence | contradiction].
Qed.

Lemma successorsOf_edge (g : RegionCFG) (a s : NodeId) :
  distinctIDs g -> edge g a s -> In s (successorsOf g a).
Proof.
  intros Hd [b [Hb [Hid Hs]]]. unfold successorsOf.
  destruct (In_findNode g b Hb) as [b' Hb'].
  pose proof (findNode_unique g b b' Hd Hb Hb') as ->.
  rewrite <- Hid, Hb'. assumption.
Qed.

Lemma reachable_complete (g : RegionCFG) (n x : NodeId) :
  distinctIDs g -> path g n x -> In x (reachable g n).
Proof.
  intros Hd Hp. unfold reachable.
  destruct (dfs_closed g Hd (S (edgeCount g)) [n] []) as [_ [H2 H3]].
  { rewrite unexpanded_nil. simpl. lia. }
  set (res := dfs g (S (edgeCount g)) [n] []) in *.
  assert (Hclosed : forall v s, In v res -> edge g v s -> In s res).
  { intros v s Hv He. apply (H3 v Hv); [intros [] |].
    apply successorsOf_edge; assumption. }
  assert (Hn : In n res).
  { apply H2. left. reflexivity. }
  clear H2 H3. clearbody res. revert Hn.
  induction Hp as [a s He | a m s He Hp IH]; intros Ha.
  - apply (Hclosed a s Ha He).
  - apply IH. apply (Hclosed a m Ha He).
Qed.

Lemma path_trans (g : RegionCFG) (a b c : NodeId) :
  path g a b -> path g b c -> path g a c.
Proof.
  intros H1 H2. induction H1 as [a s He | a m s He Hp IH].
  - eapply path_step; eassumption.
  - eapply path_step; [eassumption | apply IH; assumption].
Qed.

Lemma reaches_path (g : RegionCFG) (a b c : NodeId) :
  reaches g a b -> path g b c -> path g a c.
Proof.
  intros [<- | H1] H2; [assumption | eapply path_trans; eassumption].
Qed.

Lemma reaches_reachable (g : RegionCFG) (n x : NodeId) :
  distinctIDs g -> (reaches g n x <-> In x (reachable g n)).
Proof.
  intros Hd. split.
  - intros [<- | Hp]; [apply reachable_self | apply reachable_complete];
      assumption.
  - intros H. apply reachable_sound in H. destruct H as [-> | H];
      [left; reflexivity | right; assumption].
Qed.

Lemma filter_length_two (f : NodeId -> bool) (l : list NodeId)
  (x y : NodeId) :
  x <> y -> In x l -> In y l -> f x = true -> f y = true ->
  2 <= length (filter f l).
Proof.
  intros Hne Hx Hy Hfx Hfy.
  assert (Hx' : In x (filter f l)) by (apply filter_In; auto).
  assert (Hy' : In y (filter f l)) by (apply filter_In; auto).
  destruct (filter f l) as [|a [|b r]]; simpl in *; [tauto | | lia].
  destruct Hx' as [<- | []]. destruct Hy' as [Hy' | []]. congruence.
Qed.

End SearchFacts.

Module DAGTheorems.
Import CFG Props Examples GraphFacts DAGFacts SearchFacts.

(** X24.  [isDAG] answers true exactly when its entry is a node of the graph
    and no node that the entry reaches, the entry included, lies on a
    cycle; a cycle that the entry does not reach is not looked at. *)
Theorem isDAG_iff_no_reachable_cycle (g : RegionCFG) :
  distinctIDs g ->
  (isDAG g = Some true <->
   In (EntryNode g) (nodes g)
   /\ forall x, reaches g (EntryNode g) x -> ~ path g x x).
Proof.
  intros Hd.
  enough (Hcore : FoundSCC g = false <->
                  forall x, reaches g (EntryNode g) x -> ~ path g x x).
  { split.
    - intros H. apply isDAG_Some in H. destruct H as [HE Hneg].
      split; [exact HE |]. apply Hcore.
      destruct (FoundSCC g); [discriminate | reflexivity].
    - intros [HE H]. rewrite (isDAG_entry g HE). apply Hcore in H.
      rewrite H. reflexivity. }
  unfold FoundSCC.
  set (R := reachable g (EntryNode g)).
  assert (HR : forall x, In x R <-> reaches g (EntryNode g) x).
  { intros x. symmetry. apply reaches_reachable. assumption. }
  assert (HND : NoDup R) by (apply dfs_NoDup; constructor).
  split.
  - intros H x Hx Hcyc.
    assert (Hfalse : existsb (fun Node =>
                        negb (length (sccOf g R Node) =? 1)
                        || memb Node (successorsOf g Node)) R = true);
      [| congruence].
    apply existsb_exists. exists x. split; [apply HR; assumption |].
    inversion Hcyc as [a s He | a m s He Hp]; subst.
    + apply orb_true_iff. right. apply memb_In.
      apply successorsOf_edge; assumption.
    + destruct (Nat.eq_dec m x) as [-> | Hne].
      * apply orb_true_iff. right. apply memb_In.
        apply successorsOf_edge; assumption.
      * apply orb_true_iff. left. apply negb_true_iff, Nat.eqb_neq.
        assert (Hxm : path g x m) by (apply path_edge; assumption).
        assert (H2 : 2 <= length (sccOf g R x)); [| lia].
        unfold sccOf. apply (filter_length_two _ R x m).
        -- congruence.
        -- apply HR. assumption.
        -- apply HR. right. apply (reaches_path g _ x m Hx Hxm).
        -- apply andb_true_iff. split; apply memb_In, reachable_self.
        -- apply andb_true_iff. split; apply memb_In;
             apply reachable_complete; assumption.
  - intros H. apply not_true_is_false. intros Hex.
    apply existsb_exists in Hex. destruct Hex as [n [Hn Hbad]].
    apply HR in Hn as Hreach. specialize (H n Hreach).
    apply orb_true_iff in Hbad. destruct Hbad as [Hbad | Hbad].
    + apply negb_true_iff in Hbad. apply Nat.eqb_neq in Hbad. apply Hbad.
      unfold sccOf. rewrite filter_ext_in with (g := fun m => m =? n).
      * apply filter_eqb_length; assumption.
      * intros m Hm. destruct (m =? n) eqn:E.
        -- apply Nat.eqb_eq in E. subst m.
           apply andb_true_iff. split; apply memb_In, reachable_self.
        -- apply Nat.eqb_neq in E. apply not_true_is_false. intros Hc.
           apply andb_true_iff in Hc. destruct Hc as [H1 H2].
           apply memb_In in H1, H2. apply reachable_sound in H1, H2.
           destruct H1 as [H1 | H1]; [contradiction |].
           destruct H2 as [H2 | H2]; [congruence |].
           apply H. apply (path_trans g n m n); assumption.
    + apply memb_In in Hbad. apply edge_successorsOf in Hbad.
      apply H. apply path_edge. assumption.
Qed.

Lemma isDAG_iff_no_reachable_cycle_witness :
  path sideCycle 2 2 /\ isDAG sideCycle = Some true
  /\ (isDAG sideCycle = Some true <->
      In (EntryNode sideCycle) (nodes sideCycle)
      /\ forall x, reaches sideCycle (EntryNode sideCycle) x ->
                   ~ path sideCycle x x).
Proof.
  split; [| split].
  - apply (path_step sideCycle 2 3 2).
    + exists (block 2 1 [3]). simpl. tauto.
    + apply path_edge. exists (block 3 1 [2]). simpl. tauto.
  - vm_compute. reflexivity.
  - apply (isDAG_iff_no_reachable_cycle sideCycle). distinct_ids.
Defined.

End DAGTheorems.

(** ** [getInterestingNodes] *)

Module InterestingTheorems.
Import CFG Props Examples GraphFacts.

(** X25.  With a traversal that visits no node twice, what
    [getInterestingNodes] returns has no node twice and holds exactly the
    nodes found between the conditional and its immediate postdominator
    that the conditional does not dominate; the entry reaches all of them,
    and they are listed in the reverse of the traversal order, whatever the
    order of the candidate set. *)
Theorem getInterestingNodes_not_dominated (A : Analyses)
  (DT PDT g : RegionCFG) (Cond : NodeId) (Result : list NodeId) :
  NoDup (@RPOT A g) ->
  @getInterestingNodes A DT PDT g Cond = Some Result ->
  exists PostDominator,
    @postDominator A PDT Cond = Some PostDominator
    /\ NoDup Result
    /\ (forall x, In x Result <->
          In x (@findReachableNodes A g Cond PostDominator)
          /\ @dominates A DT Cond x = false)
    /\ incl Result (@RPOT A g)
    /\ Result = filter (fun x => memb x Result) (rev (@RPOT A g)).
Proof.
  intros HN H. unfold getInterestingNodes in H.
  inv_bind H as pd Hpd. exists pd. split; [exact Hpd |].
  unfold orderNodes in H.
  set (L := notDominatedNodes DT Cond
              (nodup Nat.eq_dec (findReachableNodes g Cond pd))) in *.
  inv_bind H as u Hu. inversion H as [HR]; clear H.
  apply assert_Some, Nat.eqb_eq in Hu. rewrite HR in Hu.
  assert (HL : forall x, In x L <->
            In x (findReachableNodes g Cond pd) /\ dominates DT Cond x = false).
  { intros x. unfold L, notDominatedNodes. rewrite filter_In, nodup_In.
    rewrite negb_true_iff. reflexivity. }
  assert (HLN : NoDup L).
  { unfold L, notDominatedNodes. apply NoDup_filter, NoDup_nodup. }
  assert (HRN : NoDup Result).
  { rewrite <- HR. apply NoDup_filter, NoDup_rev. assumption. }
  assert (HRL : forall x, In x Result -> In x L /\ In x (RPOT g)).
  { intros x Hx. rewrite <- HR in Hx. apply filter_In in Hx.
    destruct Hx as [Hx Hm]. apply memb_In in Hm. apply in_rev in Hx. auto. }
  assert (HLR : incl L Result).
  { apply NoDup_length_incl; [assumption | lia |].
    intros x Hx. apply (HRL x Hx). }
  rewrite HR. split; [assumption |]. split; [| split].
  - intros x. rewrite <- HL. split; [apply HRL | apply HLR].
  - intros x Hx. apply (HRL x Hx).
  - rewrite <- HR at 1. apply filter_ext_in. intros x Hx.
    destruct (memb x L) eqn:E1; destruct (memb x Result) eqn:E2;
      try reflexivity.
    + apply memb_In, HLR, memb_In in E1. congruence.
    + apply memb_In, HRL in E2. destruct E2 as [E2 _].
      apply memb_In in E2. congruence.
Qed.

Lemma getInterestingNodes_not_dominated_witness :
  @getInterestingNodes Reference.analyses doubleDiamondSunk doubleDiamondSunk
    doubleDiamondSunk 1 = Some [5; 3; 4]
  /\ exists PostDominator,
       @postDominator Reference.analyses doubleDiamondSunk 1
       = Some PostDominator
       /\ NoDup [5; 3; 4].
Proof.
  assert (H : @getInterestingNodes Reference.analyses doubleDiamondSunk
                doubleDiamondSunk doubleDiamondSunk 1 = Some [5; 3; 4]).
  { vm_compute. reflexivity. }
  split; [exact H |].
  destruct (getInterestingNodes_not_dominated Reference.analyses
              doubleDiamondSunk doubleDiamondSunk doubleDiamondSunk 1
              [5; 3; 4]) as [pd [H1 [H2 _]]].
  - vm_compute. repeat (constructor; [simpl; intuition discriminate |]).
    constructor.
  - exact H.
  - exists pd. auto.
Defined.

End InterestingTheorems.
